(** * TXML/TSS renderer: markup parser, stylesheet parser, widget walk

    A shallow embedding of the TypeScript sources [xml-parser.ts],
    [tss-parser.ts], [jsx-runtime.ts], [widget-renderers.ts] and
    [renderer.ts], with the properties of the specification stated over it.

    Conventions of the embedding.
    - A JavaScript string is a [list ascii]: a sequence of code units, here
      restricted to the code units below 256.
    - Both parsers keep a forward cursor [pos] into a fixed text and never
      move it backwards.  The pair (text, pos) is represented by the unread
      suffix of the text: [xml[pos]] is the head of the suffix,
      [pos < xml.length] says the suffix is non-empty,
      [xml.startsWith(e, pos)] is a prefix test, and
      [xml.slice(start, pos)] is the list of characters consumed since
      [start].  The [line] and [column] counters are kept as in the source.
    - A [throw] is the [Throw] outcome of a [result]; loops whose termination
      is not structural take a fuel argument and yield [OutOfFuel] when it
      runs out.
    - [console.warn] diagnostics of the two parsers influence no control
      flow and are not recorded. *)

From Stdlib Require Import Ascii String NArith ZArith.
From stdpp Require Import base option list gmap strings.

Local Open Scope list_scope.

(** ** Strings *)

Abbreviation jsstring := (list ascii) (only parsing).

Definition lit (s : string) : list ascii := list_ascii_of_string s.

Definition code (ch : ascii) : N := N_of_ascii ch.

(** The regular expression [/\s/] on code units below 256: TAB, LF, VT, FF,
    CR, SPACE and NO-BREAK SPACE.  [String.prototype.trim] strips the same
    class. *)
Definition is_space (ch : ascii) : bool :=
  ((9 <=? code ch) && (code ch <=? 13) || (code ch =? 32) || (code ch =? 160))%N.

(** [/[a-zA-Z]/] *)
Definition is_letter (ch : ascii) : bool :=
  ((97 <=? code ch) && (code ch <=? 122) || (65 <=? code ch) && (code ch <=? 90))%N.

(** [/[a-zA-Z0-9_-]/] *)
Definition is_name_char (ch : ascii) : bool :=
  (is_letter ch || (48 <=? code ch) && (code ch <=? 57)
   || (code ch =? 95) || (code ch =? 45))%N.

Definition newline : ascii := "010"%char.

Definition char_eqb (a b : ascii) : bool := Ascii.eqb a b.

Fixpoint starts_with (expected s : list ascii) : bool :=
  match expected, s with
  | [], _ => true
  | e :: expected', ch :: s' => char_eqb e ch && starts_with expected' s'
  | _ :: _, [] => false
  end.

Fixpoint drop_spaces (s : list ascii) : list ascii :=
  match s with
  | ch :: s' => if is_space ch then drop_spaces s' else s
  | [] => []
  end.

(** [s.trim()] *)
Definition trim (s : list ascii) : list ascii :=
  rev (drop_spaces (rev (drop_spaces s))).

(** JavaScript truthiness of a string: non-empty. *)
Definition truthy (s : list ascii) : bool :=
  match s with [] => false | _ :: _ => true end.

Fixpoint join (sep : list ascii) (parts : list (list ascii)) : list ascii :=
  match parts with
  | [] => []
  | [p] => p
  | p :: ps => p ++ sep ++ join sep ps
  end.

(** ** Outcomes *)

Inductive result (E A : Type) : Type :=
| Ok (a : A)
| Throw (e : E)
| OutOfFuel.
Arguments Ok {E A} a.
Arguments Throw {E A} e.
Arguments OutOfFuel {E A}.

Definition bind {E A B} (r : result E A) (k : A -> result E B) : result E B :=
  match r with
  | Ok a => k a
  | Throw e => Throw e
  | OutOfFuel => OutOfFuel
  end.

Notation "'try' x <- r ; k" := (bind r (fun x => k))
  (at level 10, x pattern, r at level 100, k at level 200).

(** ** The cursor shared by both parsers *)

Record cursor : Type := Cursor {
  rest : list ascii;
  line : nat;
  column : nat
}.

Definition start_of (text : list ascii) : cursor := Cursor text 1 1.

(** [while (pos < len && test(text[pos])) { pos++; column++; }], returning
    the consumed slice. *)
Fixpoint scan_column (test : ascii -> bool) (s : list ascii) (ln col : nat)
  : list ascii * cursor :=
  match s with
  | ch :: s' =>
      if test ch then
        let '(taken, c) := scan_column test s' ln (S col) in (ch :: taken, c)
      else ([], Cursor s ln col)
  | [] => ([], Cursor [] ln col)
  end.

(** The same loop with the newline bookkeeping:
    [if (text[pos] === '\n') { line++; column = 1; } else { column++; } pos++;] *)
Fixpoint scan_lines (test : ascii -> bool) (s : list ascii) (ln col : nat)
  : list ascii * cursor :=
  match s with
  | ch :: s' =>
      if test ch then
        let '(taken, c) :=
          if char_eqb ch newline then scan_lines test s' (S ln) 1
          else scan_lines test s' ln (S col) in
        (ch :: taken, c)
      else ([], Cursor s ln col)
  | [] => ([], Cursor [] ln col)
  end.

Definition skipWhitespace (c : cursor) : cursor :=
  snd (scan_lines is_space (rest c) (line c) (column c)).

(** [consume(expected)]: [None] is the [false] return, the cursor unchanged. *)
Definition consume (expected : list ascii) (c : cursor) : option cursor :=
  if starts_with expected (rest c)
  then Some (Cursor (drop (length expected) (rest c)) (line c)
                    (column c + length expected))
  else None.

(** ** Markup parser ([xml-parser.ts]) *)

Module TXML.

Record ParseError : Type := TXMLParseError {
  message : list ascii;
  error_line : nat;
  error_column : nat
}.

Definition raise {A} (msg : list ascii) (c : cursor) : result ParseError A :=
  Throw (TXMLParseError msg (line c) (column c)).

(** [Record<string, string>]: own properties in insertion order.  The
    enumeration order of integer-like keys, which JavaScript lists first, is
    not modelled; statements that depend on the order exclude such keys. *)
Abbreviation attrs := (list (list ascii * list ascii)) (only parsing).

Definition proto_key : list ascii := lit "__proto__".

Fixpoint assoc_update (k v : list ascii) (o : attrs) : option attrs :=
  match o with
  | [] => None
  | (k', v') :: o' =>
      if decide (k' = k) then Some ((k', v) :: o')
      else option_map (cons (k', v')) (assoc_update k v o')
  end.

(** [o[k] = v] on an object literal.  Assigning a string to [__proto__]
    goes to the inherited setter, which ignores values that are not
    objects: no own property is created. *)
Definition obj_set (k v : list ascii) (o : attrs) : attrs :=
  if decide (k = proto_key) then o
  else match assoc_update k v o with
       | Some o' => o'
       | None => o ++ [(k, v)]
       end.

Inductive TXMLElement : Type :=
| Element (tag : list ascii) (attributes : attrs) (children : list Child)
with Child : Type :=
| ChildElement (e : TXMLElement)
| ChildText (s : list ascii).

Definition tag (e : TXMLElement) : list ascii :=
  match e with Element t _ _ => t end.
Definition attributes (e : TXMLElement) : attrs :=
  match e with Element _ a _ => a end.
Definition children (e : TXMLElement) : list Child :=
  match e with Element _ _ cs => cs end.

Definition parseTagName (c : cursor) : list ascii * cursor :=
  scan_column is_name_char (rest c) (line c) (column c).

Definition parseAttributeName (c : cursor) : list ascii * cursor :=
  scan_column is_name_char (rest c) (line c) (column c).

Definition dquote : ascii := "034"%char.
Definition squote : ascii := "'"%char.

Definition parseAttributeValue (c : cursor)
  : result ParseError (list ascii * cursor) :=
  let opened :=
    match consume [dquote] c with
    | Some c1 => Some (dquote, c1)
    | None => match consume [squote] c with
              | Some c1 => Some (squote, c1)
              | None => None
              end
    end in
  match opened with
  | None => raise (lit "Expected quoted attribute value") c
  | Some (quote, c1) =>
      let '(value, c2) :=
        scan_lines (fun ch => negb (char_eqb ch quote))
                   (rest c1) (line c1) (column c1) in
      match consume [quote] c2 with
      | None => raise (lit "Unclosed attribute value") c2
      | Some c3 => Ok (value, c3)
      end
  end.

Definition loop_guard_attributes (c : cursor) : bool :=
  match rest c with
  | ch :: _ => negb (char_eqb ch ">") && negb (char_eqb ch "/")
  | [] => false
  end.

Fixpoint parseAttributes_loop (fuel : nat) (attributes : attrs) (c : cursor)
  : result ParseError (attrs * cursor) :=
  if loop_guard_attributes c then
    match fuel with
    | 0 => OutOfFuel
    | S fuel' =>
        let '(name, c1) := parseAttributeName c in
        match consume (lit "=") c1 with
        | None => raise (lit "Expected = after attribute name") c1
        | Some c2 =>
            try (value, c3) <- parseAttributeValue c2;
            parseAttributes_loop fuel' (obj_set name value attributes)
                                 (skipWhitespace c3)
        end
    end
  else Ok (attributes, c).

(** An iteration consumes at least the [=] and the two quotes, so the number
    of unread characters is enough fuel. *)
Definition parseAttributes (c : cursor) : result ParseError (attrs * cursor) :=
  parseAttributes_loop (length (rest c)) [] (skipWhitespace c).

Definition parseText (c : cursor) : list ascii * cursor :=
  scan_lines (fun ch => negb (char_eqb ch "<")) (rest c) (line c) (column c).

(** The search loop of [skipComment], entered after the four characters of
    the opening delimiter have been skipped. *)
Fixpoint skipComment_loop (s : list ascii) (ln col : nat) : cursor :=
  match s with
  | ch :: s' =>
      if starts_with (lit "-->") s
      then Cursor (drop 3 s) ln (col + 3)
      else if char_eqb ch newline then skipComment_loop s' (S ln) 1
           else skipComment_loop s' ln (S col)
  | [] => Cursor [] ln col
  end.

Definition skipComment (c : cursor) : cursor :=
  skipComment_loop (drop 4 (rest c)) (line c) (column c + 4).

Definition head_is (ch : ascii) (c : cursor) : bool :=
  match rest c with
  | ch' :: _ => char_eqb ch' ch
  | [] => false
  end.

Fixpoint parseElement (fuel : nat) (c : cursor)
  : result ParseError (TXMLElement * cursor) :=
  match fuel with
  | 0 => OutOfFuel
  | S fuel' =>
      match consume (lit "<") c with
      | None => raise (lit "Expected <") c
      | Some c1 =>
          let '(tag, c2) := parseTagName c1 in
          try (attributes, c3) <- parseAttributes c2;
          match consume (lit "/>") c3 with
          | Some c4 => Ok (Element tag attributes [], c4)
          | None =>
              match consume (lit ">") c3 with
              | None => raise (lit "Expected > or />") c3
              | Some c4 =>
                  try (children, c5) <- parseChildren_loop fuel' [] c4;
                  match consume (lit "</") c5 with
                  | None => raise (lit "Expected closing tag") c5
                  | Some c6 =>
                      let '(closingTag, c7) := parseTagName c6 in
                      if decide (closingTag = tag) then
                        match consume (lit ">") c7 with
                        | None => raise (lit "Expected > in closing tag") c7
                        | Some c8 => Ok (Element tag attributes children, c8)
                        end
                      else
                        raise (lit "Mismatched closing tag: expected </" ++ tag
                               ++ lit "> but found </" ++ closingTag ++ lit ">") c7
                  end
              end
          end
      end
  end

(** The [while (this.pos < this.xml.length)] loop of [parseChildren]; the
    array under construction is the accumulator. *)
with parseChildren_loop (fuel : nat) (children : list Child) (c : cursor)
  : result ParseError (list Child * cursor) :=
  match rest c with
  | [] => Ok (children, c)
  | _ :: _ =>
      match fuel with
      | 0 => OutOfFuel
      | S fuel' =>
          let c1 := skipWhitespace c in
          if starts_with (lit "</") (rest c1) then Ok (children, c1)
          else if head_is "<" c1 then
            if starts_with (lit "<!--") (rest c1)
            then parseChildren_loop fuel' children (skipComment c1)
            else
              try (child, c2) <- parseElement fuel' c1;
              parseChildren_loop fuel' (children ++ [ChildElement child]) c2
          else
            let '(text, c2) := parseText c1 in
            parseChildren_loop fuel'
              (if truthy (trim text) then children ++ [ChildText text]
               else children) c2
      end
  end.

Definition parseChildren (fuel : nat) (c : cursor) := parseChildren_loop fuel [] c.

(** [parse()] with the text given to the constructor.  Each loop iteration
    and each nested element consumes a character, so the length of the
    trimmed text plus one is enough fuel (see [parse_total]). *)
Definition parse (xml : list ascii) : result ParseError TXMLElement :=
  let xml := trim xml in
  let c := skipWhitespace (start_of xml) in
  if negb (head_is "<" c) then
    raise (lit "Expected XML document to start with <") c
  else
    try (root, c1) <- parseElement (S (length xml)) c;
    if decide (tag root = lit "App") then
      let c2 := skipWhitespace c1 in
      if truthy (rest c2)
      then raise (lit "Unexpected content after root element") c2
      else Ok root
    else raise (lit "Root element must be <App>") c1.

Definition parseTXML (xml : list ascii) : result ParseError TXMLElement :=
  parse xml.

End TXML.


(** ** Stylesheet parser ([tss-parser.ts]) *)

Module TSS.

Record ParseError : Type := TSSParseError {
  message : list ascii;
  error_line : nat;
  error_column : nat
}.

Definition raise {A} (msg : list ascii) (c : cursor) : result ParseError A :=
  Throw (TSSParseError msg (line c) (column c)).

Record TSSRule : Type := Rule {
  selector : list ascii;
  properties : list (list ascii * list ascii);
  specificity : nat
}.

Record TSSVariable : Type := Variable_ {
  name : list ascii;
  value : list ascii
}.

Record TSSStylesheet : Type := Stylesheet {
  variables : gmap (list ascii) (list ascii);
  rules : list TSSRule
}.

Definition head_is (ch : ascii) (c : cursor) : bool :=
  match rest c with
  | ch' :: _ => char_eqb ch' ch
  | [] => false
  end.

Definition parseIdentifier (c : cursor) : list ascii * cursor :=
  scan_column is_name_char (rest c) (line c) (column c).

Definition is_quote (ch : ascii) : bool :=
  char_eqb ch TXML.dquote || char_eqb ch TXML.squote.

Definition unquoted_char (ch : ascii) : bool :=
  negb (char_eqb ch ";") && negb (char_eqb ch "}") && negb (is_space ch).

(** [parseValue].  In the quoted branch the returned slice is
    [slice(start + 1, pos - 1)]: when the closing quote is missing, [pos]
    stops at the end of the text and the slice loses the last character. *)
Definition parseValue (c : cursor) : list ascii * cursor :=
  match rest c with
  | quote :: s' =>
      if is_quote quote then
        let '(body, c1) :=
          scan_lines (fun ch => negb (char_eqb ch quote)) s' (line c) (S (column c)) in
        match rest c1 with
        | _ :: s'' => (body, Cursor s'' (line c1) (S (column c1)))
        | [] => (removelast body, c1)
        end
      else
        let '(taken, c1) := scan_column unquoted_char (rest c) (line c) (column c) in
        (trim taken, c1)
  | [] => ([], c)
  end.

Definition parseSelector (c : cursor) : list ascii * cursor :=
  let '(taken, c1) :=
    scan_column (fun ch => negb (char_eqb ch "{")) (rest c) (line c) (column c) in
  (trim taken, c1).

(** [selector.split(/\s+/)]: [gap] tells that the previous character
    belonged to a separator. *)
Fixpoint split_spaces (gap : bool) (s : list ascii) : list (list ascii) :=
  match s with
  | [] => [[]]
  | ch :: s' =>
      if is_space ch then
        if gap then split_spaces true s' else [] :: split_spaces true s'
      else
        match split_spaces false s' with
        | part :: parts => (ch :: part) :: parts
        | [] => [[ch]]
        end
  end.

Definition starts_with_char (test : ascii -> bool) (part : list ascii) : bool :=
  match part with
  | ch :: _ => test ch
  | [] => false
  end.

Definition calculateSpecificity (selector : list ascii) : nat :=
  let parts := split_spaces false selector in
  fold_left
    (fun specificity part =>
       if starts_with_char (char_eqb "#") part then specificity + 100
       else if starts_with_char (char_eqb ".") part then specificity + 10
       else if starts_with_char is_letter part then specificity + 1
       else specificity)
    parts 0.

Definition properties_guard (c : cursor) : bool :=
  match rest c with
  | ch :: _ => negb (char_eqb ch "}")
  | [] => false
  end.

Fixpoint parseProperties_loop (fuel : nat)
    (properties : list (list ascii * list ascii)) (c : cursor)
  : result ParseError (list (list ascii * list ascii) * cursor) :=
  if properties_guard c then
    match fuel with
    | 0 => OutOfFuel
    | S fuel' =>
        let c1 := skipWhitespace c in
        if head_is "}" c1 then Ok (properties, c1)
        else
          let '(name, c2) := parseIdentifier c1 in
          match consume (lit ":") c2 with
          | None => raise (lit "Expected : after property name") c2
          | Some c3 =>
              let '(value, c4) := parseValue (skipWhitespace c3) in
              match consume (lit ";") c4 with
              | None => raise (lit "Expected ; after property value") c4
              | Some c5 =>
                  parseProperties_loop fuel'
                    (TXML.obj_set name value properties) (skipWhitespace c5)
              end
          end
    end
  else Ok (properties, c).

(** Every iteration of the loop consumes the [:] and the [;] it requires, so
    the number of unread characters bounds the number of iterations. *)
Definition parseProperties (c : cursor) :=
  parseProperties_loop (length (rest c)) [] c.

Definition parseVariable (c : cursor) : result ParseError (TSSVariable * cursor) :=
  match consume (lit "--") c with
  | None => raise (lit "Expected -- for CSS variable") c
  | Some c1 =>
      let '(name, c2) := parseIdentifier c1 in
      match consume (lit ":") c2 with
      | None => raise (lit "Expected : after variable name") c2
      | Some c3 =>
          let '(value, c4) := parseValue (skipWhitespace c3) in
          match consume (lit ";") c4 with
          | None => raise (lit "Expected ; after variable value") c4
          | Some c5 => Ok (Variable_ name value, c5)
          end
      end
  end.

Definition or_same (c : cursor) (o : option cursor) : cursor :=
  match o with Some c' => c' | None => c end.

Fixpoint parseRootVariables_loop (fuel : nat)
    (variables : gmap (list ascii) (list ascii)) (c : cursor)
  : result ParseError (gmap (list ascii) (list ascii) * cursor) :=
  if properties_guard c then
    match fuel with
    | 0 => OutOfFuel
    | S fuel' =>
        let c1 := skipWhitespace c in
        if head_is "}" c1 then Ok (variables, c1)
        else if starts_with (lit "--") (rest c1) then
          try (variable, c2) <- parseVariable c1;
          parseRootVariables_loop fuel'
            (<[name variable := value variable]> variables) (skipWhitespace c2)
        else
          let '(_, c2) := parseIdentifier c1 in
          let c3 := or_same c2 (consume (lit ":") c2) in
          let '(_, c4) := parseValue c3 in
          let c5 := or_same c4 (consume (lit ";") c4) in
          parseRootVariables_loop fuel' variables (skipWhitespace c5)
    end
  else Ok (variables, c).

Definition parseRootVariables (variables : gmap (list ascii) (list ascii))
    (c : cursor) : result ParseError (gmap (list ascii) (list ascii) * cursor) :=
  let c1 := skipWhitespace (Cursor (drop 5 (rest c)) (line c) (column c + 5)) in
  match consume (lit "{") c1 with
  | None => raise (lit "Expected { after :root") c1
  | Some c2 =>
      try (variables', c3) <- parseRootVariables_loop (length (rest c2)) variables c2;
      match consume (lit "}") c3 with
      | None => raise (lit "Expected } after :root block") c3
      | Some c4 => Ok (variables', c4)
      end
  end.

(** The block-skipping loop of [parseAtRule]. *)
Fixpoint skipBlock (depth : nat) (s : list ascii) (ln col : nat) : cursor :=
  match s with
  | ch :: s' =>
      match depth with
      | 0 => Cursor s ln col
      | S below =>
          let depth' := if char_eqb ch "{" then S depth
                        else if char_eqb ch "}" then below else depth in
          if char_eqb ch newline then skipBlock depth' s' (S ln) 1
          else skipBlock depth' s' ln (S col)
      end
  | [] => Cursor [] ln col
  end.

Definition parseAtRule (c : cursor) : cursor :=
  let '(_, c1) :=
    scan_column (fun ch => negb (char_eqb ch ";") && negb (char_eqb ch "{"))
                (rest c) (line c) (column c) in
  match rest c1 with
  | ch :: s' =>
      if char_eqb ch "{" then skipBlock 1 s' (line c1) (S (column c1))
      else
        let '(_, c2) :=
          scan_column (fun ch => negb (char_eqb ch ";"))
                      (rest c1) (line c1) (column c1) in
        match rest c2 with
        | _ :: s'' => Cursor s'' (line c2) (S (column c2))
        | [] => c2
        end
  | [] => c1
  end.

(** [parseRule]: [None] is the [null] returned for an empty selector. *)
Definition parseRule (c : cursor) : result ParseError (option TSSRule * cursor) :=
  let '(selector, c1) := parseSelector c in
  if negb (truthy selector) then Ok (None, c1)
  else
    match consume (lit "{") c1 with
    | None => raise (lit "Expected { after selector") c1
    | Some c2 =>
        try (properties, c3) <- parseProperties c2;
        match consume (lit "}") c3 with
        | None => raise (lit "Expected } after properties") c3
        | Some c4 =>
            Ok (Some (Rule selector properties (calculateSpecificity selector)), c4)
        end
    end.

Record parser_state : Type := ParserState {
  ps_variables : gmap (list ascii) (list ascii);
  ps_rules : list TSSRule;
  ps_cursor : cursor
}.

(** The body of the [while (this.pos < this.tss.length)] loop of [parse]. *)
Definition parse_body (st : parser_state) : result ParseError parser_state :=
  let c := ps_cursor st in
  if starts_with (lit ":root") (rest c) then
    try (variables', c1) <- parseRootVariables (ps_variables st) c;
    Ok (ParserState variables' (ps_rules st) (skipWhitespace c1))
  else if head_is "@" c then
    Ok (ParserState (ps_variables st) (ps_rules st) (skipWhitespace (parseAtRule c)))
  else
    try (rule, c1) <- parseRule c;
    Ok (ParserState (ps_variables st)
          (match rule with Some r => ps_rules st ++ [r] | None => ps_rules st end)
          (skipWhitespace c1)).

Fixpoint parse_loop (fuel : nat) (st : parser_state)
  : result ParseError TSSStylesheet :=
  match rest (ps_cursor st) with
  | [] => Ok (Stylesheet (ps_variables st) (ps_rules st))
  | _ :: _ =>
      match fuel with
      | 0 => OutOfFuel
      | S fuel' => try st' <- parse_body st; parse_loop fuel' st'
      end
  end.

Definition initial_state (tss : list ascii) : parser_state :=
  ParserState ∅ [] (skipWhitespace (start_of tss)).

(** [parse()]; [fuel] bounds the number of iterations of the top-level loop. *)
Definition parse (fuel : nat) (tss : list ascii) : result ParseError TSSStylesheet :=
  parse_loop fuel (initial_state tss).

Definition parseTSS (fuel : nat) (tss : list ascii) := parse fuel tss.

End TSS.

(** ** JSX runtime ([jsx-runtime.ts]) *)

Module JSX.
Import TXML.

(** The values the factory is applied to: [undefined], [null], strings and
    elements, alone or in an array ([children] is typed
    [(TXMLElement | string)[]]). *)
Inductive js_atom : Type :=
| AUndefined
| ANull
| AString (s : list ascii)
| AElement (e : TXMLElement).

Inductive js_value : Type :=
| Atom (a : js_atom)
| Array (items : list js_atom).

(** [child !== null && child !== undefined] *)
Definition child_of (a : js_atom) : option Child :=
  match a with
  | AUndefined | ANull => None
  | AString s => Some (ChildText s)
  | AElement e => Some (ChildElement e)
  end.

Definition pushed (v : js_value) : list Child :=
  match v with
  | Array items => omap child_of items
  | Atom a => match child_of a with Some ch => [ch] | None => [] end
  end.

Definition atom_String (nullish : list ascii -> list ascii) (a : js_atom) : list ascii :=
  match a with
  | AUndefined => nullish (lit "undefined")
  | ANull => nullish (lit "null")
  | AString s => s
  | AElement _ => lit "[object Object]"
  end.

(** [String(value)]; array elements that are [null] or [undefined] print as
    the empty string. *)
Definition to_String (v : js_value) : list ascii :=
  match v with
  | Atom a => atom_String (fun s => s) a
  | Array items => join (lit ",") (map (atom_String (fun _ => [])) items)
  end.

Fixpoint get_property (k : list ascii) (o : list (list ascii * js_value)) : js_value :=
  match o with
  | [] => Atom AUndefined
  | (k', v) :: o' => if decide (k' = k) then v else get_property k o'
  end.

Definition is_undefined (v : js_value) : bool :=
  match v with Atom AUndefined => true | _ => false end.

(** [jsx(type, props, key)].  [props] is [None] for [null]; otherwise it is
    the list of own properties of the object, as [Object.entries] yields
    them. *)
Definition jsx (type : list ascii) (props : option (list (list ascii * js_value)))
    (key : js_value) : TXMLElement :=
  let children :=
    match props with
    | Some o =>
        if negb (is_undefined (get_property (lit "children") o))
        then pushed (get_property (lit "children") o)
        else pushed key
    | None => pushed key
    end in
  let attributes :=
    match props with
    | Some o =>
        fold_left
          (fun attributes '(key, value) =>
             if decide (key = lit "children") then attributes
             else if decide (key = lit "key") then attributes
             else obj_set key (to_String value) attributes)
          o []
    | None => []
    end in
  Element type attributes children.

Definition jsxs (type : list ascii) (props : option (list (list ascii * js_value)))
    (_key : js_value) : TXMLElement :=
  jsx type props _key.

(** [s.replace(/ch/g, by)] *)
Definition replace_all (ch : ascii) (by_ : list ascii) (s : list ascii) : list ascii :=
  flat_map (fun ch' => if char_eqb ch' ch then by_ else [ch']) s.

Definition escape (value : list ascii) : list ascii :=
  replace_all ">" (lit "&gt;")
    (replace_all "<" (lit "&lt;")
       (replace_all squote (lit "&#39;")
          (replace_all dquote (lit "&quot;")
             (replace_all "&" (lit "&amp;") value)))).

Definition attr_text (kv : list ascii * list ascii) : list ascii :=
  fst kv ++ lit "=" ++ [dquote] ++ escape (snd kv) ++ [dquote].

Definition attrs_text (attributes : attrs) : list ascii :=
  let attrsStr := join (lit " ") (map attr_text attributes) in
  if truthy attrsStr then lit " " ++ attrsStr else [].

Fixpoint jsxToTXML (element : TXMLElement) : list ascii :=
  match element with
  | Element tag attributes children =>
      let childrenStr :=
        concat (map (fun child =>
                       match child with
                       | ChildText s => s
                       | ChildElement e => jsxToTXML e
                       end) children) in
      match children with
      | [] => lit "<" ++ tag ++ attrs_text attributes ++ lit " />"
      | _ :: _ =>
          lit "<" ++ tag ++ attrs_text attributes ++ lit ">" ++ childrenStr
          ++ lit "</" ++ tag ++ lit ">"
      end
  end.

End JSX.

(** ** Widget renderers ([widget-renderers.ts]) *)

Module Widgets.
Import TXML.

Section Walk.

(** JavaScript numbers are IEEE doubles; the walk only passes them around. *)
Context {number : Type}.
Variable parseFloat : list ascii -> number.
Variable number_truthy : number -> bool.
Variable one_half two_hundred buffer_size : number.

(** What a callback or the GUI binding may throw, and the state of the
    application, which the registered callbacks act on. *)
Context {host_error : Type} {application : Type}.

(** [WidgetState.value : any] *)
Inductive js_any : Type :=
| VUndefined
| VString (s : list ascii)
| VNumber (n : number)
| VBoolean (b : bool).

Definition any_truthy (v : js_any) : bool :=
  match v with
  | VUndefined => false
  | VString s => truthy s
  | VNumber n => number_truthy n
  | VBoolean b => b
  end.

(** [v || fallback] *)
Definition or_else (v fallback : js_any) : js_any :=
  if any_truthy v then v else fallback.

Record WidgetState : Type := MkWidgetState {
  id : list ascii;
  value : js_any;
  lastFrame : nat
}.

(** [callback] is code of the host.  It acts on the state of the
    application and, through the renderer ([getState], [clearState],
    [registerEventHandler]), on the two [Map]s the context refers to: it is
    given the retained states and leaves the retained states it wants, and
    it leaves the changes of the handler [Map], a name set to a handler or
    deleted, in the order it made them.  Calls of the binding that a
    callback makes on its own are not calls of the walk, and [calls] does
    not list them. *)
Unset Elimination Schemes.
Inductive EventHandler : Type := MkEventHandler {
  handler_name : list ascii;
  callback :
    application -> gmap (list ascii) WidgetState ->
    result host_error
      (application * gmap (list ascii) WidgetState
       * list (list ascii * option EventHandler))
}.
Set Elimination Schemes.

Inductive style_type : Type := TColor | TNumber | TString | TBoolean.

Record StyleValue : Type := MkStyleValue {
  type : style_type;
  style_value : js_any
}.

(** [context.currentPath] holds a reference to an array; the arrays live in
    [arrays] of the [World] below. *)
Record RenderContext : Type := MkRenderContext {
  state : gmap (list ascii) WidgetState;
  eventHandlers : gmap (list ascii) EventHandler;
  stylesheet : TSS.TSSStylesheet;
  frameNumber : nat;
  currentPath : nat
}.

(** Calls into the GUI binding, with their arguments. *)
Inductive ImGuiCall : Type :=
| Begin (title : list ascii)
| End_
| Text (text : list ascii)
| TextColored (color : js_any) (text : list ascii)
| Button (text : list ascii)
| SetNextItemWidth (width : js_any)
| SetNextWindowSize (width height : js_any)
| InputTextWithHint (label hint : list ascii) (buffer : js_any) (size : number)
| SliderFloat (label : list ascii) (v : js_any) (min max : number)
| Checkbox (label : list ascii) (checked : js_any)
| SameLine (offset spacing : number)
| Spacing
| Separator.

(** The answer of the binding: the returned boolean and, for
    [InputTextWithHint], the content of the one-element buffer array after
    the call. *)
Inductive ImGuiReply : Type :=
| Returned (b : bool) (buffer : js_any)
| Raised (e : host_error).

(** The binding, given the calls made so far. *)
Variable imgui : list ImGuiCall -> ImGuiCall -> ImGuiReply.

Record World : Type := MkWorld {
  arrays : list (list (list ascii));
  calls : list ImGuiCall;
  app : application;
  warnings : list (list ascii)
}.

Definition walk : Type := RenderContext * World.

Definition ImGui (call : ImGuiCall) (w : World)
  : result host_error (bool * js_any * World) :=
  match imgui (calls w) call with
  | Returned b buffer =>
      Ok (b, buffer, MkWorld (arrays w) (calls w ++ [call]) (app w) (warnings w))
  | Raised e => Throw e
  end.

Definition warn (msg : list ascii) (w : World) : World :=
  MkWorld (arrays w) (calls w) (app w) (warnings w ++ [msg]).

(** The array [context.currentPath] refers to. *)
Definition path_of (s : walk) : list (list ascii) :=
  default [] (arrays (snd s) !! currentPath (fst s)).

Definition set_currentPath (ref : nat) (context : RenderContext) : RenderContext :=
  MkRenderContext (state context) (eventHandlers context) (stylesheet context)
                  (frameNumber context) ref.

Definition set_state (st : gmap (list ascii) WidgetState) (context : RenderContext)
  : RenderContext :=
  MkRenderContext st (eventHandlers context) (stylesheet context)
                  (frameNumber context) (currentPath context).

Definition set_eventHandlers (handlers : gmap (list ascii) EventHandler)
    (context : RenderContext) : RenderContext :=
  MkRenderContext (state context) handlers (stylesheet context)
                  (frameNumber context) (currentPath context).

(** One change a callback made to the handler [Map]. *)
Definition handler_change (handlers : gmap (list ascii) EventHandler)
    (change : list ascii * option EventHandler) : gmap (list ascii) EventHandler :=
  match change with
  | (name, Some handler) => <[name := handler]> handlers
  | (name, None) => delete name handlers
  end.

(** [attributes.name]: [None] is [undefined]. *)
Fixpoint attribute (k : list ascii) (o : list (list ascii * list ascii))
  : option (list ascii) :=
  match o with
  | [] => None
  | (k', v) :: o' => if decide (k' = k) then Some v else attribute k o'
  end.

(** [attributes.name || fallback] *)
Definition attribute_or (k fallback : list ascii) (element : TXMLElement) : list ascii :=
  match attribute k (attributes element) with
  | Some v => if truthy v then v else fallback
  | None => fallback
  end.

Definition getTextContent (element : TXMLElement) : list ascii :=
  trim (concat (omap (fun child => match child with
                                   | ChildText s => Some s
                                   | ChildElement _ => None
                                   end) (children element))).

(** The style engine is not consulted yet: the computed style is [{}]. *)
Definition getComputedStyle (_element : TXMLElement) (_context : RenderContext)
  : gmap (list ascii) StyleValue := ∅.

(** [style.p && style.p.type === t]; a [StyleValue] object is truthy. *)
Definition style_of_type (t : style_type) (p : list ascii)
    (style : gmap (list ascii) StyleValue) : option StyleValue :=
  match style !! p with
  | Some v => match type v, t with
              | TColor, TColor | TNumber, TNumber
              | TString, TString | TBoolean, TBoolean => Some v
              | _, _ => None
              end
  | None => None
  end.

Definition generateId (element : TXMLElement) (s : walk) : list ascii :=
  let path := path_of s ++ [tag element] in
  join (lit "/") path.

Definition handleEvent (eventName : list ascii) (s : walk) : result host_error walk :=
  let '(context, w) := s in
  match eventHandlers context !! eventName with
  | Some handler =>
      try (app', retained, changes) <- callback handler (app w) (state context);
      Ok (set_eventHandlers (fold_left handler_change changes (eventHandlers context))
            (set_state retained context),
          MkWorld (arrays w) (calls w) app' (warnings w))
  | None => Ok (context, warn (lit "No event handler found for: " ++ eventName) w)
  end.

Definition setNextItemWidth (element : TXMLElement) (s : walk) : result host_error walk :=
  let '(context, w) := s in
  match style_of_type TNumber (lit "width") (getComputedStyle element context) with
  | Some width =>
      try (_, _, w') <- ImGui (SetNextItemWidth (style_value width)) w; Ok (context, w')
  | None => Ok s
  end.

Definition renderText (element : TXMLElement) (s : walk) : result host_error walk :=
  let '(context, w) := s in
  let text := getTextContent element in
  match style_of_type TColor (lit "color") (getComputedStyle element context) with
  | Some color =>
      try (_, _, w') <- ImGui (TextColored (style_value color) text) w; Ok (context, w')
  | None => try (_, _, w') <- ImGui (Text text) w; Ok (context, w')
  end.

Definition renderButton (element : TXMLElement) (s : walk) : result host_error walk :=
  let text := getTextContent element in
  try (context, w) <- setNextItemWidth element s;
  try (clicked, _, w') <- ImGui (Button text) w;
  match attribute (lit "onClick") (attributes element) with
  | Some onClick =>
      if clicked && truthy onClick then handleEvent onClick (context, w')
      else Ok (context, w')
  | None => Ok (context, w')
  end.

(** [context.state.get(id) || { id, value, lastFrame: context.frameNumber }] *)
Definition state_or_new (id : list ascii) (initial : js_any) (context : RenderContext)
  : WidgetState :=
  match state context !! id with
  | Some st => st
  | None => MkWidgetState id initial (frameNumber context)
  end.

(** [state.value = v; state.lastFrame = context.frameNumber;
     context.state.set(id, state)] *)
Definition store (id_ : list ascii) (st : WidgetState) (v : js_any)
    (context : RenderContext) : RenderContext :=
  set_state (<[id_ := MkWidgetState (id st) v (frameNumber context)]> (state context))
            context.

Definition renderInputText (element : TXMLElement) (s : walk) : result host_error walk :=
  let id := generateId element s in
  let st := state_or_new id (VString []) (fst s) in
  let label := attribute_or (lit "label") [] element in
  let hint := attribute_or (lit "hint") [] element in
  try (context, w) <- setNextItemWidth element s;
  let value := or_else (value st) (VString []) in
  try (changed, buffer, w') <- ImGui (InputTextWithHint label hint value buffer_size) w;
  if changed then Ok (store id st buffer context, w')
  else Ok (context, w').

Definition renderSliderFloat (element : TXMLElement) (s : walk) : result host_error walk :=
  let id := generateId element s in
  let st := state_or_new id (VNumber one_half) (fst s) in
  let label := attribute_or (lit "label") [] element in
  let min := parseFloat (attribute_or (lit "min") (lit "0") element) in
  let max := parseFloat (attribute_or (lit "max") (lit "1") element) in
  try (context, w) <- setNextItemWidth element s;
  let value := or_else (value st) (VNumber one_half) in
  try (changed, _, w') <- ImGui (SliderFloat label value min max) w;
  if changed then Ok (store id st value context, w')
  else Ok (context, w').

Definition renderCheckbox (element : TXMLElement) (s : walk) : result host_error walk :=
  let '(context, w) := s in
  let id := generateId element s in
  let st := state_or_new id (VBoolean false) context in
  let label := attribute_or (lit "label") [] element in
  let checked := or_else (value st) (VBoolean false) in
  try (changed, _, w') <- ImGui (Checkbox label checked) w;
  if changed then Ok (store id st checked context, w')
  else Ok (context, w').

Definition renderSameLine (element : TXMLElement) (s : walk) : result host_error walk :=
  let '(context, w) := s in
  let offset := parseFloat (attribute_or (lit "offset") (lit "0") element) in
  let spacing := parseFloat (attribute_or (lit "spacing") (lit "-1") element) in
  try (_, _, w') <- ImGui (SameLine offset spacing) w; Ok (context, w').

Definition simple_call (call : ImGuiCall) (s : walk) : result host_error walk :=
  let '(context, w) := s in
  try (_, _, w') <- ImGui call w; Ok (context, w').

(** [const oldPath = [...context.currentPath]]: a new array with the same
    elements; the result is the reference to it. *)
Definition copy_path (s : walk) : nat * walk :=
  let '(context, w) := s in
  (length (arrays w),
   (context, MkWorld (arrays w ++ [path_of s]) (calls w) (app w) (warnings w))).

(** [context.currentPath.push(tag)]: the array itself is extended. *)
Definition push_path (tag : list ascii) (s : walk) : walk :=
  let '(context, w) := s in
  (context,
   MkWorld (<[currentPath context := path_of s ++ [tag]]> (arrays w))
           (calls w) (app w) (warnings w)).

(** The renderers registered by [setupRenderers]. *)
Inductive renderer : Type :=
| RApp | RHead | RBody | RWindow | RText | RButton | RInputText
| RSliderFloat | RCheckbox | RSameLine | RSpacing | RSeparator.

Definition renderers : list (list ascii * renderer) :=
  [ (lit "App", RApp); (lit "Head", RHead); (lit "Body", RBody);
    (lit "Window", RWindow); (lit "Text", RText); (lit "Button", RButton);
    (lit "InputText", RInputText); (lit "SliderFloat", RSliderFloat);
    (lit "Checkbox", RCheckbox); (lit "SameLine", RSameLine);
    (lit "Spacing", RSpacing); (lit "Separator", RSeparator) ].

Fixpoint renderers_get (tag : list ascii) (table : list (list ascii * renderer))
  : option renderer :=
  match table with
  | [] => None
  | (k, r) :: table' => if decide (k = tag) then Some r else renderers_get tag table'
  end.

(** The [for (const child of element.children)] loop of [renderChildren],
    over the renderer for child elements. *)
Definition children_loop (render : TXMLElement -> walk -> result host_error walk)
  : list Child -> walk -> result host_error walk :=
  fix loop (children : list Child) (s : walk) : result host_error walk :=
    match children with
    | [] => Ok s
    | ChildText child :: children' =>
        if truthy (trim child) then
          try s' <- simple_call (Text (trim child)) s; loop children' s'
        else loop children' s
    | ChildElement child :: children' =>
        try s' <- render child s; loop children' s'
    end.

Definition renderChildren_with (render : TXMLElement -> walk -> result host_error walk)
    (tag : list ascii) (children : list Child) (s : walk) : result host_error walk :=
  let '(oldPath, s1) := copy_path s in
  let s2 := push_path tag s1 in
  try (context, w) <- children_loop render children s2;
  Ok (set_currentPath oldPath context, w).

Definition renderWindow_with (renderChildren : walk -> result host_error walk)
    (element : TXMLElement) (s : walk) : result host_error walk :=
  let '(context, w) := s in
  let title := attribute_or (lit "title") (lit "Window") element in
  let style := getComputedStyle element context in
  try w1 <-
    match style_of_type TNumber (lit "width") style with
    | Some width =>
        let height :=
          match style !! lit "height" with
          | Some h => or_else (style_value h) (VNumber two_hundred)
          | None => VNumber two_hundred
          end in
        try (_, _, w') <- ImGui (SetNextWindowSize (style_value width) height) w; Ok w'
    | None => Ok w
    end;
  try (opened, _, w2) <- ImGui (Begin title) w1;
  try s3 <- (if opened then renderChildren (context, w2) else Ok (context, w2));
  simple_call End_ s3.

(** [render(element, context)] *)
Fixpoint render (element : TXMLElement) (s : walk) {struct element}
  : result host_error walk :=
  match element with
  | Element tag attributes children =>
      let renderChildren := renderChildren_with render tag children in
      match renderers_get tag renderers with
      | Some RApp => renderChildren s
      | Some RHead => Ok s
      | Some RBody => renderChildren s
      | Some RWindow => renderWindow_with renderChildren element s
      | Some RText => renderText element s
      | Some RButton => renderButton element s
      | Some RInputText => renderInputText element s
      | Some RSliderFloat => renderSliderFloat element s
      | Some RCheckbox => renderCheckbox element s
      | Some RSameLine => renderSameLine element s
      | Some RSpacing => simple_call Spacing s
      | Some RSeparator => simple_call Separator s
      | None =>
          Ok (fst s, warn (lit "No renderer for tag: " ++ tag) (snd s))
      end
  end.

Definition renderChildren (element : TXMLElement) (s : walk) : result host_error walk :=
  renderChildren_with render (tag element) (children element) s.

End Walk.

(** [intToImVec4].  The colour is a number with an integral value.  The
    shifts and masks act on its 32-bit two's complement reading
    ([ToInt32]); each component is the quotient of a byte by 255, kept here
    as the pair of the two integers (the code holds the double nearest to
    it). *)
Definition to_int32 (n : Z) : Z := ((n + 2 ^ 31) mod 2 ^ 32 - 2 ^ 31)%Z.

Record quotient : Type := Quotient {
  dividend : Z;
  divisor : Z
}.

Record ImVec4 : Type := MkImVec4 {
  vec_x : quotient;
  vec_y : quotient;
  vec_z : quotient;
  vec_w : quotient
}.

Definition intToImVec4 (color : Z) : ImVec4 :=
  let r := Quotient (to_int32 (Z.land (to_int32 (Z.shiftr (to_int32 color) 16)) 255)) 255 in
  let g := Quotient (to_int32 (Z.land (to_int32 (Z.shiftr (to_int32 color) 8)) 255)) 255 in
  let b := Quotient (to_int32 (Z.land (to_int32 color) 255)) 255 in
  let a := Quotient (to_int32 (Z.land (to_int32 (Z.shiftr (to_int32 color) 24)) 255)) 255 in
  MkImVec4 r g b a.

End Widgets.

(** ** The renderer ([renderer.ts]) *)

Module Renderer.
Import TXML Widgets.

Section Frame.

Context {number : Type} {host_error : Type} {application : Type}.
Variable parseFloat : list ascii -> number.
Variable number_truthy : number -> bool.
Variable one_half two_hundred buffer_size : number.
Variable imgui : list (@ImGuiCall number) -> @ImGuiCall number -> @ImGuiReply number host_error.

(** [StateManager] and [StyleEngine] are imported by [renderer.ts] from
    modules that are not part of the sources at hand.  Their operations are
    parameters; each may throw.  [createContext] yields the fields of the
    new context, the path as the content of its array.  The [Map]s of the
    context are the manager's and the renderer's own: [endFrame] sees the
    retained states the walk left, and the renderer holds the handlers the
    walk left, with what the callbacks registered. *)
Context {StateManager : Type} {StyleEngine : Type}.
Variable new_StyleEngine : TSS.TSSStylesheet -> result host_error StyleEngine.
Variable computeStyle :
  StyleEngine -> TXMLElement -> list (list ascii) -> result host_error unit.
Variable beginFrame : StateManager -> result host_error StateManager.
Variable createContext :
  StateManager -> TSS.TSSStylesheet ->
  gmap (list ascii) (@EventHandler number host_error application) ->
  result host_error
    (@RenderContext number host_error application * list (list ascii)).
Variable endFrame :
  StateManager -> gmap (list ascii) (@WidgetState number) ->
  result host_error StateManager.

Inductive error : Type :=
| MarkupError (e : TXML.ParseError)
| StylesheetError (e : TSS.ParseError)
| HostError (e : host_error).

Definition lift {E A} (inj : E -> error) (r : result E A) : result error A :=
  match r with
  | Ok a => Ok a
  | Throw e => Throw (inj e)
  | OutOfFuel => OutOfFuel
  end.

Record TXMLTSSRenderer : Type := MkRenderer {
  stateManager : StateManager;
  handlers : gmap (list ascii) (@EventHandler number host_error application)
}.

Definition registerEventHandler (name : list ascii)
    (callback :
       application -> gmap (list ascii) (@WidgetState number) ->
       result host_error
         (application * gmap (list ascii) (@WidgetState number)
          * list (list ascii * option (@EventHandler number host_error application))))
    (r : TXMLTSSRenderer) : TXMLTSSRenderer :=
  MkRenderer (stateManager r) (<[name := MkEventHandler name callback]> (handlers r)).

Definition renderElement (element : TXMLElement) (styleEngine : StyleEngine)
    (s : @walk number host_error application)
  : result host_error (@walk number host_error application) :=
  try _ <- computeStyle styleEngine element (path_of s);
  render parseFloat number_truthy one_half two_hundred buffer_size imgui element s.

(** The body of the [try] block of [render].  [fuel] bounds the top-level
    loop of the stylesheet parser. *)
Definition frame (fuel : nat) (txml tss : list ascii) (r : TXMLTSSRenderer)
    (w : @World number application)
  : result error (TXMLTSSRenderer * @World number application) :=
  try xmlElement <- lift MarkupError (parseTXML txml);
  try stylesheet <- lift StylesheetError (TSS.parseTSS fuel tss);
  try styleEngine <- lift HostError (new_StyleEngine stylesheet);
  try manager <- lift HostError (beginFrame (stateManager r));
  try (context, path) <- lift HostError (createContext manager stylesheet (handlers r));
  let context := set_currentPath (length (arrays w)) context in
  let w := MkWorld (arrays w ++ [path]) (calls w) (app w) (warnings w) in
  try (context', w') <- lift HostError (renderElement xmlElement styleEngine (context, w));
  try manager' <- lift HostError (endFrame manager (state context'));
  Ok (MkRenderer manager' (eventHandlers context'), w').

(** How a call of [render] ends for the caller: the frame completed, or an
    error was caught and written to [console.error].  What the failed frame
    had already changed is not tracked. *)
Inductive outcome : Type :=
| Completed (r : TXMLTSSRenderer) (w : @World number application)
| Reported (e : error).

(** [render(txml, tss)]: the [try]/[catch] around the frame. *)
Definition render (fuel : nat) (txml tss : list ascii) (r : TXMLTSSRenderer)
    (w : @World number application) : result error outcome :=
  match frame fuel txml tss r w with
  | Ok (r', w') => Ok (Completed r' w')
  | Throw e => Ok (Reported e)
  | OutOfFuel => OutOfFuel
  end.

End Frame.

End Renderer.

(** * Notions used in the statements *)

Import TXML JSX.

(** ** Termination *)

(** The termination measure of both parsers. *)
Definition unread (c : cursor) : nat := length (rest c).

(** ** Mismatched closing tags *)

Definition contains (needle hay : list ascii) : Prop :=
  exists before after, hay = before ++ needle ++ after.

(** [opens c tag c4]: at [c] stands an opening tag named [tag] that is not
    self-closing, and the children of the element start at [c4]. *)
Inductive opens (c : cursor) (tag : list ascii) (c4 : cursor) : Prop :=
| Opens (c1 c2 c3 : cursor) (a : list (list ascii * list ascii)) :
    consume (lit "<") c = Some c1 ->
    parseTagName c1 = (tag, c2) ->
    parseAttributes c2 = Ok (a, c3) ->
    consume (lit "/>") c3 = None ->
    consume (lit ">") c3 = Some c4 ->
    opens c tag c4.

(** [child_at n c m c']: the children loop entered at [c] with fuel [n] gets,
    after the children it has parsed so far, to a child element at [c'],
    which it parses with fuel [m]. *)
Inductive child_at : nat -> cursor -> nat -> cursor -> Prop :=
| child_here (n : nat) (c : cursor) :
    rest c <> [] ->
    starts_with (lit "</") (rest (skipWhitespace c)) = false ->
    TXML.head_is "<" (skipWhitespace c) = true ->
    starts_with (lit "<!--") (rest (skipWhitespace c)) = false ->
    child_at (S n) c n (skipWhitespace c)
| child_after_comment (n : nat) (c : cursor) (m : nat) (c' : cursor) :
    rest c <> [] ->
    starts_with (lit "</") (rest (skipWhitespace c)) = false ->
    TXML.head_is "<" (skipWhitespace c) = true ->
    starts_with (lit "<!--") (rest (skipWhitespace c)) = true ->
    child_at n (skipComment (skipWhitespace c)) m c' ->
    child_at (S n) c m c'
| child_after_element (n : nat) (c : cursor) (e : TXMLElement) (c2 : cursor)
    (m : nat) (c' : cursor) :
    rest c <> [] ->
    starts_with (lit "</") (rest (skipWhitespace c)) = false ->
    TXML.head_is "<" (skipWhitespace c) = true ->
    starts_with (lit "<!--") (rest (skipWhitespace c)) = false ->
    parseElement n (skipWhitespace c) = Ok (e, c2) ->
    child_at n c2 m c' ->
    child_at (S n) c m c'
| child_after_text (n : nat) (c : cursor) (text : list ascii) (c2 : cursor)
    (m : nat) (c' : cursor) :
    rest c <> [] ->
    starts_with (lit "</") (rest (skipWhitespace c)) = false ->
    TXML.head_is "<" (skipWhitespace c) = false ->
    parseText (skipWhitespace c) = (text, c2) ->
    child_at n c2 m c' ->
    child_at (S n) c m c'.

(** [element_at xml m c]: while parsing [xml], the parser comes to an element
    at [c], the root or a descendant of it, and parses it with fuel [m]. *)
Inductive element_at (xml : list ascii) : nat -> cursor -> Prop :=
| root_element :
    TXML.head_is "<" (skipWhitespace (start_of (trim xml))) = true ->
    element_at xml (S (length (trim xml))) (skipWhitespace (start_of (trim xml)))
| child_element (n : nat) (c : cursor) (tag : list ascii) (c4 : cursor)
    (m : nat) (c' : cursor) :
    element_at xml (S n) c ->
    opens c tag c4 ->
    child_at n c4 m c' ->
    element_at xml m c'.

(** [closes c opened closing]: the element at [c] was opened as [opened], its
    children are well-formed, and the closing tag after them names
    [closing]. *)
Inductive closes (n : nat) (c : cursor) (opened closing : list ascii) : Prop :=
| Closes (c4 c5 c6 c7 : cursor) (children : list Child) :
    opens c opened c4 ->
    parseChildren_loop n [] c4 = Ok (children, c5) ->
    consume (lit "</") c5 = Some c6 ->
    parseTagName c6 = (closing, c7) ->
    closes n c opened closing.

Definition mismatch_message (opened closing : list ascii) : list ascii :=
  lit "Mismatched closing tag: expected </" ++ opened
  ++ lit "> but found </" ++ closing ++ lit ">".

(** ** Text children *)

Definition all_space (ws : list ascii) : Prop := forallb is_space ws = true.

Definition no_markup (text : list ascii) : Prop :=
  forallb (fun ch => negb (char_eqb ch "<")) text = true.

(** A kept text: it starts with a character that is no whitespace and runs
    up to the next [<]. *)
Definition text_run (text : list ascii) : Prop :=
  match text with
  | ch :: _ => is_space ch = false
  | [] => False
  end /\ no_markup text.

(** The text children of an element, at any depth, in document order. *)
Fixpoint texts (e : TXMLElement) : list (list ascii) :=
  match e with
  | Element _ _ children =>
      concat (map (fun child => match child with
                                | ChildText s => [s]
                                | ChildElement e' => texts e'
                                end) children)
  end.

(** ** Serialising and parsing again *)

Definition name_like (s : list ascii) : Prop := forallb is_name_char s = true.

(** An attribute name the parser reads back: name characters only, and not
    [__proto__]. *)
Definition plain_key (k : list ascii) : Prop :=
  name_like k /\ k <> proto_key.

Definition special (ch : ascii) : bool :=
  char_eqb ch "&" || char_eqb ch dquote || char_eqb ch squote
  || char_eqb ch "<" || char_eqb ch ">".

(** A value that [jsxToTXML] writes unchanged. *)
Definition plain_value (v : list ascii) : Prop :=
  forallb (fun ch => negb (special ch)) v = true.

Definition plain_attributes (a : list (list ascii * list ascii)) : Prop :=
  NoDup (map fst a) /\ Forall (fun kv => plain_key (fst kv) /\ plain_value (snd kv)) a.

(** No two text children in a row. *)
Fixpoint texts_apart (cs : list Child) : Prop :=
  match cs with
  | ChildText _ :: ((ChildText _ :: _) as cs') => False
  | _ :: cs' => texts_apart cs'
  | [] => True
  end.

(** The elements that survive the round trip. *)
Fixpoint plain (e : TXMLElement) : Prop :=
  match e with
  | Element tag a cs =>
      name_like tag /\ plain_attributes a /\ texts_apart cs
      /\ (fix all (cs : list Child) : Prop :=
            match cs with
            | [] => True
            | ChildText s :: cs' => text_run s /\ all cs'
            | ChildElement e' :: cs' => plain e' /\ all cs'
            end) cs
  end.

Definition plain_child (child : Child) : Prop :=
  match child with
  | ChildText s => text_run s
  | ChildElement e => plain e
  end.

Definition child_text (child : Child) : list ascii :=
  match child with
  | ChildText s => s
  | ChildElement e => jsxToTXML e
  end.

Definition closes_tag (s : list ascii) : Prop :=
  match s with ch :: _ => ch = ">"%char \/ ch = "/"%char | [] => False end.

Definition space_or_gt (s : list ascii) : Prop :=
  match s with ch :: _ => ch = " "%char \/ ch = ">"%char | [] => False end.

Definition is_text_run (text : list ascii) : bool :=
  match text with ch :: _ => negb (is_space ch) | [] => false end
  && forallb (fun ch => negb (char_eqb ch "<")) text.

Fixpoint are_texts_apart (cs : list Child) : bool :=
  match cs with
  | ChildText _ :: ((ChildText _ :: _) as cs') => false
  | _ :: cs' => are_texts_apart cs'
  | [] => true
  end.

Definition are_plain_attributes (a : list (list ascii * list ascii)) : bool :=
  bool_decide (NoDup (map fst a))
  && forallb (fun kv => forallb is_name_char (fst kv)
                        && negb (bool_decide (fst kv = proto_key))
                        && forallb (fun ch => negb (special ch)) (snd kv)) a.

(** The decidable form of [plain]. *)
Fixpoint is_plain (e : TXMLElement) : bool :=
  match e with
  | Element tag a cs =>
      forallb is_name_char tag && are_plain_attributes a && are_texts_apart cs
      && forallb (fun child => match child with
                               | ChildText s => is_text_run s
                               | ChildElement e' => is_plain e'
                               end) cs
  end.

(** ** Specificity *)

(** The specification counts simple selectors by kind.  A simple selector is
    a run of characters between whitespace; [selectors_of kind s] counts the
    runs of [s] whose first character is of the given kind, [boundary]
    telling whether a run may start at the next character. *)
Fixpoint count_selectors (kind : ascii -> bool) (boundary : bool) (s : list ascii) : nat :=
  match s with
  | [] => 0
  | ch :: s' =>
      (if boundary && kind ch then 1 else 0) + count_selectors kind (is_space ch) s'
  end.

Definition selectors_of (kind : ascii -> bool) (s : list ascii) : nat :=
  count_selectors kind true s.

Definition id_mark (ch : ascii) : bool := char_eqb "#" ch.
Definition class_mark (ch : ascii) : bool := char_eqb "." ch.

(** [100 x ids + 10 x classes + 1 x tag names] *)
Definition specificity_formula (selector : list ascii) : nat :=
  100 * selectors_of id_mark selector
  + 10 * selectors_of class_mark selector
  + 1 * selectors_of is_letter selector.

Definition count_parts (kind : ascii -> bool) (parts : list (list ascii)) : nat :=
  length (List.filter (TSS.starts_with_char kind) parts).

Definition specificity_example : list ascii :=
  lit "Window { color: white; } .my-class { color: red; } #my-id { color: blue; }".

(** ** Declarations without their semicolon *)

(** [value_at next source value]: [source] is the text of a declaration
    value that [parseValue] reads as [value] when the character after it is
    [next] ([None] at the end of the text): a run of characters other than
    [;], [}] and whitespace that ends there, or a quoted string. *)
Inductive value_at (next : option ascii) : list ascii -> list ascii -> Prop :=
| unquoted_at (token : list ascii) :
    forallb TSS.unquoted_char token = true ->
    TSS.starts_with_char TSS.is_quote token = false ->
    match token, next with
    | [], Some ch => TSS.unquoted_char ch = false /\ is_space ch = false
    | _ :: _, Some ch => TSS.unquoted_char ch = false
    | _, None => True
    end ->
    value_at next token token
| quoted_at (quote : ascii) (body : list ascii) :
    TSS.is_quote quote = true ->
    forallb (fun ch => negb (char_eqb ch quote)) body = true ->
    value_at next (quote :: body ++ [quote]) body.

(** A declaration up to its value: [name:], whitespace, the value text. *)
Record declaration : Type := Declaration {
  d_name : list ascii;
  d_space : list ascii;
  d_source : list ascii;
  d_value : list ascii;
  d_gap : list ascii
}.

Definition declaration_head (d : declaration) : list ascii :=
  d_name d ++ lit ":" ++ d_space d ++ d_source d.

(** A declaration with its [;] and the whitespace after it. *)
Definition terminated_text (d : declaration) : list ascii :=
  declaration_head d ++ lit ";" ++ d_gap d.

Definition declaration_at (next : option ascii) (d : declaration) : Prop :=
  name_like (d_name d) /\ all_space (d_space d)
  /\ value_at next (d_source d) (d_value d) /\ all_space (d_gap d).

Definition not_semicolon (s : list ascii) : Prop :=
  match s with ch :: _ => ch <> ";"%char | [] => True end.

(** A selector text that the top-level loop hands to [parseRule]: it starts
    with a character that is neither whitespace nor [@], it does not start
    with [:root], and it holds no [{]. *)
Definition ordinary_selector (sel : list ascii) : Prop :=
  match sel with
  | ch :: _ => is_space ch = false /\ ch <> "@"%char
  | [] => False
  end
  /\ starts_with (lit ":root") sel = false
  /\ forallb (fun ch => negb (char_eqb ch "{")) sel = true.

(** [reaches st st']: the top-level loop gets from [st] to [st'] by complete
    iterations, none of which throws. *)
Inductive reaches : TSS.parser_state -> TSS.parser_state -> Prop :=
| reaches_here (st : TSS.parser_state) : reaches st st
| reaches_next (st st' st'' : TSS.parser_state) :
    rest (TSS.ps_cursor st) <> [] ->
    TSS.parse_body st = Ok st' ->
    reaches st' st'' ->
    reaches st st''.

Definition missing_semicolon : list ascii := lit "Expected ; after property value".

(** The text of a rule body: whitespace, terminated declarations, and one
    declaration that is not followed by [;]. *)
Definition unterminated_body (indent : list ascii) (ds : list declaration)
    (d : declaration) (after : list ascii) : list ascii :=
  indent ++ concat (map terminated_text ds) ++ declaration_head d ++ after.

(** ** Stylesheets on which the parser does not return *)

(** The top-level loop comes, by iterations that do not throw, to a [{] in
    the place where it expects a selector. *)
Definition stray_brace (tss : list ascii) : Prop :=
  exists st, reaches (TSS.initial_state tss) st
             /\ TSS.head_is "{" (TSS.ps_cursor st) = true.

(** ** Well-formed stylesheets *)

(** The properties object that a list of declarations leaves: a later
    declaration of a name overrides an earlier one. *)
Definition declared (ds : list declaration) : list (list ascii * list ascii) :=
  fold_left (fun properties d => obj_set (d_name d) (d_value d) properties) ds [].

Definition defined (vs : list declaration)
    (variables : gmap (list ascii) (list ascii)) : gmap (list ascii) (list ascii) :=
  fold_left (fun variables v => <[d_name v := d_value v]> variables) vs variables.

(** A variable definition of a [:root] block. *)
Definition variable_text (v : declaration) : list ascii :=
  lit "--" ++ terminated_text v.

(** The brace depth after [s], entered at [depth]; it stays at zero once it
    gets there. *)
Fixpoint nesting (depth : nat) (s : list ascii) : nat :=
  match s with
  | [] => depth
  | ch :: s' =>
      match depth with
      | 0 => 0
      | S below =>
          nesting (if char_eqb ch "{" then S depth
                   else if char_eqb ch "}" then below else depth) s'
      end
  end.

(** The prelude of an at-rule: no [;] and no [{]. *)
Definition prelude_like (s : list ascii) : Prop :=
  forallb (fun ch => negb (char_eqb ch ";") && negb (char_eqb ch "{")) s = true.

(** The items of a stylesheet. *)
Inductive item : Type :=
| RuleItem (sel indent : list ascii) (ds : list declaration)
| RootItem (space indent : list ascii) (vs : list declaration)
| StatementItem (prelude : list ascii)
| BlockItem (prelude body : list ascii).

Definition item_text (i : item) : list ascii :=
  match i with
  | RuleItem sel indent ds =>
      sel ++ lit "{" ++ indent ++ concat (map terminated_text ds) ++ lit "}"
  | RootItem space indent vs =>
      lit ":root" ++ space ++ lit "{" ++ indent
      ++ concat (map variable_text vs) ++ lit "}"
  | StatementItem prelude => lit "@" ++ prelude ++ lit ";"
  | BlockItem prelude body => lit "@" ++ prelude ++ lit "{" ++ body ++ lit "}"
  end.

Definition well_formed (i : item) : Prop :=
  match i with
  | RuleItem sel indent ds =>
      ordinary_selector sel /\ all_space indent
      /\ Forall (declaration_at (Some ";"%char)) ds
  | RootItem space indent vs =>
      all_space space /\ all_space indent
      /\ Forall (declaration_at (Some ";"%char)) vs
  | StatementItem prelude => prelude_like prelude
  | BlockItem prelude body => prelude_like prelude /\ nesting 1 body = 1
  end.

Definition item_rules (i : item) : list TSS.TSSRule :=
  match i with
  | RuleItem sel _ ds =>
      [TSS.Rule (trim sel) (declared ds) (TSS.calculateSpecificity (trim sel))]
  | _ => []
  end.

Definition item_variables (variables : gmap (list ascii) (list ascii)) (i : item)
  : gmap (list ascii) (list ascii) :=
  match i with
  | RootItem _ _ vs => defined vs variables
  | _ => variables
  end.

(** A stylesheet text: leading whitespace, then the items, each followed by
    whitespace. *)
Definition sheet_text (ws : list ascii) (items : list (item * list ascii)) : list ascii :=
  ws ++ concat (map (fun ig => item_text (fst ig) ++ snd ig) items).

Definition sheet_of (items : list (item * list ascii)) : TSS.TSSStylesheet :=
  TSS.Stylesheet (fold_left item_variables (map fst items) ∅)
                 (concat (map (fun ig => item_rules (fst ig)) items)).

(** What holds of every rule of a parsed stylesheet. *)
Definition rule_invariant (r : TSS.TSSRule) : Prop :=
  TSS.selector r <> []
  /\ trim (TSS.selector r) = TSS.selector r
  /\ forallb (fun ch => negb (char_eqb ch "{")) (TSS.selector r) = true
  /\ NoDup (map fst (TSS.properties r))
  /\ proto_key ∉ map fst (TSS.properties r).

(** ** Positions *)

(** The line and column of the character that follows [s], when [s] starts
    at line [ln], column [col]. *)
Fixpoint position_after (ln col : nat) (s : list ascii) : nat * nat :=
  match s with
  | [] => (ln, col)
  | ch :: s' =>
      if char_eqb ch newline then position_after (S ln) 1 s'
      else position_after ln (S col) s'
  end.

(** The counters of the cursor are the position of its first unread
    character in [text]. *)
Definition tracks (text : list ascii) (c : cursor) : Prop :=
  exists consumed,
    text = consumed ++ rest c /\ (line c, column c) = position_after 1 1 consumed.

(** The error carries the position of a character of [text], or of its end. *)
Definition located (text : list ascii) (e : TXML.ParseError) : Prop :=
  exists consumed remaining,
    text = consumed ++ remaining
    /\ (TXML.error_line e, TXML.error_column e) = position_after 1 1 consumed.

(** A parsing step keeps the counters true, whether it returns or throws. *)
Definition tracked {A} (text : list ascii) (r : result ParseError (A * cursor)) : Prop :=
  match r with
  | Ok (_, c') => tracks text c'
  | Throw e => located text e
  | OutOfFuel => True
  end.

(** ** The ancestor path during the walk *)

Section WalkNotions.

Import Widgets.

Context {number host_error application : Type}.

(** A step of the walk that leaves the arrays and the reference alone. *)
Definition keeps_path (s s' : @walk number host_error application) : Prop :=
  arrays (snd s') = arrays (snd s) /\ currentPath (fst s') = currentPath (fst s).

(** What a call of [render] may do to the arrays: it allocates new ones and
    changes the one [context.currentPath] refers to; afterwards
    [context.currentPath] refers to an array with the elements it had
    before, the same array or a new one. *)
Definition restores_path (s s' : @walk number host_error application) : Prop :=
  currentPath (fst s') < length (arrays (snd s'))
  /\ length (arrays (snd s)) <= length (arrays (snd s'))
  /\ path_of s' = path_of s
  /\ (forall i, i < length (arrays (snd s)) -> i <> currentPath (fst s) ->
        arrays (snd s') !! i = arrays (snd s) !! i)
  /\ (currentPath (fst s') = currentPath (fst s)
      \/ length (arrays (snd s)) <= currentPath (fst s')).

Definition valid_path (s : @walk number host_error application) : Prop :=
  currentPath (fst s) < length (arrays (snd s)).

End WalkNotions.

(** ** Escaping *)

(** What [jsxToTXML] writes for one character of an attribute value. *)
Definition escape_char (ch : ascii) : list ascii :=
  if char_eqb ch "&" then lit "&amp;"
  else if char_eqb ch dquote then lit "&quot;"
  else if char_eqb ch squote then lit "&#39;"
  else if char_eqb ch "<" then lit "&lt;"
  else if char_eqb ch ">" then lit "&gt;"
  else [ch].

(** The characters that end a quoted value or open a tag. *)
Definition delimiter (ch : ascii) : bool :=
  char_eqb ch dquote || char_eqb ch squote || char_eqb ch "<" || char_eqb ch ">".

(** ** The attributes of a [jsx] element *)

(** The body of the loop over [Object.entries(props)]. *)
Definition attribute_step (attributes : list (list ascii * list ascii))
    (kv : list ascii * js_value) : list (list ascii * list ascii) :=
  let '(key, value) := kv in
  if decide (key = lit "children") then attributes
  else if decide (key = lit "key") then attributes
  else obj_set key (to_String value) attributes.

Definition jsx_attributes_invariant (o : list (list ascii * js_value))
    (a : list (list ascii * list ascii)) : Prop :=
  NoDup (map fst a) /\ (proto_key ∉ map fst a)
  /\ (lit "children" ∉ map fst a) /\ (lit "key" ∉ map fst a)
  /\ Forall (fun kv => exists value, (fst kv, value) ∈ o /\ snd kv = to_String value) a.


(** ** The calls of a walk *)

Section TraceNotions.

Import Widgets.

Context {number host_error application : Type}.

(** The number of windows that are open after [trace] when [depth] were open
    before it; [None] when an [End] comes with no window open. *)
Fixpoint open_windows (depth : nat) (trace : list (@ImGuiCall number)) : option nat :=
  match trace with
  | [] => Some depth
  | Begin _ :: trace' => open_windows (S depth) trace'
  | End_ :: trace' =>
      match depth with
      | 0 => None
      | S below => open_windows below trace'
      end
  | _ :: trace' => open_windows depth trace'
  end.

(** Every [Begin] of the trace has its [End], and every [End] its [Begin]. *)
Definition bracketed (trace : list (@ImGuiCall number)) : Prop :=
  forall depth, open_windows depth trace = Some depth.

(** The calls that neither open nor close a window. *)
Definition quiet (call : @ImGuiCall number) : bool :=
  match call with Begin _ | End_ => false | _ => true end.

(** The calls of [w'] are those of [w] and a bracketed trace after them. *)
Definition extends (w w' : @World number application) : Prop :=
  exists trace, calls w' = calls w ++ trace /\ bracketed trace.

End TraceNotions.

(** ** Identities of elements under different paths *)

Definition slash_free (s : list ascii) : Prop :=
  forallb (fun ch => negb (char_eqb ch "/")) s = true.

(** ** Colours *)

(** The colour [0xAARRGGBB]. *)
Definition argb (a r g b : Z) : Z := (a * 2 ^ 24 + r * 2 ^ 16 + g * 2 ^ 8 + b)%Z.

Definition is_byte (n : Z) : Prop := (0 <= n < 256)%Z.

(** ** The syntax the markup parser reads *)

(** An attribute as it is written: name, [=], the value between two equal
    quotes, and the whitespace after it. *)
Record attribute_source : Type := AttributeSource {
  a_name : list ascii;
  a_quote : ascii;
  a_value : list ascii;
  a_gap : list ascii
}.

Definition attribute_text (a : attribute_source) : list ascii :=
  a_name a ++ lit "=" ++ [a_quote a] ++ a_value a ++ [a_quote a] ++ a_gap a.

Definition attribute_ok (a : attribute_source) : Prop :=
  name_like (a_name a)
  /\ (a_quote a = dquote \/ a_quote a = squote)
  /\ forallb (fun ch => negb (char_eqb ch (a_quote a))) (a_value a) = true
  /\ all_space (a_gap a).

(** The object the attributes leave: a later attribute of a name overrides
    the value of an earlier one. *)
Definition attributes_of (attrs : list attribute_source) : list (list ascii * list ascii) :=
  fold_left (fun o a => obj_set (a_name a) (a_value a) o) attrs [].

(** No [-->] starts in [s]. *)
Fixpoint comment_free (s : list ascii) : bool :=
  match s with
  | [] => true
  | _ :: s' => negb (starts_with (lit "-->") s) && comment_free s'
  end.

(** A piece of markup, with the whitespace in front of it: a text, a
    comment, an element written [<tag ... />], or an element with an opening
    and a closing tag around its children and the whitespace in front of the
    closing tag. *)
Unset Elimination Schemes.
Inductive node : Type :=
| TextNode (ws text : list ascii)
| CommentNode (ws body : list ascii)
| EmptyNode (ws tag space : list ascii) (attrs : list attribute_source)
| ParentNode (ws tag space : list ascii) (attrs : list attribute_source)
    (children : list node) (before_close : list ascii).
Set Elimination Schemes.

Definition leading (n : node) : list ascii :=
  match n with
  | TextNode ws _ | CommentNode ws _ | EmptyNode ws _ _ _
  | ParentNode ws _ _ _ _ _ => ws
  end.

Definition opening (tag space : list ascii) (attrs : list attribute_source) : list ascii :=
  lit "<" ++ tag ++ space ++ concat (map attribute_text attrs).

(** The text of a node, after its leading whitespace. *)
Fixpoint source_of (n : node) : list ascii :=
  match n with
  | TextNode _ text => text
  | CommentNode _ body => lit "<!--" ++ body ++ lit "-->"
  | EmptyNode _ tag space attrs => opening tag space attrs ++ lit "/>"
  | ParentNode _ tag space attrs children before_close =>
      opening tag space attrs ++ lit ">"
      ++ concat (map (fun child => leading child ++ source_of child) children)
      ++ before_close ++ lit "</" ++ tag ++ lit ">"
  end.

Definition sources_of (children : list node) : list ascii :=
  concat (map (fun child => leading child ++ source_of child) children).

(** What the parser makes of a node: a comment leaves nothing. *)
Fixpoint children_of (n : node) : list Child :=
  match n with
  | TextNode _ text => [ChildText text]
  | CommentNode _ _ => []
  | EmptyNode _ tag _ attrs => [ChildElement (Element tag (attributes_of attrs) [])]
  | ParentNode _ tag _ attrs children _ =>
      [ChildElement (Element tag (attributes_of attrs) (concat (map children_of children)))]
  end.

Definition is_text_node (n : node) : bool :=
  match n with TextNode _ _ => true | _ => false end.

(** A text runs up to the next [<]: what follows a text node starts with
    its [<]. *)
Fixpoint delimited (children : list node) (before_close : list ascii) : Prop :=
  match children with
  | [] => True
  | child :: rest =>
      (is_text_node child = true ->
       match rest with
       | [] => before_close = []
       | next :: _ => leading next = [] /\ is_text_node next = false
       end)
      /\ delimited rest before_close
  end.

(** The opening of a tag.  The tag ends where the name characters end:
    when no whitespace follows it, the first attribute has the empty name
    and starts with its [=]. *)
Definition opening_ok (tag space : list ascii) (attrs : list attribute_source) : Prop :=
  name_like tag /\ all_space space
  /\ (space = [] -> match attrs with a :: _ => a_name a = [] | [] => True end)
  /\ Forall attribute_ok attrs.

(** The element written [</>]: where a child is looked for, it is the start
    of a closing tag. *)
Definition closing_like (n : node) : bool :=
  match n with
  | EmptyNode _ [] [] [] => true
  | _ => false
  end.

(** The nodes of the syntax: whitespace is whitespace, names are made of
    name characters, a value does not hold its quote, a comment does not
    hold its end, a text is a kept text, and no child is written [</>]. *)
Fixpoint node_ok (n : node) : Prop :=
  all_space (leading n)
  /\ match n with
     | TextNode _ text => text_run text
     | CommentNode _ body => comment_free body = true
     | EmptyNode _ tag space attrs => opening_ok tag space attrs
     | ParentNode _ tag space attrs children before_close =>
         opening_ok tag space attrs /\ all_space before_close
         /\ delimited children before_close
         /\ (fix all (cs : list node) : Prop :=
               match cs with
               | [] => True
               | child :: cs' =>
                   (node_ok child /\ closing_like child = false) /\ all cs'
               end) children
     end.

(** The element a node stands for, when it is one. *)
Definition element_of (n : node) : option TXMLElement :=
  match children_of n with
  | [ChildElement e] => Some e
  | _ => None
  end.

(** The element parser, set in front of the text of an element node, returns
    the element and stops behind the text. *)
Definition parses_as_written (n : node) : Prop :=
  node_ok n ->
  forall e, element_of n = Some e ->
  forall m c tail,
    rest c = source_of n ++ tail -> unread c < m ->
    exists c', parseElement m c = Ok (e, c') /\ rest c' = tail.

(** ** Writing an element and reading it again *)

(** The element with every attribute value as [jsxToTXML] writes it. *)
Fixpoint escaped (e : TXMLElement) : TXMLElement :=
  match e with
  | Element tag a cs =>
      Element tag (map (fun kv => (fst kv, escape (snd kv))) a)
        (map (fun child => match child with
                           | ChildText s => ChildText s
                           | ChildElement e' => ChildElement (escaped e')
                           end) cs)
  end.

(** An element the parser can read again once it is written: tags and
    attribute names are names, the texts are kept texts.  The attribute
    values are any. *)
Fixpoint printable (e : TXMLElement) : Prop :=
  match e with
  | Element tag a cs =>
      tag <> [] /\ name_like tag
      /\ NoDup (map fst a) /\ Forall (fun kv => plain_key (fst kv)) a
      /\ texts_apart cs
      /\ (fix all (cs : list Child) : Prop :=
            match cs with
            | [] => True
            | ChildText s :: cs' => text_run s /\ all cs'
            | ChildElement e' :: cs' => printable e' /\ all cs'
            end) cs
  end.

(** The attributes as [jsxToTXML] writes them: double quotes, the value
    escaped, one space between two attributes, and [last_gap] after the
    last one. *)
Fixpoint written_attributes (last_gap : list ascii) (a : attrs) : list attribute_source :=
  match a with
  | [] => []
  | kv :: a' =>
      AttributeSource (fst kv) dquote (escape (snd kv))
        (match a' with [] => last_gap | _ :: _ => lit " " end)
      :: written_attributes last_gap a'
  end.

(** The markup [jsxToTXML] writes for an element. *)
Fixpoint node_of (e : TXMLElement) : node :=
  match e with
  | Element tag a cs =>
      match cs with
      | [] => EmptyNode [] tag (lit " ") (written_attributes (lit " ") a)
      | _ :: _ =>
          ParentNode [] tag (match a with [] => [] | _ :: _ => lit " " end)
            (written_attributes [] a)
            (map (fun child => match child with
                               | ChildText s => TextNode [] s
                               | ChildElement e' => node_of e'
                               end) cs)
            []
      end
  end.

(** ** What a walk does to the retained state *)

Section StateNotions.

Import Widgets.

Context {number host_error application : Type}.

(** The calls that ask whether the user did something. *)
Definition interactive (call : @ImGuiCall number) : bool :=
  match call with
  | Button _ | InputTextWithHint _ _ _ _ | SliderFloat _ _ _ _ | Checkbox _ _ => true
  | _ => false
  end.

(** A binding that reports no click and no change. *)
Definition idle
    (imgui : list (@ImGuiCall number) -> @ImGuiCall number
             -> @ImGuiReply number host_error) : Prop :=
  forall history call b buffer,
    interactive call = true -> imgui history call = Returned b buffer -> b = false.

(** Every retained state is stored under its own identity. *)
Definition keyed (context : @RenderContext number host_error application) : Prop :=
  forall k st, state context !! k = Some st -> id st = k.

(** Handlers whose callbacks leave the two [Map]s of the context as they
    are. *)
Definition discreet
    (handlers : gmap (list ascii) (@EventHandler number host_error application))
  : Prop :=
  forall name handler a retained a' retained' changes,
    handlers !! name = Some handler ->
    callback handler a retained = Ok (a', retained', changes) ->
    retained' = retained /\ changes = [].

(** What a walk from [s] to [s'] leaves as it was; [at_rest] says that the
    binding is idle. *)
Definition retains (at_rest : Prop) (s s' : @walk number host_error application) : Prop :=
  (stylesheet (fst s') = stylesheet (fst s)
   /\ frameNumber (fst s') = frameNumber (fst s))
  /\ (at_rest ->
      state (fst s') = state (fst s)
      /\ eventHandlers (fst s') = eventHandlers (fst s)
      /\ app (snd s') = app (snd s))
  /\ (discreet (eventHandlers (fst s)) ->
      eventHandlers (fst s') = eventHandlers (fst s)
      /\ (forall k, is_Some (state (fst s) !! k) -> is_Some (state (fst s') !! k))
      /\ (forall k st, state (fst s') !! k = Some st ->
            state (fst s) !! k = Some st \/ lastFrame st = frameNumber (fst s))
      /\ (keyed (fst s) -> keyed (fst s'))).

End StateNotions.

(** ** The trees the markup parser returns *)

(** The names of an attributes object: distinct, made of name characters,
    and none is [__proto__]. *)
Definition names_ok (a : attrs) : Prop :=
  NoDup (map fst a) /\ (proto_key ∉ map fst a)
  /\ Forall (fun kv => name_like (fst kv)) a.

Fixpoint parsed_shape (e : TXMLElement) : Prop :=
  match e with
  | Element tag a cs =>
      name_like tag /\ names_ok a
      /\ (fix all (cs : list Child) : Prop :=
            match cs with
            | [] => True
            | ChildText s :: cs' => text_run s /\ all cs'
            | ChildElement e' :: cs' => parsed_shape e' /\ all cs'
            end) cs
  end.

Definition child_shape (child : Child) : Prop :=
  match child with
  | ChildText s => text_run s
  | ChildElement e => parsed_shape e
  end.

(** ** A frame with two text inputs *)

Module Demo.
Import Widgets.

(** A binding in which every call returns [true], and every text input
    reports that the user typed the label of the input. *)
Definition imgui (history : list (@ImGuiCall nat)) (call : @ImGuiCall nat)
  : @ImGuiReply nat unit :=
  match call with
  | InputTextWithHint label _ _ _ => Returned true (VString label)
  | _ => Returned true VUndefined
  end.

Definition render_element :=
  render (host_error := unit) (application := nat)
         (fun s => length s) (fun n => negb (Nat.eqb n 0)) 1 200 256 imgui.

Definition first_input : TXMLElement :=
  Element (lit "InputText") [(lit "label", lit "first")] [].

Definition second_input : TXMLElement :=
  Element (lit "InputText") [(lit "label", lit "second")] [].

Definition markup : list ascii :=
  lit "<App><Body><InputText label='first' /><InputText label='second' /></Body></App>".

Definition root : TXMLElement :=
  Element (lit "App") []
    [ChildElement (Element (lit "Body") [] [ChildElement first_input;
                                             ChildElement second_input])].

(** The walk state at the start of frame [frame]: no retained state, the
    path array empty. *)
Definition start (frame : nat) : @walk nat unit nat :=
  (MkRenderContext ∅ ∅ (TSS.Stylesheet ∅ []) frame 0, MkWorld [[]] [] 0 []).

(** The walk state in which the children of [Body] are rendered. *)
Definition under_body (frame : nat) : @walk nat unit nat :=
  (MkRenderContext ∅ ∅ (TSS.Stylesheet ∅ []) frame 0,
   MkWorld [[lit "App"; lit "Body"]] [] 0 []).

(** A handler that counts the clicks and leaves the [Map]s alone. *)
Definition save_handler : @EventHandler nat unit nat :=
  MkEventHandler (lit "save") (fun clicks retained => Ok (S clicks, retained, [])).

(** The walk state at the start of a frame, with [save_handler] registered. *)
Definition start_with_handler (frame : nat) : @walk nat unit nat :=
  (MkRenderContext ∅ {[lit "save" := save_handler]} (TSS.Stylesheet ∅ []) frame 0,
   MkWorld [[]] [] 0 []).

End Demo.

(** * Properties *)

Import TXML.

(** The proofs unfold the parsers one layer at a time. *)
Arguments lit : simpl never.
Arguments trim : simpl never.
Arguments consume : simpl never.
Arguments skipWhitespace : simpl never.
Arguments TXML.obj_set : simpl never.
Arguments TXML.head_is : simpl never.
Arguments TXML.parseTagName : simpl never.
Arguments TXML.parseAttributeName : simpl never.
Arguments TXML.parseAttributeValue : simpl never.
Arguments TXML.parseAttributes : simpl never.
Arguments TXML.parseText : simpl never.
Arguments TXML.skipComment : simpl never.
Arguments TXML.loop_guard_attributes : simpl never.
Arguments TSS.head_is : simpl never.
Arguments TSS.parseIdentifier : simpl never.
Arguments TSS.parseValue : simpl never.
Arguments TSS.parseSelector : simpl never.
Arguments TSS.parseProperties : simpl never.
Arguments TSS.parseVariable : simpl never.
Arguments TSS.parseRootVariables : simpl never.
Arguments TSS.parseAtRule : simpl never.
Arguments TSS.parseRule : simpl never.
Arguments TSS.calculateSpecificity : simpl never.
Arguments TSS.properties_guard : simpl never.

(** ** Characters and scanning *)

Lemma char_eqb_eq (a b : ascii) : char_eqb a b = true <-> a = b.
Proof. apply Ascii.eqb_eq. Qed.

Lemma char_eqb_neq (a b : ascii) : char_eqb a b = false <-> a <> b.
Proof. apply Ascii.eqb_neq. Qed.

Lemma char_eqb_refl (a : ascii) : char_eqb a a = true.
Proof. apply Ascii.eqb_refl. Qed.

Lemma starts_with_app (e s : list ascii) : starts_with e (e ++ s) = true.
Proof. induction e as [|ch e IH]; simpl; [done|]. by rewrite char_eqb_refl. Qed.

Lemma starts_with_inv (e s : list ascii) :
  starts_with e s = true -> s = e ++ drop (length e) s.
Proof.
  revert s; induction e as [|ch e IH]; intros [|ch' s]; simpl; try done.
  intros [Hc Hs]%andb_prop. apply char_eqb_eq in Hc as ->. by rewrite <- IH.
Qed.

Lemma consume_Some (e : list ascii) (c c' : cursor) :
  consume e c = Some c' ->
  rest c = e ++ rest c' /\ line c' = line c /\ column c' = column c + length e.
Proof.
  unfold consume. destruct (starts_with e (rest c)) eqn:E; [|done].
  intros [= <-]. simpl. by apply starts_with_inv in E.
Qed.

Lemma consume_app (e s : list ascii) (ln col : nat) :
  consume e (Cursor (e ++ s) ln col) = Some (Cursor s ln (col + length e)).
Proof.
  unfold consume. cbn [rest line column]. rewrite starts_with_app.
  by rewrite drop_app_length.
Qed.

Lemma consume_length (e : list ascii) (c c' : cursor) :
  consume e c = Some c' -> length (rest c) = length e + length (rest c').
Proof. intros [-> _]%consume_Some. by rewrite length_app. Qed.

(** What a scanning loop returns: the longest prefix passing the test, and
    the cursor in front of the first character that fails it. *)
Lemma scan_column_spec (test : ascii -> bool) (s : list ascii) (ln col : nat) :
  forall taken c, scan_column test s ln col = (taken, c) ->
    s = taken ++ rest c /\ forallb test taken = true
    /\ match rest c with ch :: _ => test ch = false | [] => True end
    /\ line c = ln /\ column c = col + length taken.
Proof.
  revert col; induction s as [|ch s IH]; intros col taken c; simpl.
  - intros [= <- <-]. simpl. repeat split; lia.
  - destruct (test ch) eqn:T.
    + destruct (scan_column test s ln (S col)) as [taken' c'] eqn:E.
      intros [= <- <-]. destruct (IH _ _ _ E) as (-> & ? & ? & ? & ?).
      simpl. rewrite T. repeat split; auto; lia.
    + intros [= <- <-]. simpl. rewrite T. repeat split; lia.
Qed.

Lemma scan_lines_spec (test : ascii -> bool) (s : list ascii) (ln col : nat) :
  forall taken c, scan_lines test s ln col = (taken, c) ->
    s = taken ++ rest c /\ forallb test taken = true
    /\ match rest c with ch :: _ => test ch = false | [] => True end.
Proof.
  revert ln col; induction s as [|ch s IH]; intros ln col taken c; simpl.
  - intros [= <- <-]. by simpl.
  - destruct (test ch) eqn:T.
    + destruct (char_eqb ch newline).
      * destruct (scan_lines test s (S ln) 1) as [taken' c'] eqn:E.
        intros [= <- <-]. destruct (IH _ _ _ _ E) as (-> & ? & ?).
        simpl. by rewrite T.
      * destruct (scan_lines test s ln (S col)) as [taken' c'] eqn:E.
        intros [= <- <-]. destruct (IH _ _ _ _ E) as (-> & ? & ?).
        simpl. by rewrite T.
    + intros [= <- <-]. simpl. by rewrite T.
Qed.

(** Scanning a text that is a tested prefix followed by a stop. *)
Lemma scan_column_app (test : ascii -> bool) (taken s : list ascii) (ln col : nat) :
  forallb test taken = true ->
  match s with ch :: _ => test ch = false | [] => True end ->
  scan_column test (taken ++ s) ln col = (taken, Cursor s ln (col + length taken)).
Proof.
  revert col; induction taken as [|ch taken IH]; intros col Ht Hs.
  - destruct s as [|ch s]; simpl; [|rewrite Hs]; do 2 f_equal; lia.
  - simpl in Ht. apply andb_prop in Ht as [Hch Ht].
    simpl. rewrite Hch, IH by done. do 2 f_equal; lia.
Qed.

Lemma scan_lines_app (test : ascii -> bool) (taken s : list ascii) (ln col : nat) :
  forallb test taken = true ->
  match s with ch :: _ => test ch = false | [] => True end ->
  exists ln' col', scan_lines test (taken ++ s) ln col = (taken, Cursor s ln' col').
Proof.
  revert ln col; induction taken as [|ch taken IH]; intros ln col Ht Hs.
  - destruct s as [|ch s]; simpl; [|rewrite Hs]; eauto.
  - simpl in Ht. apply andb_prop in Ht as [Hch Ht].
    simpl. rewrite Hch. destruct (char_eqb ch newline).
    + destruct (IH (S ln) 1 Ht Hs) as (ln' & col' & ->). eauto.
    + destruct (IH ln (S col) Ht Hs) as (ln' & col' & ->). eauto.
Qed.

Lemma skipWhitespace_spec (c : cursor) :
  exists ws, rest c = ws ++ rest (skipWhitespace c)
    /\ forallb is_space ws = true
    /\ match rest (skipWhitespace c) with
       | ch :: _ => is_space ch = false
       | [] => True
       end.
Proof.
  unfold skipWhitespace.
  destruct (scan_lines is_space (rest c) (line c) (column c)) as [ws c'] eqn:E.
  exists ws. by apply scan_lines_spec in E.
Qed.

Lemma skipWhitespace_length (c : cursor) :
  length (rest (skipWhitespace c)) <= length (rest c).
Proof.
  destruct (skipWhitespace_spec c) as (ws & -> & _). rewrite length_app. lia.
Qed.

(** Nothing to skip in front of a character that is no whitespace. *)
Lemma skipWhitespace_stop (s : list ascii) (ln col : nat) :
  match s with ch :: _ => is_space ch = false | [] => True end ->
  skipWhitespace (Cursor s ln col) = Cursor s ln col.
Proof.
  unfold skipWhitespace. simpl. destruct s as [|ch s]; simpl; [done|].
  by intros ->.
Qed.

Lemma skipWhitespace_app (ws s : list ascii) (ln col : nat) :
  forallb is_space ws = true ->
  match s with ch :: _ => is_space ch = false | [] => True end ->
  exists ln' col', skipWhitespace (Cursor (ws ++ s) ln col) = Cursor s ln' col'.
Proof.
  intros Hws Hs. unfold skipWhitespace. simpl.
  destruct (scan_lines_app is_space ws s ln col Hws Hs) as (ln' & col' & ->).
  eauto.
Qed.

(** ** The markup parser terminates *)

Lemma consume_unread e c c' : consume e c = Some c' -> unread c = length e + unread c'.
Proof. apply consume_length. Qed.

Lemma scan_column_unread test c taken c' :
  scan_column test (rest c) (line c) (column c) = (taken, c') ->
  unread c = length taken + unread c'.
Proof.
  intros (E & _)%scan_column_spec. unfold unread. by rewrite E, length_app.
Qed.

Lemma scan_lines_unread test s ln col taken c' :
  scan_lines test s ln col = (taken, c') -> length s = length taken + unread c'.
Proof.
  intros (E & _)%scan_lines_spec. unfold unread. by rewrite E, length_app.
Qed.

Lemma skipWhitespace_unread c : unread (skipWhitespace c) <= unread c.
Proof. apply skipWhitespace_length. Qed.

Lemma parseAttributeValue_Ok c v c' :
  parseAttributeValue c = Ok (v, c') -> unread c' + 2 <= unread c.
Proof.
  unfold parseAttributeValue.
  destruct (consume [dquote] c) as [c1|] eqn:E1.
  - destruct (scan_lines _ (rest c1) _ _) as [val c2] eqn:E2.
    destruct (consume [dquote] c2) as [c3|] eqn:E3; [|done].
    intros [= <- <-]. apply consume_unread in E1, E3.
    apply scan_lines_unread in E2. unfold unread in *. simpl in *. lia.
  - destruct (consume [squote] c) as [c1|] eqn:E1'; [|done].
    destruct (scan_lines _ (rest c1) _ _) as [val c2] eqn:E2.
    destruct (consume [squote] c2) as [c3|] eqn:E3; [|done].
    intros [= <- <-]. apply consume_unread in E1', E3.
    apply scan_lines_unread in E2. unfold unread in *. simpl in *. lia.
Qed.

Lemma parseAttributeValue_total c : parseAttributeValue c <> OutOfFuel.
Proof.
  unfold parseAttributeValue.
  destruct (consume [dquote] c) as [c1|].
  - destruct (scan_lines _ (rest c1) _ _) as [val c2].
    by destruct (consume [dquote] c2).
  - destruct (consume [squote] c) as [c1|]; [|done].
    destruct (scan_lines _ (rest c1) _ _) as [val c2].
    by destruct (consume [squote] c2).
Qed.

Ltac thrown := cbn [bind]; unfold raise; split; [discriminate | intros ? ? ?; discriminate].

Lemma parseAttributes_loop_total fuel : forall acc c,
  unread c <= fuel ->
  parseAttributes_loop fuel acc c <> OutOfFuel
  /\ forall a c', parseAttributes_loop fuel acc c = Ok (a, c') -> unread c' <= unread c.
Proof.
  induction fuel as [|fuel IH]; intros acc c Hf; simpl.
  - destruct (loop_guard_attributes c) eqn:G.
    + unfold loop_guard_attributes, unread in *. destruct (rest c); simpl in *; [done|lia].
    + split; [done|]. by intros a c' [= <- <-].
  - destruct (loop_guard_attributes c) eqn:G.
    2:{ split; [done|]. by intros a c' [= <- <-]. }
    destruct (parseAttributeName c) as [name c1] eqn:E1.
    apply scan_column_unread in E1.
    destruct (consume (lit "=") c1) as [c2|] eqn:E2; [|thrown].
    apply consume_unread in E2. simpl in E2.
    pose proof (parseAttributeValue_total c2) as Ht.
    destruct (parseAttributeValue c2) as [[v c3]| |] eqn:E3; [|thrown|done].
    simpl. apply parseAttributeValue_Ok in E3.
    pose proof (skipWhitespace_unread c3).
    destruct (IH (obj_set name v acc) (skipWhitespace c3)) as [IH1 IH2]; [lia|].
    split; [done|]. intros a c' Hr. apply IH2 in Hr. lia.
Qed.

Lemma parseAttributes_total c :
  parseAttributes c <> OutOfFuel
  /\ forall a c', parseAttributes c = Ok (a, c') -> unread c' <= unread c.
Proof.
  unfold parseAttributes. pose proof (skipWhitespace_unread c).
  destruct (parseAttributes_loop_total (length (rest c)) [] (skipWhitespace c)) as [H1 H2];
    [done|].
  split; [done|]. intros a c' Hr. apply H2 in Hr. lia.
Qed.

Lemma skipComment_loop_unread s : forall ln col,
  unread (skipComment_loop s ln col) <= length s.
Proof.
  induction s as [|ch s IH]; intros ln col; cbn [skipComment_loop]; [done|].
  destruct (starts_with (lit "-->") (ch :: s)) eqn:E.
  - unfold unread. cbn [rest]. rewrite length_drop. simpl. lia.
  - destruct (char_eqb ch newline); (etrans; [apply IH|]); simpl; lia.
Qed.

Lemma skipComment_unread c :
  starts_with (lit "<!--") (rest c) = true -> unread (skipComment c) + 4 <= unread c.
Proof.
  intros E%starts_with_inv. unfold skipComment.
  pose proof (skipComment_loop_unread (drop 4 (rest c)) (line c) (column c + 4)).
  unfold unread in *. rewrite E at 2. rewrite length_app. simpl in *. lia.
Qed.

Lemma parseText_unread c text c' :
  parseText c = (text, c') -> unread c = length text + unread c'.
Proof. unfold parseText. apply scan_lines_unread. Qed.

Lemma parseText_progress c text c' :
  parseText c = (text, c') -> TXML.head_is "<" c = false -> unread c' < unread c \/ rest c = [].
Proof.
  unfold parseText, TXML.head_is, unread. destruct (rest c) as [|ch s]; [by right|].
  intros E Hh. left. simpl in E. rewrite Hh in E. simpl in E.
  destruct (char_eqb ch newline);
    [destruct (scan_lines _ s (S (line c)) 1) as [t c''] eqn:E'
    |destruct (scan_lines _ s (line c) (S (column c))) as [t c''] eqn:E'];
    injection E as <- <-; apply scan_lines_unread in E'; unfold unread in *; simpl; lia.
Qed.

Lemma parseTagName_unread c t c' : parseTagName c = (t, c') -> unread c = length t + unread c'.
Proof. apply scan_column_unread. Qed.

(** Enough fuel: more than the unread characters for an element, one more
    than that for a list of children. *)
Lemma parse_fuel_enough (n : nat) :
  (forall c, unread c < n ->
     parseElement n c <> OutOfFuel
     /\ forall e c', parseElement n c = Ok (e, c') -> unread c' < unread c)
  /\ (forall acc c, unread c + 1 < n ->
     parseChildren_loop n acc c <> OutOfFuel
     /\ forall cs c', parseChildren_loop n acc c = Ok (cs, c') -> unread c' <= unread c).
Proof.
  induction n as [|n [IHe IHc]]; [split; intros; lia|]. split.
  - intros c Hn. simpl.
    destruct (consume (lit "<") c) as [c1|] eqn:E1; [|thrown].
    apply consume_unread in E1. simpl in E1.
    destruct (parseTagName c1) as [t c2] eqn:E2. apply parseTagName_unread in E2.
    destruct (parseAttributes_total c2) as [Ha1 Ha2].
    destruct (parseAttributes c2) as [[a c3]| |] eqn:E3; [|thrown|done].
    specialize (Ha2 _ _ eq_refl). simpl.
    destruct (consume (lit "/>") c3) as [c4|] eqn:E4.
    { apply consume_unread in E4. simpl in E4. split; [done|].
      intros e c' [= <- <-]. lia. }
    destruct (consume (lit ">") c3) as [c4|] eqn:E5; [|thrown].
    apply consume_unread in E5. simpl in E5.
    destruct (IHc [] c4) as [Hc1 Hc2]; [lia|].
    destruct (parseChildren_loop n [] c4) as [[cs c5]| |] eqn:E6; [|thrown|done].
    specialize (Hc2 _ _ eq_refl). simpl.
    destruct (consume (lit "</") c5) as [c6|] eqn:E7; [|thrown].
    apply consume_unread in E7. simpl in E7.
    destruct (parseTagName c6) as [t' c7] eqn:E8. apply parseTagName_unread in E8.
    destruct (decide (t' = t)); [|thrown].
    destruct (consume (lit ">") c7) as [c8|] eqn:E9; [|thrown].
    apply consume_unread in E9. simpl in E9. split; [done|].
    intros e' c' [= <- <-]. lia.
  - intros acc c Hn. cbn [parseChildren_loop].
    destruct (rest c) as [|ch s] eqn:Er.
    { split; [done|]. by intros cs c' [= <- <-]. }
    assert (0 < unread c) by (unfold unread; rewrite Er; simpl; lia).
    pose proof (skipWhitespace_unread c) as Hw.
    destruct (starts_with (lit "</") (rest (skipWhitespace c))).
    { split; [done|]. by intros cs c' [= <- <-]. }
    destruct (TXML.head_is "<" (skipWhitespace c)) eqn:Hh.
    + destruct (starts_with (lit "<!--") (rest (skipWhitespace c))) eqn:Hc.
      * apply skipComment_unread in Hc.
        destruct (IHc acc (skipComment (skipWhitespace c))) as [H1 H2]; [lia|].
        split; [done|]. intros cs c' Hr. apply H2 in Hr. lia.
      * destruct (IHe (skipWhitespace c)) as [H1 H2]; [lia|].
        destruct (parseElement n (skipWhitespace c)) as [[e c2]| |] eqn:E; [|thrown|done].
        specialize (H2 _ _ eq_refl). cbn [bind].
        destruct (IHc (acc ++ [ChildElement e]) c2) as [H3 H4]; [lia|].
        split; [done|]. intros cs c' Hr. apply H4 in Hr. lia.
    + destruct (parseText (skipWhitespace c)) as [text c2] eqn:E.
      pose proof (parseText_unread _ _ _ E) as Hl.
      assert (unread c2 < unread c) as Hlt.
      { destruct (parseText_progress _ _ _ E Hh) as [?|He]; [lia|].
        unfold unread in *. rewrite He in *. simpl in *. lia. }
      match goal with |- context [parseChildren_loop n ?a c2] =>
        destruct (IHc a c2) as [H3 H4]; [lia|] end.
      split; [done|]. intros cs c' Hr. apply H4 in Hr. lia.
Qed.

(** Fuel beyond what a run needs does not change its outcome. *)
Lemma parse_fuel_more (n : nat) :
  (forall c r m, parseElement n c = r -> r <> OutOfFuel -> n <= m -> parseElement m c = r)
  /\ (forall acc c r m, parseChildren_loop n acc c = r -> r <> OutOfFuel -> n <= m ->
        parseChildren_loop m acc c = r).
Proof.
  induction n as [|n [IHe IHc]]; [split; intros; simpl in *; [congruence|]|].
  { destruct m; simpl in *; destruct (rest c); congruence. }
  split.
  - intros c r [|m] Hr Hne Hm; [lia|]. simpl in *.
    destruct (consume (lit "<") c) as [c1|]; [|done].
    destruct (parseTagName c1) as [t c2].
    destruct (parseAttributes c2) as [[a c3]| |]; [|done|done]. simpl in *.
    destruct (consume (lit "/>") c3) as [c4|]; [done|].
    destruct (consume (lit ">") c3) as [c4|]; [|done].
    destruct (parseChildren_loop n [] c4) as [[cs c5]| |] eqn:E.
    + by rewrite (IHc [] c4 _ m E) by (done || lia).
    + by rewrite (IHc [] c4 _ m E) by (done || lia).
    + simpl in Hr. congruence.
  - intros acc c r [|m] Hr Hne Hm; [lia|]. cbn [parseChildren_loop] in *.
    destruct (rest c) as [|ch s]; [done|].
    destruct (starts_with (lit "</") (rest (skipWhitespace c))); [done|].
    destruct (TXML.head_is "<" (skipWhitespace c)).
    + destruct (starts_with (lit "<!--") (rest (skipWhitespace c))).
      * apply IHc; (done || lia).
      * destruct (parseElement n (skipWhitespace c)) as [[e c2]| |] eqn:E.
        -- rewrite (IHe _ _ m E) by (done || lia). cbn [bind] in *. apply IHc; (done || lia).
        -- by rewrite (IHe _ _ m E) by (done || lia).
        -- simpl in Hr. congruence.
    + destruct (parseText (skipWhitespace c)) as [text c2].
      apply IHc; (done || lia).
Qed.

Theorem parse_total (xml : list ascii) : parse xml <> OutOfFuel.
Proof.
  unfold parse.
  destruct (negb (TXML.head_is "<" (skipWhitespace (start_of (trim xml))))); [done|].
  pose proof (skipWhitespace_unread (start_of (trim xml))) as Hw.
  destruct (parse_fuel_enough (S (length (trim xml)))) as [He _].
  destruct (He (skipWhitespace (start_of (trim xml)))) as [H1 _].
  { unfold unread in *. simpl in *. lia. }
  destruct (parseElement _ _) as [[root c1]| |]; [|done|done]. cbn [bind].
  destruct (decide (tag root = lit "App")); [|done].
  by destruct (truthy (rest (skipWhitespace c1))).
Qed.

(** An element parsed with some fuel is parsed with any sufficient fuel. *)
Lemma parseElement_stable (n m : nat) (c : cursor) (r : TXMLElement * cursor) :
  parseElement n c = Ok r -> unread c < m -> parseElement m c = Ok r.
Proof.
  intros Hn Hm. destruct (le_ge_dec n m) as [Hle|Hge].
  - by apply (proj1 (parse_fuel_more n) c (Ok r) m).
  - destruct (parse_fuel_enough m) as [He _]. destruct (He c Hm) as [Hne _].
    pose proof (proj1 (parse_fuel_more m) c _ n eq_refl Hne Hge) as Heq.
    congruence.
Qed.

(** ** The root element *)

(** C5.  When the root element of a markup text is well-formed (the element
    parser accepts it), [parse] throws if its tag is not [App], with the
    message that the root must be [App]; and it throws if anything but
    whitespace follows the root element. *)
Theorem parse_rejects_bad_root (xml : list ascii) (n : nat) (root : TXMLElement)
    (c1 : cursor) :
  parseElement n (skipWhitespace (start_of (trim xml))) = Ok (root, c1) ->
  (tag root <> lit "App" ->
     exists e, parse xml = Throw e /\ message e = lit "Root element must be <App>")
  /\ ((exists ch, ch ∈ rest c1 /\ is_space ch = false) ->
     exists e, parse xml = Throw e).
Proof.
  intros Hroot.
  assert (TXML.head_is "<" (skipWhitespace (start_of (trim xml))) = true) as Hh.
  { destruct n; [done|]. cbn [parseElement] in Hroot.
    destruct (consume (lit "<") _) as [c'|] eqn:E; [|done].
    apply consume_Some in E as [E _]. unfold TXML.head_is. by rewrite E. }
  assert (parseElement (S (length (trim xml))) (skipWhitespace (start_of (trim xml)))
          = Ok (root, c1)) as Hfull.
  { eapply parseElement_stable; [done|].
    pose proof (skipWhitespace_unread (start_of (trim xml))).
    unfold unread in *. simpl in *. lia. }
  unfold parse. rewrite Hh, Hfull. cbn [negb bind]. split.
  - intros Htag. destruct (decide (tag root = lit "App")); [done|].
    eexists. by split.
  - intros (ch & Hin & Hsp).
    destruct (decide (tag root = lit "App")); [|by eexists].
    destruct (skipWhitespace_spec c1) as (ws & Hrest & Hws & _).
    destruct (rest (skipWhitespace c1)) eqn:Er; [|by eexists].
    rewrite app_nil_r in Hrest. rewrite Hrest in Hin.
    rewrite forallb_forall in Hws. apply list_elem_of_In, Hws in Hin. congruence.
Qed.

Lemma parse_rejects_bad_root_witness :
  (exists e, parse (lit " <Window title='w'>x</Window> ") = Throw e
             /\ message e = lit "Root element must be <App>")
  /\ (exists e, parse (lit "<App></App> <Body />") = Throw e).
Proof.
  split.
  - refine (proj1 (parse_rejects_bad_root (lit " <Window title='w'>x</Window> ") 3
                     (Element (lit "Window") [(lit "title", lit "w")] [ChildText (lit "x")])
                     (Cursor [] 1 29) _) _).
    + vm_compute. reflexivity.
    + vm_compute. discriminate.
  - refine (proj2 (parse_rejects_bad_root (lit "<App></App> <Body />") 3
                     (Element (lit "App") [] [])
                     (Cursor (lit " <Body />") 1 12) _) _).
    + vm_compute. reflexivity.
    + exists "<"%char. split; [|reflexivity]. vm_compute. set_solver.
Defined.

(** ** Mismatched closing tags *)

Lemma closes_mismatch (n : nat) (c : cursor) (opened closing : list ascii) :
  closes n c opened closing -> closing <> opened ->
  exists e, parseElement (S n) c = Throw e
            /\ message e = mismatch_message opened closing.
Proof.
  intros [c4 c5 c6 c7 cs [c1 c2 c3 a H1 H2 H3 H4 H5] H6 H7 H8] Hne.
  cbn [parseElement]. rewrite H1, H2, H3. cbn [bind]. rewrite H4, H5, H6.
  cbn [bind]. rewrite H7, H8. destruct (decide (closing = opened)); [done|].
  eexists. by split.
Qed.

Lemma child_at_throw (n : nat) (c : cursor) (m : nat) (c' : cursor) (e : ParseError) :
  child_at n c m c' -> parseElement m c' = Throw e ->
  forall acc, parseChildren_loop n acc c = Throw e.
Proof.
  intros Hat He. induction Hat as
    [n c Hr H1 H2 H3 | n c m c' Hr H1 H2 H3 _ IH
    | n c el c2 m c' Hr H1 H2 H3 H4 _ IH | n c text c2 m c' Hr H1 H2 H3 _ IH];
    intros acc; cbn [parseChildren_loop];
    (destruct (rest c) eqn:Er; [done|]); rewrite H1, H2.
  - by rewrite H3, He.
  - rewrite H3. by apply IH.
  - rewrite H3, H4. cbn [bind]. by apply IH.
  - rewrite H3. by apply IH.
Qed.

Lemma element_at_throw (xml : list ascii) (m : nat) (c : cursor) (e : ParseError) :
  element_at xml m c -> parseElement m c = Throw e -> parse xml = Throw e.
Proof.
  intros Hat. revert e. induction Hat as [Hh | n c tag c4 m c' _ IH Ho Hc]; intros e He.
  - unfold parse. by rewrite Hh, He.
  - apply IH. destruct Ho as [c1 c2 c3 a H1 H2 H3 H4 H5].
    cbn [parseElement]. rewrite H1, H2, H3. cbn [bind]. rewrite H4, H5.
    by rewrite (child_at_throw _ _ _ _ _ Hc He).
Qed.

(** C6.  Whenever the parser, at the root or at any depth below it, meets
    an element opened as [opened] whose closing tag names a different
    [closing], [parse] throws, and the message holds both names. *)
Theorem parse_rejects_mismatched_tag (xml : list ascii) (n : nat) (c : cursor)
    (opened closing : list ascii) :
  element_at xml (S n) c ->
  closes n c opened closing ->
  closing <> opened ->
  exists e, parse xml = Throw e
            /\ message e = mismatch_message opened closing
            /\ contains opened (message e) /\ contains closing (message e).
Proof.
  intros Hat Hcl Hne.
  destruct (closes_mismatch _ _ _ _ Hcl Hne) as (e & He & Hm).
  exists e. split; [by eapply element_at_throw|]. split; [done|].
  rewrite Hm. unfold mismatch_message. split.
  - by eexists _, _.
  - exists (lit "Mismatched closing tag: expected </" ++ opened ++ lit "> but found </"),
      (lit ">"). by rewrite <- !app_assoc.
Qed.

Lemma parse_rejects_mismatched_tag_witness :
  exists e, parse (lit "<App><Body> <Window>x</Body></App>") = Throw e
            /\ message e = mismatch_message (lit "Window") (lit "Body")
            /\ contains (lit "Window") (message e) /\ contains (lit "Body") (message e).
Proof.
  apply (parse_rejects_mismatched_tag (lit "<App><Body> <Window>x</Body></App>") 30
           (Cursor (lit "<Window>x</Body></App>") 1 13)).
  - apply (child_element _ 32 (Cursor (lit "<Body> <Window>x</Body></App>") 1 6)
             (lit "Body") (Cursor (lit " <Window>x</Body></App>") 1 12)).
    + apply (child_element _ 34 (Cursor (lit "<App><Body> <Window>x</Body></App>") 1 1)
               (lit "App") (Cursor (lit "<Body> <Window>x</Body></App>") 1 6)).
      * exact (root_element (lit "<App><Body> <Window>x</Body></App>") eq_refl).
      * by eapply Opens; vm_compute.
      * by apply child_here; vm_compute.
    + by eapply Opens; vm_compute.
    + by apply child_here; vm_compute.
  - eapply Closes; [by eapply Opens; vm_compute|by vm_compute..].
  - by vm_compute.
Defined.

(** ** Text children *)

Lemma drop_spaces_nil (s : list ascii) : drop_spaces s = [] -> forallb is_space s = true.
Proof.
  induction s as [|ch s IH]; simpl; [done|].
  destruct (is_space ch); [done|discriminate].
Qed.

Lemma text_run_truthy (text : list ascii) :
  match text with ch :: _ => is_space ch = false | [] => False end ->
  truthy (trim text) = true.
Proof.
  destruct text as [|ch t]; [done|]. intros Hch. unfold trim.
  cbn [drop_spaces]. rewrite Hch.
  destruct (drop_spaces (rev (ch :: t))) as [|x l] eqn:E.
  - apply drop_spaces_nil in E. rewrite forallb_forall in E.
    specialize (E ch). rewrite <- in_rev in E. rewrite E in Hch; [done|by left].
  - cbn [rev]. by destruct (rev l).
Qed.

Lemma parseChildren_loop_end (n : nat) (acc : list Child) (c : cursor) :
  rest c = [] -> parseChildren_loop n acc c = Ok (acc, c).
Proof. intros E. destruct n; cbn [parseChildren_loop]; by rewrite E. Qed.

(** The text child keeps the whitespace in front of the closing tag: it is
    not the trimmed string. *)
Lemma text_child_not_trimmed :
  parse (lit "<App>hi </App>") = Ok (Element (lit "App") [] [ChildText (lit "hi ")])
  /\ trim (lit "hi ") <> lit "hi ".
Proof. split; [by vm_compute|]. vm_compute. discriminate. Qed.

(** ** Serialising and parsing again *)

Import JSX.

Lemma plain_children (tag : list ascii) (a : list (list ascii * list ascii))
    (cs : list Child) :
  plain (Element tag a cs) ->
  name_like tag /\ plain_attributes a /\ texts_apart cs /\ Forall plain_child cs.
Proof.
  cbn [plain]. intros (Ht & Ha & Hap & Hall). refine (conj Ht (conj Ha (conj Hap _))).
  clear Hap. induction cs as [|[e|s] cs IH]; constructor; simpl; tauto.
Qed.

Lemma jsxToTXML_unfold (tag : list ascii) (a : list (list ascii * list ascii))
    (cs : list Child) :
  jsxToTXML (Element tag a cs)
  = match cs with
    | [] => lit "<" ++ tag ++ attrs_text a ++ lit " />"
    | _ :: _ =>
        lit "<" ++ tag ++ attrs_text a ++ lit ">" ++ concat (map child_text cs)
        ++ lit "</" ++ tag ++ lit ">"
    end.
Proof. reflexivity. Qed.

(** Induction over elements, with the children elements as hypotheses. *)
Lemma TXMLElement_induction (P : TXMLElement -> Prop) :
  (forall tag a cs,
      Forall (fun child => match child with
                           | ChildElement e => P e
                           | ChildText _ => True
                           end) cs ->
      P (Element tag a cs)) ->
  forall e, P e.
Proof.
  intros H. fix IH 1. intros [tag a cs]. apply H.
  induction cs as [|[e|s] cs IHcs]; constructor; auto.
Qed.

(** *** Cursor steps over a known prefix *)

Lemma consume_prefix (e s : list ascii) (c : cursor) :
  rest c = e ++ s -> exists c', consume e c = Some c' /\ rest c' = s.
Proof.
  destruct c as [r ln col]. cbn [rest]. intros ->. rewrite consume_app. eauto.
Qed.

Lemma consume_None (e : list ascii) (c : cursor) :
  starts_with e (rest c) = false -> consume e c = None.
Proof. unfold consume. by intros ->. Qed.

Lemma scan_column_prefix (test : ascii -> bool) (taken s : list ascii) (c : cursor) :
  rest c = taken ++ s -> forallb test taken = true ->
  match s with ch :: _ => test ch = false | [] => True end ->
  exists c', scan_column test (rest c) (line c) (column c) = (taken, c') /\ rest c' = s.
Proof.
  intros -> Ht Hs. rewrite scan_column_app by done. eauto.
Qed.

Lemma scan_lines_prefix (test : ascii -> bool) (taken s : list ascii) (c : cursor) :
  rest c = taken ++ s -> forallb test taken = true ->
  match s with ch :: _ => test ch = false | [] => True end ->
  exists c', scan_lines test (rest c) (line c) (column c) = (taken, c') /\ rest c' = s.
Proof.
  intros -> Ht Hs.
  destruct (scan_lines_app test taken s (line c) (column c) Ht Hs) as (ln' & col' & ->).
  eauto.
Qed.

Lemma skipWhitespace_prefix (ws s : list ascii) (c : cursor) :
  rest c = ws ++ s -> forallb is_space ws = true ->
  match s with ch :: _ => is_space ch = false | [] => True end ->
  rest (skipWhitespace c) = s.
Proof.
  intros Hr Hws Hs. unfold skipWhitespace.
  destruct (scan_lines_prefix is_space ws s c Hr Hws Hs) as (c' & -> & Hc'). done.
Qed.

Lemma skipWhitespace_none (c : cursor) :
  match rest c with ch :: _ => is_space ch = false | [] => True end ->
  skipWhitespace c = c.
Proof. destruct c as [r ln col]. apply skipWhitespace_stop. Qed.

(** *** Attributes *)

Lemma name_char_plain (ch : ascii) :
  is_name_char ch = true ->
  is_space ch = false /\ char_eqb ch "=" = false /\ char_eqb ch ">" = false
  /\ char_eqb ch "/" = false /\ char_eqb ch "<" = false /\ char_eqb ch "!" = false.
Proof. destruct ch as [[] [] [] [] [] [] [] []]; vm_compute; intuition discriminate. Qed.

Lemma replace_all_id (ch : ascii) (by_ s : list ascii) :
  forallb (fun ch' => negb (char_eqb ch' ch)) s = true -> replace_all ch by_ s = s.
Proof.
  unfold replace_all. induction s as [|x s IH]; simpl; [done|].
  intros [Hx Hs]%andb_prop. apply negb_true_iff in Hx. rewrite Hx. simpl.
  by rewrite IH.
Qed.

Lemma forallb_weaken {A} (f g : A -> bool) (l : list A) :
  (forall x, f x = true -> g x = true) -> forallb f l = true -> forallb g l = true.
Proof. intros H. rewrite !forallb_forall. auto. Qed.

Lemma escape_plain (v : list ascii) : plain_value v -> escape v = v.
Proof.
  intros Hv. unfold escape.
  assert (forall x, special x = true ->
                    forallb (fun ch => negb (char_eqb ch x)) v = true) as Hx.
  { intros x Hsp. eapply forallb_weaken; [|exact Hv]. intros ch Hch.
    apply negb_true_iff, char_eqb_neq. intros ->. by rewrite Hsp in Hch. }
  by rewrite (replace_all_id "&"), (replace_all_id dquote), (replace_all_id squote),
    (replace_all_id "<"), (replace_all_id ">") by (by apply Hx).
Qed.

Lemma plain_value_no_quote (v : list ascii) :
  plain_value v -> forallb (fun ch => negb (char_eqb ch dquote)) v = true.
Proof.
  apply forallb_weaken. intros ch. unfold special.
  rewrite !negb_orb, !andb_true_iff. tauto.
Qed.

Lemma obj_set_fresh (k v : list ascii) (o : list (list ascii * list ascii)) :
  k <> proto_key -> k ∉ map fst o -> obj_set k v o = o ++ [(k, v)].
Proof.
  intros Hp Hk. unfold obj_set. destruct (decide (k = proto_key)); [done|].
  assert (assoc_update k v o = None) as ->; [|done].
  induction o as [|[k' v'] o IH]; simpl in *; [done|].
  apply not_elem_of_cons in Hk as [Hne Hk].
  destruct (decide (k' = k)) as [->|]; [done|]. by rewrite IH.
Qed.

(** Reading one attribute as [jsxToTXML] writes it. *)
Lemma parseAttribute_printed (k v s : list ascii) (c : cursor) :
  rest c = attr_text (k, v) ++ s -> plain_key k -> plain_value v ->
  exists c1 c2 c3,
    parseAttributeName c = (k, c1) /\ consume (lit "=") c1 = Some c2
    /\ parseAttributeValue c2 = Ok (v, c3) /\ rest c3 = s
    /\ loop_guard_attributes c = true.
Proof.
  intros Hr (Hk & _) Hv. unfold attr_text in Hr. cbn [fst snd] in Hr.
  rewrite (escape_plain v Hv), <- !app_assoc in Hr.
  destruct (scan_column_prefix is_name_char k _ c Hr Hk) as (c1 & E1 & Hr1); [done|].
  destruct (consume_prefix _ _ _ Hr1) as (c2 & E2 & Hr2).
  assert (exists c2', consume [dquote] c2 = Some c2' /\ rest c2' = v ++ [dquote] ++ s)
    as (c2' & E3 & Hr3) by (by apply consume_prefix).
  destruct (scan_lines_prefix (fun ch => negb (char_eqb ch dquote)) v _ c2' Hr3)
    as (c2'' & E4 & Hr4); [by apply plain_value_no_quote|done|].
  destruct (consume_prefix [dquote] s c2'' Hr4) as (c3 & E5 & Hr5).
  exists c1, c2, c3. repeat split; try done.
  - unfold parseAttributeValue. by rewrite E3, E4, E5.
  - unfold loop_guard_attributes. rewrite Hr. destruct k as [|ch k]; [done|].
    simpl in Hk. apply andb_prop in Hk as [Hch _]. cbn [app].
    apply name_char_plain in Hch as (_ & _ & -> & -> & _). done.
Qed.

Lemma join_cons (sep p : list ascii) (ps : list (list ascii)) :
  join sep (p :: ps) = p ++ match ps with [] => [] | _ :: _ => sep ++ join sep ps end.
Proof. destruct ps; simpl; [by rewrite app_nil_r|done]. Qed.

Lemma attrs_head (kv : list ascii * list ascii)
    (a : list (list ascii * list ascii)) (s : list ascii) :
  plain_key (fst kv) ->
  match join (lit " ") (map attr_text (kv :: a)) ++ s with
  | ch :: _ => is_space ch = false
  | [] => True
  end.
Proof.
  intros (Hk & _). cbn [map]. rewrite join_cons. unfold attr_text at 1.
  destruct (fst kv) as [|ch k']; [done|]. simpl in Hk.
  apply andb_prop in Hk as [Hch _]. cbn [app].
  by apply name_char_plain in Hch as (-> & _).
Qed.

Lemma parseAttributes_loop_printed (a : list (list ascii * list ascii)) :
  forall fuel acc c ws s,
    length a <= fuel ->
    rest c = join (lit " ") (map attr_text a) ++ ws ++ s ->
    (a = [] -> ws = []) -> all_space ws -> closes_tag s ->
    Forall (fun kv => plain_key (fst kv) /\ plain_value (snd kv)) a ->
    exists c', parseAttributes_loop fuel acc c
               = Ok (fold_left (fun o kv => obj_set (fst kv) (snd kv) o) a acc, c')
               /\ rest c' = s.
Proof.
  induction a as [|[k v] a IH]; intros fuel acc c ws s Hf Hr Hws Hsp Hs Hpl.
  - rewrite (Hws eq_refl) in Hr. simpl in Hr. exists c. split; [|done].
    assert (loop_guard_attributes c = false) as Hg.
    { unfold loop_guard_attributes. rewrite Hr. destruct s as [|ch s]; [done|].
      by destruct Hs as [-> | ->]. }
    destruct fuel; cbn [parseAttributes_loop]; by rewrite Hg.
  - destruct fuel as [|fuel]; [simpl in Hf; lia|].
    apply Forall_cons in Hpl as [[Hk Hv] Hpl]. cbn [fst snd] in Hk, Hv.
    cbn [map] in Hr. rewrite join_cons, <- app_assoc in Hr.
    destruct (parseAttribute_printed k v _ c Hr Hk Hv)
      as (c1 & c2 & c3 & E1 & E2 & E3 & Hr3 & Hg).
    cbn [parseAttributes_loop]. rewrite Hg, E1, E2, E3. cbn [bind fold_left fst snd].
    destruct a as [|kv a].
    + simpl in Hr3.
      assert (rest (skipWhitespace c3) = s) as Hr4.
      { apply (skipWhitespace_prefix ws); [done..|].
        destruct s as [|ch s]; [done|]. by destruct Hs as [-> | ->]. }
      apply (IH fuel _ _ [] s); simpl; try done. simpl in Hf. lia.
    + cbn [map] in Hr3. cbv iota in Hr3. rewrite <- app_assoc in Hr3.
      apply (IH fuel _ _ ws s); try done; [simpl in *; lia|].
      apply (skipWhitespace_prefix (lit " ")); [done|done|].
      apply Forall_cons in Hpl as [[Hk' _] _]. by apply attrs_head.
Qed.

Lemma fold_obj_set_fresh (a : list (list ascii * list ascii)) :
  forall acc,
    NoDup (map fst (acc ++ a)) ->
    Forall (fun kv => plain_key (fst kv) /\ plain_value (snd kv)) a ->
    fold_left (fun o kv => obj_set (fst kv) (snd kv) o) a acc = acc ++ a.
Proof.
  induction a as [|[k v] a IH]; intros acc Hnd Hpl; simpl; [by rewrite app_nil_r|].
  apply Forall_cons in Hpl as [[(_ & Hp) _] Hpl]. cbn [fst] in Hp.
  rewrite obj_set_fresh; [|done|].
  - rewrite IH; [by rewrite <- app_assoc| by rewrite <- app_assoc|done].
  - rewrite map_app in Hnd. apply NoDup_app in Hnd as (_ & Hd & _).
    intros Hin. apply (Hd k Hin). simpl. apply list_elem_of_here.
Qed.

Lemma attr_text_length (kv : list ascii * list ascii) : 1 <= length (attr_text kv).
Proof. unfold attr_text. rewrite !length_app. simpl. lia. Qed.

Lemma join_length (a : list (list ascii * list ascii)) :
  length a <= length (join (lit " ") (map attr_text a)).
Proof.
  induction a as [|kv a IH]; [done|]. cbn [map]. rewrite join_cons, length_app.
  pose proof (attr_text_length kv). destruct a as [|kv' a]; [simpl; lia|].
  cbn [map] in *. cbv iota. rewrite length_app. cbn [length] in *. lia.
Qed.

(** Reading the attributes of an opening tag as [jsxToTXML] writes them. *)
Lemma parseAttributes_printed (a : list (list ascii * list ascii)) (c : cursor)
    (ws s : list ascii) :
  rest c = attrs_text a ++ ws ++ s ->
  all_space ws -> closes_tag s -> plain_attributes a ->
  exists c', parseAttributes c = Ok (a, c') /\ rest c' = s.
Proof.
  intros Hr Hws Hs [Hnd Hpl]. unfold parseAttributes, attrs_text in *.
  assert (match s with ch :: _ => is_space ch = false | [] => True end) as Hstop.
  { destruct s as [|ch s]; [done|]. by destruct Hs as [-> | ->]. }
  destruct a as [|kv a].
  - simpl in Hr.
    pose proof (skipWhitespace_prefix ws s c Hr Hws Hstop) as Hsw.
    destruct (parseAttributes_loop_printed [] (length (rest c)) [] (skipWhitespace c) [] s)
      as (c' & E & Hc'); [simpl; lia|done|done|done|done|done|].
    exists c'. by split.
  - set (body := join (lit " ") (map attr_text (kv :: a))) in *.
    assert (truthy body = true) as Ht.
    { subst body. cbn [map]. rewrite join_cons. unfold attr_text at 1.
      destruct (fst kv); simpl; done. }
    rewrite Ht, <- app_assoc in Hr.
    assert (rest (skipWhitespace c) = body ++ ws ++ s) as Hsw.
    { apply (skipWhitespace_prefix (lit " ")); [done|done|].
      subst body. apply Forall_cons in Hpl as [[Hk' _] _]. by apply attrs_head. }
    destruct (parseAttributes_loop_printed (kv :: a) (length (rest c)) []
                (skipWhitespace c) ws s) as (c' & E & Hc'); [|done|done|done|done|done|].
    + rewrite Hr, !length_app. pose proof (join_length (kv :: a)) as Hj.
      fold body in Hj. lia.
    + exists c'. split; [|done]. rewrite E. do 2 f_equal.
      by apply (fold_obj_set_fresh (kv :: a) []).
Qed.

(** *** Elements *)

Lemma attrs_text_cases (a : list (list ascii * list ascii)) :
  attrs_text a = [] \/ exists s, attrs_text a = " "%char :: s.
Proof.
  unfold attrs_text. destruct (truthy _); [right; eexists; reflexivity|by left].
Qed.

Lemma after_tag (a : list (list ascii * list ascii)) (s : list ascii) :
  space_or_gt s -> space_or_gt (attrs_text a ++ s).
Proof.
  intros Hs. destruct (attrs_text_cases a) as [->|[s' ->]]; [done|]. by left.
Qed.

Lemma space_or_gt_stop (s : list ascii) :
  space_or_gt s -> match s with ch :: _ => is_name_char ch = false | [] => True end.
Proof. destruct s as [|ch s]; [done|]. by intros [-> | ->]. Qed.

(** The text of an element: [<], then a name character, a space or [>]. *)
Lemma jsxToTXML_head (e : TXMLElement) :
  name_like (tag e) ->
  exists ch body, jsxToTXML e = "<"%char :: ch :: body
                  /\ (is_name_char ch = true \/ ch = " "%char \/ ch = ">"%char).
Proof.
  destruct e as [t a cs]. cbn [tag]. intros Ht. rewrite jsxToTXML_unfold.
  assert (forall s, space_or_gt s ->
            exists ch body, lit "<" ++ t ++ attrs_text a ++ s = "<"%char :: ch :: body
              /\ (is_name_char ch = true \/ ch = " "%char \/ ch = ">"%char)) as H.
  { intros s Hs. destruct t as [|ch t].
    - pose proof (after_tag a s Hs) as Ha. simpl.
      destruct (attrs_text a ++ s) as [|ch body]; [done|].
      exists ch, body. split; [done|]. tauto.
    - simpl in Ht. apply andb_prop in Ht as [Hch _]. exists ch. eexists.
      split; [reflexivity|by left]. }
  destruct cs; apply H; [by left|by right].
Qed.

Lemma jsxToTXML_not_closing (e : TXMLElement) (s : list ascii) :
  name_like (tag e) ->
  starts_with (lit "</") (jsxToTXML e ++ s) = false
  /\ starts_with (lit "<!--") (jsxToTXML e ++ s) = false
  /\ is_space "<" = false.
Proof.
  intros (ch & body & -> & Hch)%jsxToTXML_head.
  change (lit "</") with ["<"; "/"]%char. change (lit "<!--") with ["<"; "!"; "-"; "-"]%char.
  cbn [app starts_with]. rewrite char_eqb_refl.
  destruct Hch as [Hch | [-> | ->]]; [|done..].
  apply name_char_plain in Hch as (_ & _ & _ & H1 & _ & H2).
  rewrite Ascii.eqb_sym in H1, H2. unfold char_eqb in *. by rewrite H1, H2.
Qed.

Lemma jsxToTXML_ends (e : TXMLElement) :
  exists body, jsxToTXML e = "<"%char :: body ++ [">"%char].
Proof.
  destruct e as [t a cs]. rewrite jsxToTXML_unfold. destruct cs.
  - exists (t ++ attrs_text a ++ lit " /"). change (lit " />") with (lit " /" ++ [">"%char]).
    change (lit "<") with ["<"%char]. by rewrite <- !app_assoc.
  - exists (t ++ attrs_text a ++ lit ">" ++ concat (map child_text (c :: cs)) ++ lit "</" ++ t).
    change (lit "<") with ["<"%char]. change (lit ">") with [">"%char] at 2.
    by rewrite <- !app_assoc.
Qed.

Lemma drop_spaces_stop (s : list ascii) :
  match s with ch :: _ => is_space ch = false | [] => True end -> drop_spaces s = s.
Proof. destruct s as [|ch s]; [done|]. simpl. by intros ->. Qed.

Lemma trim_jsxToTXML (e : TXMLElement) : trim (jsxToTXML e) = jsxToTXML e.
Proof.
  destruct (jsxToTXML_ends e) as [body ->]. unfold trim.
  rewrite (drop_spaces_stop ("<"%char :: body ++ [">"%char])) by reflexivity.
  replace (rev ("<"%char :: body ++ [">"%char]))
    with (">"%char :: rev ("<"%char :: body)).
  2:{ by rewrite app_comm_cons, rev_app_distr. }
  rewrite (drop_spaces_stop (">"%char :: rev ("<"%char :: body))) by reflexivity.
  change (rev (">"%char :: rev ("<"%char :: body)))
    with (rev (rev ("<"%char :: body)) ++ [">"%char]).
  by rewrite rev_involutive.
Qed.

Lemma children_head (cs : list Child) (s : list ascii) :
  Forall plain_child cs ->
  match cs with ChildText _ :: _ => False | _ => True end ->
  match concat (map child_text cs) ++ lit "</" ++ s with
  | ch :: _ => negb (char_eqb ch "<") = false
  | [] => True
  end.
Proof.
  intros Hpl Hap. destruct cs as [|[e|t] cs]; [done| |done].
  apply Forall_cons in Hpl as [He _]. cbn [map concat child_text].
  destruct e as [t a cs']. apply plain_children in He as (Ht & _).
  destruct (jsxToTXML_head (Element t a cs') Ht) as (ch & body & -> & _). done.
Qed.

Lemma texts_apart_tail (child : Child) (cs : list Child) :
  texts_apart (child :: cs) -> texts_apart cs.
Proof. destruct child, cs as [|[] ?]; simpl; tauto. Qed.

Lemma texts_apart_next (t : list ascii) (cs : list Child) :
  texts_apart (ChildText t :: cs) -> match cs with ChildText _ :: _ => False | _ => True end.
Proof. destruct cs as [|[] ?]; simpl; tauto. Qed.

Lemma parseChildren_loop_step (n : nat) (acc : list Child) (c : cursor) :
  rest c <> [] ->
  parseChildren_loop (S n) acc c
  = let c1 := skipWhitespace c in
    if starts_with (lit "</") (rest c1) then Ok (acc, c1)
    else if TXML.head_is "<" c1 then
      if starts_with (lit "<!--") (rest c1)
      then parseChildren_loop n acc (skipComment c1)
      else
        try (child, c2) <- parseElement n c1;
        parseChildren_loop n (acc ++ [ChildElement child]) c2
    else
      let '(text, c2) := parseText c1 in
      parseChildren_loop n
        (if truthy (trim text) then acc ++ [ChildText text] else acc) c2.
Proof. intros Hr. cbn [parseChildren_loop]. by destruct (rest c). Qed.

(** Reading the children of an element as [jsxToTXML] writes them. *)
Lemma parseChildren_printed (cs : list Child) :
  Forall (fun child =>
            match child with
            | ChildElement e =>
                plain e -> forall n c tail,
                  rest c = jsxToTXML e ++ tail -> unread c < n ->
                  exists c', parseElement n c = Ok (e, c') /\ rest c' = tail
            | ChildText _ => True
            end) cs ->
  Forall plain_child cs -> texts_apart cs ->
  forall n acc c tail,
    rest c = concat (map child_text cs) ++ lit "</" ++ tail ->
    unread c + 1 < n ->
    exists c', parseChildren_loop n acc c = Ok (acc ++ cs, c')
               /\ rest c' = lit "</" ++ tail.
Proof.
  induction cs as [|child cs IH]; intros HIH Hpl Hap n acc c tail Hr Hn;
    (destruct n as [|n]; [lia|]).
  - cbn [map concat app] in Hr. rewrite parseChildren_loop_step by (by rewrite Hr).
    cbv zeta. rewrite skipWhitespace_none by (by rewrite Hr).
    rewrite Hr, starts_with_app. exists c. by rewrite app_nil_r, Hr.
  - apply Forall_cons in HIH as [HIHe HIH]. apply Forall_cons in Hpl as [Hch Hpl].
    pose proof (texts_apart_tail _ _ Hap) as Hap'.
    cbn [map concat] in Hr. rewrite <- app_assoc in Hr.
    destruct child as [e|t]; cbn [child_text plain_child] in *.
    + assert (name_like (tag e)) as Ht.
      { destruct e as [t a cs']. by apply plain_children in Hch as (Ht & _). }
      destruct (jsxToTXML_not_closing e (concat (map child_text cs) ++ lit "</" ++ tail) Ht)
        as (Hn1 & Hn2 & _).
      destruct (jsxToTXML_head e Ht) as (ch & body & Hhd & _).
      rewrite <- Hr in Hn1, Hn2.
      assert (TXML.head_is "<" c = true) as Hh.
      { unfold TXML.head_is. by rewrite Hr, Hhd. }
      rewrite parseChildren_loop_step by (by rewrite Hr, Hhd).
      cbv zeta. rewrite skipWhitespace_none by (by rewrite Hr, Hhd).
      rewrite Hn1, Hh, Hn2.
      destruct (HIHe Hch n c _ Hr) as (c2 & E & Hr2); [clear -Hn; lia|].
      rewrite E. cbn [bind].
      destruct (IH HIH Hpl Hap' n (acc ++ [ChildElement e]) c2 tail Hr2) as (c' & E' & Hr').
      { assert (length (rest c) = length (jsxToTXML e) + length (rest c2)) as Hl
          by (by rewrite Hr, Hr2, length_app).
        assert (1 <= length (jsxToTXML e)) by (rewrite Hhd; simpl; lia).
        unfold unread in *. clear -Hn Hl H. lia. }
      exists c'. rewrite E', <- app_assoc. done.
    + destruct Hch as [Hhead Hnm]. destruct t as [|ch t]; [done|].
      assert (char_eqb ch "<" = false) as Hlt.
      { simpl in Hnm. apply andb_prop in Hnm as [Hnm _]. by apply negb_true_iff. }
      assert (starts_with (lit "</") (rest c) = false) as Hn1.
      { rewrite Hr. change (lit "</") with ["<"; "/"]%char. cbn [app starts_with].
        destruct (char_eqb "<" ch) eqn:Eq; [|done].
        apply char_eqb_eq in Eq as <-. by rewrite char_eqb_refl in Hlt. }
      assert (TXML.head_is "<" c = false) as Hh.
      { unfold TXML.head_is. by rewrite Hr. }
      rewrite parseChildren_loop_step by (by rewrite Hr).
      cbv zeta. rewrite skipWhitespace_none by (by rewrite Hr).
      rewrite Hn1, Hh.
      destruct (scan_lines_prefix (fun ch => negb (char_eqb ch "<")) (ch :: t) _ c Hr Hnm)
        as (c2 & E & Hr2).
      { apply children_head; [done|]. by apply texts_apart_next in Hap. }
      unfold parseText. rewrite E. rewrite (text_run_truthy (ch :: t) Hhead).
      destruct (IH HIH Hpl Hap' n (acc ++ [ChildText (ch :: t)]) c2 tail Hr2) as (c' & E' & Hr').
      { assert (length (rest c) = length (ch :: t) + length (rest c2)) as Hl
          by (by rewrite Hr, Hr2, length_app).
        unfold unread in *. simpl in Hl. clear -Hn Hl. lia. }
      exists c'. rewrite E', <- app_assoc. done.
Qed.

(** Reading an element as [jsxToTXML] writes it. *)
Lemma parseElement_printed (e : TXMLElement) :
  plain e -> forall n c tail,
    rest c = jsxToTXML e ++ tail -> unread c < n ->
    exists c', parseElement n c = Ok (e, c') /\ rest c' = tail.
Proof.
  induction e as [t a cs IH] using TXMLElement_induction.
  intros Hpl n c tail Hr Hn. destruct n as [|n]; [lia|].
  apply plain_children in Hpl as (Ht & Ha & Hap & Hcs).
  rewrite jsxToTXML_unfold in Hr. cbn [parseElement].
  set (close := match cs with
                | [] => lit " />"
                | _ :: _ => lit ">" ++ concat (map child_text cs) ++ lit "</" ++ t ++ lit ">"
                end) in *.
  assert (rest c = lit "<" ++ t ++ attrs_text a ++ close ++ tail) as Hr0.
  { rewrite Hr. subst close. destruct cs; by rewrite <- !app_assoc. }
  assert (space_or_gt (close ++ tail)) as Hcl.
  { subst close. destruct cs; [by left|by right]. }
  destruct (consume_prefix _ _ _ Hr0) as (c1 & E1 & Hr1).
  destruct (scan_column_prefix is_name_char t _ c1 Hr1 Ht) as (c2 & E2 & Hr2).
  { by apply space_or_gt_stop, after_tag. }
  rewrite E1. unfold parseTagName at 1. rewrite E2.
  destruct cs as [|child cs].
  - subst close.
    destruct (parseAttributes_printed a c2 (lit " ") (lit "/>" ++ tail)) as (c3 & E3 & Hr3);
      [rewrite Hr2; reflexivity|done|by right|done|].
    rewrite E3. cbn [bind].
    destruct (consume_prefix _ _ _ Hr3) as (c4 & E4 & Hr4). rewrite E4. eauto.
  - subst close. rewrite <- !app_assoc in Hr2.
    destruct (parseAttributes_printed a c2 [] _ Hr2) as (c3 & E3 & Hr3);
      [done|by left|done|].
    rewrite E3. cbn [bind].
    rewrite (consume_None (lit "/>") c3) by (by rewrite Hr3).
    destruct (consume_prefix _ _ _ Hr3) as (c4 & E4 & Hr4). rewrite E4.
    destruct (parseChildren_printed (child :: cs) IH Hcs Hap n [] c4 _ Hr4)
      as (c5 & E5 & Hr5).
    { apply consume_length in E1, E4. apply scan_column_unread in E2.
      pose proof (proj2 (parseAttributes_total c2) _ _ E3).
      unfold unread in *. simpl in *. lia. }
    rewrite E5. cbn [bind app].
    destruct (consume_prefix _ _ _ Hr5) as (c6 & E6 & Hr6). rewrite E6.
    destruct (scan_column_prefix is_name_char t _ c6 Hr6 Ht) as (c7 & E7 & Hr7); [done|].
    unfold parseTagName. rewrite E7. destruct (decide (t = t)); [|done].
    destruct (consume_prefix _ _ _ Hr7) as (c8 & E8 & Hr8). rewrite E8. eauto.
Qed.

(** *** The round trip *)

Lemma are_texts_apart_spec (cs : list Child) :
  are_texts_apart cs = true -> texts_apart cs.
Proof.
  induction cs as [|[e|t] cs IH]; simpl; [done|auto|].
  destruct cs as [|[e'|t'] cs]; auto. discriminate.
Qed.

Lemma are_plain_attributes_spec (a : list (list ascii * list ascii)) :
  are_plain_attributes a = true -> plain_attributes a.
Proof.
  unfold are_plain_attributes, plain_attributes.
  intros [Hnd Hall]%andb_prop. split; [by apply bool_decide_eq_true in Hnd|].
  apply Forall_forall. intros kv Hin. rewrite forallb_forall in Hall.
  apply list_elem_of_In, Hall in Hin.
  apply andb_prop in Hin as [[Hk Hp]%andb_prop Hv]. split; [split|]; try done.
  apply negb_true_iff, bool_decide_eq_false in Hp. done.
Qed.

Lemma is_text_run_spec (text : list ascii) : is_text_run text = true -> text_run text.
Proof.
  unfold is_text_run, text_run. intros [Hh Hn]%andb_prop. split; [|done].
  destruct text; [done|]. by apply negb_true_iff.
Qed.

Lemma is_plain_spec (e : TXMLElement) : is_plain e = true -> plain e.
Proof.
  induction e as [t a cs IH] using TXMLElement_induction. cbn [is_plain plain].
  intros [[[Ht Ha]%andb_prop Hap]%andb_prop Hcs]%andb_prop.
  split; [done|]. split; [by apply are_plain_attributes_spec|].
  split; [by apply are_texts_apart_spec|]. clear Hap.
  induction cs as [|[e|s] cs IHcs]; [done| |].
  - apply Forall_cons in IH as [IHe IH]. cbn [forallb] in Hcs.
    apply andb_prop in Hcs as [He Hcs]. split; [by apply IHe|by apply IHcs].
  - apply Forall_cons in IH as [_ IH]. cbn [forallb] in Hcs.
    apply andb_prop in Hcs as [He Hcs].
    split; [by apply is_text_run_spec|by apply IHcs].
Qed.

(** C2, as the code has it.  An element tree built by [jsx] whose root is
    [App] and that is plain (tags and attribute names made of name
    characters, no attribute named [__proto__], attribute values free of
    the five escaped characters, text children that start with a character
    that is no whitespace, hold no [<] and do not follow one another) is
    read back from its serialisation unchanged. *)
Theorem jsx_round_trip (type : list ascii)
    (props : option (list (list ascii * js_value))) (key : js_value) :
  let element := jsx type props key in
  tag element = lit "App" ->
  is_plain element = true ->
  parseTXML (jsxToTXML element) = Ok element.
Proof.
  intros e Htag Hpl%is_plain_spec. unfold parseTXML, parse.
  rewrite trim_jsxToTXML.
  assert (name_like (tag e)) as Ht.
  { destruct e as [t a cs]. by apply plain_children in Hpl as (Ht & _). }
  destruct (jsxToTXML_head e Ht) as (ch & body & Hhd & _).
  rewrite skipWhitespace_none by (cbn [start_of rest]; by rewrite Hhd).
  assert (TXML.head_is "<" (start_of (jsxToTXML e)) = true) as ->.
  { unfold TXML.head_is. cbn [start_of rest]. by rewrite Hhd. }
  cbn [negb].
  destruct (parseElement_printed e Hpl (S (length (jsxToTXML e)))
              (start_of (jsxToTXML e)) []) as (c' & E & Hr').
  { cbn [start_of rest]. by rewrite app_nil_r. }
  { unfold unread. cbn [start_of rest]. lia. }
  rewrite E. cbn [bind]. destruct (decide (tag e = lit "App")); [|done].
  rewrite skipWhitespace_none by (by rewrite Hr'). by rewrite Hr'.
Qed.

Lemma jsx_round_trip_witness :
  let element :=
    jsxs (lit "App") None
      (Array
         [AElement (jsx (lit "Head") (Some []) (Array []));
          AElement
            (jsxs (lit "Body") None
               (Array
                  [AElement
                     (jsxs (lit "Window") (Some [(lit "title", Atom (AString (lit "Main")))])
                        (Array
                           [AElement (jsx (lit "Text") None (Atom (AString (lit "Welcome"))));
                            ANull;
                            AElement
                              (jsx (lit "Button")
                                 (Some [(lit "onClick", Atom (AString (lit "handleClick")))])
                                 (Atom (AString (lit "Click Me"))))]))]))]) in
  parseTXML (jsxToTXML element) = Ok element.
Proof.
  intros element.
  apply (jsx_round_trip (lit "App") None
           (Array
              [AElement (jsx (lit "Head") (Some []) (Array []));
               AElement
                 (jsxs (lit "Body") None
                    (Array
                       [AElement
                          (jsxs (lit "Window")
                             (Some [(lit "title", Atom (AString (lit "Main")))])
                             (Array
                                [AElement
                                   (jsx (lit "Text") None (Atom (AString (lit "Welcome"))));
                                 ANull;
                                 AElement
                                   (jsx (lit "Button")
                                      (Some [(lit "onClick",
                                              Atom (AString (lit "handleClick")))])
                                      (Atom (AString (lit "Click Me"))))]))]))])).
  - reflexivity.
  - vm_compute. reflexivity.
Defined.

(** An attribute value with an escaped character does not come back: the
    parser returns the entity text. *)
Lemma jsx_round_trip_fails :
  let element :=
    jsx (lit "App") (Some [(lit "title", Atom (AString (lit "Q&A")))]) (Atom AUndefined) in
  parseTXML (jsxToTXML element) = Ok (Element (lit "App") [(lit "title", lit "Q&amp;A")] [])
  /\ parseTXML (jsxToTXML element) <> Ok element.
Proof. split; [by vm_compute|]. vm_compute. discriminate. Qed.

(** ** Specificity *)

Lemma fold_weight (parts : list (list ascii)) (acc : nat) :
  fold_left
    (fun specificity part =>
       if TSS.starts_with_char (char_eqb "#") part then specificity + 100
       else if TSS.starts_with_char (char_eqb ".") part then specificity + 10
       else if TSS.starts_with_char is_letter part then specificity + 1
       else specificity)
    parts acc
  = acc + 100 * count_parts id_mark parts + 10 * count_parts class_mark parts
    + 1 * count_parts is_letter parts.
Proof.
  revert acc. induction parts as [|part parts IH]; intros acc.
  - unfold count_parts. simpl. lia.
  - cbn [fold_left]. rewrite IH. unfold count_parts. cbn [List.filter].
    fold id_mark class_mark.
    destruct part as [|ch part]; [simpl; lia|]. cbn [TSS.starts_with_char].
    unfold id_mark, class_mark.
    destruct (char_eqb "#" ch) eqn:E1.
    { apply char_eqb_eq in E1 as <-. simpl. lia. }
    destruct (char_eqb "." ch) eqn:E2.
    { apply char_eqb_eq in E2 as <-. simpl. lia. }
    destruct (is_letter ch); simpl; lia.
Qed.

(** Counting over the parts of [split] is counting run starts. *)
Lemma count_split (kind : ascii -> bool) :
  (forall ch, is_space ch = true -> kind ch = false) ->
  forall s,
    count_parts kind (TSS.split_spaces false s) = count_selectors kind true s
    /\ count_parts kind (TSS.split_spaces true s) = count_selectors kind true s
    /\ count_parts kind (tail (TSS.split_spaces false s)) = count_selectors kind false s.
Proof.
  intros Hk. induction s as [|ch s (IH1 & IH2 & IH3)]; [done|].
  cbn [TSS.split_spaces count_selectors]. destruct (is_space ch) eqn:Hsp.
  - rewrite (Hk ch Hsp). cbn [andb tail]. unfold count_parts in *. simpl. lia.
  - destruct (TSS.split_spaces false s) as [|part parts] eqn:E.
    + unfold count_parts in *. simpl in *. destruct (kind ch); simpl; lia.
    + unfold count_parts in *. cbn [tail List.filter TSS.starts_with_char] in *.
      destruct (kind ch); simpl; lia.
Qed.

Lemma mark_not_space (ch : ascii) :
  is_space ch = true ->
  id_mark ch = false /\ class_mark ch = false /\ is_letter ch = false.
Proof. destruct ch as [[] [] [] [] [] [] [] []]; vm_compute; intuition discriminate. Qed.

Lemma calculateSpecificity_formula (selector : list ascii) :
  TSS.calculateSpecificity selector = specificity_formula selector.
Proof.
  unfold TSS.calculateSpecificity, specificity_formula, selectors_of.
  rewrite fold_weight.
  rewrite (proj1 (count_split id_mark (fun ch H => proj1 (mark_not_space ch H)) selector)).
  rewrite (proj1 (count_split class_mark
                    (fun ch H => proj1 (proj2 (mark_not_space ch H))) selector)).
  rewrite (proj1 (count_split is_letter
                    (fun ch H => proj2 (proj2 (mark_not_space ch H))) selector)).
  lia.
Qed.

(** A part is classified by its first character alone: a tag name with a
    class attached, written without a space, is one tag-name selector. *)
Lemma compound_part_counts_once :
  TSS.calculateSpecificity (lit "Button.primary") = 1
  /\ TSS.calculateSpecificity (lit "Window .primary") = 11.
Proof. split; by vm_compute. Qed.

(** *** The top-level loop of the stylesheet parser *)

Lemma parse_loop_more (n : nat) :
  forall st r k, TSS.parse_loop n st = r -> r <> OutOfFuel -> TSS.parse_loop (n + k) st = r.
Proof.
  induction n as [|n IH]; intros st r k; cbn [TSS.parse_loop Nat.add].
  - destruct (rest (TSS.ps_cursor st)) eqn:Er; [|congruence]. intros <- _.
    destruct k; cbn [TSS.parse_loop]; by rewrite Er.
  - destruct (rest (TSS.ps_cursor st)); [done|].
    destruct (TSS.parse_body st) as [st'| |]; cbn [bind]; [|done|done]. apply IH.
Qed.

(** The rules of a parsed stylesheet carry the specificity of their
    selector. *)
Lemma parse_loop_specificity (n : nat) :
  forall st sheet,
    TSS.parse_loop n st = Ok sheet ->
    Forall (fun r => TSS.specificity r = TSS.calculateSpecificity (TSS.selector r))
           (TSS.ps_rules st) ->
    Forall (fun r => TSS.specificity r = TSS.calculateSpecificity (TSS.selector r))
           (TSS.rules sheet).
Proof.
  induction n as [|n IH]; intros st sheet; cbn [TSS.parse_loop].
  - destruct (rest (TSS.ps_cursor st)); [|done]. by intros [= <-].
  - destruct (rest (TSS.ps_cursor st)); [by intros [= <-]|].
    destruct (TSS.parse_body st) as [st'| |] eqn:E; cbn [bind]; [|done|done].
    intros Hl Hst. apply (IH _ _ Hl). revert E. unfold TSS.parse_body.
    destruct (starts_with (lit ":root") _).
    { destruct (TSS.parseRootVariables _ _) as [[v c1]| |]; cbn [bind]; [|done|done].
      by intros [= <-]. }
    destruct (TSS.head_is "@" _); [by intros [= <-]|].
    destruct (TSS.parseRule _) as [[rule c1]| |] eqn:Er; cbn [bind]; [|done|done].
    intros [= <-]. cbn [TSS.ps_rules]. destruct rule as [r|]; [|done].
    apply Forall_app. split; [done|]. constructor; [|done].
    revert Er. unfold TSS.parseRule.
    destruct (TSS.parseSelector _) as [sel c2].
    destruct (negb (truthy sel)); [done|].
    destruct (consume (lit "{") c2) as [c3|]; [|done].
    destruct (TSS.parseProperties c3) as [[p c4]| |]; cbn [bind]; [|done|done].
    destruct (consume (lit "}") c4); [|done]. by intros [= <- <-].
Qed.

(** C3.  The specificity the parser attaches to a rule is that of
    [calculateSpecificity] on its selector, which is 100 for every simple
    selector starting with [#], plus 10 for every one starting with [.],
    plus 1 for every one starting with a letter; the three example rules get
    1, 10 and 100. *)
Theorem specificity_is_weighted_count :
  (forall selector,
      TSS.calculateSpecificity selector
      = 100 * selectors_of id_mark selector
        + 10 * selectors_of class_mark selector
        + 1 * selectors_of is_letter selector)
  /\ (forall fuel tss,
        match TSS.parseTSS fuel tss with
        | Ok sheet =>
            Forall (fun r => TSS.specificity r = specificity_formula (TSS.selector r))
                   (TSS.rules sheet)
        | _ => True
        end)
  /\ (forall fuel,
        exists sheet, TSS.parseTSS (3 + fuel) specificity_example = Ok sheet
                      /\ map TSS.selector (TSS.rules sheet)
                         = [lit "Window"; lit ".my-class"; lit "#my-id"]
                      /\ map TSS.specificity (TSS.rules sheet) = [1; 10; 100]).
Proof.
  split; [apply calculateSpecificity_formula|]. split.
  - intros fuel tss. destruct (TSS.parseTSS fuel tss) as [sheet| |] eqn:E; [|done|done].
    eapply Forall_impl.
    + apply (parse_loop_specificity fuel _ _ E). constructor.
    + intros r ->. apply calculateSpecificity_formula.
  - intros fuel. eexists. split; [|split].
    + unfold TSS.parseTSS, TSS.parse. apply parse_loop_more; [|done].
      vm_compute. reflexivity.
    + reflexivity.
    + reflexivity.
Qed.

(** ** Declarations without their semicolon *)

Lemma quote_is_unquoted_char (ch : ascii) :
  TSS.is_quote ch = true -> TSS.unquoted_char ch = true.
Proof.
  unfold TSS.is_quote. intros [H|H]%orb_prop; apply char_eqb_eq in H as ->; reflexivity.
Qed.

Lemma unquoted_char_not_space (ch : ascii) :
  TSS.unquoted_char ch = true -> is_space ch = false.
Proof.
  unfold TSS.unquoted_char. intros [_ H]%andb_prop. by apply negb_true_iff.
Qed.

Lemma trim_token (token : list ascii) :
  forallb TSS.unquoted_char token = true -> trim token = token.
Proof.
  intros Ht. unfold trim.
  assert (forall s, forallb TSS.unquoted_char s = true -> drop_spaces s = s) as Hd.
  { intros [|ch s]; [done|]. simpl. intros [H _]%andb_prop.
    by rewrite (unquoted_char_not_space ch H). }
  rewrite (Hd token Ht), Hd; [apply rev_involutive|].
  rewrite forallb_forall in *. intros ch Hin. apply Ht. by apply in_rev.
Qed.

Lemma parseValue_at (next : option ascii) (source value after : list ascii) (c : cursor) :
  value_at next source value -> head after = next ->
  rest c = source ++ after ->
  exists c', TSS.parseValue c = (value, c') /\ rest c' = after.
Proof.
  intros Hv Hnext Hr. unfold TSS.parseValue.
  destruct Hv as [token Ht Hq Hstop | quote body Hq Hb].
  - assert (match after with ch :: _ => TSS.unquoted_char ch = false | [] => True end)
      as Hstop'.
    { destruct after as [|ch after]; [done|]. simpl in Hnext. subst next.
      destruct token; tauto. }
    destruct (scan_column_prefix TSS.unquoted_char token after c Hr Ht Hstop')
      as (c' & E & Hr').
    destruct (rest c) as [|ch s] eqn:Er.
    + destruct token; [|done]. simpl in Hr. subst after. exists c.
      unfold trim. simpl. by rewrite Er.
    + assert (TSS.is_quote ch = false) as ->.
      { destruct token as [|ch' token].
        - simpl in Hr. subst after. simpl in Hstop'.
          destruct (TSS.is_quote ch) eqn:Eq; [|done].
          apply quote_is_unquoted_char in Eq. congruence.
        - simpl in Hr. injection Hr as -> _. exact Hq. }
      rewrite E. exists c'. by rewrite trim_token.
  - rewrite Hr. cbn [app]. rewrite Hq. rewrite <- app_assoc.
    destruct (scan_lines_app (fun ch => negb (char_eqb ch quote)) body
                ([quote] ++ after) (line c) (S (column c)) Hb) as (ln' & col' & ->).
    { simpl. by rewrite char_eqb_refl. }
    cbn [rest app]. eauto.
Qed.

Lemma parseIdentifier_prefix (name s : list ascii) (c : cursor) :
  rest c = name ++ s -> name_like name ->
  match s with ch :: _ => is_name_char ch = false | [] => True end ->
  exists c', TSS.parseIdentifier c = (name, c') /\ rest c' = s.
Proof. intros Hr Hn Hs. by apply scan_column_prefix. Qed.

(** One iteration of the declaration loop over [name: value]. *)
Lemma declaration_step (d : declaration) (after : list ascii) (c : cursor) :
  declaration_at (head after) d ->
  rest c = declaration_head d ++ after ->
  TSS.properties_guard c = true /\ skipWhitespace c = c
  /\ TSS.head_is "}" c = false
  /\ exists c2 c3 c4,
       TSS.parseIdentifier c = (d_name d, c2)
       /\ consume (lit ":") c2 = Some c3
       /\ TSS.parseValue (skipWhitespace c3) = (d_value d, c4)
       /\ rest c4 = after.
Proof.
  intros (Hn & Hsp & Hv & _) Hr. unfold declaration_head in Hr.
  rewrite <- !app_assoc in Hr.
  assert (exists ch s, rest c = ch :: s /\ is_space ch = false
                       /\ char_eqb ch "}" = false) as (ch & s & Hc & Hns & Hnb).
  { destruct (d_name d) as [|ch name] eqn:En.
    - exists ":"%char. eexists. by rewrite Hr.
    - exists ch. eexists. split; [by rewrite Hr|]. simpl in Hn.
      apply andb_prop in Hn as [Hch _].
      destruct ch as [[] [] [] [] [] [] [] []]; vm_compute in Hch |- *;
        (done || discriminate). }
  split; [unfold TSS.properties_guard; by rewrite Hc, Hnb|].
  split; [apply skipWhitespace_none; by rewrite Hc|].
  split; [unfold TSS.head_is; by rewrite Hc|].
  destruct (parseIdentifier_prefix _ _ c Hr Hn) as (c2 & E2 & Hr2); [done|].
  destruct (consume_prefix _ _ _ Hr2) as (c3 & E3 & Hr3).
  assert (rest (skipWhitespace c3) = d_source d ++ after) as Hr3'.
  { apply (skipWhitespace_prefix (d_space d)); [done|done|].
    destruct Hv as [token Ht Hq Hstop | quote body Hq Hb].
    - destruct token as [|ch' token].
      + simpl. destruct after; [done|]. simpl in Hstop. tauto.
      + simpl in Ht. apply andb_prop in Ht as [Hch _]. simpl.
        by apply unquoted_char_not_space.
    - simpl. by apply unquoted_char_not_space, quote_is_unquoted_char. }
  destruct (parseValue_at _ _ _ _ _ Hv eq_refl Hr3') as (c4 & E4 & Hr4).
  by exists c2, c3, c4.
Qed.

Lemma parseProperties_loop_step (fuel : nat)
    (acc : list (list ascii * list ascii)) (c : cursor) :
  TSS.properties_guard c = true ->
  TSS.parseProperties_loop (S fuel) acc c
  = let c1 := skipWhitespace c in
    if TSS.head_is "}" c1 then Ok (acc, c1)
    else
      let '(name, c2) := TSS.parseIdentifier c1 in
      match consume (lit ":") c2 with
      | None => TSS.raise (lit "Expected : after property name") c2
      | Some c3 =>
          let '(value, c4) := TSS.parseValue (skipWhitespace c3) in
          match consume (lit ";") c4 with
          | None => TSS.raise (lit "Expected ; after property value") c4
          | Some c5 =>
              TSS.parseProperties_loop fuel (obj_set name value acc) (skipWhitespace c5)
          end
      end.
Proof. intros Hg. cbn [TSS.parseProperties_loop]. by rewrite Hg. Qed.

Lemma declaration_head_stop (d : declaration) (s : list ascii) :
  name_like (d_name d) ->
  match declaration_head d ++ s with
  | ch :: _ => is_space ch = false
  | [] => True
  end.
Proof.
  intros Hn. unfold declaration_head. destruct (d_name d) as [|ch name]; [done|].
  simpl in Hn. apply andb_prop in Hn as [Hch _]. cbn [app].
  by apply name_char_plain in Hch as (-> & _).
Qed.

(** After any number of terminated declarations, a declaration whose value
    is not followed by [;] makes the loop throw. *)
Lemma unterminated_declaration (ds : list declaration) :
  forall fuel acc c d after,
    length ds < fuel ->
    rest c = concat (map terminated_text ds) ++ declaration_head d ++ after ->
    Forall (declaration_at (Some ";"%char)) ds ->
    declaration_at (head after) d -> not_semicolon after ->
    exists e, TSS.parseProperties_loop fuel acc c = Throw e
              /\ TSS.message e = missing_semicolon.
Proof.
  induction ds as [|d1 ds IH]; intros fuel acc c d after Hf Hr Hds Hd Hns;
    (destruct fuel as [|fuel]; [simpl in Hf; lia|]).
  - cbn [map concat app] in Hr.
    destruct (declaration_step d after c Hd Hr)
      as (Hg & Hsw & Hh & c2 & c3 & c4 & E2 & E3 & E4 & Hr4).
    rewrite parseProperties_loop_step by done. cbv zeta.
    rewrite Hsw, Hh, E2, E3, E4.
    rewrite consume_None.
    + eexists. by split.
    + rewrite Hr4. destruct after as [|ch after]; [done|]. simpl in Hns.
      change (lit ";") with [";"%char]. cbn [starts_with].
      destruct (char_eqb ";" ch) eqn:Eq; [|done]. by apply char_eqb_eq in Eq.
  - apply Forall_cons in Hds as [Hd1 Hds].
    cbn [map concat] in Hr. unfold terminated_text at 1 in Hr.
    rewrite <- !app_assoc in Hr.
    destruct (declaration_step d1 (lit ";" ++ d_gap d1 ++ concat (map terminated_text ds)
                                     ++ declaration_head d ++ after) c Hd1 Hr)
      as (Hg & Hsw & Hh & c2 & c3 & c4 & E2 & E3 & E4 & Hr4).
    rewrite parseProperties_loop_step by done. cbv zeta.
    rewrite Hsw, Hh, E2, E3, E4.
    destruct (consume_prefix _ _ _ Hr4) as (c5 & E5 & Hr5). rewrite E5.
    apply (IH fuel _ _ d after); [simpl in Hf; lia| |done|done|done].
    apply (skipWhitespace_prefix (d_gap d1)); [done|by destruct Hd1 as (_ & _ & _ & ?)|].
    destruct ds as [|d2 ds].
    + cbn [map concat app]. apply declaration_head_stop. by destruct Hd as [? _].
    + cbn [map concat]. unfold terminated_text at 1. rewrite <- !app_assoc.
      apply declaration_head_stop. apply Forall_cons in Hds as [[? _] _]. done.
Qed.

Lemma skipWhitespace_idem (c : cursor) : skipWhitespace (skipWhitespace c) = skipWhitespace c.
Proof.
  apply skipWhitespace_none. by destruct (skipWhitespace_spec c) as (ws & _ & _ & Hs).
Qed.

Lemma parseProperties_loop_skip (fuel : nat)
    (acc : list (list ascii * list ascii)) (c : cursor) :
  TSS.properties_guard c = true -> TSS.properties_guard (skipWhitespace c) = true ->
  TSS.parseProperties_loop (S fuel) acc c
  = TSS.parseProperties_loop (S fuel) acc (skipWhitespace c).
Proof.
  intros H1 H2. rewrite !parseProperties_loop_step by done.
  by rewrite skipWhitespace_idem.
Qed.

Lemma terminated_text_length (ds : list declaration) :
  length ds <= length (concat (map terminated_text ds)).
Proof.
  induction ds as [|d ds IH]; [done|]. cbn [map concat]. rewrite length_app.
  set (n := length (concat (map terminated_text ds))) in *.
  unfold terminated_text, declaration_head. rewrite !length_app.
  change (length (lit ":")) with 1. change (length (lit ";")) with 1.
  cbn [length]. lia.
Qed.

Lemma parseProperties_unterminated (indent : list ascii) (ds : list declaration)
    (d : declaration) (after : list ascii) (c : cursor) :
  rest c = unterminated_body indent ds d after ->
  all_space indent ->
  Forall (declaration_at (Some ";"%char)) ds ->
  declaration_at (head after) d -> not_semicolon after ->
  exists e, TSS.parseProperties c = Throw e /\ TSS.message e = missing_semicolon.
Proof.
  intros Hr Hin Hds Hd Hns. unfold TSS.parseProperties, unterminated_body in *.
  set (body := concat (map terminated_text ds) ++ declaration_head d ++ after) in *.
  assert (match body with ch :: _ => is_space ch = false | [] => True end) as Hstop.
  { subst body. destruct ds as [|d1 ds].
    - cbn [map concat app]. apply declaration_head_stop. by destruct Hd as [? _].
    - cbn [map concat]. unfold terminated_text at 1. rewrite <- !app_assoc.
      apply declaration_head_stop. apply Forall_cons in Hds as [[? _] _]. done. }
  pose proof (skipWhitespace_prefix indent body c Hr Hin Hstop) as Hsw.
  assert (length ds < length (rest c)) as Hlen.
  { rewrite Hr. subst body. rewrite !length_app.
    pose proof (terminated_text_length ds). unfold declaration_head.
    rewrite !length_app. change (length (lit ":")) with 1. lia. }
  destruct (length (rest c)) as [|fuel] eqn:El; [lia|].
  assert (TSS.properties_guard (skipWhitespace c) = true) as Hg2.
  { destruct ds as [|d1 ds].
    - subst body. cbn [map concat app] in Hsw.
      by destruct (declaration_step d after _ Hd Hsw) as (Hg & _).
    - apply Forall_cons in Hds as [Hd1 _].
      subst body. cbn [map concat] in Hsw. unfold terminated_text at 1 in Hsw.
      rewrite <- !app_assoc in Hsw.
      by destruct (declaration_step d1 (lit ";" ++ _) _ Hd1 Hsw) as (Hg & _). }
  assert (TSS.properties_guard c = true) as Hg1.
  { unfold TSS.properties_guard in *. rewrite Hsw in Hg2. rewrite Hr.
    destruct indent as [|ch indent]; [done|]. simpl in Hin.
    apply andb_prop in Hin as [Hch _]. cbn [app].
    destruct ch as [[] [] [] [] [] [] [] []]; vm_compute in Hch |- *; done. }
  rewrite parseProperties_loop_skip by done.
  by apply (unterminated_declaration ds (S fuel) [] _ d after).
Qed.

Lemma parseRule_unterminated (sel indent : list ascii) (ds : list declaration)
    (d : declaration) (after : list ascii) (c : cursor) :
  rest c = sel ++ lit "{" ++ unterminated_body indent ds d after ->
  ordinary_selector sel -> all_space indent ->
  Forall (declaration_at (Some ";"%char)) ds ->
  declaration_at (head after) d -> not_semicolon after ->
  exists e, TSS.parseRule c = Throw e /\ TSS.message e = missing_semicolon.
Proof.
  intros Hr (Hhead & _ & Hsel) Hin Hds Hd Hns. unfold TSS.parseRule, TSS.parseSelector.
  destruct (scan_column_prefix (fun ch => negb (char_eqb ch "{")) sel _ c Hr Hsel)
    as (c1 & E1 & Hr1); [done|].
  rewrite E1.
  assert (truthy (trim sel) = true) as ->.
  { apply text_run_truthy. destruct sel; tauto. }
  cbn [negb]. destruct (consume_prefix _ _ _ Hr1) as (c2 & E2 & Hr2). rewrite E2.
  destruct (parseProperties_unterminated indent ds d after c2 Hr2 Hin Hds Hd Hns)
    as (e & -> & Hm).
  by exists e.
Qed.

Lemma not_root_block (sel s : list ascii) :
  starts_with (lit ":root") sel = false ->
  forallb (fun ch => negb (char_eqb ch "{")) sel = true ->
  starts_with (lit ":root") (sel ++ lit "{" ++ s) = false.
Proof.
  change (lit ":root") with [":"; "r"; "o"; "o"; "t"]%char.
  change (lit "{") with ["{"%char].
  destruct sel as [|a [|b [|c [|d [|e sel]]]]]; cbn [app starts_with];
    intros Hs _; rewrite ?andb_true_r in *; try done;
    repeat (destruct (char_eqb _ _); [|done]); done.
Qed.

Lemma parse_body_unterminated (sel indent : list ascii) (ds : list declaration)
    (d : declaration) (after : list ascii) (st : TSS.parser_state) :
  rest (TSS.ps_cursor st) = sel ++ lit "{" ++ unterminated_body indent ds d after ->
  ordinary_selector sel -> all_space indent ->
  Forall (declaration_at (Some ";"%char)) ds ->
  declaration_at (head after) d -> not_semicolon after ->
  exists e, (forall k, TSS.parse_loop (1 + k) st = Throw e)
            /\ TSS.message e = missing_semicolon.
Proof.
  intros Hr Hsel Hin Hds Hd Hns.
  destruct (parseRule_unterminated sel indent ds d after _ Hr Hsel Hin Hds Hd Hns)
    as (e & E & Hm).
  exists e. split; [|done]. intros k. cbn [Nat.add TSS.parse_loop].
  destruct Hsel as (Hhead & Hroot & Hbrace). destruct sel as [|ch sel]; [done|].
  destruct Hhead as (_ & Ha).
  rewrite Hr. cbn [app]. unfold TSS.parse_body.
  assert (starts_with (lit ":root") (rest (TSS.ps_cursor st)) = false) as ->.
  { rewrite Hr. by apply not_root_block. }
  assert (TSS.head_is "@" (TSS.ps_cursor st) = false) as ->.
  { unfold TSS.head_is. rewrite Hr. cbn [app]. by apply char_eqb_neq. }
  by rewrite E.
Qed.

Lemma reaches_throw (st st' : TSS.parser_state) (e : TSS.ParseError) :
  reaches st st' ->
  (exists m, forall k, TSS.parse_loop (m + k) st' = Throw e) ->
  exists m, forall k, TSS.parse_loop (m + k) st = Throw e.
Proof.
  induction 1 as [st | st st1 st2 Hne Hb _ IH]; [done|].
  intros Hm. destruct (IH Hm) as [m Hk]. exists (S m). intros k.
  cbn [Nat.add TSS.parse_loop]. destruct (rest (TSS.ps_cursor st)); [done|].
  rewrite Hb. cbn [bind]. apply Hk.
Qed.

(** C4.  When the top-level loop reaches a rule in whose body, after any
    number of terminated declarations, stands a declaration whose value is
    not followed by [;], the parser throws: enough fuel gives the error
    [Expected ; after property value]. *)
Theorem missing_semicolon_throws (tss sel indent : list ascii)
    (st : TSS.parser_state) (ds : list declaration) (d : declaration)
    (after : list ascii) :
  reaches (TSS.initial_state tss) st ->
  rest (TSS.ps_cursor st) = sel ++ lit "{" ++ unterminated_body indent ds d after ->
  ordinary_selector sel -> all_space indent ->
  Forall (declaration_at (Some ";"%char)) ds ->
  declaration_at (head after) d -> not_semicolon after ->
  exists e n, (forall fuel, n <= fuel -> TSS.parseTSS fuel tss = Throw e)
              /\ TSS.message e = missing_semicolon.
Proof.
  intros Hreach Hr Hsel Hin Hds Hd Hns.
  destruct (parse_body_unterminated sel indent ds d after st Hr Hsel Hin Hds Hd Hns)
    as (e & He & Hm).
  destruct (reaches_throw _ _ e Hreach) as [m Hk]; [by exists 1|].
  exists e, m. split; [|done]. intros fuel Hle.
  unfold TSS.parseTSS, TSS.parse. replace fuel with (m + (fuel - m)) by lia. apply Hk.
Qed.

Lemma missing_semicolon_throws_witness :
  exists e n,
    (forall fuel, n <= fuel ->
       TSS.parseTSS fuel
         (lit "Button { color: red; } Window { width: 10; color: white"
          ++ [newline] ++ lit " background-color: #333; }") = Throw e)
    /\ TSS.message e = missing_semicolon.
Proof.
  eapply (missing_semicolon_throws _ (lit "Window ") (lit " ") _
            [Declaration (lit "width") (lit " ") (lit "10") (lit "10") (lit " ")]
            (Declaration (lit "color") (lit " ") (lit "white") (lit "white") [])
            ([newline] ++ lit " background-color: #333; }")).
  - eapply reaches_next; [|vm_compute; reflexivity|apply reaches_here].
    vm_compute. discriminate.
  - vm_compute. reflexivity.
  - split; [vm_compute; split; [reflexivity|discriminate]|split; reflexivity].
  - reflexivity.
  - repeat constructor.
  - split; [reflexivity|]. split; [reflexivity|]. split; [|reflexivity].
    by apply unquoted_at.
  - vm_compute. discriminate.
Defined.

(** C10.  A declaration whose unquoted value holds whitespace between two
    tokens: [parseValue] takes the first token only, and the parser, not
    finding [;] after it, throws [Expected ; after property value],
    whatever follows the second token. *)
Theorem spaced_value_throws (tss sel indent : list ascii) (st : TSS.parser_state)
    (ds : list declaration) (name space token gap token' more : list ascii) :
  reaches (TSS.initial_state tss) st ->
  rest (TSS.ps_cursor st)
  = sel ++ lit "{" ++ indent ++ concat (map terminated_text ds)
    ++ name ++ lit ":" ++ space ++ token ++ gap ++ token' ++ more ->
  ordinary_selector sel -> all_space indent ->
  Forall (declaration_at (Some ";"%char)) ds ->
  name_like name -> all_space space ->
  token <> [] -> forallb TSS.unquoted_char token = true ->
  TSS.starts_with_char TSS.is_quote token = false ->
  gap <> [] -> all_space gap ->
  token' <> [] -> forallb TSS.unquoted_char token' = true ->
  (forall c, rest c = token ++ gap ++ token' ++ more ->
             exists c', TSS.parseValue c = (token, c')
                        /\ rest c' = gap ++ token' ++ more)
  /\ exists e n, (forall fuel, n <= fuel -> TSS.parseTSS fuel tss = Throw e)
                 /\ TSS.message e = missing_semicolon.
Proof.
  intros Hreach Hr Hsel Hin Hds Hname Hspace Ht Htok Hq Hg Hgap Ht' Htok'.
  set (after := gap ++ token' ++ more) in *.
  destruct gap as [|sp gap]; [done|]. simpl in Hgap.
  apply andb_prop in Hgap as [Hsp Hgap].
  assert (value_at (head after) token token) as Hv.
  { apply unquoted_at; [done|done|]. destruct token; [done|]. subst after.
    cbn [app head]. unfold TSS.unquoted_char. rewrite Hsp.
    by rewrite andb_false_r. }
  split.
  - intros c Hc. by apply (parseValue_at (head after) token token after c).
  - assert (not_semicolon after) as Hns.
    { subst after. unfold not_semicolon. cbn [app]. intros ->. discriminate Hsp. }
    destruct (parse_body_unterminated sel indent ds
                (Declaration name space token token []) after st)
      as (e & He & Hm); try done.
    { rewrite Hr. unfold unterminated_body, declaration_head.
      cbn [d_name d_space d_source]. by rewrite <- !app_assoc. }
    destruct (reaches_throw _ _ e Hreach) as [m Hk]; [by exists 1|].
    exists e, m. split; [|done]. intros fuel Hle.
    unfold TSS.parseTSS, TSS.parse. replace fuel with (m + (fuel - m)) by lia. apply Hk.
Qed.

Lemma spaced_value_throws_witness :
  (forall c, rest c = lit "10 20; }" ->
             exists c', TSS.parseValue c = (lit "10", c')
                        /\ rest c' = lit " 20; }")
  /\ exists e n,
       (forall fuel, n <= fuel ->
          TSS.parseTSS fuel (lit "@import 'x'; Window { color: white; padding: 10 20; }")
          = Throw e)
       /\ TSS.message e = missing_semicolon.
Proof.
  eapply (spaced_value_throws
            (lit "@import 'x'; Window { color: white; padding: 10 20; }")
            (lit "Window ") (lit " ") _
            [Declaration (lit "color") (lit " ") (lit "white") (lit "white") (lit " ")]
            (lit "padding") (lit " ") (lit "10") (lit " ") (lit "20") (lit "; }")).
  - eapply reaches_next; [|vm_compute; reflexivity|apply reaches_here].
    vm_compute. discriminate.
  - vm_compute. reflexivity.
  - split; [vm_compute; split; [reflexivity|discriminate]|split; reflexivity].
  - reflexivity.
  - repeat constructor.
  - reflexivity.
  - reflexivity.
  - discriminate.
  - reflexivity.
  - reflexivity.
  - discriminate.
  - reflexivity.
  - discriminate.
  - reflexivity.
Defined.

(** ** Identities and the ancestor path *)

Section WalkProperties.

Import Widgets.

Context {number host_error application : Type}.
Variable parseFloat : list ascii -> number.
Variable number_truthy : number -> bool.
Variable one_half two_hundred buffer_size : number.
Variable imgui : list (@ImGuiCall number) -> @ImGuiCall number
                 -> @ImGuiReply number host_error.

Abbreviation walk_state := (@walk number host_error application).
Abbreviation render_element :=
  (render parseFloat number_truthy one_half two_hundred buffer_size imgui).

(** *** The ancestor path is restored *)

Lemma ImGui_arrays (call : ImGuiCall) (w : World) (b : bool) (buffer : js_any)
    (w' : @World number application) :
  ImGui imgui call w = Ok (b, buffer, w') -> arrays w' = arrays w.
Proof. unfold ImGui. destruct (imgui _ _); [|done]. by intros [= _ _ <-]. Qed.

Lemma simple_call_keeps (call : ImGuiCall) (s s' : walk_state) :
  simple_call imgui call s = Ok s' -> keeps_path s s'.
Proof.
  destruct s as [context w]. unfold simple_call.
  destruct (ImGui imgui call w) as [[[b buf] w']| |] eqn:E; [|done|done].
  cbn [bind]. intros [= <-]. apply ImGui_arrays in E. by split.
Qed.

Lemma handleEvent_keeps (eventName : list ascii) (s s' : walk_state) :
  handleEvent eventName s = Ok s' -> keeps_path s s'.
Proof.
  destruct s as [context w]. unfold handleEvent.
  destruct (eventHandlers context !! eventName) as [h|].
  - destruct (callback h (app w) (state context)) as [[[a retained] changes]| |];
      [|done|done].
    cbn [bind]. by intros [= <-].
  - by intros [= <-].
Qed.

Lemma setNextItemWidth_keeps (element : TXMLElement) (s s' : walk_state) :
  setNextItemWidth imgui element s = Ok s' -> keeps_path s s'.
Proof.
  destruct s as [context w]. unfold setNextItemWidth.
  destruct (style_of_type _ _ _) as [width|]; [|by intros [= <-]].
  destruct (ImGui imgui _ w) as [[[b buf] w']| |] eqn:E; [|done|done].
  cbn [bind]. intros [= <-]. apply ImGui_arrays in E. by split.
Qed.

Lemma keeps_path_trans (s s' s'' : walk_state) :
  keeps_path s s' -> keeps_path s' s'' -> keeps_path s s''.
Proof. intros [H1 H2] [H3 H4]. split; congruence. Qed.

Lemma renderText_keeps (element : TXMLElement) (s s' : walk_state) :
  renderText imgui element s = Ok s' -> keeps_path s s'.
Proof.
  destruct s as [context w]. unfold renderText.
  destruct (style_of_type _ _ _) as [color|];
    (destruct (ImGui imgui _ w) as [[[b buf] w']| |] eqn:E; [|done|done]);
    cbn [bind]; intros [= <-]; apply ImGui_arrays in E; by split.
Qed.

Lemma renderButton_keeps (element : TXMLElement) (s s' : walk_state) :
  renderButton imgui element s = Ok s' -> keeps_path s s'.
Proof.
  unfold renderButton.
  destruct (setNextItemWidth imgui element s) as [[context w]| |] eqn:E1; [|done|done].
  apply setNextItemWidth_keeps in E1. cbn [bind].
  destruct (ImGui imgui _ w) as [[[clicked buf] w']| |] eqn:E2; [|done|done].
  apply ImGui_arrays in E2. cbn [bind].
  assert (keeps_path s (context, w')) as Hk.
  { destruct E1 as [H1 H2]. split; simpl in *; congruence. }
  destruct (attribute _ _) as [onClick|]; [|by intros [= <-]].
  destruct (clicked && truthy onClick); [|by intros [= <-]].
  intros H%handleEvent_keeps. by eapply keeps_path_trans.
Qed.

Lemma renderInputText_keeps (element : TXMLElement) (s s' : walk_state) :
  renderInputText number_truthy buffer_size imgui element s = Ok s' -> keeps_path s s'.
Proof.
  unfold renderInputText.
  destruct (setNextItemWidth imgui element s) as [[context w]| |] eqn:E1; [|done|done].
  apply setNextItemWidth_keeps in E1. cbn [bind].
  destruct (ImGui imgui _ w) as [[[changed buf] w']| |] eqn:E2; [|done|done].
  apply ImGui_arrays in E2. cbn [bind]. destruct E1 as [H1 H2].
  destruct changed; intros [= <-]; split; simpl in *; congruence.
Qed.

Lemma renderSliderFloat_keeps (element : TXMLElement) (s s' : walk_state) :
  renderSliderFloat parseFloat number_truthy one_half imgui element s = Ok s' ->
  keeps_path s s'.
Proof.
  unfold renderSliderFloat.
  destruct (setNextItemWidth imgui element s) as [[context w]| |] eqn:E1; [|done|done].
  apply setNextItemWidth_keeps in E1. cbn [bind].
  destruct (ImGui imgui _ w) as [[[changed buf] w']| |] eqn:E2; [|done|done].
  apply ImGui_arrays in E2. cbn [bind]. destruct E1 as [H1 H2].
  destruct changed; intros [= <-]; split; simpl in *; congruence.
Qed.

Lemma renderCheckbox_keeps (element : TXMLElement) (s s' : walk_state) :
  renderCheckbox number_truthy imgui element s = Ok s' -> keeps_path s s'.
Proof.
  destruct s as [context w]. unfold renderCheckbox.
  destruct (ImGui imgui _ w) as [[[changed buf] w']| |] eqn:E2; [|done|done].
  apply ImGui_arrays in E2. cbn [bind].
  destruct changed; intros [= <-]; split; simpl in *; congruence.
Qed.

Lemma renderSameLine_keeps (element : TXMLElement) (s s' : walk_state) :
  renderSameLine parseFloat imgui element s = Ok s' -> keeps_path s s'.
Proof.
  destruct s as [context w]. unfold renderSameLine.
  destruct (ImGui imgui _ w) as [[[b buf] w']| |] eqn:E; [|done|done].
  cbn [bind]. intros [= <-]. apply ImGui_arrays in E. by split.
Qed.

Lemma keeps_restores (s s' : walk_state) :
  valid_path s -> keeps_path s s' -> restores_path s s'.
Proof.
  unfold valid_path, keeps_path, restores_path, path_of.
  intros Hv [Ha Hc]. rewrite Ha, Hc. repeat split; auto.
Qed.

Lemma restores_path_refl (s : walk_state) : valid_path s -> restores_path s s.
Proof. intros Hv. apply keeps_restores; [done|by split]. Qed.

Lemma restores_path_trans (s s' s'' : walk_state) :
  restores_path s s' -> restores_path s' s'' -> restores_path s s''.
Proof.
  intros (Hv1 & Hl1 & Hp1 & Hf1 & Hc1) (Hv2 & Hl2 & Hp2 & Hf2 & Hc2).
  split; [done|]. split; [lia|]. split; [congruence|]. split.
  - intros i Hi Hne. rewrite Hf2; [by apply Hf1|lia|]. destruct Hc1; lia.
  - destruct Hc1 as [Hc1|Hc1], Hc2 as [Hc2|Hc2]; [left; congruence|right; lia..].
Qed.

Lemma restores_valid (s s' : walk_state) : restores_path s s' -> valid_path s'.
Proof. by intros [H _]. Qed.

Lemma children_loop_restores
    (render_fn : TXMLElement -> walk_state -> result host_error walk_state)
    (cs : list Child) :
  Forall (fun child =>
            match child with
            | ChildElement e =>
                forall s s' : walk_state, valid_path s -> render_fn e s = Ok s' -> restores_path s s'
            | ChildText _ => True
            end) cs ->
  forall s s' : walk_state, valid_path s -> children_loop imgui render_fn cs s = Ok s' ->
               restores_path s s'.
Proof.
  induction cs as [|child cs IH]; intros Hcs s s' Hv; cbn [children_loop].
  - intros [= <-]. by apply restores_path_refl.
  - apply Forall_cons in Hcs as [Hc Hcs]. destruct child as [e|text].
    + destruct (render_fn e s) as [s1| |] eqn:E; [|done|done]. cbn [bind].
      intros Hl. pose proof (Hc s s1 Hv E) as H1.
      eapply restores_path_trans; [exact H1|].
      apply (IH Hcs); [by eapply restores_valid|done].
    + destruct (truthy (trim text)); [|by apply IH].
      destruct (simple_call imgui _ s) as [s1| |] eqn:E; [|done|done]. cbn [bind].
      intros Hl. pose proof (keeps_restores s s1 Hv (simple_call_keeps _ _ _ E)) as H1.
      eapply restores_path_trans; [exact H1|].
      apply (IH Hcs); [by eapply restores_valid|done].
Qed.

Lemma renderChildren_with_restores
    (render_fn : TXMLElement -> walk_state -> result host_error walk_state)
    (tag : list ascii) (cs : list Child) :
  Forall (fun child =>
            match child with
            | ChildElement e =>
                forall s s' : walk_state, valid_path s -> render_fn e s = Ok s' -> restores_path s s'
            | ChildText _ => True
            end) cs ->
  forall s s' : walk_state, valid_path s -> renderChildren_with imgui render_fn tag cs s = Ok s' ->
               restores_path s s'.
Proof.
  intros Hcs [context w] s' Hv. unfold renderChildren_with, copy_path, push_path.
  unfold valid_path in Hv. cbn [fst snd] in Hv.
  set (P := path_of (context, w)).
  set (w1 := MkWorld (arrays w ++ [P]) (calls w) (app w) (warnings w)).
  assert (path_of (context, w1) = P) as HP1.
  { unfold path_of, w1. cbn [fst snd arrays]. by rewrite lookup_app_l. }
  rewrite HP1.
  set (w2 := MkWorld (<[currentPath context := P ++ [tag]]> (arrays w1))
                     (calls w1) (app w1) (warnings w1)).
  destruct (children_loop imgui render_fn cs (context, w2)) as [[context3 w3]| |] eqn:E;
    [|done|done].
  cbn [bind]. intros [= <-].
  assert (length (arrays w2) = S (length (arrays w))) as Hl2.
  { unfold w2, w1. cbn [arrays]. rewrite length_insert, length_app. simpl. lia. }
  assert (valid_path (context, w2)) as Hv2.
  { unfold valid_path. cbn [fst snd]. lia. }
  destruct (children_loop_restores render_fn cs Hcs (context, w2) _ Hv2 E)
    as (Hv3 & Hl3 & Hp3 & Hf3 & Hc3).
  cbn [fst snd] in *.
  assert (arrays w3 !! length (arrays w) = Some P) as Hold.
  { rewrite Hf3; [|lia|lia]. unfold w2, w1. cbn [arrays].
    rewrite list_lookup_insert_ne by lia.
    rewrite lookup_app_r by lia. by rewrite Nat.sub_diag. }
  unfold restores_path. cbn [fst snd set_currentPath currentPath].
  split; [lia|]. split; [lia|]. split.
  { unfold path_of at 1, set_currentPath. cbn [fst snd currentPath]. by rewrite Hold. }
  split; [|right; lia].
  intros i Hi Hne. rewrite Hf3; [|lia|done]. unfold w2, w1. cbn [arrays].
  rewrite list_lookup_insert_ne by done. by rewrite lookup_app_l.
Qed.

Lemma renderWindow_with_restores
    (renderChildren_fn : walk_state -> result host_error walk_state)
    (element : TXMLElement) :
  (forall s s' : walk_state, valid_path s -> renderChildren_fn s = Ok s' -> restores_path s s') ->
  forall s s' : walk_state, valid_path s ->
    renderWindow_with number_truthy two_hundred imgui renderChildren_fn element s = Ok s' ->
    restores_path s s'.
Proof.
  intros Hch [context w] s' Hv. unfold renderWindow_with.
  set (sized := match style_of_type _ _ _ with Some _ => _ | None => _ end).
  assert (forall w1, sized = Ok w1 -> arrays w1 = arrays w) as Hsized.
  { subst sized. intros w1. destruct (style_of_type _ _ _); [|by intros [= <-]].
    destruct (ImGui imgui _ w) as [[[b buf] w']| |] eqn:E; [|done|done].
    cbn [bind]. intros [= <-]. by apply ImGui_arrays in E. }
  destruct sized as [w1| |]; [|done|done]. cbn [bind].
  specialize (Hsized w1 eq_refl).
  destruct (ImGui imgui _ w1) as [[[opened buf] w2]| |] eqn:E2; [|done|done].
  apply ImGui_arrays in E2. cbn [bind].
  assert (keeps_path (context, w) (context, w2)) as Hk.
  { split; simpl; congruence. }
  pose proof (keeps_restores _ _ Hv Hk) as H2.
  destruct opened.
  - destruct (renderChildren_fn (context, w2)) as [s3| |] eqn:E3; [|done|done].
    cbn [bind]. intros H4.
    pose proof (Hch _ _ (restores_valid _ _ H2) E3) as H3.
    apply simple_call_keeps in H4.
    eapply restores_path_trans; [exact H2|].
    eapply restores_path_trans; [exact H3|].
    apply keeps_restores; [by eapply restores_valid|done].
  - cbn [bind]. intros H4. apply simple_call_keeps in H4.
    eapply restores_path_trans; [exact H2|].
    apply keeps_restores; [by eapply restores_valid|done].
Qed.

Lemma render_restores (element : TXMLElement) :
  forall s s' : walk_state, valid_path s -> render_element element s = Ok s' -> restores_path s s'.
Proof.
  induction element as [t a cs IH] using TXMLElement_induction.
  intros s s' Hv. cbn [render].
  pose proof (renderChildren_with_restores render_element t cs IH) as Hch.
  destruct (renderers_get t renderers) as [[]|].
  - by apply Hch.
  - intros [= <-]. by apply restores_path_refl.
  - by apply Hch.
  - by apply renderWindow_with_restores.
  - intros H. by apply keeps_restores, (renderText_keeps (Element t a cs)).
  - intros H. by apply keeps_restores, (renderButton_keeps (Element t a cs)).
  - intros H. by apply keeps_restores, (renderInputText_keeps (Element t a cs)).
  - intros H. by apply keeps_restores, (renderSliderFloat_keeps (Element t a cs)).
  - intros H. by apply keeps_restores, (renderCheckbox_keeps (Element t a cs)).
  - intros H. by apply keeps_restores, (renderSameLine_keeps (Element t a cs)).
  - intros H. by apply keeps_restores, (simple_call_keeps Spacing).
  - intros H. by apply keeps_restores, (simple_call_keeps Separator).
  - intros [= <-]. apply keeps_restores; [done|]. by destruct s.
Qed.

(** C9.  When [render] returns, [context.currentPath] holds the elements it
    held before the call.  ([context.currentPath] is a reference to an
    array that exists.) *)
Theorem render_restores_currentPath (element : TXMLElement) (s s' : walk_state) :
  currentPath (fst s) < length (arrays (snd s)) ->
  render_element element s = Ok s' ->
  path_of s' = path_of s.
Proof.
  intros Hv Hr. by destruct (render_restores element s s' Hv Hr) as (_ & _ & Hp & _).
Qed.

End WalkProperties.

(** *** A frame with two text inputs *)

(** C1.  Siblings with the same tag collide.  The identity is the ancestor
    path and the tag joined by [/] and nothing else: whatever their
    attributes and their place among the children, two elements with the
    same tag that are rendered under the same ancestor path get the same
    identity.  In a frame over the parsed markup of two text inputs under
    one parent, where the user types into each input what its label says,
    both inputs use one state record: the second input is shown with the
    text typed into the first, and the one record left holds the text typed
    into the second. *)
Theorem same_tag_siblings_share_identity :
  (forall (e1 e2 : TXMLElement) (s1 s2 : @Widgets.walk nat unit nat),
      Widgets.path_of s1 = Widgets.path_of s2 -> tag e1 = tag e2 ->
      Widgets.generateId e1 s1 = Widgets.generateId e2 s2)
  /\ Demo.first_input <> Demo.second_input
  /\ tag Demo.first_input = tag Demo.second_input
  /\ Widgets.generateId Demo.first_input (Demo.under_body 1)
     = Widgets.generateId Demo.second_input (Demo.under_body 1)
  /\ parseTXML Demo.markup = Ok Demo.root
  /\ exists s',
       Demo.render_element Demo.root (Demo.start 1) = Ok s'
       /\ Widgets.calls (snd s')
          = [Widgets.InputTextWithHint (lit "first") [] (Widgets.VString []) 256;
             Widgets.InputTextWithHint (lit "second") [] (Widgets.VString (lit "first")) 256]
       /\ map_to_list (Widgets.state (fst s'))
          = [(lit "App/Body/InputText",
              Widgets.MkWidgetState (lit "App/Body/InputText")
                                    (Widgets.VString (lit "second")) 1)].
Proof.
  split.
  { intros e1 e2 s1 s2 Hp Ht. unfold Widgets.generateId. by rewrite Hp, Ht. }
  split; [discriminate|]. split; [reflexivity|]. split; [reflexivity|].
  split; [vm_compute; reflexivity|].
  eexists. split; [vm_compute; reflexivity|]. split; vm_compute; reflexivity.
Qed.

Lemma render_restores_currentPath_witness :
  match Demo.render_element Demo.root (Demo.start 1) with
  | Ok s' => Widgets.path_of s' = Widgets.path_of (Demo.start 1)
  | _ => False
  end.
Proof.
  destruct (Demo.render_element Demo.root (Demo.start 1)) as [s'| |] eqn:E.
  - apply (render_restores_currentPath (fun s => length s) (fun n => negb (Nat.eqb n 0))
             1 200 256 Demo.imgui Demo.root (Demo.start 1) s').
    + simpl. lia.
    + exact E.
  - vm_compute in E. discriminate.
  - vm_compute in E. discriminate.
Defined.

(** ** The render entry point *)

(** A [{] where the top-level loop expects a selector: [parseRule] returns
    [null] for the empty selector and consumes nothing, so the iteration
    ends in the state it started in. *)
Lemma parse_body_stray_brace (st : TSS.parser_state) (s : list ascii) :
  rest (TSS.ps_cursor st) = "{"%char :: s -> TSS.parse_body st = Ok st.
Proof.
  destruct st as [variables rules [text ln col]]. cbn [TSS.ps_cursor rest].
  intros ->. unfold TSS.parse_body, TSS.head_is, TSS.parseRule, TSS.parseSelector.
  cbn [TSS.ps_cursor TSS.ps_variables TSS.ps_rules rest line column].
  change (starts_with (lit ":root") ("{"%char :: s)) with false.
  change (char_eqb "{" "@") with false. cbn [scan_column].
  change (negb (char_eqb "{" "{")) with false. cbv iota.
  change (truthy (trim [])) with false. cbn [negb bind].
  by rewrite skipWhitespace_stop.
Qed.

Lemma parse_loop_stray_brace (fuel : nat) (st : TSS.parser_state) (s : list ascii) :
  rest (TSS.ps_cursor st) = "{"%char :: s -> TSS.parse_loop fuel st = OutOfFuel.
Proof.
  intros Hr. induction fuel as [|fuel IH]; cbn [TSS.parse_loop]; rewrite Hr; [done|].
  rewrite (parse_body_stray_brace st s Hr). cbn [bind]. exact IH.
Qed.

(** The stylesheet parser does not return on a text that starts, after
    whitespace, with [{]: it runs out of every amount of fuel. *)
Lemma parseTSS_stray_brace (fuel : nat) (ws s : list ascii) :
  all_space ws -> TSS.parseTSS fuel (ws ++ "{"%char :: s) = OutOfFuel.
Proof.
  intros Hws. unfold TSS.parseTSS, TSS.parse. apply (parse_loop_stray_brace _ _ s).
  unfold TSS.initial_state. cbn [TSS.ps_cursor].
  by apply (skipWhitespace_prefix ws).
Qed.

(** *** When the stylesheet parser returns *)

Lemma parseValue_suffix (c : cursor) (v : list ascii) (c' : cursor) :
  TSS.parseValue c = (v, c') ->
  unread c' <= unread c
  /\ match rest c with
     | ch :: _ => TSS.is_quote ch || TSS.unquoted_char ch = true -> unread c' < unread c
     | [] => True
     end.
Proof.
  unfold TSS.parseValue, unread. destruct (rest c) as [|ch s] eqn:Er.
  { intros [= <- <-]. by rewrite Er. }
  destruct (TSS.is_quote ch) eqn:Eq.
  - destruct (scan_lines (fun ch0 => negb (char_eqb ch0 ch)) s _ _) as [body c1] eqn:E1.
    apply scan_lines_unread in E1. unfold unread in E1.
    destruct (rest c1) as [|ch' s'] eqn:Er1; intros [= <- <-]; cbn [rest length] in *;
      rewrite ?Er1 in *; cbn [length] in *; split; intros; lia.
  - cbn iota. destruct (scan_column TSS.unquoted_char (ch :: s) _ _) as [taken c1] eqn:E1.
    apply scan_column_spec in E1 as (E1 & _ & Hstop & _).
    intros [= <- <-]. cbn [orb]. apply (f_equal length) in E1 as Hl.
    rewrite length_app in Hl. cbn [length] in *. unfold unread. split; [lia|].
    intros Hu. destruct taken as [|x taken]; [|cbn [length] in Hl; lia].
    cbn [app] in E1. rewrite <- E1 in Hstop. congruence.
Qed.

Lemma parseIdentifier_suffix (c : cursor) (name : list ascii) (c' : cursor) :
  TSS.parseIdentifier c = (name, c') ->
  unread c' <= unread c
  /\ match rest c with
     | ch :: _ => is_name_char ch = true -> unread c' < unread c
     | [] => True
     end.
Proof.
  unfold TSS.parseIdentifier. intros E.
  pose proof (scan_column_unread _ _ _ _ E) as Hl. split; [lia|].
  destruct (rest c) as [|ch s] eqn:Er; [done|]. intros Hn.
  destruct name as [|x name]; [|cbn [length] in Hl; lia].
  apply scan_column_spec in E as (E & _ & Hstop & _).
  cbn [app] in E. rewrite <- E in Hstop. congruence.
Qed.

Ltac thrown_tss := cbn [bind]; unfold TSS.raise; split; [discriminate | intros ? ? ?; discriminate].

Lemma parseProperties_loop_total (fuel : nat) : forall acc c,
  unread c <= fuel ->
  TSS.parseProperties_loop fuel acc c <> OutOfFuel
  /\ forall p c', TSS.parseProperties_loop fuel acc c = Ok (p, c') -> unread c' <= unread c.
Proof.
  induction fuel as [|fuel IH]; intros acc c Hf; cbn [TSS.parseProperties_loop].
  - destruct (TSS.properties_guard c) eqn:G.
    + unfold TSS.properties_guard, unread in *. destruct (rest c); [done|simpl in Hf; lia].
    + split; [done|]. by intros p c' [= <- <-].
  - destruct (TSS.properties_guard c) eqn:G.
    2:{ split; [done|]. by intros p c' [= <- <-]. }
    pose proof (skipWhitespace_unread c) as Hw.
    destruct (TSS.head_is "}" (skipWhitespace c)).
    { split; [done|]. by intros p c' [= <- <-]. }
    destruct (TSS.parseIdentifier (skipWhitespace c)) as [name c2] eqn:E2.
    apply parseIdentifier_suffix in E2 as [E2 _].
    destruct (consume (lit ":") c2) as [c3|] eqn:E3; [|thrown_tss].
    apply consume_unread in E3. change (length (lit ":")) with 1 in E3.
    pose proof (skipWhitespace_unread c3) as Hw3.
    destruct (TSS.parseValue (skipWhitespace c3)) as [value c4] eqn:E4.
    apply parseValue_suffix in E4 as [E4 _].
    destruct (consume (lit ";") c4) as [c5|] eqn:E5; [|thrown_tss].
    apply consume_unread in E5. change (length (lit ";")) with 1 in E5.
    pose proof (skipWhitespace_unread c5) as Hw5.
    destruct (IH (obj_set name value acc) (skipWhitespace c5)) as [H1 H2]; [lia|].
    split; [done|]. intros p c' Hr. apply H2 in Hr. lia.
Qed.

Lemma parseProperties_total (c : cursor) :
  TSS.parseProperties c <> OutOfFuel
  /\ forall p c', TSS.parseProperties c = Ok (p, c') -> unread c' <= unread c.
Proof. unfold TSS.parseProperties. by apply parseProperties_loop_total. Qed.

Lemma parseVariable_total (c : cursor) :
  TSS.parseVariable c <> OutOfFuel
  /\ forall v c', TSS.parseVariable c = Ok (v, c') -> unread c' < unread c.
Proof.
  unfold TSS.parseVariable.
  destruct (consume (lit "--") c) as [c1|] eqn:E1; [|thrown_tss].
  apply consume_unread in E1. change (length (lit "--")) with 2 in E1.
  destruct (TSS.parseIdentifier c1) as [name c2] eqn:E2.
  apply parseIdentifier_suffix in E2 as [E2 _].
  destruct (consume (lit ":") c2) as [c3|] eqn:E3; [|thrown_tss].
  apply consume_unread in E3. change (length (lit ":")) with 1 in E3.
  pose proof (skipWhitespace_unread c3) as Hw3.
  destruct (TSS.parseValue (skipWhitespace c3)) as [value c4] eqn:E4.
  apply parseValue_suffix in E4 as [E4 _].
  destruct (consume (lit ";") c4) as [c5|] eqn:E5; [|thrown_tss].
  apply consume_unread in E5. change (length (lit ";")) with 1 in E5.
  split; [done|]. intros v c' [= <- <-]. lia.
Qed.

Lemma or_same_unread (e : list ascii) (c : cursor) :
  unread (TSS.or_same c (consume e c)) <= unread c
  /\ (starts_with e (rest c) = true -> e <> [] ->
      unread (TSS.or_same c (consume e c)) < unread c).
Proof.
  destruct (consume e c) as [c'|] eqn:E; cbn [TSS.or_same].
  - apply consume_unread in E. split; [lia|]. intros _ He.
    destruct e; [done|]. cbn [length] in E. lia.
  - split; [lia|]. intros Hs. unfold consume in E. by rewrite Hs in E.
Qed.

(** An iteration of the [:root] loop over a declaration that is no variable
    consumes a character, whatever stands there. *)
Lemma root_other_progress (c1 : cursor) (ch : ascii) (s : list ascii) :
  rest c1 = ch :: s -> is_space ch = false -> char_eqb ch "}" = false ->
  forall x c2 y c4,
    TSS.parseIdentifier c1 = (x, c2) ->
    TSS.parseValue (TSS.or_same c2 (consume (lit ":") c2)) = (y, c4) ->
    unread (TSS.or_same c4 (consume (lit ";") c4)) < unread c1.
Proof.
  intros Hr Hsp Hbr x c2 y c4 E2 E4.
  pose proof (parseIdentifier_suffix _ _ _ E2) as [H2 H2'].
  pose proof (or_same_unread (lit ":") c2) as [H3 H3'].
  pose proof (parseValue_suffix _ _ _ E4) as [H4 H4'].
  pose proof (or_same_unread (lit ";") c4) as [H5 H5'].
  rewrite Hr in H2'. cbn iota in H2'.
  destruct (is_name_char ch) eqn:En.
  { specialize (H2' eq_refl). clear -H2' H3 H4 H5. lia. }
  clear H2'.
  assert (rest c2 = ch :: s) as Hr2.
  { unfold TSS.parseIdentifier in E2. rewrite Hr in E2. cbn [scan_column] in E2.
    rewrite En in E2. by injection E2 as <- <-. }
  destruct (starts_with (lit ":") (rest c2)) eqn:Es.
  { specialize (H3' eq_refl ltac:(done)). clear -H2 H3' H4 H5. lia. }
  clear H3'.
  assert (TSS.or_same c2 (consume (lit ":") c2) = c2) as Hc3.
  { unfold consume. by rewrite Es. }
  rewrite Hc3 in *. rewrite Hr2 in H4'. cbn iota in H4'.
  destruct (TSS.is_quote ch || TSS.unquoted_char ch) eqn:Eu.
  { specialize (H4' eq_refl). clear -H2 H3 H4' H5. lia. }
  apply orb_false_elim in Eu as [Eq Eu].
  assert (ch = ";"%char) as ->.
  { unfold TSS.unquoted_char in Eu. rewrite Hsp, Hbr in Eu. cbn [negb andb] in Eu.
    rewrite !andb_true_r in Eu. apply negb_false_iff in Eu. by apply char_eqb_eq. }
  assert (rest c4 = ";"%char :: s) as Hr4.
  { unfold TSS.parseValue in E4. rewrite Hr2 in E4.
    change (TSS.is_quote ";") with false in E4. cbn iota in E4.
    cbn [scan_column] in E4. change (TSS.unquoted_char ";") with false in E4.
    by injection E4 as <- <-. }
  assert (starts_with (lit ";") (rest c4) = true) as Hs4 by (by rewrite Hr4).
  specialize (H5' Hs4 ltac:(done)). clear -H2 H3 H4 H5'. lia.
Qed.

Lemma parseRootVariables_loop_total (fuel : nat) : forall vars c,
  unread c <= fuel ->
  TSS.parseRootVariables_loop fuel vars c <> OutOfFuel
  /\ forall v c', TSS.parseRootVariables_loop fuel vars c = Ok (v, c') ->
                  unread c' <= unread c.
Proof.
  induction fuel as [|fuel IH]; intros vars c Hf; cbn [TSS.parseRootVariables_loop].
  - destruct (TSS.properties_guard c) eqn:G.
    + unfold TSS.properties_guard, unread in *. destruct (rest c); [done|simpl in Hf; lia].
    + split; [done|]. by intros p c' [= <- <-].
  - destruct (TSS.properties_guard c) eqn:G.
    2:{ split; [done|]. by intros p c' [= <- <-]. }
    pose proof (skipWhitespace_unread c) as Hw.
    assert (0 < unread c) as Hpos.
    { unfold TSS.properties_guard, unread in *. destruct (rest c); [done|simpl; lia]. }
    destruct (TSS.head_is "}" (skipWhitespace c)) eqn:Hh.
    { split; [done|]. by intros p c' [= <- <-]. }
    destruct (starts_with (lit "--") (rest (skipWhitespace c))) eqn:Hv.
    + destruct (parseVariable_total (skipWhitespace c)) as [Hv1 Hv2].
      destruct (TSS.parseVariable (skipWhitespace c)) as [[v c2]| |] eqn:E; [|thrown_tss|done].
      specialize (Hv2 _ _ eq_refl). cbn [bind].
      pose proof (skipWhitespace_unread c2) as Hw2.
      match goal with |- context [TSS.parseRootVariables_loop fuel ?m ?c0] =>
        destruct (IH m c0) as [H1 H2]; [lia|] end.
      split; [done|]. intros v' c' Hr. apply H2 in Hr. lia.
    + destruct (TSS.parseIdentifier (skipWhitespace c)) as [x c2] eqn:E2.
      destruct (TSS.parseValue _) as [y c4] eqn:E4.
      set (c5 := TSS.or_same c4 (consume (lit ";") c4)).
      assert (unread c5 < unread c) as Hlt.
      { destruct (rest (skipWhitespace c)) as [|ch s] eqn:Er.
        - pose proof (parseIdentifier_suffix _ _ _ E2) as [H2 _].
          pose proof (or_same_unread (lit ":") c2) as [H3 _].
          pose proof (parseValue_suffix _ _ _ E4) as [H4 _].
          pose proof (or_same_unread (lit ";") c4) as [H5 _].
          unfold unread in H2 at 2. rewrite Er in H2. simpl in H2. subst c5. lia.
        - pose proof (root_other_progress (skipWhitespace c) ch s Er) as Hp.
          destruct (skipWhitespace_spec c) as (ws & _ & _ & Hstop). rewrite Er in Hstop.
          unfold TSS.head_is in Hh. rewrite Er in Hh.
          specialize (Hp Hstop Hh _ _ _ _ E2 E4). subst c5. lia. }
      pose proof (skipWhitespace_unread c5) as Hw5.
      destruct (IH vars (skipWhitespace c5)) as [H1 H2]; [lia|].
      split; [done|]. intros v' c' Hr. apply H2 in Hr. lia.
Qed.

Lemma parseRootVariables_total (vars : gmap (list ascii) (list ascii)) (c : cursor) :
  starts_with (lit ":root") (rest c) = true ->
  TSS.parseRootVariables vars c <> OutOfFuel
  /\ forall v c', TSS.parseRootVariables vars c = Ok (v, c') -> unread c' < unread c.
Proof.
  intros Hs. apply starts_with_inv in Hs. change (length (lit ":root")) with 5 in Hs.
  unfold TSS.parseRootVariables.
  set (c0 := Cursor (drop 5 (rest c)) (line c) (column c + 5)).
  assert (unread c = 5 + unread c0) as H0.
  { unfold unread. subst c0. cbn [rest]. rewrite Hs at 1. by rewrite length_app. }
  pose proof (skipWhitespace_unread c0) as Hw.
  destruct (consume (lit "{") (skipWhitespace c0)) as [c2|] eqn:E2; [|thrown_tss].
  apply consume_unread in E2. change (length (lit "{")) with 1 in E2.
  destruct (parseRootVariables_loop_total (length (rest c2)) vars c2) as [H1 H2]; [done|].
  destruct (TSS.parseRootVariables_loop _ vars c2) as [[v c3]| |]; [|thrown_tss|done].
  specialize (H2 _ _ eq_refl). cbn [bind].
  destruct (consume (lit "}") c3) as [c4|] eqn:E4; [|thrown_tss].
  apply consume_unread in E4. split; [done|]. intros v' c' [= <- <-].
  clear -H0 Hw E2 H2 E4. lia.
Qed.

Lemma skipBlock_unread (s : list ascii) :
  forall depth ln col, unread (TSS.skipBlock depth s ln col) <= length s.
Proof.
  induction s as [|ch s IH]; intros depth ln col; cbn [TSS.skipBlock]; [done|].
  destruct depth as [|below]; [done|].
  destruct (char_eqb ch newline); etrans; try apply IH; cbn [length]; lia.
Qed.

(** An at-rule is skipped from its [@] on: the cursor moves. *)
Lemma parseAtRule_progress (c : cursor) :
  TSS.head_is "@" c = true -> unread (TSS.parseAtRule c) < unread c.
Proof.
  unfold TSS.head_is, TSS.parseAtRule. destruct (rest c) as [|ch s] eqn:Er; [done|].
  intros ->%char_eqb_eq.
  destruct (scan_column _ ("@"%char :: s) _ _) as [x c1] eqn:E1.
  cbn [scan_column] in E1. change (char_eqb "@" ";") with false in E1.
  change (char_eqb "@" "{") with false in E1. cbn [negb andb] in E1.
  destruct (scan_column _ s (line c) (S (column c))) as [x' c1'] eqn:E1'.
  injection E1 as <- <-. apply scan_column_spec in E1' as (E1' & _).
  apply (f_equal length) in E1'. rewrite length_app in E1'.
  assert (unread c1' < unread c) as Hlt.
  { unfold unread. rewrite Er. cbn [length]. lia. }
  destruct (rest c1') as [|ch' s'] eqn:Er1; [done|].
  cbn iota. destruct (char_eqb ch' "{").
  - pose proof (skipBlock_unread s' 1 (line c1') (S (column c1'))) as Hb.
    unfold unread in Hlt at 1. rewrite Er1 in Hlt. cbn [length] in Hlt. lia.
  - destruct (scan_column _ (ch' :: s') _ _) as [y c2] eqn:E2.
    apply scan_column_spec in E2 as (E2 & _). apply (f_equal length) in E2.
    rewrite length_app in E2. unfold unread in Hlt at 1. rewrite Er1 in Hlt.
    destruct (rest c2) as [|ch2 s2] eqn:Er2; unfold unread in *; cbn [rest];
      rewrite ?Er2; cbn [length] in *; lia.
Qed.

(** [parseRule] returns, and it moves the cursor unless it stands in front
    of a [{] or at the end of the text. *)
Lemma parseRule_total (c : cursor) :
  TSS.parseRule c <> OutOfFuel
  /\ forall rule c', TSS.parseRule c = Ok (rule, c') ->
       unread c' < unread c \/ TSS.head_is "{" c = true \/ rest c = [].
Proof.
  unfold TSS.parseRule, TSS.parseSelector.
  destruct (scan_column _ (rest c) _ _) as [taken c1] eqn:E1.
  pose proof (scan_column_unread _ _ _ _ E1) as Hl.
  apply scan_column_spec in E1 as (E1 & _ & Hstop & _).
  destruct (negb (truthy (trim taken))).
  - split; [done|]. intros rule c' [= <- <-].
    destruct taken as [|x taken]; [|left; cbn [length] in Hl; lia].
    right. cbn [app] in E1. unfold TSS.head_is. rewrite E1.
    destruct (rest c1) as [|ch s]; [by right|left].
    by apply negb_false_iff in Hstop.
  - destruct (consume (lit "{") c1) as [c2|] eqn:E2; [|thrown_tss].
    apply consume_unread in E2. change (length (lit "{")) with 1 in E2.
    destruct (parseProperties_total c2) as [H1 H2].
    destruct (TSS.parseProperties c2) as [[p c3]| |]; [|thrown_tss|done].
    specialize (H2 _ _ eq_refl). cbn [bind].
    destruct (consume (lit "}") c3) as [c4|] eqn:E4; [|thrown_tss].
    apply consume_unread in E4. split; [done|]. intros rule c' [= <- <-].
    left. clear -Hl E2 H2 E4. lia.
Qed.

(** An iteration of the top-level loop returns, and it moves the cursor
    unless the cursor stands in front of a [{]. *)
Lemma parse_body_total (st : TSS.parser_state) :
  rest (TSS.ps_cursor st) <> [] ->
  TSS.parse_body st <> OutOfFuel
  /\ forall st', TSS.parse_body st = Ok st' ->
       unread (TSS.ps_cursor st') < unread (TSS.ps_cursor st)
       \/ TSS.head_is "{" (TSS.ps_cursor st) = true.
Proof.
  intros Hne. unfold TSS.parse_body.
  destruct (starts_with (lit ":root") (rest (TSS.ps_cursor st))) eqn:Hroot.
  - destruct (parseRootVariables_total (TSS.ps_variables st) _ Hroot) as [H1 H2].
    destruct (TSS.parseRootVariables _ _) as [[v c1]| |]; [|by cbn [bind]|done].
    specialize (H2 _ _ eq_refl). cbn [bind]. split; [done|].
    intros st' [= <-]. cbn [TSS.ps_cursor]. left.
    pose proof (skipWhitespace_unread c1). lia.
  - destruct (TSS.head_is "@" (TSS.ps_cursor st)) eqn:Hat.
    + split; [done|]. intros st' [= <-]. cbn [TSS.ps_cursor]. left.
      pose proof (parseAtRule_progress _ Hat).
      pose proof (skipWhitespace_unread (TSS.parseAtRule (TSS.ps_cursor st))). lia.
    + destruct (parseRule_total (TSS.ps_cursor st)) as [H1 H2].
      destruct (TSS.parseRule _) as [[rule c1]| |]; [|by cbn [bind]|done].
      specialize (H2 _ _ eq_refl). cbn [bind]. split; [done|].
      intros st' [= <-]. cbn [TSS.ps_cursor].
      pose proof (skipWhitespace_unread c1).
      destruct H2 as [H2|[H2|H2]]; [left; lia|by right|done].
Qed.

(** The top-level loop runs out of fuel, however much it gets, only by
    coming to a [{] in the place of a selector. *)
Lemma parse_loop_out_of_fuel (fuel : nat) : forall st,
  unread (TSS.ps_cursor st) < fuel ->
  TSS.parse_loop fuel st = OutOfFuel ->
  exists st', reaches st st' /\ TSS.head_is "{" (TSS.ps_cursor st') = true.
Proof.
  induction fuel as [|fuel IH]; intros st Hf; [lia|]. cbn [TSS.parse_loop].
  destruct (rest (TSS.ps_cursor st)) as [|ch s] eqn:Er; [done|].
  assert (rest (TSS.ps_cursor st) <> []) as Hne by (by rewrite Er).
  destruct (parse_body_total st Hne) as [H1 H2].
  destruct (TSS.parse_body st) as [st1| |] eqn:Hb; cbn [bind]; [|done|done].
  intros Hout. destruct (H2 _ eq_refl) as [Hlt|Hbrace].
  - destruct (IH st1) as (st' & Hreach & Hbrace); [lia|done|].
    exists st'. split; [|done]. by apply (reaches_next st st1 st').
  - exists st. split; [apply reaches_here|done].
Qed.

Lemma reaches_out_of_fuel (st st' : TSS.parser_state) :
  reaches st st' ->
  (forall fuel, TSS.parse_loop fuel st' = OutOfFuel) ->
  forall fuel, TSS.parse_loop fuel st = OutOfFuel.
Proof.
  induction 1 as [st | st st1 st2 Hne Hb _ IH]; [done|].
  intros Hspin [|fuel]; cbn [TSS.parse_loop];
    destruct (rest (TSS.ps_cursor st)); try done.
  rewrite Hb. cbn [bind]. by apply IH.
Qed.

Lemma initial_state_unread (tss : list ascii) :
  unread (TSS.ps_cursor (TSS.initial_state tss)) <= length tss.
Proof. unfold TSS.initial_state. cbn [TSS.ps_cursor]. apply skipWhitespace_unread. Qed.

Lemma stray_brace_out_of_fuel (tss : list ascii) :
  stray_brace tss -> forall fuel, TSS.parseTSS fuel tss = OutOfFuel.
Proof.
  unfold TSS.parseTSS, TSS.parse, stray_brace.
  intros (st & Hreach & Hbrace). apply (reaches_out_of_fuel _ st Hreach).
  intros fuel. unfold TSS.head_is in Hbrace.
  destruct (rest (TSS.ps_cursor st)) as [|ch s] eqn:Er; [done|].
  apply char_eqb_eq in Hbrace as ->. by apply (parse_loop_stray_brace fuel st s).
Qed.

(** X1.  The stylesheet parser fails to return on exactly the texts on which
    its top-level loop comes to a [{] in the place of a selector: it runs
    out of every amount of fuel on them, and on no other text does it run
    out of more than [length tss] iterations. *)
Theorem parseTSS_hangs_iff (tss : list ascii) :
  ((forall fuel, TSS.parseTSS fuel tss = OutOfFuel) <-> stray_brace tss)
  /\ ((exists fuel, length tss < fuel /\ TSS.parseTSS fuel tss = OutOfFuel)
      <-> stray_brace tss).
Proof.
  assert (forall fuel, length tss < fuel -> TSS.parseTSS fuel tss = OutOfFuel ->
                       stray_brace tss) as Hout.
  { intros fuel Hf. unfold TSS.parseTSS, TSS.parse, stray_brace.
    apply parse_loop_out_of_fuel. pose proof (initial_state_unread tss). lia. }
  split; split.
  - intros Hall. apply (Hout (S (length tss))); [lia|apply Hall].
  - apply stray_brace_out_of_fuel.
  - intros (fuel & Hf & E). by apply (Hout fuel).
  - intros Hb. exists (S (length tss)). split; [lia|].
    by apply stray_brace_out_of_fuel.
Qed.

Theorem parseTSS_returns (tss : list ascii) :
  ~ stray_brace tss -> forall k, TSS.parseTSS (S (length tss) + k) tss <> OutOfFuel.
Proof.
  intros Hno k Hout. apply Hno.
  destruct (TSS.parseTSS (S (length tss)) tss) as [sheet|e|] eqn:E.
  - unfold TSS.parseTSS, TSS.parse in *.
    by rewrite (parse_loop_more _ _ _ k E) in Hout.
  - unfold TSS.parseTSS, TSS.parse in *.
    by rewrite (parse_loop_more _ _ _ k E) in Hout.
  - unfold TSS.parseTSS, TSS.parse in E.
    apply parse_loop_out_of_fuel in E; [done|].
    pose proof (initial_state_unread tss). lia.
Qed.

Section FrameProperties.

Import Widgets Renderer.

Context {number host_error application StateManager StyleEngine : Type}.
Variable parseFloat : list ascii -> number.
Variable number_truthy : number -> bool.
Variable one_half two_hundred buffer_size : number.
Variable imgui : list (@ImGuiCall number) -> @ImGuiCall number
                 -> @ImGuiReply number host_error.
Variable new_StyleEngine : TSS.TSSStylesheet -> result host_error StyleEngine.
Variable computeStyle :
  StyleEngine -> TXMLElement -> list (list ascii) -> result host_error unit.
Variable beginFrame : StateManager -> result host_error StateManager.
Variable createContext :
  StateManager -> TSS.TSSStylesheet ->
  gmap (list ascii) (@EventHandler number host_error application) ->
  result host_error
    (@RenderContext number host_error application * list (list ascii)).
Variable endFrame :
  StateManager -> gmap (list ascii) (@WidgetState number) ->
  result host_error StateManager.

Abbreviation render_frame :=
  (Renderer.render parseFloat number_truthy one_half two_hundred buffer_size imgui
                   new_StyleEngine computeStyle beginFrame createContext endFrame).

(** Whatever the frame throws is caught: [render] never throws. *)
Lemma render_never_throws (fuel : nat) (txml tss : list ascii)
    (r : TXMLTSSRenderer) (w : World) (e : error) :
  render_frame fuel txml tss r w <> Throw e.
Proof.
  unfold Renderer.render.
  by destruct (frame _ _ _ _ _ _ _ _ _ _ _ _ _ _ _ _) as [[r' w']| |].
Qed.

(** A markup error is reported, whatever the stylesheet. *)
Lemma render_reports_markup_error (fuel : nat) (txml tss : list ascii)
    (r : TXMLTSSRenderer) (w : World) (e : TXML.ParseError) :
  parseTXML txml = Throw e ->
  render_frame fuel txml tss r w = Ok (Reported (MarkupError e)).
Proof. intros H. unfold Renderer.render, frame. by rewrite H. Qed.

(** With markup that parses, [render] does not return on a stylesheet with
    a stray [{], whatever the binding and the state manager do. *)
Lemma render_hangs_with_parser (fuel : nat) (txml tss : list ascii)
    (root : TXMLElement) (r : TXMLTSSRenderer) (w : World) :
  parseTXML txml = Ok root -> stray_brace tss ->
  render_frame fuel txml tss r w = OutOfFuel.
Proof.
  intros Hxml Hbrace. unfold Renderer.render, frame. rewrite Hxml. cbn [lift bind].
  by rewrite (stray_brace_out_of_fuel tss Hbrace fuel).
Qed.

(** C8 at the input [<App />] with the stylesheet [{]: the markup parses,
    the stylesheet parser never returns, and neither does [render], for any
    behaviour of the binding and of the state manager. *)
Theorem render_hangs_on_stray_brace (fuel : nat) (r : TXMLTSSRenderer) (w : World) :
  parseTXML (lit "<App />") = Ok (Element (lit "App") [] [])
  /\ render_frame fuel (lit "<App />") (lit "{") r w = OutOfFuel.
Proof.
  split; [by vm_compute|]. unfold Renderer.render, frame.
  assert (parseTXML (lit "<App />") = Ok (Element (lit "App") [] [])) as ->
    by (by vm_compute).
  cbn [lift bind]. pose proof (parseTSS_stray_brace fuel [] [] eq_refl) as Hspin.
  change ([] ++ ["{"%char]) with (lit "{") in Hspin. by rewrite Hspin.
Qed.

End FrameProperties.

(** ** Well-formed stylesheets *)

Lemma terminated_stop (ds : list declaration) (s : list ascii) :
  Forall (declaration_at (Some ";"%char)) ds ->
  match s with ch :: _ => is_space ch = false | [] => True end ->
  match concat (map terminated_text ds) ++ s with
  | ch :: _ => is_space ch = false
  | [] => True
  end.
Proof.
  intros Hds Hs. destruct ds as [|d ds]; [done|].
  apply Forall_cons in Hds as [[Hn _] _]. cbn [map concat].
  unfold terminated_text at 1. rewrite <- !app_assoc. by apply declaration_head_stop.
Qed.

(** The declaration loop over terminated declarations, up to a [}] or to
    the end of the text. *)
Lemma parseProperties_loop_terminated (ds : list declaration) :
  forall fuel acc c stop,
    length ds <= fuel ->
    rest c = concat (map terminated_text ds) ++ stop ->
    Forall (declaration_at (Some ";"%char)) ds ->
    match stop with ch :: _ => ch = "}"%char | [] => True end ->
    exists c', TSS.parseProperties_loop fuel acc c
               = Ok (fold_left (fun properties d => obj_set (d_name d) (d_value d) properties)
                               ds acc, c')
               /\ rest c' = stop.
Proof.
  induction ds as [|d ds IH]; intros fuel acc c stop Hf Hr Hds Hstop.
  - cbn [map concat app] in Hr. exists c. split; [|done].
    assert (TSS.properties_guard c = false) as Hg.
    { unfold TSS.properties_guard. rewrite Hr. destruct stop as [|ch stop]; [done|].
      by subst ch. }
    destruct fuel; cbn [TSS.parseProperties_loop fold_left]; by rewrite Hg.
  - destruct fuel as [|fuel]; [cbn [length] in Hf; lia|].
    apply Forall_cons in Hds as [Hd Hds].
    cbn [map concat] in Hr. unfold terminated_text at 1 in Hr.
    rewrite <- !app_assoc in Hr.
    destruct (declaration_step d (lit ";" ++ d_gap d ++ concat (map terminated_text ds)
                                    ++ stop) c Hd Hr)
      as (Hg & Hsw & Hh & c2 & c3 & c4 & E2 & E3 & E4 & Hr4).
    rewrite parseProperties_loop_step by done. cbv zeta.
    rewrite Hsw, Hh, E2, E3, E4.
    destruct (consume_prefix _ _ _ Hr4) as (c5 & E5 & Hr5). rewrite E5.
    cbn [fold_left].
    apply IH; [cbn [length] in Hf; lia| |done|done].
    apply (skipWhitespace_prefix (d_gap d)); [done|by destruct Hd as (_ & _ & _ & ?)|].
    apply terminated_stop; [done|]. destruct stop as [|ch stop]; [done|]. by subst ch.
Qed.

Lemma space_guard (ch : ascii) : is_space ch = true -> char_eqb ch "}" = false.
Proof. destruct ch as [[] [] [] [] [] [] [] []]; vm_compute; done. Qed.

Lemma parseProperties_terminated (indent : list ascii) (ds : list declaration)
    (stop : list ascii) (c : cursor) :
  rest c = indent ++ concat (map terminated_text ds) ++ stop ->
  all_space indent ->
  Forall (declaration_at (Some ";"%char)) ds ->
  match stop with ch :: _ => ch = "}"%char | [] => ds = [] -> indent = [] end ->
  exists c', TSS.parseProperties c = Ok (declared ds, c') /\ rest c' = stop.
Proof.
  intros Hr Hin Hds Hstop. unfold TSS.parseProperties, declared.
  assert (match stop with ch :: _ => ch = "}"%char | [] => True end) as Hstop'.
  { by destruct stop. }
  assert (match stop with ch :: _ => is_space ch = false | [] => True end) as Hstop''.
  { destruct stop as [|ch stop]; [done|]. by subst ch. }
  assert (rest (skipWhitespace c) = concat (map terminated_text ds) ++ stop) as Hsw.
  { apply (skipWhitespace_prefix indent); [done|done|]. by apply terminated_stop. }
  destruct indent as [|ch indent].
  - cbn [app] in Hr. apply parseProperties_loop_terminated; [|done|done|done].
    rewrite Hr, length_app. pose proof (terminated_text_length ds) as Hl.
    clear -Hl. lia.
  - assert (length ds < length (rest c)) as Hlen.
    { rewrite Hr. cbn [app length]. rewrite !length_app.
      pose proof (terminated_text_length ds) as Hl. clear -Hl. lia. }
    destruct (length (rest c)) as [|fuel] eqn:El; [lia|].
    cbn [forallb] in Hin. apply andb_prop in Hin as [Hch Hin].
    assert (TSS.properties_guard c = true) as Hg.
    { unfold TSS.properties_guard. rewrite Hr. cbn [app].
      by rewrite (space_guard ch Hch). }
    destruct ds as [|d ds].
    + destruct stop as [|ch' stop]; [by specialize (Hstop eq_refl)|]. subst ch'.
      rewrite parseProperties_loop_step by done. cbv zeta.
      cbn [map concat app] in Hsw.
      assert (TSS.head_is "}" (skipWhitespace c) = true) as ->.
      { unfold TSS.head_is. by rewrite Hsw. }
      by exists (skipWhitespace c).
    + assert (TSS.properties_guard (skipWhitespace c) = true) as Hg2.
      { pose proof Hds as Hds'. apply Forall_cons in Hds' as [Hd _].
        cbn [map concat] in Hsw. unfold terminated_text at 1 in Hsw.
        rewrite <- !app_assoc in Hsw.
        by destruct (declaration_step d (lit ";" ++ _) _ Hd Hsw) as (Hg' & _). }
      rewrite parseProperties_loop_skip by done.
      apply parseProperties_loop_terminated; [lia|done|done|done].
Qed.

Lemma parseRule_terminated (sel indent : list ascii) (ds : list declaration)
    (after : list ascii) (c : cursor) :
  rest c = item_text (RuleItem sel indent ds) ++ after ->
  well_formed (RuleItem sel indent ds) ->
  exists c', TSS.parseRule c
             = Ok (Some (TSS.Rule (trim sel) (declared ds)
                                  (TSS.calculateSpecificity (trim sel))), c')
             /\ rest c' = after.
Proof.
  cbn [item_text well_formed]. intros Hr ((Hhead & _ & Hsel) & Hin & Hds).
  rewrite <- !app_assoc in Hr. unfold TSS.parseRule, TSS.parseSelector.
  destruct (scan_column_prefix (fun ch => negb (char_eqb ch "{")) sel _ c Hr Hsel)
    as (c1 & E1 & Hr1); [done|].
  rewrite E1.
  assert (truthy (trim sel) = true) as ->.
  { apply text_run_truthy. destruct sel; tauto. }
  cbn [negb]. destruct (consume_prefix _ _ _ Hr1) as (c2 & E2 & Hr2). rewrite E2.
  destruct (parseProperties_terminated indent ds (lit "}" ++ after) c2 Hr2 Hin Hds)
    as (c3 & -> & Hr3); [done|].
  cbn [bind]. destruct (consume_prefix _ _ _ Hr3) as (c4 & E4 & Hr4). rewrite E4.
  by exists c4.
Qed.

Lemma variables_stop (vs : list declaration) (s : list ascii) :
  match s with ch :: _ => is_space ch = false | [] => True end ->
  match concat (map variable_text vs) ++ s with
  | ch :: _ => is_space ch = false
  | [] => True
  end.
Proof. intros Hs. by destruct vs as [|v vs]. Qed.

Lemma parseRootVariables_loop_step (fuel : nat)
    (vars : gmap (list ascii) (list ascii)) (c : cursor) :
  TSS.properties_guard c = true ->
  TSS.parseRootVariables_loop (S fuel) vars c
  = let c1 := skipWhitespace c in
    if TSS.head_is "}" c1 then Ok (vars, c1)
    else if starts_with (lit "--") (rest c1) then
      try (variable, c2) <- TSS.parseVariable c1;
      TSS.parseRootVariables_loop fuel
        (<[TSS.name variable := TSS.value variable]> vars) (skipWhitespace c2)
    else
      let '(_, c2) := TSS.parseIdentifier c1 in
      let c3 := TSS.or_same c2 (consume (lit ":") c2) in
      let '(_, c4) := TSS.parseValue c3 in
      let c5 := TSS.or_same c4 (consume (lit ";") c4) in
      TSS.parseRootVariables_loop fuel vars (skipWhitespace c5).
Proof. intros Hg. cbn [TSS.parseRootVariables_loop]. by rewrite Hg. Qed.

(** [parseVariable] over [--name: value;]. *)
Lemma parseVariable_terminated (v : declaration) (after : list ascii) (c : cursor) :
  declaration_at (Some ";"%char) v ->
  rest c = lit "--" ++ declaration_head v ++ lit ";" ++ after ->
  exists c', TSS.parseVariable c = Ok (TSS.Variable_ (d_name v) (d_value v), c')
             /\ rest c' = after.
Proof.
  intros Hv Hr. unfold TSS.parseVariable.
  destruct (consume_prefix _ _ _ Hr) as (c1 & E1 & Hr1). rewrite E1.
  destruct (declaration_step v (lit ";" ++ after) c1 Hv Hr1)
    as (_ & _ & _ & c2 & c3 & c4 & E2 & E3 & E4 & Hr4).
  rewrite E2, E3, E4.
  destruct (consume_prefix _ _ _ Hr4) as (c5 & E5 & Hr5). rewrite E5. by exists c5.
Qed.

Lemma parseRootVariables_loop_defined (vs : list declaration) :
  forall fuel vars c after,
    length vs <= fuel ->
    rest c = concat (map variable_text vs) ++ lit "}" ++ after ->
    Forall (declaration_at (Some ";"%char)) vs ->
    exists c', TSS.parseRootVariables_loop fuel vars c = Ok (defined vs vars, c')
               /\ rest c' = lit "}" ++ after.
Proof.
  induction vs as [|v vs IH]; intros fuel vars c after Hf Hr Hvs.
  - cbn [map concat app] in Hr. exists c. split; [|done].
    assert (TSS.properties_guard c = false) as Hg.
    { unfold TSS.properties_guard. by rewrite Hr. }
    destruct fuel; cbn [TSS.parseRootVariables_loop]; by rewrite Hg.
  - destruct fuel as [|fuel]; [cbn [length] in Hf; lia|].
    apply Forall_cons in Hvs as [Hv Hvs].
    cbn [map concat] in Hr. unfold variable_text at 1, terminated_text at 1 in Hr.
    rewrite <- !app_assoc in Hr.
    assert (TSS.properties_guard c = true) as Hg.
    { unfold TSS.properties_guard. by rewrite Hr. }
    assert (skipWhitespace c = c) as Hsw.
    { apply skipWhitespace_none. by rewrite Hr. }
    rewrite parseRootVariables_loop_step by done. cbv zeta. rewrite Hsw.
    assert (TSS.head_is "}" c = false) as ->.
    { unfold TSS.head_is. by rewrite Hr. }
    assert (starts_with (lit "--") (rest c) = true) as ->.
    { rewrite Hr. apply starts_with_app. }
    destruct (parseVariable_terminated v _ c Hv Hr) as (c2 & -> & Hr2).
    cbn [bind TSS.name TSS.value]. unfold defined. cbn [fold_left].
    apply IH; [cbn [length] in Hf; lia| |done].
    apply (skipWhitespace_prefix (d_gap v)); [done|by destruct Hv as (_ & _ & _ & ?)|].
    by apply variables_stop.
Qed.

Lemma variable_text_length (vs : list declaration) :
  length vs <= length (concat (map variable_text vs)).
Proof.
  induction vs as [|v vs IH]; [done|]. cbn [map concat]. rewrite length_app.
  unfold variable_text at 1. rewrite length_app. change (length (lit "--")) with 2.
  cbn [length]. lia.
Qed.

Lemma parseRootVariables_defined (space indent : list ascii) (vs : list declaration)
    (after : list ascii) (vars : gmap (list ascii) (list ascii)) (c : cursor) :
  rest c = item_text (RootItem space indent vs) ++ after ->
  well_formed (RootItem space indent vs) ->
  exists c', TSS.parseRootVariables vars c = Ok (defined vs vars, c')
             /\ rest c' = after.
Proof.
  cbn [item_text well_formed]. intros Hr (Hsp & Hin & Hvs).
  rewrite <- !app_assoc in Hr. unfold TSS.parseRootVariables.
  set (c0 := Cursor (drop 5 (rest c)) (line c) (column c + 5)).
  assert (rest c0 = space ++ lit "{" ++ indent ++ concat (map variable_text vs)
                    ++ lit "}" ++ after) as Hr0.
  { subst c0. cbn [rest]. rewrite Hr. change 5 with (length (lit ":root")).
    by rewrite drop_app_length. }
  assert (rest (skipWhitespace c0) = lit "{" ++ indent ++ concat (map variable_text vs)
                                     ++ lit "}" ++ after) as Hsw.
  { by apply (skipWhitespace_prefix space). }
  destruct (consume_prefix (lit "{") _ (skipWhitespace c0) Hsw) as (c2 & E2 & Hr2).
  rewrite E2.
  assert (rest (skipWhitespace c2) = concat (map variable_text vs) ++ lit "}" ++ after)
    as Hsw2.
  { apply (skipWhitespace_prefix indent); [done|done|]. by apply variables_stop. }
  assert (length vs < length (rest c2)) as Hlen.
  { rewrite Hr2, !length_app. pose proof (variable_text_length vs).
    change (length (lit "}")) with 1. lia. }
  assert (exists c3, TSS.parseRootVariables_loop (length (rest c2)) vars c2
                     = Ok (defined vs vars, c3) /\ rest c3 = lit "}" ++ after)
    as (c3 & -> & Hr3).
  { destruct indent as [|ch indent].
    - cbn [app] in Hr2. apply parseRootVariables_loop_defined; [lia|done|done].
    - destruct (length (rest c2)) as [|fuel] eqn:El; [lia|].
      cbn [forallb] in Hin. apply andb_prop in Hin as [Hch Hin].
      assert (TSS.properties_guard c2 = true) as Hg.
      { unfold TSS.properties_guard. rewrite Hr2. cbn [app].
        by rewrite (space_guard ch Hch). }
      destruct vs as [|v vs].
      + rewrite parseRootVariables_loop_step by done. cbv zeta.
        cbn [map concat app] in Hsw2.
        assert (TSS.head_is "}" (skipWhitespace c2) = true) as ->.
        { unfold TSS.head_is. by rewrite Hsw2. }
        by exists (skipWhitespace c2).
      + assert (TSS.properties_guard (skipWhitespace c2) = true) as Hg2.
        { unfold TSS.properties_guard. rewrite Hsw2. cbn [map concat].
          unfold variable_text at 1. by rewrite <- !app_assoc. }
        assert (TSS.parseRootVariables_loop (S fuel) vars c2
                = TSS.parseRootVariables_loop (S fuel) vars (skipWhitespace c2)) as ->.
        { rewrite !parseRootVariables_loop_step by done.
          by rewrite skipWhitespace_idem. }
        apply parseRootVariables_loop_defined; [lia|done|done]. }
  cbn [bind]. destruct (consume_prefix _ _ _ Hr3) as (c4 & E4 & Hr4). rewrite E4.
  by exists c4.
Qed.

Lemma nesting_zero (s : list ascii) : nesting 0 s = 0.
Proof. by destruct s. Qed.

Lemma skipBlock_balanced (body : list ascii) :
  forall depth ln col after,
    nesting depth body = 1 ->
    rest (TSS.skipBlock depth (body ++ lit "}" ++ after) ln col) = after.
Proof.
  induction body as [|ch body IH]; intros depth ln col after Hn.
  - cbn [nesting] in Hn. subst depth. change (lit "}") with ["}"%char].
    cbn [app TSS.skipBlock]. change (char_eqb "}" "{") with false.
    change (char_eqb "}" "}") with true. change (char_eqb "}" newline) with false.
    cbv iota. by destruct after.
  - cbn [nesting] in Hn. destruct depth as [|below]; [done|].
    cbn [app TSS.skipBlock].
    destruct (char_eqb ch newline); by apply IH.
Qed.

Lemma parseAtRule_statement (prelude after : list ascii) (c : cursor) :
  rest c = item_text (StatementItem prelude) ++ after ->
  well_formed (StatementItem prelude) ->
  rest (TSS.parseAtRule c) = after.
Proof.
  cbn [item_text well_formed]. intros Hr Hp. rewrite <- !app_assoc in Hr.
  unfold TSS.parseAtRule. rewrite app_assoc in Hr.
  destruct (scan_column_prefix
              (fun ch => negb (char_eqb ch ";") && negb (char_eqb ch "{"))
              (lit "@" ++ prelude) _ c Hr) as (c1 & -> & Hr1); [done|done|].
  rewrite Hr1. change (lit ";") with [";"%char]. cbn [app].
  change (char_eqb ";" "{") with false. cbv iota.
  cbn [scan_column]. change (char_eqb ";" ";") with true. cbn [negb rest].
  done.
Qed.

Lemma parseAtRule_block (prelude body after : list ascii) (c : cursor) :
  rest c = item_text (BlockItem prelude body) ++ after ->
  well_formed (BlockItem prelude body) ->
  rest (TSS.parseAtRule c) = after.
Proof.
  cbn [item_text well_formed]. intros Hr (Hp & Hb). rewrite <- !app_assoc in Hr.
  unfold TSS.parseAtRule. rewrite app_assoc in Hr.
  destruct (scan_column_prefix
              (fun ch => negb (char_eqb ch ";") && negb (char_eqb ch "{"))
              (lit "@" ++ prelude) _ c Hr) as (c1 & -> & Hr1); [done|done|].
  rewrite Hr1. change (lit "{") with ["{"%char]. cbn [app].
  change (char_eqb "{" "{") with true. cbv iota.
  by apply skipBlock_balanced.
Qed.

Lemma item_start (i : item) (s : list ascii) :
  well_formed i -> exists ch s', item_text i ++ s = ch :: s' /\ is_space ch = false.
Proof.
  destruct i as [sel indent ds|space indent vs|prelude|prelude body];
    cbn [item_text well_formed].
  - intros ((Hhead & _) & _). destruct sel as [|ch sel]; [done|].
    exists ch. eexists. split; [done|tauto].
  - intros _. by exists ":"%char, (lit "root" ++ (space ++ lit "{" ++ indent
                                    ++ concat (map variable_text vs) ++ lit "}") ++ s).
  - intros _. by exists "@"%char, ((prelude ++ lit ";") ++ s).
  - intros _. by exists "@"%char, ((prelude ++ lit "{" ++ body ++ lit "}") ++ s).
Qed.

Lemma items_stop (items : list (item * list ascii)) :
  Forall (fun ig => well_formed (fst ig)) items ->
  match concat (map (fun ig => item_text (fst ig) ++ snd ig) items) with
  | ch :: _ => is_space ch = false
  | [] => True
  end.
Proof.
  destruct items as [|[i gap] items]; [done|]. intros [Hi _]%Forall_cons.
  cbn [map concat fst snd]. rewrite <- app_assoc.
  by destruct (item_start i (gap ++ concat (map (fun ig => item_text (fst ig) ++ snd ig) items)) Hi)
    as (ch & s' & -> & Hch).
Qed.

(** One iteration of the top-level loop over a well-formed item and the
    whitespace after it. *)
Lemma parse_body_item (i : item) (gap more : list ascii) (st : TSS.parser_state) :
  well_formed i -> all_space gap ->
  match more with ch :: _ => is_space ch = false | [] => True end ->
  rest (TSS.ps_cursor st) = item_text i ++ gap ++ more ->
  exists c', TSS.parse_body st
             = Ok (TSS.ParserState (item_variables (TSS.ps_variables st) i)
                                   (TSS.ps_rules st ++ item_rules i) c')
             /\ rest c' = more.
Proof.
  intros Hi Hgap Hmore Hr. unfold TSS.parse_body.
  destruct i as [sel indent ds|space indent vs|prelude|prelude body].
  - assert (starts_with (lit ":root") (rest (TSS.ps_cursor st)) = false) as ->.
    { rewrite Hr. cbn [item_text]. rewrite <- !app_assoc.
      destruct Hi as ((_ & Hroot & Hbrace) & _). by apply not_root_block. }
    assert (TSS.head_is "@" (TSS.ps_cursor st) = false) as ->.
    { unfold TSS.head_is. rewrite Hr. cbn [item_text].
      destruct Hi as ((Hhead & _) & _). destruct sel as [|ch sel]; [done|].
      cbn [app]. apply char_eqb_neq. tauto. }
    destruct (parseRule_terminated sel indent ds _ _ Hr Hi) as (c1 & -> & Hr1).
    cbn [bind item_rules item_variables]. eexists. split; [done|].
    by apply (skipWhitespace_prefix gap).
  - assert (starts_with (lit ":root") (rest (TSS.ps_cursor st)) = true) as ->.
    { rewrite Hr. cbn [item_text]. rewrite <- !app_assoc. apply starts_with_app. }
    destruct (parseRootVariables_defined space indent vs _ (TSS.ps_variables st) _ Hr Hi)
      as (c1 & -> & Hr1).
    cbn [bind item_rules item_variables]. rewrite app_nil_r. eexists. split; [done|].
    by apply (skipWhitespace_prefix gap).
  - assert (starts_with (lit ":root") (rest (TSS.ps_cursor st)) = false) as ->.
    { by rewrite Hr. }
    assert (TSS.head_is "@" (TSS.ps_cursor st) = true) as ->.
    { unfold TSS.head_is. by rewrite Hr. }
    cbn [item_rules item_variables]. rewrite app_nil_r. eexists. split; [done|].
    apply (skipWhitespace_prefix gap); [|done|done].
    by apply (parseAtRule_statement prelude).
  - assert (starts_with (lit ":root") (rest (TSS.ps_cursor st)) = false) as ->.
    { by rewrite Hr. }
    assert (TSS.head_is "@" (TSS.ps_cursor st) = true) as ->.
    { unfold TSS.head_is. by rewrite Hr. }
    cbn [item_rules item_variables]. rewrite app_nil_r. eexists. split; [done|].
    apply (skipWhitespace_prefix gap); [|done|done].
    by apply (parseAtRule_block prelude body).
Qed.

(** The top-level loop over well-formed items: one iteration each, then it
    goes on with what follows them. *)
Lemma parse_loop_items (items : list (item * list ascii)) :
  forall k st tail,
    rest (TSS.ps_cursor st)
    = concat (map (fun ig => item_text (fst ig) ++ snd ig) items) ++ tail ->
    Forall (fun ig => well_formed (fst ig) /\ all_space (snd ig)) items ->
    match tail with ch :: _ => is_space ch = false | [] => True end ->
    exists c',
      rest c' = tail
      /\ TSS.parse_loop (length items + k) st
         = TSS.parse_loop k
             (TSS.ParserState
                (fold_left item_variables (map fst items) (TSS.ps_variables st))
                (TSS.ps_rules st ++ concat (map (fun ig => item_rules (fst ig)) items))
                c').
Proof.
  induction items as [|[i gap] items IH]; intros k st tail Hr Hwf Htail.
  - cbn [map concat app] in Hr. exists (TSS.ps_cursor st). split; [done|].
    cbn [map concat fold_left length Nat.add]. rewrite app_nil_r. by destruct st.
  - apply Forall_cons in Hwf as [[Hi Hgap] Hwf]. cbn [fst snd] in Hi, Hgap.
    cbn [map concat fst snd] in Hr. rewrite <- !app_assoc in Hr.
    assert (match concat (map (fun ig => item_text (fst ig) ++ snd ig) items) ++ tail with
            | ch :: _ => is_space ch = false
            | [] => True
            end) as Hnext.
    { destruct items as [|[i' gap'] items']; [done|].
      apply Forall_cons in Hwf as [[Hi' _] _]. cbn [map concat fst snd].
      rewrite <- !app_assoc.
      by destruct (item_start i' (gap' ++ concat (map (fun ig => item_text (fst ig) ++ snd ig) items')
                                    ++ tail) Hi') as (ch & s' & -> & Hch). }
    destruct (parse_body_item i gap _ st Hi Hgap Hnext Hr) as (c1 & Hb & Hr1).
    destruct (IH k (TSS.ParserState (item_variables (TSS.ps_variables st) i)
                                    (TSS.ps_rules st ++ item_rules i) c1) tail)
      as (c' & Hr' & Hl); [done|done|done|].
    exists c'. split; [done|]. cbn [length Nat.add TSS.parse_loop].
    destruct (item_start i (gap ++ concat (map (fun ig => item_text (fst ig) ++ snd ig) items)
                              ++ tail) Hi) as (ch & s' & Hs & _).
    rewrite Hr, Hs, Hb. cbn [bind]. rewrite Hl.
    cbn [TSS.ps_variables TSS.ps_rules map concat fold_left fst].
    by rewrite <- app_assoc.
Qed.

Lemma parse_sheet_text (ws : list ascii) (items : list (item * list ascii))
    (tail : list ascii) (k : nat) :
  all_space ws ->
  Forall (fun ig => well_formed (fst ig) /\ all_space (snd ig)) items ->
  match tail with ch :: _ => is_space ch = false | [] => True end ->
  exists c',
    rest c' = tail
    /\ TSS.parseTSS (length items + k) (sheet_text ws items ++ tail)
       = TSS.parse_loop k (TSS.ParserState (TSS.variables (sheet_of items))
                                           (TSS.rules (sheet_of items)) c').
Proof.
  intros Hws Hwf Htail. unfold TSS.parseTSS, TSS.parse, sheet_text, sheet_of.
  destruct (parse_loop_items items k (TSS.initial_state (ws ++ concat
              (map (fun ig => item_text (fst ig) ++ snd ig) items) ++ tail)) tail)
    as (c' & Hr' & Hl); [|done|done|].
  - unfold TSS.initial_state. cbn [TSS.ps_cursor].
    apply (skipWhitespace_prefix ws); [done|done|].
    destruct items as [|[i gap] items']; [done|].
    apply Forall_cons in Hwf as [[Hi _] _]. cbn [map concat fst snd].
    rewrite <- !app_assoc.
    by destruct (item_start i (gap ++ concat (map (fun ig => item_text (fst ig) ++ snd ig) items')
                                  ++ tail) Hi) as (ch & s' & -> & Hch).
  - exists c'. split; [done|]. rewrite <- app_assoc. exact Hl.
Qed.

(** X2.  A stylesheet made of well-formed items separated by whitespace
    (rules with terminated declarations, [:root] blocks of variable
    definitions, at-rule statements and at-rule blocks with balanced braces)
    parses, with one iteration of fuel per item, to the rules in source
    order, each with its trimmed selector, its declarations (a later
    declaration of a name overriding an earlier one) and its specificity,
    and to the variables of the [:root] blocks, the later definition of a
    name winning; at-rules contribute nothing. *)
Theorem parseTSS_well_formed (ws : list ascii) (items : list (item * list ascii))
    (fuel : nat) :
  all_space ws ->
  Forall (fun ig => well_formed (fst ig) /\ all_space (snd ig)) items ->
  length items <= fuel ->
  TSS.parseTSS fuel (sheet_text ws items) = Ok (sheet_of items).
Proof.
  intros Hws Hwf Hf.
  destruct (parse_sheet_text ws items [] (fuel - length items) Hws Hwf I)
    as (c' & Hr' & Hl).
  rewrite app_nil_r in Hl. replace (length items + (fuel - length items)) with fuel in Hl by lia.
  rewrite Hl. destruct (fuel - length items); cbn [TSS.parse_loop TSS.ps_cursor];
    rewrite Hr'; by destruct (sheet_of items).
Qed.

Lemma parseTSS_well_formed_witness :
  exists sheet,
    TSS.parseTSS 4
      (lit ":root { --accent: #4CAF50; } @import 'a'; @media x { B { c: d; } } Window { color: red; color: 'a b'; }")
    = Ok sheet
    /\ TSS.variables sheet !! lit "accent" = Some (lit "#4CAF50")
    /\ TSS.rules sheet = [TSS.Rule (lit "Window") [(lit "color", lit "a b")] 1].
Proof.
  pose (items :=
    [ (RootItem (lit " ") (lit " ")
         [Declaration (lit "accent") (lit " ") (lit "#4CAF50") (lit "#4CAF50") (lit " ")],
       lit " ");
      (StatementItem (lit "import 'a'"), lit " ");
      (BlockItem (lit "media x ") (lit " B { c: d; } "), lit " ");
      (RuleItem (lit "Window ") (lit " ")
         [Declaration (lit "color") (lit " ") (lit "red") (lit "red") (lit " ");
          Declaration (lit "color") (lit " ") (lit "'a b'") (lit "a b") (lit " ")],
       []) ]).
  exists (sheet_of items). split; [|split; vm_compute; reflexivity].
  apply (parseTSS_well_formed [] items 4).
  - reflexivity.
  - assert (declaration_at (Some ";"%char)
              (Declaration (lit "accent") (lit " ") (lit "#4CAF50") (lit "#4CAF50") (lit " ")))
      as Haccent.
    { split; [reflexivity|]. split; [reflexivity|]. split; [|reflexivity].
      by apply unquoted_at. }
    assert (declaration_at (Some ";"%char)
              (Declaration (lit "color") (lit " ") (lit "red") (lit "red") (lit " ")))
      as Hred.
    { split; [reflexivity|]. split; [reflexivity|]. split; [|reflexivity].
      by apply unquoted_at. }
    assert (declaration_at (Some ";"%char)
              (Declaration (lit "color") (lit " ") (lit "'a b'") (lit "a b") (lit " ")))
      as Hquoted.
    { split; [reflexivity|]. split; [reflexivity|]. split; [|reflexivity].
      by apply (quoted_at _ "'"%char (lit "a b")). }
    assert (ordinary_selector (lit "Window ")) as Hsel.
    { split; [vm_compute; split; [reflexivity|discriminate]|split; reflexivity]. }
    subst items. constructor; [|constructor; [|constructor; [|constructor; [|constructor]]]];
      (split; [|reflexivity]); cbn [fst well_formed].
    + split; [reflexivity|]. split; [reflexivity|]. by constructor.
    + reflexivity.
    + split; reflexivity.
    + split; [done|]. split; [reflexivity|]. constructor; [done|]. by constructor.
  - vm_compute. lia.
Defined.

(** *** Stylesheets that end inside an item *)

Lemma ordinary_dispatch (sel s : list ascii) (st : TSS.parser_state) :
  ordinary_selector sel ->
  rest (TSS.ps_cursor st) = sel ++ s ->
  match s with ch :: _ => ch = "{"%char | [] => True end ->
  rest (TSS.ps_cursor st) <> []
  /\ TSS.parse_body st
     = try (rule, c1) <- TSS.parseRule (TSS.ps_cursor st);
       Ok (TSS.ParserState (TSS.ps_variables st)
             (match rule with Some r => TSS.ps_rules st ++ [r] | None => TSS.ps_rules st end)
             (skipWhitespace c1)).
Proof.
  intros (Hhead & Hroot & Hbrace) Hr Hs. destruct sel as [|ch sel]; [done|].
  split; [by rewrite Hr|]. unfold TSS.parse_body.
  assert (starts_with (lit ":root") (rest (TSS.ps_cursor st)) = false) as ->.
  { rewrite Hr. destruct s as [|ch' s]; [by rewrite app_nil_r|]. subst ch'.
    by apply (not_root_block (ch :: sel) s). }
  assert (TSS.head_is "@" (TSS.ps_cursor st) = false) as ->; [|done].
  unfold TSS.head_is. rewrite Hr. cbn [app]. apply char_eqb_neq. tauto.
Qed.

Lemma parseRule_unclosed (sel indent : list ascii) (ds : list declaration) (c : cursor) :
  rest c = sel ++ lit "{" ++ indent ++ concat (map terminated_text ds) ->
  ordinary_selector sel -> all_space indent ->
  Forall (declaration_at (Some ";"%char)) ds ->
  (ds = [] -> indent = []) ->
  exists e, TSS.parseRule c = Throw e
            /\ TSS.message e = lit "Expected } after properties".
Proof.
  intros Hr (Hhead & _ & Hsel) Hin Hds Hempty. unfold TSS.parseRule, TSS.parseSelector.
  destruct (scan_column_prefix (fun ch => negb (char_eqb ch "{")) sel _ c Hr Hsel)
    as (c1 & E1 & Hr1); [done|].
  rewrite E1.
  assert (truthy (trim sel) = true) as ->.
  { apply text_run_truthy. destruct sel; tauto. }
  cbn [negb]. destruct (consume_prefix _ _ _ Hr1) as (c2 & E2 & Hr2). rewrite E2.
  destruct (parseProperties_terminated indent ds [] c2) as (c3 & -> & Hr3);
    [by rewrite app_nil_r|done|done|done|].
  cbn [bind]. rewrite consume_None by (by rewrite Hr3). by eexists.
Qed.

(** A body of whitespace only: the loop is entered, and no name is found
    at the end of the text. *)
Lemma parseRule_blank_body (sel indent : list ascii) (ch : ascii) (c : cursor) :
  rest c = sel ++ lit "{" ++ ch :: indent ->
  ordinary_selector sel -> all_space (ch :: indent) ->
  exists e, TSS.parseRule c = Throw e
            /\ TSS.message e = lit "Expected : after property name".
Proof.
  intros Hr (Hhead & _ & Hsel) Hin. unfold TSS.parseRule, TSS.parseSelector.
  destruct (scan_column_prefix (fun ch => negb (char_eqb ch "{")) sel _ c Hr Hsel)
    as (c1 & E1 & Hr1); [done|].
  rewrite E1.
  assert (truthy (trim sel) = true) as ->.
  { apply text_run_truthy. destruct sel; tauto. }
  cbn [negb]. destruct (consume_prefix _ _ _ Hr1) as (c2 & E2 & Hr2). rewrite E2.
  unfold TSS.parseProperties. rewrite Hr2. cbn [length TSS.parseProperties_loop].
  assert (TSS.properties_guard c2 = true) as ->.
  { unfold TSS.properties_guard. rewrite Hr2. unfold all_space in Hin.
    cbn [forallb] in Hin. apply andb_prop in Hin as [Hch _].
    apply negb_true_iff, char_eqb_neq. intros ->. done. }
  assert (rest (skipWhitespace c2) = []) as Hsw.
  { apply (skipWhitespace_prefix (ch :: indent)); [by rewrite app_nil_r|done|done]. }
  assert (TSS.head_is "}" (skipWhitespace c2) = false) as ->.
  { unfold TSS.head_is. by rewrite Hsw. }
  unfold TSS.parseIdentifier. rewrite Hsw. cbn [scan_column].
  rewrite consume_None by done. cbn [bind]. by eexists.
Qed.

Lemma parseRule_no_brace (sel : list ascii) (c : cursor) :
  rest c = sel -> ordinary_selector sel ->
  exists e, TSS.parseRule c = Throw e
            /\ TSS.message e = lit "Expected { after selector".
Proof.
  intros Hr (Hhead & _ & Hsel). unfold TSS.parseRule, TSS.parseSelector.
  destruct (scan_column_prefix (fun ch => negb (char_eqb ch "{")) sel [] c)
    as (c1 & E1 & Hr1); [by rewrite app_nil_r|done|done|].
  rewrite E1.
  assert (truthy (trim sel) = true) as ->.
  { apply text_run_truthy. destruct sel; tauto. }
  cbn [negb]. rewrite consume_None by (by rewrite Hr1). by eexists.
Qed.

Lemma ordinary_stop (sel s : list ascii) :
  ordinary_selector sel ->
  match sel ++ s with ch :: _ => is_space ch = false | [] => True end.
Proof. intros (Hhead & _). destruct sel; [done|]. cbn [app]. tauto. Qed.

(** X3.  A stylesheet that ends inside a rule throws.  After well-formed
    items, a selector that is followed by nothing gives
    [Expected { after selector].  A rule whose body is not closed gives
    [Expected : after property name] when the body is whitespace and
    nothing else, and [Expected } after properties] when the body is empty
    or holds terminated declarations, with or without whitespace around
    them. *)
Theorem unclosed_rule_throws (ws : list ascii) (items : list (item * list ascii))
    (sel indent : list ascii) (ds : list declaration) (fuel : nat) :
  all_space ws ->
  Forall (fun ig => well_formed (fst ig) /\ all_space (snd ig)) items ->
  ordinary_selector sel -> all_space indent ->
  Forall (declaration_at (Some ";"%char)) ds ->
  length items < fuel ->
  (exists e, TSS.parseTSS fuel (sheet_text ws items ++ sel) = Throw e
             /\ TSS.message e = lit "Expected { after selector")
  /\ (exists e, TSS.parseTSS fuel
                  (sheet_text ws items ++ sel ++ lit "{" ++ indent
                   ++ concat (map terminated_text ds)) = Throw e
                /\ TSS.message e
                   = match ds, indent with
                     | [], _ :: _ => lit "Expected : after property name"
                     | _, _ => lit "Expected } after properties"
                     end).
Proof.
  intros Hws Hwf Hsel Hin Hds Hf.
  replace fuel with (length items + S (fuel - S (length items))) by lia. split.
  - destruct (parse_sheet_text ws items sel (S (fuel - S (length items))) Hws Hwf)
      as (c' & Hr' & ->).
    { pose proof (ordinary_stop sel [] Hsel) as H. by rewrite app_nil_r in H. }
    set (st := TSS.ParserState _ _ c').
    destruct (ordinary_dispatch sel [] st Hsel) as (Hne & Hb);
      [by rewrite app_nil_r|done|].
    destruct (parseRule_no_brace sel c' Hr' Hsel) as (e & E & Hm).
    exists e. split; [|done]. cbn [TSS.parse_loop].
    destruct (rest (TSS.ps_cursor st)); [done|]. rewrite Hb. cbn [TSS.ps_cursor st].
    by rewrite E.
  - destruct (parse_sheet_text ws items
                (sel ++ lit "{" ++ indent ++ concat (map terminated_text ds))
                (S (fuel - S (length items))) Hws Hwf)
      as (c' & Hr' & ->); [by apply ordinary_stop|].
    set (st := TSS.ParserState _ _ c').
    destruct (ordinary_dispatch sel (lit "{" ++ indent ++ concat (map terminated_text ds))
                st Hsel) as (Hne & Hb); [done|done|].
    assert (exists e, TSS.parseRule c' = Throw e
                      /\ TSS.message e
                         = match ds, indent with
                           | [], _ :: _ => lit "Expected : after property name"
                           | _, _ => lit "Expected } after properties"
                           end) as (e & E & Hm).
    { destruct ds as [|d ds].
      - destruct indent as [|ch indent].
        + by apply (parseRule_unclosed sel [] []).
        + apply (parseRule_blank_body sel indent ch); [|done|done].
          cbn [map concat] in Hr'. by rewrite app_nil_r in Hr'.
      - destruct (parseRule_unclosed sel indent (d :: ds) c' Hr' Hsel Hin Hds)
          as (e & E & Hm); [done|].
        exists e. split; [done|]. by destruct indent. }
    exists e. split; [|done]. cbn [TSS.parse_loop].
    destruct (rest (TSS.ps_cursor st)); [done|]. rewrite Hb. cbn [TSS.ps_cursor st].
    by rewrite E.
Qed.

Lemma unclosed_rule_throws_witness :
  (exists e, TSS.parseTSS 2 (lit "@import 'a'; Window") = Throw e
             /\ TSS.message e = lit "Expected { after selector")
  /\ (exists e, TSS.parseTSS 2 (lit "@import 'a'; Window{ color: red; ") = Throw e
                /\ TSS.message e = lit "Expected } after properties").
Proof.
  apply (unclosed_rule_throws [] [(StatementItem (lit "import 'a'"), lit " ")]
           (lit "Window") (lit " ")
           [Declaration (lit "color") (lit " ") (lit "red") (lit "red") (lit " ")] 2).
  - reflexivity.
  - constructor; [|constructor]. split; reflexivity.
  - split; [vm_compute; split; [reflexivity|discriminate]|split; reflexivity].
  - reflexivity.
  - constructor; [|constructor].
    split; [reflexivity|]. split; [reflexivity|]. split; [|reflexivity].
    by apply unquoted_at.
  - vm_compute. lia.
Defined.

Lemma skipBlock_open (body : list ascii) :
  forall depth ln col,
    0 < nesting depth body -> rest (TSS.skipBlock depth body ln col) = [].
Proof.
  induction body as [|ch body IH]; intros depth ln col Hn; [done|].
  cbn [nesting] in Hn. destruct depth as [|below]; [lia|].
  cbn [TSS.skipBlock]. destruct (char_eqb ch newline); by apply IH.
Qed.

(** X4.  An at-rule block that is never closed is no error: it takes the
    rest of the text with it, whatever rules the text holds, and the parser
    returns the items before it. *)
Theorem unclosed_at_rule_swallows (ws : list ascii) (items : list (item * list ascii))
    (prelude body : list ascii) (fuel : nat) :
  all_space ws ->
  Forall (fun ig => well_formed (fst ig) /\ all_space (snd ig)) items ->
  prelude_like prelude -> 0 < nesting 1 body ->
  length items < fuel ->
  TSS.parseTSS fuel (sheet_text ws items ++ lit "@" ++ prelude ++ lit "{" ++ body)
  = Ok (sheet_of items).
Proof.
  intros Hws Hwf Hp Hb Hf.
  replace fuel with (length items + S (fuel - S (length items))) by lia.
  destruct (parse_sheet_text ws items (lit "@" ++ prelude ++ lit "{" ++ body)
              (S (fuel - S (length items))) Hws Hwf) as (c' & Hr' & ->); [done|].
  cbn [TSS.parse_loop TSS.ps_cursor]. rewrite Hr'. change (lit "@") with ["@"%char].
  cbn [app]. unfold TSS.parse_body. cbn [TSS.ps_cursor TSS.ps_variables TSS.ps_rules].
  rewrite Hr'. change (starts_with (lit ":root") (lit "@" ++ prelude ++ lit "{" ++ body))
    with false. cbv iota.
  assert (TSS.head_is "@" c' = true) as ->.
  { unfold TSS.head_is. by rewrite Hr'. }
  cbn [bind].
  assert (rest (skipWhitespace (TSS.parseAtRule c')) = []) as Hend.
  { assert (rest (TSS.parseAtRule c') = []) as Ha.
    { unfold TSS.parseAtRule. rewrite app_assoc in Hr'.
      destruct (scan_column_prefix
                  (fun ch => negb (char_eqb ch ";") && negb (char_eqb ch "{"))
                  (lit "@" ++ prelude) _ c' Hr') as (c1 & -> & Hr1); [done|done|].
      rewrite Hr1. change (lit "{") with ["{"%char]. cbn [app].
      change (char_eqb "{" "{") with true. cbv iota. by apply skipBlock_open. }
    pose proof (skipWhitespace_unread (TSS.parseAtRule c')) as Hl.
    unfold unread in Hl. rewrite Ha in Hl.
    destruct (rest (skipWhitespace _)); [done|cbn [length] in Hl; lia]. }
  destruct (fuel - S (length items)); cbn [TSS.parse_loop TSS.ps_cursor];
    rewrite Hend; by destruct (sheet_of items).
Qed.

Lemma unclosed_at_rule_swallows_witness :
  TSS.parseTSS 2 (lit "A { b: c; } @media x { Window { color: red; } Button { color: red; }")
  = Ok (TSS.Stylesheet ∅ [TSS.Rule (lit "A") [(lit "b", lit "c")] 1]).
Proof.
  apply (unclosed_at_rule_swallows []
           [(RuleItem (lit "A ") (lit " ")
               [Declaration (lit "b") (lit " ") (lit "c") (lit "c") (lit " ")], lit " ")]
           (lit "media x ") (lit " Window { color: red; } Button { color: red; }") 2).
  - reflexivity.
  - constructor; [|constructor]. split; [|reflexivity]. cbn [fst well_formed].
    split; [split; [vm_compute; split; [reflexivity|discriminate]|split; reflexivity]|].
    split; [reflexivity|]. constructor; [|constructor].
    split; [reflexivity|]. split; [reflexivity|]. split; [|reflexivity].
    by apply unquoted_at.
  - reflexivity.
  - vm_compute. lia.
  - vm_compute. lia.
Defined.

(** ** What every parsed stylesheet satisfies *)

Lemma drop_spaces_split (s : list ascii) :
  exists ws, s = ws ++ drop_spaces s /\ all_space ws
             /\ match drop_spaces s with ch :: _ => is_space ch = false | [] => True end.
Proof.
  induction s as [|ch s (ws & Hs & Hws & Hstop)]; [by exists []|].
  cbn [drop_spaces]. destruct (is_space ch) eqn:Hch.
  - exists (ch :: ws). split; [cbn [app]; congruence|]. split; [|done].
    unfold all_space in *. cbn [forallb]. by rewrite Hch.
  - exists []. by rewrite Hch.
Qed.

(** [trim] cuts whitespace off both ends and nothing else. *)
Lemma trim_split (s : list ascii) :
  exists before after,
    s = before ++ trim s ++ after /\ all_space before /\ all_space after
    /\ match trim s with ch :: _ => is_space ch = false | [] => True end
    /\ match rev (trim s) with ch :: _ => is_space ch = false | [] => True end.
Proof.
  unfold trim. destruct (drop_spaces_split s) as (ws1 & Hs & Hws1 & Hstop1).
  destruct (drop_spaces_split (rev (drop_spaces s))) as (ws2 & Hu & Hws2 & Hstop2).
  set (u := drop_spaces s) in *. set (v := drop_spaces (rev u)) in *.
  assert (u = rev v ++ rev ws2) as Hu'.
  { rewrite <- (rev_involutive u), Hu. by rewrite rev_app_distr. }
  exists ws1, (rev ws2). split; [by rewrite <- Hu'|]. split; [done|]. split.
  { unfold all_space in *. rewrite forallb_forall in *. intros ch Hin.
    apply Hws2. by apply in_rev. }
  split; [|by rewrite rev_involutive].
  rewrite Hu' in Hstop1. by destruct (rev v).
Qed.

Lemma trim_idempotent (s : list ascii) : trim (trim s) = trim s.
Proof.
  destruct (trim_split s) as (_ & _ & _ & _ & _ & Hhead & Hlast).
  unfold trim at 1. rewrite (drop_spaces_stop (trim s)) by done.
  rewrite (drop_spaces_stop (rev (trim s))) by done. apply rev_involutive.
Qed.

Lemma trim_forallb (test : ascii -> bool) (s : list ascii) :
  forallb test s = true -> forallb test (trim s) = true.
Proof.
  destruct (trim_split s) as (before & after & Hs & _). intros H.
  rewrite Hs, !forallb_app in H. by apply andb_prop in H as [_ [H _]%andb_prop].
Qed.

Lemma assoc_update_keys (k v : list ascii) (o : list (list ascii * list ascii)) :
  match assoc_update k v o with
  | Some o' => map fst o' = map fst o
  | None => k ∉ map fst o
  end.
Proof.
  induction o as [|[k' v'] o IH]; cbn [assoc_update map fst].
  - apply not_elem_of_nil.
  - destruct (decide (k' = k)) as [->|Hne]; [done|].
    destruct (assoc_update k v o) as [o'|]; cbn [option_map map fst].
    + by rewrite IH.
    + apply not_elem_of_cons. split; [congruence|done].
Qed.

(** Assignments keep the property names of an object distinct, and none of
    them is [__proto__]. *)
Lemma obj_set_names (k v : list ascii) (o : list (list ascii * list ascii)) :
  NoDup (map fst o) /\ proto_key ∉ map fst o ->
  NoDup (map fst (obj_set k v o)) /\ proto_key ∉ map fst (obj_set k v o).
Proof.
  intros [Hnd Hp]. unfold obj_set. destruct (decide (k = proto_key)) as [->|Hk]; [done|].
  pose proof (assoc_update_keys k v o) as Hu.
  destruct (assoc_update k v o) as [o'|]; [by rewrite Hu|].
  rewrite map_app. cbn [map fst]. split.
  - apply NoDup_app. split; [done|]. split; [|apply NoDup_singleton].
    intros x Hx ->%list_elem_of_singleton. done.
  - rewrite elem_of_app, list_elem_of_singleton. intros [?|?]; [done|congruence].
Qed.

Lemma parseProperties_loop_names (fuel : nat) :
  forall acc c p c',
    NoDup (map fst acc) /\ proto_key ∉ map fst acc ->
    TSS.parseProperties_loop fuel acc c = Ok (p, c') ->
    NoDup (map fst p) /\ proto_key ∉ map fst p.
Proof.
  induction fuel as [|fuel IH]; intros acc c p c' Hacc; cbn [TSS.parseProperties_loop].
  - destruct (TSS.properties_guard c); [done|]. by intros [= <- <-].
  - destruct (TSS.properties_guard c); [|by intros [= <- <-]].
    destruct (TSS.head_is "}" (skipWhitespace c)); [by intros [= <- <-]|].
    destruct (TSS.parseIdentifier (skipWhitespace c)) as [name c2].
    destruct (consume (lit ":") c2) as [c3|]; [|done].
    destruct (TSS.parseValue (skipWhitespace c3)) as [value c4].
    destruct (consume (lit ";") c4) as [c5|]; [|done].
    apply IH. by apply obj_set_names.
Qed.

Lemma parseRule_invariant (c : cursor) (r : TSS.TSSRule) (c' : cursor) :
  TSS.parseRule c = Ok (Some r, c') -> rule_invariant r.
Proof.
  unfold TSS.parseRule, TSS.parseSelector.
  destruct (scan_column _ (rest c) _ _) as [taken c1] eqn:E1.
  apply scan_column_spec in E1 as (_ & Htaken & _).
  destruct (truthy (trim taken)) eqn:Ht; cbn [negb]; [|done].
  destruct (consume (lit "{") c1) as [c2|]; [|done].
  destruct (TSS.parseProperties c2) as [[p c3]| |] eqn:Ep; cbn [bind]; [|done|done].
  destruct (consume (lit "}") c3) as [c4|]; [|done]. intros [= <- <-].
  unfold rule_invariant. cbn [TSS.selector TSS.properties].
  split; [by destruct (trim taken)|]. split; [apply trim_idempotent|].
  split; [by apply trim_forallb|].
  apply (parseProperties_loop_names (length (rest c2)) [] c2 p c3); [|exact Ep].
  split; [constructor|apply not_elem_of_nil].
Qed.

Lemma parse_loop_invariant (n : nat) :
  forall st sheet,
    TSS.parse_loop n st = Ok sheet ->
    Forall rule_invariant (TSS.ps_rules st) ->
    Forall rule_invariant (TSS.rules sheet).
Proof.
  induction n as [|n IH]; intros st sheet; cbn [TSS.parse_loop].
  - destruct (rest (TSS.ps_cursor st)); [|done]. by intros [= <-].
  - destruct (rest (TSS.ps_cursor st)); [by intros [= <-]|].
    destruct (TSS.parse_body st) as [st'| |] eqn:E; cbn [bind]; [|done|done].
    intros Hl Hst. apply (IH _ _ Hl). revert E. unfold TSS.parse_body.
    destruct (starts_with (lit ":root") _).
    { destruct (TSS.parseRootVariables _ _) as [[v c1]| |]; cbn [bind]; [|done|done].
      by intros [= <-]. }
    destruct (TSS.head_is "@" _); [by intros [= <-]|].
    destruct (TSS.parseRule _) as [[rule c1]| |] eqn:Er; cbn [bind]; [|done|done].
    intros [= <-]. cbn [TSS.ps_rules]. destruct rule as [r|]; [|done].
    apply Forall_app. split; [done|]. constructor; [|done].
    by apply (parseRule_invariant _ _ _ Er).
Qed.

(** X5.  Whatever text a stylesheet is parsed from, each of its rules has a
    selector that is not empty, carries no whitespace at its ends and holds
    no [{], and property names that are pairwise distinct, none of them
    [__proto__]. *)
Theorem parsed_rules_invariant (fuel : nat) (tss : list ascii) (sheet : TSS.TSSStylesheet) :
  TSS.parseTSS fuel tss = Ok sheet -> Forall rule_invariant (TSS.rules sheet).
Proof.
  unfold TSS.parseTSS, TSS.parse. intros E.
  apply (parse_loop_invariant fuel _ _ E). constructor.
Qed.

Lemma parsed_rules_invariant_witness :
  Forall rule_invariant
    [TSS.Rule (lit "Window Button") [(lit "color", lit "blue"); (lit "width", lit "1")] 2].
Proof.
  apply (parsed_rules_invariant 1
           (lit " Window Button  { color: red; width: 1; color: blue; __proto__: x; }")
           (TSS.Stylesheet ∅ [TSS.Rule (lit "Window Button")
                                [(lit "color", lit "blue"); (lit "width", lit "1")] 2])).
  vm_compute. reflexivity.
Defined.

(** ** The markup parser returns *)

(** X6.  The markup parser terminates on every text: it returns an element
    or throws a parse error, the fuel [length xml + 1] that [parse] gives to
    the recursion being always enough. *)
Theorem parseTXML_returns (xml : list ascii) :
  (exists root, parseTXML xml = Ok root) \/ (exists e, parseTXML xml = Throw e).
Proof.
  unfold parseTXML, parse.
  destruct (negb (TXML.head_is "<" (skipWhitespace (start_of (trim xml)))));
    [right; by eexists|].
  pose proof (skipWhitespace_unread (start_of (trim xml))) as Hw.
  destruct (parse_fuel_enough (S (length (trim xml)))) as [He _].
  destruct (He (skipWhitespace (start_of (trim xml)))) as [H1 _].
  { unfold unread in *. cbn [start_of rest] in *. lia. }
  destruct (parseElement _ _) as [[root c1]|e|]; cbn [bind];
    [|right; by eexists|done].
  destruct (decide (tag root = lit "App")); [|right; by eexists].
  destruct (truthy (rest (skipWhitespace c1))); [right|left]; by eexists.
Qed.

(** ** Where the markup parser reports its errors *)

Lemma trim_start (s : list ascii) :
  skipWhitespace (start_of (trim s)) = start_of (trim s).
Proof.
  apply skipWhitespace_none. cbn [start_of rest].
  by destruct (trim_split s) as (_ & _ & _ & _ & _ & Hhead & _).
Qed.

(** X7.  A text that, trimmed, does not start with [<] (the empty text and
    a text of whitespace among them) is rejected with
    [Expected XML document to start with <] at line 1, column 1. *)
Theorem parse_rejects_bad_start (xml : list ascii) :
  TXML.head_is "<" (start_of (trim xml)) = false ->
  parseTXML xml
  = Throw (TXMLParseError (lit "Expected XML document to start with <") 1 1).
Proof.
  intros Hh. unfold parseTXML, parse. rewrite trim_start, Hh. reflexivity.
Qed.

Lemma parse_rejects_bad_start_witness :
  parseTXML (lit "  ")
  = Throw (TXMLParseError (lit "Expected XML document to start with <") 1 1)
  /\ parseTXML (lit " hello <App />")
     = Throw (TXMLParseError (lit "Expected XML document to start with <") 1 1).
Proof.
  split.
  - apply (parse_rejects_bad_start (lit "  ")). reflexivity.
  - apply (parse_rejects_bad_start (lit " hello <App />")). reflexivity.
Defined.

Lemma position_after_app (a b : list ascii) : forall ln col,
  position_after ln col (a ++ b)
  = position_after (fst (position_after ln col a)) (snd (position_after ln col a)) b.
Proof.
  induction a as [|ch a IH]; intros ln col; [done|]. cbn [app position_after].
  destruct (char_eqb ch newline); apply IH.
Qed.

Lemma position_after_line (s : list ascii) : forall ln col,
  forallb (fun ch => negb (char_eqb ch newline)) s = true ->
  position_after ln col s = (ln, col + length s).
Proof.
  induction s as [|ch s IH]; intros ln col; cbn [forallb position_after length].
  - intros _. f_equal. lia.
  - intros [Hch Hs]%andb_prop. apply negb_true_iff in Hch. rewrite Hch, IH by done.
    f_equal. lia.
Qed.

Lemma tracks_line (text : list ascii) (c : cursor) (taken : list ascii) (s : list ascii)
    (col : nat) :
  tracks text c -> rest c = taken ++ s ->
  forallb (fun ch => negb (char_eqb ch newline)) taken = true ->
  col = column c + length taken ->
  tracks text (Cursor s (line c) col).
Proof.
  intros (consumed & Ht & Hp) Hr Hn ->. exists (consumed ++ taken).
  cbn [rest line column]. split; [by rewrite Ht, Hr, app_assoc|].
  rewrite position_after_app, <- Hp. cbn [fst snd]. by rewrite position_after_line.
Qed.

Lemma tracks_consume (text e : list ascii) (c c' : cursor) :
  tracks text c -> consume e c = Some c' ->
  forallb (fun ch => negb (char_eqb ch newline)) e = true ->
  tracks text c'.
Proof.
  intros Ht Hc Hn. pose proof (consume_Some _ _ _ Hc) as (Hr & Hl & Hcol).
  destruct c' as [r ln col]. cbn [rest line column] in *. subst ln.
  by apply (tracks_line text c e r col).
Qed.

Lemma tracks_scan_column (text : list ascii) (test : ascii -> bool) (c c' : cursor)
    (taken : list ascii) :
  tracks text c ->
  scan_column test (rest c) (line c) (column c) = (taken, c') ->
  test newline = false ->
  tracks text c'.
Proof.
  intros Ht Hs Hn. apply scan_column_spec in Hs as (Hr & Htaken & _ & Hl & Hcol).
  destruct c' as [r ln col]. cbn [rest line column] in *. subst ln.
  apply (tracks_line text c taken r col); [done|done| |done].
  rewrite forallb_forall in *. intros ch Hin. apply negb_true_iff, char_eqb_neq.
  intros ->. specialize (Htaken _ Hin). congruence.
Qed.

Lemma scan_lines_position (test : ascii -> bool) (s : list ascii) :
  forall ln col taken c,
    scan_lines test s ln col = (taken, c) ->
    (line c, column c) = position_after ln col taken.
Proof.
  induction s as [|ch s IH]; intros ln col taken c; cbn [scan_lines].
  - by intros [= <- <-].
  - destruct (test ch); [|by intros [= <- <-]].
    destruct (char_eqb ch newline) eqn:En.
    + destruct (scan_lines test s (S ln) 1) as [t c'] eqn:E. intros [= <- <-].
      cbn [position_after]. rewrite En. by apply IH.
    + destruct (scan_lines test s ln (S col)) as [t c'] eqn:E. intros [= <- <-].
      cbn [position_after]. rewrite En. by apply IH.
Qed.

Lemma tracks_scan_lines (text : list ascii) (test : ascii -> bool) (c c' : cursor)
    (taken : list ascii) :
  tracks text c ->
  scan_lines test (rest c) (line c) (column c) = (taken, c') ->
  tracks text c'.
Proof.
  intros (consumed & Ht & Hp) Hs. pose proof (scan_lines_position _ _ _ _ _ _ Hs) as Hpos.
  apply scan_lines_spec in Hs as (Hr & _). exists (consumed ++ taken).
  split; [by rewrite Ht, Hr, app_assoc|].
  rewrite position_after_app, <- Hp. exact Hpos.
Qed.

Lemma tracks_skipWhitespace (text : list ascii) (c : cursor) :
  tracks text c -> tracks text (skipWhitespace c).
Proof.
  intros Ht. unfold skipWhitespace.
  destruct (scan_lines is_space (rest c) (line c) (column c)) as [ws c'] eqn:E.
  by apply (tracks_scan_lines text is_space c c' ws).
Qed.

Lemma tracks_located (text msg : list ascii) (c : cursor) :
  tracks text c -> located text (TXMLParseError msg (line c) (column c)).
Proof. intros (consumed & Ht & Hp). by exists consumed, (rest c). Qed.

Lemma tracks_skipComment_loop (text : list ascii) (s : list ascii) :
  forall ln col consumed,
    text = consumed ++ s -> (ln, col) = position_after 1 1 consumed ->
    tracks text (skipComment_loop s ln col).
Proof.
  induction s as [|ch s IH]; intros ln col consumed Ht Hp; cbn [skipComment_loop].
  - by exists consumed.
  - destruct (starts_with (lit "-->") (ch :: s)) eqn:E.
    + apply starts_with_inv in E. change (length (lit "-->")) with 3 in E.
      apply (tracks_line text (Cursor (ch :: s) ln col) (lit "-->") (drop 3 (ch :: s)));
        [by exists consumed|done|done|done].
    + destruct (char_eqb ch newline) eqn:En;
        apply (IH _ _ (consumed ++ [ch])); try (by rewrite <- app_assoc);
        rewrite position_after_app, <- Hp; cbn [fst snd position_after]; by rewrite En.
Qed.

Lemma tracks_skipComment (text : list ascii) (c : cursor) :
  tracks text c -> starts_with (lit "<!--") (rest c) = true ->
  tracks text (skipComment c).
Proof.
  intros (consumed & Ht & Hp) Hs. apply starts_with_inv in Hs.
  change (length (lit "<!--")) with 4 in Hs. unfold skipComment.
  apply (tracks_skipComment_loop text _ _ _ (consumed ++ lit "<!--")).
  - by rewrite <- app_assoc, <- Hs.
  - rewrite position_after_app, <- Hp. cbn [fst snd].
    rewrite position_after_line by done. done.
Qed.

Lemma parseAttributeValue_tracked (text : list ascii) (c : cursor) :
  tracks text c -> tracked text (parseAttributeValue c).
Proof.
  intros Ht. unfold parseAttributeValue.
  destruct (consume [dquote] c) as [c1|] eqn:E1.
  - pose proof (tracks_consume _ _ _ _ Ht E1 eq_refl) as Ht1.
    destruct (scan_lines _ (rest c1) _ _) as [val c2] eqn:E2.
    pose proof (tracks_scan_lines _ _ _ _ _ Ht1 E2) as Ht2.
    destruct (consume [dquote] c2) as [c3|] eqn:E3.
    + by apply (tracks_consume _ _ _ _ Ht2 E3).
    + by apply tracks_located.
  - destruct (consume [squote] c) as [c1|] eqn:E1'; [|by apply tracks_located].
    pose proof (tracks_consume _ _ _ _ Ht E1' eq_refl) as Ht1.
    destruct (scan_lines _ (rest c1) _ _) as [val c2] eqn:E2.
    pose proof (tracks_scan_lines _ _ _ _ _ Ht1 E2) as Ht2.
    destruct (consume [squote] c2) as [c3|] eqn:E3.
    + by apply (tracks_consume _ _ _ _ Ht2 E3).
    + by apply tracks_located.
Qed.

Lemma parseAttributes_loop_tracked (text : list ascii) (fuel : nat) :
  forall acc c, tracks text c -> tracked text (parseAttributes_loop fuel acc c).
Proof.
  induction fuel as [|fuel IH]; intros acc c Ht; cbn [parseAttributes_loop].
  - by destruct (loop_guard_attributes c).
  - destruct (loop_guard_attributes c); [|done].
    destruct (parseAttributeName c) as [name c1] eqn:E1.
    pose proof (tracks_scan_column _ _ _ _ _ Ht E1 eq_refl) as Ht1.
    destruct (consume (lit "=") c1) as [c2|] eqn:E2; [|by apply tracks_located].
    pose proof (tracks_consume _ _ _ _ Ht1 E2 eq_refl) as Ht2.
    pose proof (parseAttributeValue_tracked text c2 Ht2) as Hv.
    destruct (parseAttributeValue c2) as [[v c3]|e|]; cbn [bind]; [|done|done].
    apply IH. by apply tracks_skipWhitespace.
Qed.

Lemma parse_tracked (text : list ascii) (n : nat) :
  (forall c, tracks text c -> tracked text (parseElement n c))
  /\ (forall acc c, tracks text c -> tracked text (parseChildren_loop n acc c)).
Proof.
  induction n as [|n [IHe IHc]]; [split; intros; cbn; by destruct (rest c)|].
  split.
  - intros c Ht. cbn [parseElement].
    destruct (consume (lit "<") c) as [c1|] eqn:E1; [|by apply tracks_located].
    pose proof (tracks_consume _ _ _ _ Ht E1 eq_refl) as Ht1.
    destruct (parseTagName c1) as [t c2] eqn:E2.
    pose proof (tracks_scan_column _ _ _ _ _ Ht1 E2 eq_refl) as Ht2.
    pose proof (parseAttributes_loop_tracked text (length (rest c2)) []
                  (skipWhitespace c2) (tracks_skipWhitespace _ _ Ht2)) as Ha.
    fold (parseAttributes c2) in Ha.
    destruct (parseAttributes c2) as [[a c3]|e|]; cbn [bind]; [|done|done].
    destruct (consume (lit "/>") c3) as [c4|] eqn:E4.
    { by apply (tracks_consume _ _ _ _ Ha E4). }
    destruct (consume (lit ">") c3) as [c4|] eqn:E4'; [|by apply tracks_located].
    pose proof (tracks_consume _ _ _ _ Ha E4' eq_refl) as Ht4.
    pose proof (IHc [] c4 Ht4) as Hc.
    destruct (parseChildren_loop n [] c4) as [[cs c5]|e|]; cbn [bind]; [|done|done].
    destruct (consume (lit "</") c5) as [c6|] eqn:E6; [|by apply tracks_located].
    pose proof (tracks_consume _ _ _ _ Hc E6 eq_refl) as Ht6.
    destruct (parseTagName c6) as [closing c7] eqn:E7.
    pose proof (tracks_scan_column _ _ _ _ _ Ht6 E7 eq_refl) as Ht7.
    destruct (decide (closing = t)); [|by apply tracks_located].
    destruct (consume (lit ">") c7) as [c8|] eqn:E8; [|by apply tracks_located].
    by apply (tracks_consume _ _ _ _ Ht7 E8).
  - intros acc c Ht. cbn [parseChildren_loop].
    destruct (rest c) eqn:Er; [done|].
    pose proof (tracks_skipWhitespace _ _ Ht) as Ht1.
    destruct (starts_with (lit "</") (rest (skipWhitespace c))); [done|].
    destruct (TXML.head_is "<" (skipWhitespace c)).
    + destruct (starts_with (lit "<!--") (rest (skipWhitespace c))) eqn:Ec.
      * apply IHc. by apply tracks_skipComment.
      * pose proof (IHe _ Ht1) as He.
        destruct (parseElement n (skipWhitespace c)) as [[child c2]|e|]; cbn [bind];
          [|done|done].
        by apply IHc.
    + destruct (parseText (skipWhitespace c)) as [text' c2] eqn:E.
      apply IHc. by apply (tracks_scan_lines _ _ _ _ _ Ht1 E).
Qed.

(** X8.  Every error the markup parser throws carries a true position: its
    line and column are those of a character of the trimmed text (or of its
    end), counted from line 1, column 1, a line feed starting a new line. *)
Theorem parse_error_located (xml : list ascii) (e : ParseError) :
  parseTXML xml = Throw e -> located (trim xml) e.
Proof.
  unfold parseTXML, parse.
  assert (tracks (trim xml) (skipWhitespace (start_of (trim xml)))) as Ht.
  { apply tracks_skipWhitespace. by exists []. }
  destruct (negb (TXML.head_is "<" (skipWhitespace (start_of (trim xml))))).
  { intros [= <-]. by apply tracks_located. }
  pose proof (proj1 (parse_tracked (trim xml) (S (length (trim xml)))) _ Ht) as He.
  destruct (parseElement _ _) as [[root c1]|e'|]; cbn [bind]; [|by intros [= <-]|done].
  destruct (decide (tag root = lit "App")).
  - destruct (truthy (rest (skipWhitespace c1))); [|done].
    intros [= <-]. by apply tracks_located, tracks_skipWhitespace.
  - intros [= <-]. by apply tracks_located.
Qed.

Lemma parse_error_located_witness :
  located (lit "<App>" ++ [newline] ++ lit "  <Text>hi</Txt>" ++ [newline] ++ lit "</App>")
          (TXMLParseError (mismatch_message (lit "Text") (lit "Txt")) 2 16).
Proof.
  apply (parse_error_located
           (lit "  <App>" ++ [newline] ++ lit "  <Text>hi</Txt>" ++ [newline] ++ lit "</App> ")).
  vm_compute. reflexivity.
Defined.

(** ** Escaping of attribute values *)

Lemma replace_all_app (ch : ascii) (by_ a b : list ascii) :
  replace_all ch by_ (a ++ b) = replace_all ch by_ a ++ replace_all ch by_ b.
Proof. unfold replace_all. apply flat_map_app. Qed.

Lemma escape_app (a b : list ascii) : escape (a ++ b) = escape a ++ escape b.
Proof. unfold escape. by rewrite !replace_all_app. Qed.

Lemma escape_one (ch : ascii) : escape [ch] = escape_char ch.
Proof. destruct ch as [[] [] [] [] [] [] [] []]; vm_compute; reflexivity. Qed.

Lemma escape_cons (ch : ascii) (v : list ascii) :
  escape (ch :: v) = escape_char ch ++ escape v.
Proof. change (ch :: v) with ([ch] ++ v). by rewrite escape_app, escape_one. Qed.

Lemma escape_char_safe (ch : ascii) :
  forallb (fun ch' => negb (delimiter ch')) (escape_char ch) = true.
Proof. destruct ch as [[] [] [] [] [] [] [] []]; vm_compute; reflexivity. Qed.

Lemma special_cases (ch : ascii) :
  if special ch
  then ch = "&"%char \/ ch = dquote \/ ch = squote \/ ch = "<"%char \/ ch = ">"%char
  else escape_char ch = [ch] /\ ch <> "&"%char.
Proof. destruct ch as [[] [] [] [] [] [] [] []]; vm_compute; intuition discriminate. Qed.

(** No escape is the start of another one. *)
Lemma escape_char_prefix_free (x y : ascii) (a b : list ascii) :
  escape_char x ++ a = escape_char y ++ b -> x = y /\ a = b.
Proof.
  pose proof (special_cases x) as Hx. pose proof (special_cases y) as Hy.
  destruct (special x), (special y).
  - destruct Hx as [->|[->|[->|[->| ->]]]], Hy as [->|[->|[->|[->| ->]]]];
      vm_compute; intros H; first [by injection H | discriminate H].
  - destruct Hy as [-> Hy].
    destruct Hx as [->|[->|[->|[->| ->]]]]; vm_compute; intros [= <-]; done.
  - destruct Hx as [-> Hx].
    destruct Hy as [->|[->|[->|[->| ->]]]]; vm_compute; intros [= ->]; done.
  - destruct Hx as [-> _], Hy as [-> _]. by intros [= -> ->].
Qed.

Lemma escape_char_not_nil (ch : ascii) : escape_char ch <> [].
Proof. destruct ch as [[] [] [] [] [] [] [] []]; vm_compute; discriminate. Qed.

(** X9.  The escaping of attribute values by [jsxToTXML] replaces each
    character on its own ([&], the two quotes and the angle brackets by
    their entities, any other by itself, the [&] of an entity never being
    escaped again); the escaped text holds no quote and no angle bracket,
    so it cannot end the quoted value it is written in; and no two values
    have the same escaped text. *)
Theorem escape_is_safe (v : list ascii) :
  escape v = flat_map escape_char v
  /\ forallb (fun ch => negb (delimiter ch)) (escape v) = true
  /\ forall w, escape v = escape w -> v = w.
Proof.
  split; [|split].
  - induction v as [|ch v IH]; [done|]. rewrite escape_cons, IH. done.
  - induction v as [|ch v IH]; [done|]. rewrite escape_cons, forallb_app, IH.
    by rewrite escape_char_safe.
  - induction v as [|x v IH]; intros [|y w].
    + done.
    + rewrite escape_cons. change (escape []) with (@nil ascii).
      pose proof (escape_char_not_nil y). by destruct (escape_char y).
    + rewrite escape_cons. change (escape []) with (@nil ascii).
      pose proof (escape_char_not_nil x). by destruct (escape_char x).
    + rewrite !escape_cons. intros [-> H]%escape_char_prefix_free.
      by rewrite (IH w H).
Qed.

(** ** The element a [jsx] call builds *)

Lemma obj_set_elem (k v : list ascii) (o : list (list ascii * list ascii))
    (kv : list ascii * list ascii) :
  kv ∈ obj_set k v o -> kv = (k, v) \/ kv ∈ o.
Proof.
  unfold obj_set. destruct (decide (k = proto_key)); [by right|].
  destruct (assoc_update k v o) as [o'|] eqn:E.
  - revert o' E. induction o as [|[k' v'] o IH]; intros o' E; cbn [assoc_update] in E;
      [done|].
    destruct (decide (k' = k)) as [->|Hne].
    + injection E as <-. intros [->|Hin]%elem_of_cons; [by left|].
      right. by apply list_elem_of_further.
    + destruct (assoc_update k v o) as [o''|]; [|done]. injection E as <-.
      intros [->|Hin]%elem_of_cons; [right; apply list_elem_of_here|].
      destruct (IH o'' eq_refl Hin) as [?|?]; [by left|].
      right. by apply list_elem_of_further.
  - intros [?|H%list_elem_of_singleton]%elem_of_app; [by right|by left].
Qed.

Lemma obj_set_key (k v : list ascii) (o : list (list ascii * list ascii))
    (k' : list ascii) :
  k' ∈ map fst (obj_set k v o) -> k' = k \/ k' ∈ map fst o.
Proof.
  intros ([k1 v1] & -> & Hin)%list_elem_of_fmap.
  destruct (obj_set_elem _ _ _ _ Hin) as [[= -> ->]|Hin']; [by left|].
  right. apply list_elem_of_fmap. by exists (k1, v1).
Qed.

Lemma attribute_fold (o2 : list (list ascii * js_value)) :
  forall o1 acc,
    jsx_attributes_invariant o1 acc ->
    jsx_attributes_invariant (o1 ++ o2) (fold_left attribute_step o2 acc).
Proof.
  induction o2 as [|[k value] o2 IH]; intros o1 acc Hacc; cbn [fold_left].
  - by rewrite app_nil_r.
  - replace (o1 ++ (k, value) :: o2) with ((o1 ++ [(k, value)]) ++ o2)
      by (by rewrite <- app_assoc).
    apply IH. destruct Hacc as (Hnd & Hp & Hc & Hk & Hall).
    assert (Forall (fun kv => exists value0, (fst kv, value0) ∈ o1 ++ [(k, value)]
                                             /\ snd kv = to_String value0) acc) as Hall'.
    { eapply Forall_impl; [exact Hall|]. intros kv (value0 & Hin & E).
      exists value0. split; [|done]. apply elem_of_app. by left. }
    unfold attribute_step.
    destruct (decide (k = lit "children")); [done|].
    destruct (decide (k = lit "key")); [done|].
    destruct (obj_set_names k (to_String value) acc (conj Hnd Hp)) as [Hnd' Hp'].
    split; [done|]. split; [done|].
    split; [intros [?|?]%obj_set_key; done|].
    split; [intros [?|?]%obj_set_key; done|].
    apply Forall_forall. intros kv [->|Hin]%obj_set_elem.
    + exists value. split; [|done]. apply elem_of_app. right. apply list_elem_of_here.
    + rewrite Forall_forall in Hall'. by apply Hall'.
Qed.

(** X10.  Whatever [jsx] is applied to, the attribute names of the element
    it builds are pairwise distinct, and none of them is [children], [key]
    or [__proto__]; every attribute is the [String(...)] of a property of
    [props] with that name; the tag is the [type] given. *)
Theorem jsx_attributes (type : list ascii) (o : list (list ascii * js_value))
    (key : js_value) :
  tag (jsx type (Some o) key) = type
  /\ jsx_attributes_invariant o (attributes (jsx type (Some o) key))
  /\ attributes (jsx type None key) = [].
Proof.
  split; [done|]. split; [|done]. cbn [jsx attributes].
  apply (attribute_fold o [] []).
  split; [constructor|]. repeat (split; [apply not_elem_of_nil|]). constructor.
Qed.

(** ** Windows are closed *)

Section WalkTrace.

Import Widgets.

Context {number host_error application : Type}.
Variable parseFloat : list ascii -> number.
Variable number_truthy : number -> bool.
Variable one_half two_hundred buffer_size : number.
Variable imgui : list (@ImGuiCall number) -> @ImGuiCall number
                 -> @ImGuiReply number host_error.

Abbreviation trace_walk := (@walk number host_error application).
Abbreviation render_traced :=
  (render parseFloat number_truthy one_half two_hundred buffer_size imgui).

Lemma open_windows_app (a b : list (@ImGuiCall number)) : forall depth,
  open_windows depth (a ++ b)
  = match open_windows depth a with
    | Some depth' => open_windows depth' b
    | None => None
    end.
Proof.
  induction a as [|call a IH]; intros depth; [done|].
  destruct call; cbn [app open_windows]; try apply IH.
  destruct depth; [done|apply IH].
Qed.

Lemma bracketed_app (a b : list (@ImGuiCall number)) :
  bracketed a -> bracketed b -> bracketed (a ++ b).
Proof. intros Ha Hb depth. by rewrite open_windows_app, Ha, Hb. Qed.

Lemma bracketed_window (title : list ascii) (t : list (@ImGuiCall number)) :
  bracketed t -> bracketed (Begin title :: t ++ [End_]).
Proof. intros Ht depth. cbn [open_windows]. by rewrite open_windows_app, Ht. Qed.

Lemma bracketed_quiet (call : @ImGuiCall number) :
  quiet call = true -> bracketed [call].
Proof. intros Hq depth. by destruct call. Qed.

Lemma extends_refl (w : @World number application) : extends w w.
Proof. exists []. split; [by rewrite app_nil_r|done]. Qed.

Lemma extends_trans (w w' w'' : @World number application) :
  extends w w' -> extends w' w'' -> extends w w''.
Proof.
  intros (t1 & H1 & B1) (t2 & H2 & B2). exists (t1 ++ t2).
  split; [by rewrite H2, H1, app_assoc|by apply bracketed_app].
Qed.

Lemma ImGui_calls (call : ImGuiCall) (w w' : @World number application)
    (b : bool) (buffer : js_any) :
  ImGui imgui call w = Ok (b, buffer, w') -> calls w' = calls w ++ [call].
Proof. unfold ImGui. destruct (imgui _ _); [|done]. by intros [= _ _ <-]. Qed.

Lemma ImGui_extends (call : ImGuiCall) (w w' : @World number application)
    (b : bool) (buffer : js_any) :
  quiet call = true -> ImGui imgui call w = Ok (b, buffer, w') -> extends w w'.
Proof.
  intros Hq E. exists [call]. split; [by eapply ImGui_calls|by apply bracketed_quiet].
Qed.

Lemma simple_call_extends (call : ImGuiCall) (s s' : trace_walk) :
  quiet call = true -> simple_call imgui call s = Ok s' -> extends (snd s) (snd s').
Proof.
  intros Hq. destruct s as [context w]. unfold simple_call.
  destruct (ImGui imgui call w) as [[[b buf] w']| |] eqn:E; [|done|done].
  cbn [bind]. intros [= <-]. by apply ImGui_extends in E.
Qed.

Lemma handleEvent_extends (eventName : list ascii) (s s' : trace_walk) :
  handleEvent eventName s = Ok s' -> extends (snd s) (snd s').
Proof.
  destruct s as [context w]. unfold handleEvent.
  destruct (eventHandlers context !! eventName) as [h|].
  - destruct (callback h (app w) (state context)) as [[[a retained] changes]| |];
      [|done|done].
    cbn [bind]. intros [= <-]. exists []. by rewrite app_nil_r.
  - intros [= <-]. exists []. by rewrite app_nil_r.
Qed.

Lemma setNextItemWidth_extends (element : TXMLElement) (s s' : trace_walk) :
  setNextItemWidth imgui element s = Ok s' -> extends (snd s) (snd s').
Proof.
  destruct s as [context w]. unfold setNextItemWidth.
  destruct (style_of_type _ _ _) as [width|]; [|intros [= <-]; apply extends_refl].
  destruct (ImGui imgui _ w) as [[[b buf] w']| |] eqn:E; [|done|done].
  cbn [bind]. intros [= <-]. by apply ImGui_extends in E.
Qed.

Lemma renderText_extends (element : TXMLElement) (s s' : trace_walk) :
  renderText imgui element s = Ok s' -> extends (snd s) (snd s').
Proof.
  destruct s as [context w]. unfold renderText.
  destruct (style_of_type _ _ _) as [color|];
    (destruct (ImGui imgui _ w) as [[[b buf] w']| |] eqn:E; [|done|done]);
    cbn [bind]; intros [= <-]; by apply ImGui_extends in E.
Qed.

Lemma renderButton_extends (element : TXMLElement) (s s' : trace_walk) :
  renderButton imgui element s = Ok s' -> extends (snd s) (snd s').
Proof.
  unfold renderButton.
  destruct (setNextItemWidth imgui element s) as [[context w]| |] eqn:E1; [|done|done].
  apply setNextItemWidth_extends in E1. cbn [bind snd] in *.
  destruct (ImGui imgui _ w) as [[[clicked buf] w']| |] eqn:E2; [|done|done].
  apply ImGui_extends in E2; [|done]. cbn [bind].
  pose proof (extends_trans _ _ _ E1 E2) as H12.
  destruct (attribute _ _) as [onClick|]; [|by intros [= <-]].
  destruct (clicked && truthy onClick); [|by intros [= <-]].
  intros H3%handleEvent_extends. by eapply extends_trans.
Qed.

Lemma renderInputText_extends (element : TXMLElement) (s s' : trace_walk) :
  renderInputText number_truthy buffer_size imgui element s = Ok s' ->
  extends (snd s) (snd s').
Proof.
  unfold renderInputText.
  destruct (setNextItemWidth imgui element s) as [[context w]| |] eqn:E1; [|done|done].
  apply setNextItemWidth_extends in E1. cbn [bind snd] in *.
  destruct (ImGui imgui _ w) as [[[changed buf] w']| |] eqn:E2; [|done|done].
  apply ImGui_extends in E2; [|done]. cbn [bind].
  destruct changed; intros [= <-]; by eapply extends_trans.
Qed.

Lemma renderSliderFloat_extends (element : TXMLElement) (s s' : trace_walk) :
  renderSliderFloat parseFloat number_truthy one_half imgui element s = Ok s' ->
  extends (snd s) (snd s').
Proof.
  unfold renderSliderFloat.
  destruct (setNextItemWidth imgui element s) as [[context w]| |] eqn:E1; [|done|done].
  apply setNextItemWidth_extends in E1. cbn [bind snd] in *.
  destruct (ImGui imgui _ w) as [[[changed buf] w']| |] eqn:E2; [|done|done].
  apply ImGui_extends in E2; [|done]. cbn [bind].
  destruct changed; intros [= <-]; by eapply extends_trans.
Qed.

Lemma renderCheckbox_extends (element : TXMLElement) (s s' : trace_walk) :
  renderCheckbox number_truthy imgui element s = Ok s' -> extends (snd s) (snd s').
Proof.
  destruct s as [context w]. unfold renderCheckbox.
  destruct (ImGui imgui _ w) as [[[changed buf] w']| |] eqn:E2; [|done|done].
  apply ImGui_extends in E2; [|done]. cbn [bind].
  by destruct changed; intros [= <-].
Qed.

Lemma renderSameLine_extends (element : TXMLElement) (s s' : trace_walk) :
  renderSameLine parseFloat imgui element s = Ok s' -> extends (snd s) (snd s').
Proof.
  destruct s as [context w]. unfold renderSameLine.
  destruct (ImGui imgui _ w) as [[[b buf] w']| |] eqn:E; [|done|done].
  cbn [bind]. intros [= <-]. by apply ImGui_extends in E.
Qed.

Lemma children_loop_extends
    (render_fn : TXMLElement -> trace_walk -> result host_error trace_walk)
    (cs : list Child) :
  Forall (fun child =>
            match child with
            | ChildElement e =>
                forall s s' : trace_walk, render_fn e s = Ok s' -> extends (snd s) (snd s')
            | ChildText _ => True
            end) cs ->
  forall s s' : trace_walk,
    children_loop imgui render_fn cs s = Ok s' -> extends (snd s) (snd s').
Proof.
  induction cs as [|child cs IH]; intros Hcs s s'; cbn [children_loop].
  - intros [= <-]. apply extends_refl.
  - apply Forall_cons in Hcs as [Hc Hcs]. destruct child as [e|text].
    + destruct (render_fn e s) as [s1| |] eqn:E; [|done|done]. cbn [bind].
      intros Hl. eapply extends_trans; [by apply Hc|by apply (IH Hcs)].
    + destruct (truthy (trim text)); [|by apply IH].
      destruct (simple_call imgui _ s) as [s1| |] eqn:E; [|done|done]. cbn [bind].
      intros Hl. apply simple_call_extends in E; [|done].
      eapply extends_trans; [exact E|by apply (IH Hcs)].
Qed.

Lemma renderChildren_with_extends
    (render_fn : TXMLElement -> trace_walk -> result host_error trace_walk)
    (tag : list ascii) (cs : list Child) :
  Forall (fun child =>
            match child with
            | ChildElement e =>
                forall s s' : trace_walk, render_fn e s = Ok s' -> extends (snd s) (snd s')
            | ChildText _ => True
            end) cs ->
  forall s s' : trace_walk,
    renderChildren_with imgui render_fn tag cs s = Ok s' -> extends (snd s) (snd s').
Proof.
  intros Hcs [context w] s'. unfold renderChildren_with, copy_path, push_path.
  destruct (children_loop imgui render_fn cs _) as [[context3 w3]| |] eqn:E;
    [|done|done].
  cbn [bind]. intros [= <-].
  by apply (children_loop_extends render_fn cs Hcs) in E.
Qed.

Lemma renderWindow_with_extends
    (renderChildren_fn : trace_walk -> result host_error trace_walk)
    (element : TXMLElement) :
  (forall s s' : trace_walk, renderChildren_fn s = Ok s' -> extends (snd s) (snd s')) ->
  forall s s' : trace_walk,
    renderWindow_with number_truthy two_hundred imgui renderChildren_fn element s = Ok s' ->
    extends (snd s) (snd s').
Proof.
  intros Hch [context w] s'. unfold renderWindow_with.
  set (sized := match style_of_type _ _ _ with Some _ => _ | None => _ end).
  assert (forall w1, sized = Ok w1 -> extends w w1) as Hsized.
  { subst sized. intros w1.
    destruct (style_of_type _ _ _); [|intros [= <-]; apply extends_refl].
    destruct (ImGui imgui _ w) as [[[b buf] w']| |] eqn:E; [|done|done].
    cbn [bind]. intros [= <-]. by apply ImGui_extends in E. }
  destruct sized as [w1| |]; [|done|done]. cbn [bind snd].
  specialize (Hsized w1 eq_refl).
  destruct (ImGui imgui _ w1) as [[[opened buf] w2]| |] eqn:E2; [|done|done].
  apply ImGui_calls in E2. cbn [bind].
  assert (forall s3 : trace_walk, extends w2 (snd s3) ->
            simple_call imgui End_ s3 = Ok s' -> extends w (snd s')) as Hend.
  { intros [context3 w3] (t & Ht & Hb). unfold simple_call.
    destruct (ImGui imgui End_ w3) as [[[b buf'] w4]| |] eqn:E4; [|done|done].
    apply ImGui_calls in E4. cbn [bind]. intros [= <-]. cbn [snd] in *.
    eapply extends_trans; [exact Hsized|].
    exists (Begin (attribute_or (lit "title") (lit "Window") element) :: t ++ [End_]).
    split; [|by apply bracketed_window].
    rewrite E4, Ht, E2. cbn [app]. by rewrite <- !app_assoc. }
  destruct opened.
  - destruct (renderChildren_fn (context, w2)) as [s3| |] eqn:E3; [|done|done].
    cbn [bind]. apply Hend. by apply Hch in E3.
  - cbn [bind]. apply Hend. apply extends_refl.
Qed.

(** X11.  When [render] returns, every window it opened is closed: the
    calls it made follow the earlier ones, and in them each [Begin] has its
    [End] after it (also when [Begin] answered that the window is
    collapsed), no [End] coming without its [Begin]. *)
Theorem render_closes_windows (element : TXMLElement) :
  forall s s' : trace_walk,
    render_traced element s = Ok s' ->
    exists trace,
      calls (snd s') = calls (snd s) ++ trace
      /\ forall depth, open_windows depth trace = Some depth.
Proof.
  change (forall s s' : trace_walk,
            render_traced element s = Ok s' -> extends (snd s) (snd s')).
  induction element as [t a cs IH] using TXMLElement_induction.
  intros s s'. cbn [render].
  pose proof (renderChildren_with_extends render_traced t cs IH) as Hch.
  destruct (renderers_get t renderers) as [[]|].
  - by apply Hch.
  - intros [= <-]. apply extends_refl.
  - by apply Hch.
  - by apply renderWindow_with_extends.
  - apply renderText_extends.
  - apply renderButton_extends.
  - apply renderInputText_extends.
  - apply renderSliderFloat_extends.
  - apply renderCheckbox_extends.
  - apply renderSameLine_extends.
  - by apply simple_call_extends.
  - by apply simple_call_extends.
  - intros [= <-]. exists []. cbn [snd warn calls]. by rewrite app_nil_r.
Qed.

End WalkTrace.

Lemma render_closes_windows_witness :
  match Demo.render_element
          (Element (lit "Window") [(lit "title", lit "Main")]
             [ChildText (lit "hi");
              ChildElement (Element (lit "Window") [] [ChildElement Demo.first_input])])
          (Demo.start 1) with
  | Ok s' =>
      exists trace,
        Widgets.calls (snd s') = Widgets.calls (snd (Demo.start 1)) ++ trace
        /\ forall depth, open_windows depth trace = Some depth
  | _ => False
  end.
Proof.
  destruct (Demo.render_element _ (Demo.start 1)) as [s'| |] eqn:E.
  - exact (render_closes_windows (fun s => length s) (fun n => negb (Nat.eqb n 0))
             1 200 256 Demo.imgui _ (Demo.start 1) s' E).
  - vm_compute in E. discriminate.
  - vm_compute in E. discriminate.
Defined.

(** ** What the widgets retain *)

Section WalkState.

Import Widgets.

Context {number host_error application : Type}.
Variable parseFloat : list ascii -> number.
Variable number_truthy : number -> bool.
Variable one_half two_hundred buffer_size : number.
Variable imgui : list (@ImGuiCall number) -> @ImGuiCall number
                 -> @ImGuiReply number host_error.

Abbreviation state_walk := (@walk number host_error application).

Lemma or_else_twice (v fallback : @js_any number) :
  or_else number_truthy (or_else number_truthy v fallback) fallback
  = or_else number_truthy v fallback.
Proof.
  unfold or_else. destruct (any_truthy number_truthy v) eqn:E; [by rewrite E|].
  by destruct (any_truthy number_truthy fallback).
Qed.

Lemma shown_after_store (id_ : list ascii) (st : @WidgetState number)
    (v initial : @js_any number)
    (context : @RenderContext number host_error application) :
  value (state_or_new id_ initial (store id_ st v context)) = v.
Proof.
  unfold state_or_new, store, set_state. cbn [state]. by rewrite lookup_insert_eq.
Qed.

(** X12.  A slider and a checkbox never change their value.  The number or
    boolean read from the retained state is handed to the binding by value,
    and it is that same value that is stored when the binding reports a
    change: whatever the binding answers, the value the widget will show in
    the next frame is the value it showed in this one. *)
Theorem slider_and_checkbox_keep_value (element : TXMLElement) (s s' : state_walk) :
  (renderSliderFloat parseFloat number_truthy one_half imgui element s = Ok s' ->
   or_else number_truthy
     (value (state_or_new (generateId element s) (VNumber one_half) (fst s')))
     (VNumber one_half)
   = or_else number_truthy
       (value (state_or_new (generateId element s) (VNumber one_half) (fst s)))
       (VNumber one_half))
  /\ (renderCheckbox number_truthy imgui element s = Ok s' ->
      or_else number_truthy
        (value (state_or_new (generateId element s) (VBoolean false) (fst s')))
        (VBoolean false)
      = or_else number_truthy
          (value (state_or_new (generateId element s) (VBoolean false) (fst s)))
          (VBoolean false)).
Proof.
  split.
  - unfold renderSliderFloat, setNextItemWidth. destruct s as [context w].
    change (style_of_type TNumber (lit "width") (getComputedStyle element context))
      with (@None (@StyleValue number)).
    cbn [bind fst].
    destruct (ImGui imgui _ w) as [[[changed buf] w']| |]; [|done|done]. cbn [bind].
    destruct changed; intros [= <-]; [|done]. cbn [fst].
    by rewrite shown_after_store, or_else_twice.
  - unfold renderCheckbox. destruct s as [context w].
    destruct (ImGui imgui _ w) as [[[changed buf] w']| |]; [|done|done]. cbn [bind].
    destruct changed; intros [= <-]; [|done]. cbn [fst].
    by rewrite shown_after_store, or_else_twice.
Qed.

(** X13.  A text input retains what was typed.  When the binding reports a
    change and leaves the string [typed] in the buffer, that string is
    stored under the identity of the element, and a later call for the same
    element under the same ancestor path, on a context holding that state,
    hands [typed] to the binding as the content of the field. *)
Theorem input_text_retains (element : TXMLElement) (s s1 s2 s3 : state_walk)
    (typed : list ascii) :
  let label := attribute_or (lit "label") [] element in
  let hint := attribute_or (lit "hint") [] element in
  let shown := or_else number_truthy
                 (value (state_or_new (generateId element s) (VString []) (fst s)))
                 (VString []) in
  imgui (calls (snd s)) (InputTextWithHint label hint shown buffer_size)
  = Returned true (VString typed) ->
  renderInputText number_truthy buffer_size imgui element s = Ok s1 ->
  state (fst s2) = state (fst s1) -> path_of s2 = path_of s ->
  renderInputText number_truthy buffer_size imgui element s2 = Ok s3 ->
  calls (snd s3)
  = calls (snd s2) ++ [InputTextWithHint label hint (VString typed) buffer_size].
Proof.
  intros label hint shown Hreply H1 Hstate Hpath H2.
  assert (generateId element s2 = generateId element s) as Hid.
  { unfold generateId. by rewrite Hpath. }
  assert (state (fst s1)
          = <[generateId element s :=
                MkWidgetState (id (state_or_new (generateId element s) (VString []) (fst s)))
                              (VString typed) (frameNumber (fst s))]> (state (fst s)))
    as Hs1.
  { revert H1. unfold renderInputText, setNextItemWidth. destruct s as [context w].
    change (style_of_type TNumber (lit "width") (getComputedStyle element context))
      with (@None (@StyleValue number)).
    cbn [bind fst snd] in *. unfold ImGui. fold label hint shown. rewrite Hreply.
    cbn [bind]. by intros [= <-]. }
  revert H2. unfold renderInputText, setNextItemWidth. destruct s2 as [context2 w2].
  change (style_of_type TNumber (lit "width") (getComputedStyle element context2))
    with (@None (@StyleValue number)).
  cbn [bind fst snd] in *. rewrite Hid. fold label hint.
  assert (or_else number_truthy
            (value (state_or_new (generateId element s) (VString []) context2))
            (VString []) = VString typed) as ->.
  { unfold state_or_new. rewrite Hstate, Hs1, lookup_insert_eq. cbn [value].
    unfold or_else. cbn [any_truthy]. by destruct typed. }
  destruct (ImGui imgui _ w2) as [[[changed buf] w']| |] eqn:E; [|done|done].
  apply (ImGui_calls imgui) in E.
  cbn [bind]. by destruct changed; intros [= <-].
Qed.

End WalkState.

Lemma input_text_retains_witness :
  match Demo.render_element Demo.first_input (Demo.under_body 1) with
  | Ok s1 =>
      match Demo.render_element Demo.first_input
              (Widgets.MkRenderContext (Widgets.state (fst s1)) ∅ (TSS.Stylesheet ∅ []) 2 0,
               Widgets.MkWorld [[lit "App"; lit "Body"]] [] 0 []) with
      | Ok s3 =>
          Widgets.calls (snd s3)
          = [Widgets.InputTextWithHint (lit "first") [] (Widgets.VString (lit "first")) 256]
      | _ => False
      end
  | _ => False
  end.
Proof.
  destruct (Demo.render_element Demo.first_input (Demo.under_body 1)) as [s1| |] eqn:E1;
    [|vm_compute in E1; discriminate..].
  pose proof E1 as E1'. vm_compute in E1'. injection E1' as <-.
  set (s2 := (Widgets.MkRenderContext _ ∅ (TSS.Stylesheet ∅ []) 2 0,
              Widgets.MkWorld [[lit "App"; lit "Body"]] [] 0 [])).
  destruct (Demo.render_element Demo.first_input s2) as [s3| |] eqn:E3;
    [|vm_compute in E3; discriminate..].
  exact (input_text_retains (fun n => negb (Nat.eqb n 0)) 256 Demo.imgui
           Demo.first_input (Demo.under_body 1) _ s2 s3 (lit "first")
           eq_refl E1 eq_refl eq_refl E3).
Defined.

(** ** Identities of elements under different paths *)

Lemma slash_split (p q a b : list ascii) :
  slash_free p -> slash_free q ->
  p ++ "/"%char :: a = q ++ "/"%char :: b -> p = q /\ a = b.
Proof.
  revert q. induction p as [|x p IH]; intros [|y q] Hp Hq; cbn [app].
  - by intros [= ->].
  - intros [= <- _]. by cbn in Hq.
  - intros [= -> _]. by cbn in Hp.
  - intros [= -> H]. unfold slash_free in *. cbn [forallb] in Hp, Hq.
    apply andb_prop in Hp as [_ Hp]. apply andb_prop in Hq as [_ Hq].
    by destruct (IH q Hp Hq H) as [-> ->].
Qed.

Lemma slash_free_whole (p q b : list ascii) :
  slash_free p -> p = q ++ "/"%char :: b -> False.
Proof.
  unfold slash_free. intros Hp ->. rewrite forallb_app in Hp.
  apply andb_prop in Hp as [_ Hp]. by cbn in Hp.
Qed.

Lemma join_slash_inj (l1 : list (list ascii)) : forall l2,
  Forall slash_free l1 -> Forall slash_free l2 -> l1 <> [] -> l2 <> [] ->
  join (lit "/") l1 = join (lit "/") l2 -> l1 = l2.
Proof.
  induction l1 as [|p ps IH]; intros [|q qs] H1 H2 Hn1 Hn2; try done.
  apply Forall_cons in H1 as [Hp Hps]. apply Forall_cons in H2 as [Hq Hqs].
  rewrite !join_cons. change (lit "/") with ["/"%char].
  destruct ps as [|p' ps], qs as [|q' qs]; cbn [app].
  - rewrite !app_nil_r. by intros ->.
  - rewrite app_nil_r. intros H. by destruct (slash_free_whole _ _ _ Hp H).
  - rewrite app_nil_r. intros H. symmetry in H. by destruct (slash_free_whole _ _ _ Hq H).
  - intros [-> H]%slash_split; [|done|done]. f_equal. by apply IH.
Qed.

Lemma name_like_slash_free (s : list ascii) : name_like s -> slash_free s.
Proof.
  unfold name_like, slash_free. apply forallb_weaken. intros ch Hch.
  by apply name_char_plain in Hch as (_ & _ & _ & -> & _).
Qed.

Section WalkIdentity.

Import Widgets.

Context {number host_error application : Type}.

(** X14.  When no tag holds a [/] (the tags the markup parser reads hold
    name characters only), the identity determines the ancestor path and the
    tag: two elements have the same identity exactly when they have the same
    tag and stand under the same ancestor tags, so widgets under different
    paths never share retained state. *)
Theorem generateId_injective (e1 e2 : TXMLElement)
    (s1 s2 : @walk number host_error application) :
  Forall slash_free (path_of s1 ++ [tag e1]) ->
  Forall slash_free (path_of s2 ++ [tag e2]) ->
  generateId e1 s1 = generateId e2 s2 <-> path_of s1 = path_of s2 /\ tag e1 = tag e2.
Proof.
  intros H1 H2. unfold generateId. split.
  - intros H%join_slash_inj; [|done|done|by destruct (path_of s1)|by destruct (path_of s2)].
    by apply app_inj_tail in H.
  - by intros [-> ->].
Qed.

End WalkIdentity.

Lemma generateId_injective_witness :
  Widgets.generateId Demo.first_input (Demo.under_body 1)
  = Widgets.generateId Demo.first_input (Demo.start 1)
  <-> Widgets.path_of (Demo.under_body 1) = Widgets.path_of (Demo.start 1)
      /\ tag Demo.first_input = tag Demo.first_input.
Proof.
  apply generateId_injective; repeat constructor.
Defined.


(** ** Colours *)

Lemma land_byte (n : Z) : Z.land n 255 = (n mod 256)%Z.
Proof. change 255%Z with (Z.ones 8). by rewrite Z.land_ones. Qed.

Lemma to_int32_small (n : Z) : (- 2 ^ 31 <= n < 2 ^ 31)%Z -> Widgets.to_int32 n = n.
Proof. intros H. unfold Widgets.to_int32. rewrite Z.mod_small; lia. Qed.

Lemma to_int32_range (n : Z) : (- 2 ^ 31 <= Widgets.to_int32 n < 2 ^ 31)%Z.
Proof.
  unfold Widgets.to_int32. pose proof (Z.mod_pos_bound (n + 2 ^ 31) (2 ^ 32)). lia.
Qed.

Lemma to_int32_mod (n : Z) : (Widgets.to_int32 n mod 2 ^ 32 = n mod 2 ^ 32)%Z.
Proof.
  unfold Widgets.to_int32.
  replace ((n + 2 ^ 31) mod 2 ^ 32 - 2 ^ 31)%Z
    with ((n + 2 ^ 31) mod 2 ^ 32 + (- 2 ^ 31))%Z by lia.
  rewrite Zplus_mod_idemp_l. f_equal. lia.
Qed.

(** The byte of [color] that starts at bit [8 * i]. *)
Lemma channel (color : Z) (shift : Z) :
  (0 <= shift <= 24)%Z ->
  Widgets.to_int32 (Z.land (Widgets.to_int32 (Z.shiftr (Widgets.to_int32 color) shift)) 255)
  = ((color mod 2 ^ 32) / 2 ^ shift mod 256)%Z.
Proof.
  intros Hs. pose proof (to_int32_range color) as Hr.
  assert (- 2 ^ 31 <= Z.shiftr (Widgets.to_int32 color) shift < 2 ^ 31)%Z as Hsh.
  { rewrite Z.shiftr_div_pow2 by lia.
    assert (0 < 2 ^ shift)%Z by (apply Z.pow_pos_nonneg; lia).
    assert (1 <= 2 ^ shift)%Z by lia.
    split.
    - apply Z.div_le_lower_bound; [lia|]. nia.
    - apply Z.div_lt_upper_bound; [lia|]. nia. }
  rewrite (to_int32_small (Z.shiftr _ _)) by done.
  rewrite land_byte. rewrite to_int32_small.
  2:{ pose proof (Z.mod_pos_bound (Z.shiftr (Widgets.to_int32 color) shift) 256). lia. }
  rewrite Z.shiftr_div_pow2 by lia.
  (* the low 32 bits of the signed reading are those of the number *)
  pose proof (to_int32_mod color) as Hm.
  assert (exists k, Widgets.to_int32 color = color mod 2 ^ 32 + k * 2 ^ 32)%Z as [k Hk].
  { exists (Widgets.to_int32 color / 2 ^ 32)%Z.
    pose proof (Z.div_mod (Widgets.to_int32 color) (2 ^ 32)). lia. }
  rewrite Hk.
  assert (2 ^ 32 = 2 ^ shift * 2 ^ (32 - shift))%Z as Hp.
  { rewrite <- Z.pow_add_r by lia. f_equal. lia. }
  assert (0 < 2 ^ shift)%Z by (apply Z.pow_pos_nonneg; lia).
  replace (color mod 2 ^ 32 + k * 2 ^ 32)%Z
    with (color mod 2 ^ 32 + (k * 2 ^ (32 - shift)) * 2 ^ shift)%Z by (rewrite Hp; lia).
  rewrite Z.div_add by lia.
  assert (2 ^ (32 - shift) = 256 * 2 ^ (24 - shift))%Z as Hq.
  { change 256%Z with (2 ^ 8)%Z. rewrite <- Z.pow_add_r by lia. f_equal. lia. }
  replace (k * 2 ^ (32 - shift))%Z with ((k * 2 ^ (24 - shift)) * 256)%Z by (rewrite Hq; lia).
  by rewrite Z.mod_add.
Qed.

(** X16.  [intToImVec4] reads a colour as [0xAARRGGBB].  Each component is
    a byte over 255; the result depends on the low 32 bits of the colour
    only; and for the colour made of the bytes [a], [r], [g], [b] the
    components are [r/255], [g/255], [b/255] and [a/255], also when [a] is
    128 or more and the 32-bit reading of the colour is negative. *)
Theorem intToImVec4_channels (color a r g b : Z) :
  (is_byte (Widgets.dividend (Widgets.vec_x (Widgets.intToImVec4 color)))
   /\ is_byte (Widgets.dividend (Widgets.vec_y (Widgets.intToImVec4 color)))
   /\ is_byte (Widgets.dividend (Widgets.vec_z (Widgets.intToImVec4 color)))
   /\ is_byte (Widgets.dividend (Widgets.vec_w (Widgets.intToImVec4 color))))
  /\ (forall k, Widgets.intToImVec4 (color + k * 2 ^ 32) = Widgets.intToImVec4 color)
  /\ (is_byte a -> is_byte r -> is_byte g -> is_byte b ->
      Widgets.intToImVec4 (argb a r g b)
      = Widgets.MkImVec4 (Widgets.Quotient r 255) (Widgets.Quotient g 255) (Widgets.Quotient b 255) (Widgets.Quotient a 255)).
Proof.
  assert (forall c, Widgets.intToImVec4 c
            = Widgets.MkImVec4 (Widgets.Quotient ((c mod 2 ^ 32) / 2 ^ 16 mod 256) 255)
                       (Widgets.Quotient ((c mod 2 ^ 32) / 2 ^ 8 mod 256) 255)
                       (Widgets.Quotient ((c mod 2 ^ 32) / 2 ^ 0 mod 256) 255)
                       (Widgets.Quotient ((c mod 2 ^ 32) / 2 ^ 24 mod 256) 255)) as Hv.
  { intros c. unfold Widgets.intToImVec4. cbv zeta.
    rewrite !channel by lia.
    pose proof (channel c 0 ltac:(lia)) as H0. rewrite Z.shiftr_0_r in H0.
    rewrite (to_int32_small (Widgets.to_int32 c)) in H0 by apply to_int32_range.
    by rewrite H0. }
  split; [|split].
  - rewrite Hv. cbn [Widgets.vec_x Widgets.vec_y Widgets.vec_z Widgets.vec_w Widgets.dividend]. unfold is_byte.
    repeat split; apply Z.mod_pos_bound; lia.
  - intros k. rewrite !Hv. by rewrite Z.mod_add by lia.
  - unfold is_byte, argb. intros Ha Hr Hg Hb. rewrite Hv.
    rewrite (Z.mod_small (a * 2 ^ 24 + r * 2 ^ 16 + g * 2 ^ 8 + b) (2 ^ 32)) by lia.
    f_equal; f_equal.
    + replace (a * 2 ^ 24 + r * 2 ^ 16 + g * 2 ^ 8 + b)%Z
        with (g * 2 ^ 8 + b + (a * 2 ^ 8 + r) * 2 ^ 16)%Z by lia.
      rewrite Z.div_add by lia. rewrite (Z.div_small (g * 2 ^ 8 + b)) by lia.
      rewrite Z.add_0_l. change (2 ^ 8)%Z with 256%Z.
      rewrite Z.add_comm, Z.mod_add by lia. apply Z.mod_small. lia.
    + replace (a * 2 ^ 24 + r * 2 ^ 16 + g * 2 ^ 8 + b)%Z
        with (b + ((a * 2 ^ 8 + r) * 2 ^ 8 + g) * 2 ^ 8)%Z by lia.
      rewrite Z.div_add by lia. rewrite (Z.div_small b) by lia.
      rewrite Z.add_0_l. change (2 ^ 8)%Z with 256%Z.
      rewrite Z.add_comm, Z.mod_add by lia. apply Z.mod_small. lia.
    + change (2 ^ 0)%Z with 1%Z. rewrite Z.div_1_r.
      replace (a * 2 ^ 24 + r * 2 ^ 16 + g * 2 ^ 8 + b)%Z
        with (b + ((a * 2 ^ 8 + r) * 2 ^ 8 + g) * 256)%Z by lia.
      rewrite Z.mod_add by lia. apply Z.mod_small. lia.
    + replace (a * 2 ^ 24 + r * 2 ^ 16 + g * 2 ^ 8 + b)%Z
        with (r * 2 ^ 16 + g * 2 ^ 8 + b + a * 2 ^ 24)%Z by lia.
      rewrite Z.div_add by lia. rewrite (Z.div_small (r * 2 ^ 16 + g * 2 ^ 8 + b)) by lia.
      rewrite Z.add_0_l. apply Z.mod_small. lia.
Qed.

Lemma node_induction (P : node -> Prop) :
  (forall ws text, P (TextNode ws text)) ->
  (forall ws body, P (CommentNode ws body)) ->
  (forall ws tag space attrs, P (EmptyNode ws tag space attrs)) ->
  (forall ws tag space attrs children before_close,
     Forall P children -> P (ParentNode ws tag space attrs children before_close)) ->
  forall n, P n.
Proof.
  intros Ht Hc He Hp. fix IH 1. intros [ws text|ws body|ws tag space attrs|ws tag space attrs children bc].
  - apply Ht.
  - apply Hc.
  - apply He.
  - apply Hp. induction children as [|child children IHc]; constructor; [apply IH|apply IHc].
Qed.

(** ** The syntax the markup parser reads *)

(** *** Attributes as written *)

Lemma space_not_name (ch : ascii) : is_space ch = true -> is_name_char ch = false.
Proof. destruct ch as [[] [] [] [] [] [] [] []]; vm_compute; done. Qed.

Lemma closes_tag_stop (s : list ascii) :
  closes_tag s ->
  match s with ch :: _ => is_space ch = false | [] => True end
  /\ match s with ch :: _ => is_name_char ch = false | [] => True end.
Proof. destruct s as [|ch s]; [done|]. by intros [-> | ->]. Qed.

Lemma attribute_text_head (a : attribute_source) (s : list ascii) :
  attribute_ok a ->
  exists ch s', attribute_text a ++ s = ch :: s' /\ is_space ch = false
                /\ char_eqb ch ">" = false /\ char_eqb ch "/" = false.
Proof.
  intros (Hn & _). unfold attribute_text. destruct (a_name a) as [|ch name].
  - exists "="%char. eexists. by split.
  - exists ch. eexists. split; [done|]. cbn [forallb] in Hn.
    apply andb_prop in Hn as [Hch _].
    by apply name_char_plain in Hch as (-> & _ & -> & -> & _).
Qed.

Lemma attributes_stop (attrs : list attribute_source) (s : list ascii) :
  Forall attribute_ok attrs -> closes_tag s ->
  match concat (map attribute_text attrs) ++ s with
  | ch :: _ => is_space ch = false
  | [] => True
  end.
Proof.
  intros Ha Hs. destruct attrs as [|a attrs].
  - by apply closes_tag_stop.
  - apply Forall_cons in Ha as [Ha _]. cbn [map concat]. rewrite <- app_assoc.
    by destruct (attribute_text_head a (concat (map attribute_text attrs) ++ s) Ha)
      as (ch & s' & -> & Hch & _).
Qed.

Lemma parseAttributeValue_source (quote : ascii) (v s : list ascii) (c : cursor) :
  quote = dquote \/ quote = squote ->
  forallb (fun ch => negb (char_eqb ch quote)) v = true ->
  rest c = [quote] ++ v ++ [quote] ++ s ->
  exists c', parseAttributeValue c = Ok (v, c') /\ rest c' = s.
Proof.
  intros Hq Hv Hr. unfold parseAttributeValue.
  assert (exists c1, (match consume [dquote] c with
                      | Some c1 => Some (dquote, c1)
                      | None => match consume [squote] c with
                                | Some c1 => Some (squote, c1)
                                | None => None
                                end
                      end) = Some (quote, c1) /\ rest c1 = v ++ [quote] ++ s)
    as (c1 & -> & Hr1).
  { destruct Hq as [-> | ->].
    - destruct (consume_prefix _ _ _ Hr) as (c1 & -> & Hr1). by exists c1.
    - rewrite (consume_None [dquote] c) by (by rewrite Hr).
      destruct (consume_prefix _ _ _ Hr) as (c1 & -> & Hr1). by exists c1. }
  destruct (scan_lines_prefix (fun ch => negb (char_eqb ch quote)) v _ c1 Hr1 Hv)
    as (c2 & -> & Hr2).
  { cbn [app]. by rewrite char_eqb_refl. }
  destruct (consume_prefix [quote] s c2 Hr2) as (c3 & -> & Hr3). by exists c3.
Qed.

Lemma parseAttributes_loop_source (attrs : list attribute_source) :
  forall fuel acc c s,
    length attrs <= fuel ->
    rest c = concat (map attribute_text attrs) ++ s ->
    closes_tag s -> Forall attribute_ok attrs ->
    exists c', parseAttributes_loop fuel acc c
               = Ok (fold_left (fun o a => obj_set (a_name a) (a_value a) o) attrs acc, c')
               /\ rest c' = s.
Proof.
  induction attrs as [|a attrs IH]; intros fuel acc c s Hf Hr Hs Ha.
  - cbn [map concat app] in Hr. exists c. split; [|done].
    assert (loop_guard_attributes c = false) as Hg.
    { unfold loop_guard_attributes. rewrite Hr. destruct s as [|ch s]; [done|].
      by destruct Hs as [-> | ->]. }
    destruct fuel; cbn [parseAttributes_loop fold_left]; by rewrite Hg.
  - destruct fuel as [|fuel]; [cbn [length] in Hf; lia|].
    apply Forall_cons in Ha as [Hok Ha]. pose proof Hok as (Hn & Hq & Hv & Hgap).
    cbn [map concat] in Hr. rewrite <- app_assoc in Hr.
    destruct (attribute_text_head a (concat (map attribute_text attrs) ++ s) Hok)
      as (ch & s' & Hhd & _ & Hgt & Hsl).
    assert (loop_guard_attributes c = true) as Hg.
    { unfold loop_guard_attributes. by rewrite Hr, Hhd, Hgt, Hsl. }
    unfold attribute_text in Hr. rewrite <- !app_assoc in Hr.
    destruct (scan_column_prefix is_name_char (a_name a) _ c Hr Hn) as (c1 & E1 & Hr1);
      [done|].
    destruct (consume_prefix _ _ _ Hr1) as (c2 & E2 & Hr2).
    destruct (parseAttributeValue_source (a_quote a) (a_value a) _ c2 Hq Hv Hr2)
      as (c3 & E3 & Hr3).
    cbn [parseAttributes_loop]. rewrite Hg. unfold parseAttributeName. rewrite E1, E2, E3.
    cbn [bind fold_left].
    apply IH; [cbn [length] in Hf; lia| |done|done].
    apply (skipWhitespace_prefix (a_gap a)); [done|done|]. by apply attributes_stop.
Qed.

Lemma attribute_text_length (attrs : list attribute_source) :
  length attrs <= length (concat (map attribute_text attrs)).
Proof.
  induction attrs as [|a attrs IH]; [done|]. cbn [map concat]. rewrite length_app.
  unfold attribute_text at 1. rewrite !length_app. change (length (lit "=")) with 1.
  cbn [length]. lia.
Qed.

Lemma parseAttributes_source (space : list ascii) (attrs : list attribute_source)
    (s : list ascii) (c : cursor) :
  rest c = space ++ concat (map attribute_text attrs) ++ s ->
  all_space space -> closes_tag s -> Forall attribute_ok attrs ->
  exists c', parseAttributes c = Ok (attributes_of attrs, c') /\ rest c' = s.
Proof.
  intros Hr Hsp Hs Ha. unfold parseAttributes, attributes_of.
  apply parseAttributes_loop_source; [|by apply (skipWhitespace_prefix space);
    [| |apply attributes_stop]|done|done].
  rewrite Hr, !length_app. pose proof (attribute_text_length attrs) as Hl.
  clear -Hl. lia.
Qed.

(** The opening of a tag, up to its [>] or [/>]. *)
Lemma opening_source (tag space : list ascii) (attrs : list attribute_source)
    (s : list ascii) (c : cursor) :
  rest c = opening tag space attrs ++ s -> opening_ok tag space attrs -> closes_tag s ->
  exists c1 c2 c3,
    consume (lit "<") c = Some c1 /\ parseTagName c1 = (tag, c2)
    /\ parseAttributes c2 = Ok (attributes_of attrs, c3) /\ rest c3 = s
    /\ unread c3 < unread c.
Proof.
  intros Hr (Ht & Hsp & Hfirst & Ha) Hs. unfold opening in Hr.
  rewrite <- !app_assoc in Hr.
  destruct (consume_prefix _ _ _ Hr) as (c1 & E1 & Hr1).
  destruct (scan_column_prefix is_name_char tag _ c1 Hr1 Ht) as (c2 & E2 & Hr2).
  { destruct space as [|ch space].
    - destruct attrs as [|a attrs]; [cbn [map concat app]; by apply closes_tag_stop|].
      cbn [map concat app]. unfold attribute_text. by rewrite (Hfirst eq_refl).
    - cbn [app]. unfold all_space in Hsp. cbn [forallb] in Hsp.
      apply andb_prop in Hsp as [Hch _]. by apply space_not_name. }
  destruct (parseAttributes_source space attrs s c2 Hr2 Hsp Hs Ha) as (c3 & E3 & Hr3).
  exists c1, c2, c3. repeat split; try done.
  apply consume_unread in E1. change (length (lit "<")) with 1 in E1.
  apply scan_column_unread in E2.
  pose proof (proj2 (parseAttributes_total c2) _ _ E3). lia.
Qed.

(** *** Comments, texts and elements as written *)

Lemma char_eqb_sym (a b : ascii) : char_eqb a b = char_eqb b a.
Proof. apply Ascii.eqb_sym. Qed.

Lemma comment_free_start (ch : ascii) (body s : list ascii) :
  comment_free (ch :: body) = true ->
  starts_with (lit "-->") (ch :: body ++ lit "-->" ++ s) = false.
Proof.
  cbn [comment_free]. intros [H _]%andb_prop. apply negb_true_iff in H.
  change (lit "-->") with ["-"; "-"; ">"]%char in *.
  destruct body as [|b [|b2 body]]; cbn [app starts_with] in *.
  - destruct (char_eqb "-" ch); reflexivity.
  - destruct (char_eqb "-" ch), (char_eqb "-" b); reflexivity.
  - destruct (char_eqb "-" ch), (char_eqb "-" b), (char_eqb ">" b2); done.
Qed.

Lemma skipComment_loop_source (body : list ascii) : forall ln col s,
  comment_free body = true ->
  rest (skipComment_loop (body ++ lit "-->" ++ s) ln col) = s.
Proof.
  induction body as [|ch body IH]; intros ln col s Hf.
  - change (lit "-->") with ["-"; "-"; ">"]%char. by destruct s.
  - pose proof (comment_free_start ch body s Hf) as Hs.
    cbn [app skipComment_loop]. cbn [app] in Hs. rewrite Hs.
    cbn [comment_free] in Hf. apply andb_prop in Hf as [_ Hf].
    destruct (char_eqb ch newline); by apply IH.
Qed.

Lemma skipComment_written (body s : list ascii) (c : cursor) :
  rest c = lit "<!--" ++ body ++ lit "-->" ++ s -> comment_free body = true ->
  rest (skipComment c) = s.
Proof.
  intros Hr Hf. unfold skipComment. rewrite Hr.
  change (drop 4 (lit "<!--" ++ body ++ lit "-->" ++ s)) with (body ++ lit "-->" ++ s).
  by apply skipComment_loop_source.
Qed.

Lemma space_not_bang (ch : ascii) :
  is_space ch = true -> char_eqb ch "/" = false /\ char_eqb ch "!" = false.
Proof. destruct ch as [[] [] [] [] [] [] [] []]; vm_compute; done. Qed.

(** The character after the [<] of an opening: a name character, a
    whitespace, the [=] of an attribute without name, or what follows the
    opening. *)
Lemma opening_head (tag space : list ascii) (attrs : list attribute_source)
    (s : list ascii) :
  opening_ok tag space attrs ->
  (exists ch s', opening tag space attrs ++ s = "<"%char :: ch :: s'
                 /\ char_eqb ch "/" = false /\ char_eqb ch "!" = false)
  \/ (tag = [] /\ space = [] /\ attrs = [] /\ opening tag space attrs ++ s = "<"%char :: s).
Proof.
  intros (Ht & Hsp & Hfirst & Ha). unfold opening. rewrite <- !app_assoc.
  destruct tag as [|ch tag].
  - destruct space as [|ch space].
    + destruct attrs as [|a attrs]; [by right|]. left.
      cbn [map concat app]. unfold attribute_text. rewrite (Hfirst eq_refl).
      exists "="%char. eexists. by split.
    + left. unfold all_space in Hsp. cbn [forallb] in Hsp.
      apply andb_prop in Hsp as [Hch _]. exists ch. eexists. split; [done|].
      by apply space_not_bang.
  - left. unfold name_like in Ht. cbn [forallb] in Ht. apply andb_prop in Ht as [Hch _].
    exists ch. eexists. split; [done|].
    by apply name_char_plain in Hch as (_ & _ & _ & -> & _ & ->).
Qed.

(** How a node starts, for the tests of the children loop. *)
Lemma node_start (n : node) (s : list ascii) :
  node_ok n -> closing_like n = false ->
  exists ch s', source_of n ++ s = ch :: s' /\ is_space ch = false
    /\ starts_with (lit "</") (source_of n ++ s) = false
    /\ (if is_text_node n then char_eqb ch "<" = false
        else ch = "<"%char
             /\ starts_with (lit "<!--") (source_of n ++ s)
                = match n with CommentNode _ _ => true | _ => false end).
Proof.
  assert (forall (x : ascii) (s0 : list ascii),
            char_eqb x "/" = false -> char_eqb x "!" = false ->
            starts_with (lit "</") ("<"%char :: x :: s0) = false
            /\ starts_with (lit "<!--") ("<"%char :: x :: s0) = false) as Hsecond.
  { intros x s0 Hsl Hbang.
    change (lit "</") with ["<"; "/"]%char. change (lit "<!--") with ["<"; "!"; "-"; "-"]%char.
    cbn [starts_with]. rewrite (char_eqb_sym "/" x), (char_eqb_sym "!" x).
    by rewrite Hsl, Hbang. }
  destruct n as [ws text|ws body|ws tag space attrs|ws tag space attrs children bc];
    cbn [node_ok source_of is_text_node leading]; intros [_ Hok] Hcl.
  - destruct Hok as [Hhead Hnm]. destruct text as [|ch text]; [done|].
    exists ch, (text ++ s). split; [done|]. split; [done|].
    unfold no_markup in Hnm. cbn [forallb] in Hnm. apply andb_prop in Hnm as [Hlt _].
    apply negb_true_iff in Hlt. split; [|done].
    change (lit "</") with ["<"; "/"]%char. cbn [app starts_with].
    by rewrite (char_eqb_sym "<" ch), Hlt.
  - exists "<"%char. eexists. by split.
  - rewrite <- app_assoc.
    destruct (opening_head tag space attrs (lit "/>" ++ s) Hok)
      as [(ch & s' & -> & Hsl & Hbang)|(-> & -> & -> & _)]; [|done].
    destruct (Hsecond ch s' Hsl Hbang) as [H1 H2].
    exists "<"%char, (ch :: s'). by rewrite H1, H2.
  - destruct Hok as (Hok & _).
    replace ((opening tag space attrs ++ lit ">"
              ++ concat (map (fun child => leading child ++ source_of child) children)
              ++ bc ++ lit "</" ++ tag ++ lit ">") ++ s)
      with (opening tag space attrs ++ lit ">"
            ++ concat (map (fun child => leading child ++ source_of child) children)
            ++ bc ++ lit "</" ++ tag ++ lit ">" ++ s)
      by (by rewrite <- !app_assoc).
    destruct (opening_head tag space attrs
                (lit ">" ++ concat (map (fun child => leading child ++ source_of child)
                                      children)
                 ++ bc ++ lit "</" ++ tag ++ lit ">" ++ s) Hok)
      as [(ch & s' & -> & Hsl & Hbang)|(-> & -> & -> & ->)].
    + destruct (Hsecond ch s' Hsl Hbang) as [H1 H2].
      exists "<"%char, (ch :: s'). by rewrite H1, H2.
    + exists "<"%char. eexists. by split.
Qed.

Lemma node_ok_children (ws tag space : list ascii) (attrs : list attribute_source)
    (children : list node) (bc : list ascii) :
  node_ok (ParentNode ws tag space attrs children bc) ->
  all_space ws /\ opening_ok tag space attrs /\ all_space bc
  /\ delimited children bc
  /\ Forall (fun child => node_ok child /\ closing_like child = false) children.
Proof.
  cbn [node_ok leading]. intros (Hws & Hop & Hbc & Hd & Hall).
  do 4 (split; [done|]).
  clear Hd. induction children as [|child children IH]; [constructor|].
  destruct Hall as [Hc Hall]. constructor; [done|by apply IH].
Qed.

Lemma node_ok_parent (ws tag space : list ascii) (attrs : list attribute_source)
    (children : list node) (bc : list ascii) :
  all_space ws -> opening_ok tag space attrs -> all_space bc ->
  delimited children bc ->
  Forall (fun child => node_ok child /\ closing_like child = false) children ->
  node_ok (ParentNode ws tag space attrs children bc).
Proof.
  intros Hws Hop Hbc Hd Hcs. cbn [node_ok leading]. do 4 (split; [done|]).
  clear Hd. induction Hcs as [|child children Hc _ IH]; [done|]. by split.
Qed.

(** What follows a text node starts with [<]. *)
Lemma after_text (rest_ : list node) (bc tail : list ascii) :
  Forall (fun child => node_ok child /\ closing_like child = false) rest_ ->
  match rest_ with
  | [] => bc = []
  | next :: _ => leading next = [] /\ is_text_node next = false
  end ->
  exists s', sources_of rest_ ++ bc ++ lit "</" ++ tail = "<"%char :: s'.
Proof.
  intros Hok Hnext. destruct rest_ as [|next rest_].
  - subst bc. by exists (lit "/" ++ tail).
  - destruct Hnext as [Hl Ht]. apply Forall_cons in Hok as [[Hn Hcl] _].
    unfold sources_of. cbn [map concat]. rewrite Hl. cbn [app]. rewrite <- !app_assoc.
    destruct (node_start next (concat (map (fun child => leading child ++ source_of child) rest_)
                                 ++ bc ++ lit "</" ++ tail) Hn Hcl)
      as (ch & s' & E & _ & _ & Hk).
    rewrite Ht in Hk. destruct Hk as [-> _]. exists s'. by rewrite E.
Qed.

Lemma source_length (n : node) : node_ok n -> 1 <= length (source_of n).
Proof.
  destruct n as [ws text|ws body|ws tag space attrs|ws tag space attrs children bc];
    cbn [node_ok source_of]; intros [_ Hok].
  - destruct Hok as [Hhead _]. destruct text; [done|]. cbn [length]. lia.
  - rewrite !length_app. change (length (lit "<!--")) with 4. lia.
  - unfold opening. rewrite !length_app. change (length (lit "<")) with 1. lia.
  - unfold opening. rewrite !length_app. change (length (lit "<")) with 1. lia.
Qed.

(** The children loop over the nodes between an opening tag and its closing
    tag. *)
Lemma parseChildren_written (children : list node) :
  Forall parses_as_written children ->
  Forall (fun child => node_ok child /\ closing_like child = false) children ->
  forall bc, delimited children bc -> all_space bc ->
  forall m acc c tail,
    rest c = sources_of children ++ bc ++ lit "</" ++ tail ->
    unread c + 1 < m ->
    exists c', parseChildren_loop m acc c
               = Ok (acc ++ concat (map children_of children), c')
               /\ rest c' = lit "</" ++ tail.
Proof.
  induction children as [|child children IH];
    intros HP Hok bc Hd Hbc m acc c tail Hr Hm; (destruct m as [|m]; [lia|]).
  - unfold sources_of in Hr. cbn [map concat app] in Hr.
    rewrite parseChildren_loop_step by (rewrite Hr; by destruct bc).
    cbv zeta.
    assert (rest (skipWhitespace c) = lit "</" ++ tail) as Hsw.
    { by apply (skipWhitespace_prefix bc). }
    rewrite Hsw, starts_with_app. exists (skipWhitespace c).
    by rewrite app_nil_r.
  - apply Forall_cons in HP as [HPc HP]. apply Forall_cons in Hok as [[Hc Hcl] Hok].
    destruct Hd as [Hnext Hd].
    unfold sources_of in Hr. cbn [map concat] in Hr. rewrite <- !app_assoc in Hr.
    fold (sources_of children) in Hr.
    set (R := sources_of children ++ bc ++ lit "</" ++ tail) in *.
    destruct (node_start child R Hc Hcl) as (ch & s' & Hhd & Hsp & Hclose & Hkind).
    assert (all_space (leading child)) as Hws by (by destruct child; destruct Hc).
    assert (rest (skipWhitespace c) = source_of child ++ R) as Hsw.
    { apply (skipWhitespace_prefix (leading child)); [done|done|]. by rewrite Hhd. }
    assert (rest c <> []) as Hne.
    { rewrite Hr. destruct (leading child); [by rewrite Hhd|done]. }
    pose proof (skipWhitespace_unread c) as Hle.
    pose proof (source_length child Hc) as Hlen.
    rewrite parseChildren_loop_step by done. cbv zeta. rewrite Hsw, Hclose.
    assert (forall c2 : cursor, rest c2 = R -> unread c2 + 1 < m) as Hfuel.
    { intros c2 Hr2. unfold unread in *. rewrite Hr2. rewrite Hsw, length_app in Hle.
      clear -Hle Hlen Hm. lia. }
    destruct child as [ws text|ws body|ws tag space attrs|ws tag space attrs cs bc'];
      cbn [is_text_node] in Hkind, Hnext.
    + (* a text *)
      assert (TXML.head_is "<" (skipWhitespace c) = false) as ->.
      { unfold TXML.head_is. by rewrite Hsw, Hhd. }
      cbn [source_of] in Hsw. destruct Hc as [_ [Hhead Hnm]].
      destruct (after_text children bc tail Hok (Hnext eq_refl)) as (s'' & HR).
      fold R in HR.
      destruct (scan_lines_prefix (fun ch => negb (char_eqb ch "<")) text R
                  (skipWhitespace c) Hsw Hnm) as (c2 & E & Hr2).
      { by rewrite HR. }
      unfold parseText. rewrite E. rewrite (text_run_truthy text Hhead).
      destruct (IH HP Hok bc Hd Hbc m (acc ++ [ChildText text]) c2 tail Hr2 (Hfuel c2 Hr2))
        as (c' & -> & Hr').
      exists c'. cbn [map concat children_of]. by rewrite <- app_assoc.
    + (* a comment *)
      destruct Hkind as [-> Hcomment].
      assert (TXML.head_is "<" (skipWhitespace c) = true) as ->.
      { unfold TXML.head_is. by rewrite Hsw, Hhd. }
      rewrite Hcomment. cbn [source_of] in Hsw. rewrite <- !app_assoc in Hsw.
      destruct Hc as [_ Hfree].
      pose proof (skipComment_written body R (skipWhitespace c) Hsw Hfree) as Hr2.
      destruct (IH HP Hok bc Hd Hbc m acc (skipComment (skipWhitespace c)) tail Hr2
                  (Hfuel _ Hr2)) as (c' & -> & Hr').
      exists c'. by cbn [map concat children_of app].
    + (* an element written as one tag *)
      destruct Hkind as [-> Hcomment].
      assert (TXML.head_is "<" (skipWhitespace c) = true) as ->.
      { unfold TXML.head_is. by rewrite Hsw, Hhd. }
      rewrite Hcomment.
      pose (e := Element tag (attributes_of attrs) []).
      destruct (HPc Hc e eq_refl m (skipWhitespace c) R Hsw) as (c2 & -> & Hr2).
      { clear -Hle Hm. lia. }
      cbn [bind].
      destruct (IH HP Hok bc Hd Hbc m (acc ++ [ChildElement e]) c2 tail Hr2 (Hfuel c2 Hr2))
        as (c' & -> & Hr').
      exists c'. split; [|done].
      change (concat (map children_of (EmptyNode ws tag space attrs :: children)))
        with ([ChildElement e] ++ concat (map children_of children)).
      by rewrite app_assoc.
    + (* an element with children *)
      destruct Hkind as [-> Hcomment].
      assert (TXML.head_is "<" (skipWhitespace c) = true) as ->.
      { unfold TXML.head_is. by rewrite Hsw, Hhd. }
      rewrite Hcomment.
      pose (e := Element tag (attributes_of attrs) (concat (map children_of cs))).
      destruct (HPc Hc e eq_refl m (skipWhitespace c) R Hsw) as (c2 & -> & Hr2).
      { clear -Hle Hm. lia. }
      cbn [bind].
      destruct (IH HP Hok bc Hd Hbc m (acc ++ [ChildElement e]) c2 tail Hr2 (Hfuel c2 Hr2))
        as (c' & -> & Hr').
      exists c'. split; [|done].
      change (concat (map children_of (ParentNode ws tag space attrs cs bc' :: children)))
        with ([ChildElement e] ++ concat (map children_of children)).
      by rewrite app_assoc.
Qed.

(** An element as written is parsed to the element it stands for. *)
Lemma parseElement_written (n : node) : parses_as_written n.
Proof.
  induction n as [ws text|ws body|ws tag space attrs|ws tag space attrs children bc IH]
    using node_induction; intros Hok e He m c tail Hr Hm; try done;
    (destruct m as [|m]; [lia|]).
  - (* <tag ... /> *)
    injection He as <-. destruct Hok as [_ Hop]. cbn [source_of] in Hr.
    rewrite <- app_assoc in Hr.
    destruct (opening_source tag space attrs _ c Hr Hop) as (c1 & c2 & c3 & E1 & E2 & E3 & Hr3 & _);
      [by right|].
    cbn [parseElement]. rewrite E1, E2, E3. cbn [bind].
    destruct (consume_prefix _ _ _ Hr3) as (c4 & -> & Hr4). by exists c4.
  - (* <tag ...> children </tag> *)
    injection He as <-.
    apply node_ok_children in Hok as (_ & Hop & Hbc & Hd & Hcs).
    cbn [source_of] in Hr. rewrite <- !app_assoc in Hr. fold (sources_of children) in Hr.
    destruct (opening_source tag space attrs _ c Hr Hop)
      as (c1 & c2 & c3 & E1 & E2 & E3 & Hr3 & Hlt); [by left|].
    cbn [parseElement]. rewrite E1, E2, E3. cbn [bind].
    rewrite (consume_None (lit "/>") c3) by (by rewrite Hr3).
    destruct (consume_prefix _ _ _ Hr3) as (c4 & E4 & Hr4). rewrite E4.
    destruct (parseChildren_written children IH Hcs bc Hd Hbc m [] c4 _ Hr4)
      as (c5 & -> & Hr5).
    { apply consume_unread in E4. change (length (lit ">")) with 1 in E4.
      clear -E4 Hlt Hm. lia. }
    cbn [bind app].
    destruct (consume_prefix _ _ _ Hr5) as (c6 & -> & Hr6).
    destruct Hop as (Ht & _).
    destruct (scan_column_prefix is_name_char tag _ c6 Hr6 Ht) as (c7 & E7 & Hr7); [done|].
    unfold parseTagName. rewrite E7. destruct (decide (tag = tag)); [|done].
    destruct (consume_prefix _ _ _ Hr7) as (c8 & -> & Hr8). by exists c8.
Qed.

(** *** Documents as written *)

Lemma drop_spaces_app (ws s : list ascii) :
  all_space ws ->
  match s with ch :: _ => is_space ch = false | [] => True end ->
  drop_spaces (ws ++ s) = s.
Proof.
  intros Hws Hs. induction ws as [|ch ws IH]; cbn [app drop_spaces].
  - by apply drop_spaces_stop.
  - unfold all_space in Hws. cbn [forallb] in Hws. apply andb_prop in Hws as [-> Hws].
    by apply IH.
Qed.

Lemma all_space_rev (ws : list ascii) : all_space ws -> all_space (rev ws).
Proof.
  unfold all_space. rewrite !forallb_forall. intros H ch Hin. apply H. by apply in_rev.
Qed.

(** Trimming takes the whitespace around a text that starts and ends with
    other characters. *)
Lemma trim_around (before s after : list ascii) (first last_ : ascii) (middle : list ascii) :
  all_space before -> all_space after ->
  s = first :: middle ++ [last_] -> is_space first = false -> is_space last_ = false ->
  trim (before ++ s ++ after) = s.
Proof.
  intros Hb Ha -> Hf Hl. unfold trim.
  rewrite (drop_spaces_app before) by done.
  replace (rev ((first :: middle ++ [last_]) ++ after))
    with (rev after ++ last_ :: rev (first :: middle)).
  2:{ rewrite rev_app_distr. f_equal. by rewrite app_comm_cons, rev_app_distr. }
  rewrite (drop_spaces_app (rev after)) by (by try apply all_space_rev).
  change (rev (last_ :: rev (first :: middle)))
    with (rev (rev (first :: middle)) ++ [last_]).
  by rewrite rev_involutive.
Qed.

Lemma element_source_ends (n : node) (e : TXMLElement) :
  node_ok n -> element_of n = Some e ->
  exists middle, source_of n = "<"%char :: middle ++ [">"%char].
Proof.
  destruct n as [ws text|ws body|ws tag space attrs|ws tag space attrs children bc];
    try done; intros Hok _.
  - destruct Hok as [_ Hop]. cbn [source_of]. unfold opening. rewrite <- !app_assoc.
    exists (tag ++ space ++ concat (map attribute_text attrs) ++ ["/"%char]).
    by rewrite <- !app_assoc.
  - cbn [source_of]. unfold opening. rewrite <- !app_assoc.
    exists (tag ++ space ++ concat (map attribute_text attrs) ++ lit ">"
            ++ concat (map (fun child => leading child ++ source_of child) children)
            ++ bc ++ lit "</" ++ tag).
    by rewrite <- !app_assoc.
Qed.

(** X17.  The syntax the markup parser reads.  A document is an element
    named [App], with whitespace around it.  An element is written
    [<tag attributes/>] or [<tag attributes>children</tag>].  The tag is a
    run of name characters, with whitespace after it when an attribute with
    a name follows.  An attribute is a name, [=], a value between two double
    or two single quotes that holds any characters but that quote (line
    feeds and [<], [>], [&] among them, and no entity is decoded), and
    whitespace.  The children are texts, comments and elements, with
    whitespace in front of each and in front of the closing tag; a text
    starts with a character that is no whitespace, holds no [<] and runs up
    to the next [<], so it keeps the whitespace it ends with; a comment is
    [<!--], a text that holds no [-->], and [-->]; no child is written
    [</>].  Every such document is parsed to the tree it stands for:
    comments and the whitespace in front of a node leave nothing, a text is
    a child as it is written, and a later attribute of the same name
    overrides the value of an earlier one. *)
Theorem parse_as_written (before after : list ascii) (n : node) (root : TXMLElement) :
  all_space before -> all_space after ->
  node_ok n -> element_of n = Some root -> tag root = lit "App" ->
  parseTXML (before ++ source_of n ++ after) = Ok root.
Proof.
  intros Hb Ha Hok He Htag. unfold parseTXML, parse.
  destruct (element_source_ends n root Hok He) as (middle & Hsrc).
  rewrite (trim_around before (source_of n) after "<" ">" middle) by done.
  rewrite skipWhitespace_none by (cbn [start_of rest]; by rewrite Hsrc).
  assert (TXML.head_is "<" (start_of (source_of n)) = true) as ->.
  { unfold TXML.head_is. cbn [start_of rest]. by rewrite Hsrc. }
  cbn [negb].
  destruct (parseElement_written n Hok root He (S (length (source_of n)))
              (start_of (source_of n)) []) as (c' & -> & Hr').
  { cbn [start_of rest]. by rewrite app_nil_r. }
  { unfold unread. cbn [start_of rest]. lia. }
  cbn [bind]. destruct (decide (tag root = lit "App")); [|done].
  rewrite skipWhitespace_none by (by rewrite Hr'). by rewrite Hr'.
Qed.

Lemma parse_as_written_witness :
  parseTXML
    (lit " <App>" ++ [newline]
     ++ lit "  <!-- a - comment --><Window id='1' title='a<b>&amp;'  id='2'>Hi, <b>you</b> <Input/>"
     ++ lit "</Window>" ++ [newline] ++ lit "</App> ")
  = Ok (Element (lit "App") []
          [ChildElement
             (Element (lit "Window") [(lit "id", lit "2"); (lit "title", lit "a<b>&amp;")]
                [ChildText (lit "Hi, ");
                 ChildElement (Element (lit "b") [] [ChildText (lit "you")]);
                 ChildElement (Element (lit "Input") [] [])])]).
Proof.
  apply (parse_as_written (lit " ") (lit " ")
           (ParentNode [] (lit "App") [] []
              [ CommentNode ([newline] ++ lit "  ") (lit " a - comment ");
                ParentNode [] (lit "Window") (lit " ")
                  [ AttributeSource (lit "id") "'" (lit "1") (lit " ");
                    AttributeSource (lit "title") "'" (lit "a<b>&amp;") (lit "  ");
                    AttributeSource (lit "id") "'" (lit "2") [] ]
                  [ TextNode [] (lit "Hi, ");
                    ParentNode [] (lit "b") [] [] [TextNode [] (lit "you")] [];
                    EmptyNode (lit " ") (lit "Input") [] [] ]
                  [] ]
              [newline])).
  - reflexivity.
  - reflexivity.
  - assert (forall tag, name_like tag -> opening_ok tag [] []) as Hbare.
    { intros tag Ht. split; [done|]. split; [done|]. split; [done|constructor]. }
    assert (forall name value gap, name_like name -> all_space gap ->
              forallb (fun ch => negb (char_eqb ch "'")) value = true ->
              attribute_ok (AttributeSource name "'" value gap)) as Hattr.
    { intros name value gap Hn Hg Hv. split; [done|]. split; [by right|]. by split. }
    apply node_ok_parent; [reflexivity|by apply Hbare|reflexivity|by intuition|].
    constructor; [by split; [split|]|]. constructor; [|constructor].
    split; [|reflexivity].
    apply node_ok_parent; [reflexivity| |reflexivity| |].
    + split; [reflexivity|]. split; [reflexivity|]. split; [done|].
      repeat constructor; by apply Hattr.
    + cbn [delimited is_text_node leading]. by intuition.
    + constructor; [by split; [split; [|split]|]|].
      constructor; [|constructor; [|constructor]].
      * split; [|reflexivity].
        apply node_ok_parent; [reflexivity|by apply Hbare|reflexivity| |].
        -- cbn [delimited is_text_node]. by intuition.
        -- constructor; [|constructor]. by split; [split; [|split]|].
      * split; [|reflexivity]. split; [reflexivity|].
        split; [reflexivity|]. split; [reflexivity|]. split; [done|constructor].
  - reflexivity.
  - reflexivity.
Defined.
(** *** What the parser reads is written in this syntax *)

Lemma parseAttributeValue_read (c : cursor) (v : list ascii) (c' : cursor) :
  parseAttributeValue c = Ok (v, c') ->
  exists quote, (quote = dquote \/ quote = squote)
    /\ forallb (fun ch => negb (char_eqb ch quote)) v = true
    /\ rest c = [quote] ++ v ++ [quote] ++ rest c'.
Proof.
  unfold parseAttributeValue.
  destruct (consume [dquote] c) as [c1|] eqn:E1.
  - destruct (scan_lines _ (rest c1) _ _) as [val c2] eqn:E2.
    destruct (consume [dquote] c2) as [c3|] eqn:E3; [|done].
    intros [= <- <-]. apply consume_Some in E1 as [E1 _]. apply consume_Some in E3 as [E3 _].
    apply scan_lines_spec in E2 as (E2 & Hv & _).
    exists dquote. split; [by left|]. split; [done|]. by rewrite E1, E2, E3.
  - destruct (consume [squote] c) as [c1|] eqn:E1'; [|done].
    destruct (scan_lines _ (rest c1) _ _) as [val c2] eqn:E2.
    destruct (consume [squote] c2) as [c3|] eqn:E3; [|done].
    intros [= <- <-]. apply consume_Some in E1' as [E1' _]. apply consume_Some in E3 as [E3 _].
    apply scan_lines_spec in E2 as (E2 & Hv & _).
    exists squote. split; [by right|]. split; [done|]. by rewrite E1', E2, E3.
Qed.

Lemma parseAttributes_loop_read (fuel : nat) : forall acc c a c',
  parseAttributes_loop fuel acc c = Ok (a, c') ->
  exists attrs, rest c = concat (map attribute_text attrs) ++ rest c'
    /\ Forall attribute_ok attrs
    /\ a = fold_left (fun o s => obj_set (a_name s) (a_value s) o) attrs acc.
Proof.
  assert (forall acc (c : cursor),
            exists attrs, rest c = concat (map attribute_text attrs) ++ rest c
              /\ Forall attribute_ok attrs
              /\ acc = fold_left (fun o s => obj_set (a_name s) (a_value s) o) attrs acc)
    as Hnone.
  { intros acc c. exists []. split; [done|]. split; [constructor|done]. }
  induction fuel as [|fuel IH]; intros acc c a c'; cbn [parseAttributes_loop].
  - destruct (loop_guard_attributes c); [done|]. intros [= <- <-]. apply Hnone.
  - destruct (loop_guard_attributes c); [|intros [= <- <-]; apply Hnone].
    destruct (parseAttributeName c) as [name c1] eqn:E1.
    apply scan_column_spec in E1 as (E1 & Hname & _).
    destruct (consume (lit "=") c1) as [c2|] eqn:E2; [|done].
    apply consume_Some in E2 as [E2 _].
    destruct (parseAttributeValue c2) as [[v c3]| |] eqn:E3; [|done|done].
    cbn [bind]. apply parseAttributeValue_read in E3 as (quote & Hq & Hv & E3).
    destruct (skipWhitespace_spec c3) as (gap & Hgap & Hsp & _).
    intros Hr. apply IH in Hr as (attrs & Hr & Hok & ->).
    exists (AttributeSource name quote v gap :: attrs). split; [|split].
    + cbn [map concat]. unfold attribute_text at 1.
      cbn [a_name a_quote a_value a_gap]. rewrite E1, E2, E3, Hgap, Hr.
      by rewrite <- !app_assoc.
    + constructor; [|done]. split; [done|]. split; [done|]. by split.
    + done.
Qed.

Lemma parseAttributes_read (c : cursor) (a : attrs) (c' : cursor) :
  parseAttributes c = Ok (a, c') ->
  exists space attrs,
    rest c = space ++ concat (map attribute_text attrs) ++ rest c'
    /\ all_space space /\ Forall attribute_ok attrs /\ a = attributes_of attrs.
Proof.
  unfold parseAttributes. intros (attrs & Hr & Hok & ->)%parseAttributes_loop_read.
  destruct (skipWhitespace_spec c) as (space & Hsp & Hall & _).
  exists space, attrs. by rewrite Hsp, Hr.
Qed.

(** The opening of a tag, as the parser read it. *)
Lemma opening_read (c c1 c2 c3 : cursor) (t : list ascii) (a : attrs) :
  consume (lit "<") c = Some c1 -> parseTagName c1 = (t, c2) ->
  parseAttributes c2 = Ok (a, c3) ->
  exists space attrs,
    rest c = opening t space attrs ++ rest c3 /\ opening_ok t space attrs
    /\ a = attributes_of attrs.
Proof.
  intros E1 E2 E3. apply consume_Some in E1 as [E1 _].
  unfold parseTagName in E2. apply scan_column_spec in E2 as (E2 & Ht & Hstop & _).
  apply parseAttributes_read in E3 as (space & attrs & E3 & Hsp & Hok & ->).
  exists space, attrs. split; [|split; [|done]].
  - unfold opening. rewrite E1, E2, E3. by rewrite <- !app_assoc.
  - split; [done|]. split; [done|]. split; [|done].
    intros ->. destruct attrs as [|a0 attrs]; [done|].
    destruct (a_name a0) as [|ch nm] eqn:En; [done|]. exfalso.
    apply Forall_cons in Hok as [(Hn & _) _]. rewrite En in Hn.
    unfold name_like in Hn. cbn [forallb] in Hn. apply andb_prop in Hn as [Hch _].
    rewrite E3 in Hstop. cbn [app map concat] in Hstop. unfold attribute_text in Hstop.
    rewrite En in Hstop. cbn [app] in Hstop. congruence.
Qed.

Lemma starts_with_more (e s t : list ascii) :
  starts_with e s = true -> starts_with e (s ++ t) = true.
Proof.
  intros H%starts_with_inv. rewrite H, <- app_assoc. apply starts_with_app.
Qed.

(** A comment runs up to the first [-->], or to the end of the text. *)
Lemma skipComment_loop_read (s : list ascii) : forall ln col,
  rest (skipComment_loop s ln col) = []
  \/ exists body, s = body ++ lit "-->" ++ rest (skipComment_loop s ln col)
                  /\ comment_free body = true.
Proof.
  induction s as [|ch s IH]; intros ln col; [by left|].
  cbn [skipComment_loop]. destruct (starts_with (lit "-->") (ch :: s)) eqn:E.
  - right. exists []. split; [|done]. cbn [rest app].
    apply starts_with_inv in E. by change (length (lit "-->")) with 3 in E.
  - assert (forall c', (rest c' = []
                        \/ exists body, s = body ++ lit "-->" ++ rest c'
                                        /\ comment_free body = true) ->
                       rest c' = []
                       \/ exists body, ch :: s = body ++ lit "-->" ++ rest c'
                                       /\ comment_free body = true) as Hstep.
    { intros c' [H|(body & Hs & Hf)]; [by left|]. right. exists (ch :: body).
      split; [cbn [app]; congruence|]. cbn [comment_free]. rewrite Hf, andb_true_r.
      apply negb_true_iff. destruct (starts_with (lit "-->") (ch :: body)) eqn:E'; [|done].
      apply (starts_with_more _ _ (lit "-->" ++ rest c')) in E'.
      cbn [app] in E'. rewrite <- Hs in E'. congruence. }
    destruct (char_eqb ch newline); apply Hstep, IH.
Qed.

Lemma skipComment_read (c : cursor) :
  starts_with (lit "<!--") (rest c) = true ->
  rest (skipComment c) = []
  \/ exists body, rest c = lit "<!--" ++ body ++ lit "-->" ++ rest (skipComment c)
                  /\ comment_free body = true.
Proof.
  intros H%starts_with_inv. change (length (lit "<!--")) with 4 in H. unfold skipComment.
  destruct (skipComment_loop_read (drop 4 (rest c)) (line c) (column c + 4))
    as [He|(body & Hs & Hf)]; [by left|].
  right. exists body. split; [|done]. rewrite H at 1. by rewrite Hs at 1.
Qed.

(** What stands in front of a [<] is no whitespace and no text. *)
Lemma before_markup (nodes : list node) (bc s s' : list ascii) :
  Forall (fun child => node_ok child /\ closing_like child = false) nodes ->
  all_space bc ->
  sources_of nodes ++ bc ++ s = "<"%char :: s' ->
  match nodes with
  | [] => bc = []
  | next :: _ => leading next = [] /\ is_text_node next = false
  end.
Proof.
  intros Hok Hbc E. destruct nodes as [|next nodes].
  - unfold sources_of in E. cbn [map concat app] in E.
    destruct bc as [|b bc]; [done|]. cbn [app] in E. injection E as -> _. done.
  - apply Forall_cons in Hok as [[Hn Hcl] _].
    unfold sources_of in E. cbn [map concat] in E. rewrite <- !app_assoc in E.
    assert (all_space (leading next)) as Hl by (destruct next; by destruct Hn).
    destruct (leading next) as [|b l].
    + split; [done|]. cbn [app] in E.
      destruct (node_start next
                  (concat (map (fun child => leading child ++ source_of child) nodes)
                   ++ bc ++ s) Hn Hcl) as (ch & s'' & E' & _ & _ & Hk).
      rewrite E' in E. injection E as -> _.
      by destruct (is_text_node next).
    + cbn [app] in E. injection E as -> _. done.
Qed.

Lemma closing_like_source (n : node) (s : list ascii) :
  closing_like n = true -> starts_with (lit "</") (source_of n ++ s) = true.
Proof. by destruct n as [| |? [|] [|] [|]|]. Qed.

(** What the element parser and the children loop accept is the text of a
    node, and what they return is what the node stands for. *)
Lemma parse_read (n : nat) :
  (forall c e c', parseElement n c = Ok (e, c') ->
     forall ws, all_space ws ->
     exists nd, node_ok nd /\ leading nd = ws /\ element_of nd = Some e
                /\ rest c = source_of nd ++ rest c')
  /\ (forall acc c cs c', parseChildren_loop n acc c = Ok (cs, c') ->
        starts_with (lit "</") (rest c') = true ->
        exists nodes bc,
          rest c = sources_of nodes ++ bc ++ rest c'
          /\ cs = acc ++ concat (map children_of nodes)
          /\ Forall (fun child => node_ok child /\ closing_like child = false) nodes
          /\ all_space bc /\ delimited nodes bc).
Proof.
  induction n as [|n [IHe IHc]].
  { split; [done|]. intros acc c cs c'. cbn [parseChildren_loop].
    destruct (rest c) eqn:Er; [|done]. intros [= <- <-]. by rewrite Er. }
  split.
  - intros c e c'. cbn [parseElement].
    destruct (consume (lit "<") c) as [c1|] eqn:E1; [|done].
    destruct (parseTagName c1) as [t c2] eqn:E2.
    destruct (parseAttributes c2) as [[a c3]| |] eqn:E3; [|done|done].
    cbn [bind].
    destruct (opening_read c c1 c2 c3 t a E1 E2 E3) as (space & attrs & Hr & Hop & ->).
    destruct (consume (lit "/>") c3) as [c4|] eqn:E4.
    { apply consume_Some in E4 as [E4 _]. intros [= <- <-] ws Hws.
      exists (EmptyNode ws t space attrs). split; [by split|]. split; [done|].
      split; [done|]. cbn [source_of]. rewrite Hr, E4. by rewrite <- !app_assoc. }
    destruct (consume (lit ">") c3) as [c4|] eqn:E5; [|done].
    apply consume_Some in E5 as [E5 _].
    destruct (parseChildren_loop n [] c4) as [[cs c5]| |] eqn:E6; [|done|done].
    cbn [bind].
    destruct (consume (lit "</") c5) as [c6|] eqn:E7; [|done].
    apply consume_Some in E7 as [E7 _].
    apply IHc in E6 as (nodes & bc & E6 & -> & Hnodes & Hbc & Hd);
      [|rewrite E7; apply starts_with_app].
    destruct (parseTagName c6) as [t' c7] eqn:E8.
    apply scan_column_spec in E8 as (E8 & _).
    destruct (decide (t' = t)) as [->|]; [|done].
    destruct (consume (lit ">") c7) as [c8|] eqn:E9; [|done].
    apply consume_Some in E9 as [E9 _]. intros [= <- <-] ws Hws.
    exists (ParentNode ws t space attrs nodes bc).
    split; [by apply node_ok_parent|]. split; [done|]. split; [done|].
    cbn [source_of]. fold (sources_of nodes).
    rewrite Hr, E5, E6, E7, E8, E9. by rewrite <- !app_assoc.
  - intros acc c cs c'. destruct (rest c) as [|ch0 s0] eqn:Er.
    { rewrite parseChildren_loop_end by done. intros [= <- <-]. by rewrite Er. }
    rewrite parseChildren_loop_step by (by rewrite Er). cbv zeta.
    rewrite <- Er. clear ch0 s0 Er.
    destruct (skipWhitespace_spec c) as (ws & Hws & Hsp & Hstop).
    destruct (starts_with (lit "</") (rest (skipWhitespace c))) eqn:Hclose.
    { intros [= <- <-] _. exists [], ws. rewrite app_nil_r.
      split; [done|]. split; [done|]. split; [constructor|]. by split. }
    destruct (TXML.head_is "<" (skipWhitespace c)) eqn:Hh.
    + destruct (starts_with (lit "<!--") (rest (skipWhitespace c))) eqn:Hc.
      * intros Hr Hend. apply IHc in Hr as (nodes & bc & Hr & -> & Hnodes & Hbc & Hd);
          [|done].
        destruct (skipComment_read _ Hc) as [Hnil|(body & Hcm & Hfree)].
        { rewrite Hnil in Hr. symmetry in Hr.
          apply app_eq_nil in Hr as [_ [_ Hr]%app_eq_nil]. by rewrite Hr in Hend. }
        exists (CommentNode ws body :: nodes), bc.
        split; [|split; [done|split; [|split; [done|]]]].
        -- unfold sources_of in *. cbn [map concat leading source_of].
           rewrite Hws, Hcm, Hr. by rewrite <- !app_assoc.
        -- constructor; [|done]. by split; [split|].
        -- by split.
      * destruct (parseElement n (skipWhitespace c)) as [[e c2]| |] eqn:E; [|done|done].
        cbn [bind]. intros Hr Hend.
        destruct (IHe _ _ _ E ws Hsp) as (nd & Hnd & Hl & He & Hsrc).
        apply IHc in Hr as (nodes & bc & Hr & -> & Hnodes & Hbc & Hd); [|done].
        exists (nd :: nodes), bc.
        assert (is_text_node nd = false) as Hnt by (by destruct nd).
        split; [|split; [|split; [|split; [done|]]]].
        -- unfold sources_of in *. cbn [map concat]. rewrite Hl, Hws, Hsrc, Hr.
           by rewrite <- !app_assoc.
        -- rewrite <- app_assoc. cbn [map concat]. f_equal. f_equal.
           unfold element_of in He. destruct (children_of nd) as [|[e'|] [|]]; try done.
           by injection He as ->.
        -- constructor; [|done]. split; [done|].
           destruct (closing_like nd) eqn:Hcl; [|done].
           apply (closing_like_source nd (rest c2)) in Hcl. congruence.
        -- cbn [delimited]. rewrite Hnt. by split.
    + destruct (parseText (skipWhitespace c)) as [text c2] eqn:E.
      unfold parseText in E. apply scan_lines_spec in E as (E & Hnm & Hstop2).
      destruct text as [|ch text].
      * change (truthy (trim [])) with false. cbn iota.
        assert (rest c2 = []) as Hc2.
        { cbn [app] in E. rewrite <- E in Hstop2. unfold TXML.head_is in Hh.
          destruct (rest (skipWhitespace c)); [done|].
          apply negb_false_iff in Hstop2. congruence. }
        rewrite (parseChildren_loop_end _ _ _ Hc2). intros [= <- <-]. by rewrite Hc2.
      * assert (is_space ch = false) as Hch.
        { rewrite E in Hstop. exact Hstop. }
        rewrite (text_run_truthy (ch :: text) Hch).
        intros Hr Hend.
        apply IHc in Hr as (nodes & bc & Hr & -> & Hnodes & Hbc & Hd); [|done].
        exists (TextNode ws (ch :: text) :: nodes), bc.
        split; [|split; [|split; [|split; [done|]]]].
        -- unfold sources_of in *. cbn [map concat leading source_of].
           rewrite Hws, E, Hr. by rewrite <- !app_assoc.
        -- by rewrite <- app_assoc.
        -- constructor; [|done]. by split; [split; [|split]|].
        -- cbn [delimited]. split; [|done]. intros _.
           destruct (rest c2) as [|x r] eqn:Er2.
           { symmetry in Hr. apply app_eq_nil in Hr as [_ [_ Hr]%app_eq_nil].
             by rewrite Hr in Hend. }
           apply negb_false_iff, char_eqb_eq in Hstop2. subst x.
           by apply (before_markup nodes bc (rest c') r).
Qed.

Lemma trim_end (s body ws : list ascii) :
  trim s = body ++ ws -> all_space ws -> ws = [].
Proof.
  intros E Hws. destruct (trim_split s) as (_ & _ & _ & _ & _ & _ & Hlast).
  rewrite E, rev_app_distr in Hlast.
  destruct ws as [|x ws _] using rev_ind; [done|]. exfalso.
  rewrite rev_app_distr in Hlast. cbn [rev app] in Hlast.
  unfold all_space in Hws. rewrite forallb_app in Hws.
  apply andb_prop in Hws as [_ Hx]. cbn [forallb] in Hx. rewrite andb_true_r in Hx.
  congruence.
Qed.

(** The text children of an element of a node are kept texts. *)
Lemma node_texts (n : node) :
  node_ok n ->
  Forall text_run
    (concat (map (fun child => match child with
                               | ChildText s => [s]
                               | ChildElement e' => texts e'
                               end) (children_of n))).
Proof.
  induction n as [ws text|ws body|ws tag space attrs|ws tag space attrs children bc IH]
    using node_induction; intros Hok.
  - destruct Hok as [_ Hrun]. cbn [children_of map concat app]. by constructor.
  - constructor.
  - constructor.
  - apply node_ok_children in Hok as (_ & _ & _ & _ & Hcs).
    cbn [children_of map concat texts]. rewrite app_nil_r.
    induction IH as [|child children Hc _ IHcs]; [constructor|].
    apply Forall_cons in Hcs as [[Hn _] Hcs].
    cbn [map concat]. rewrite map_app, concat_app. apply Forall_app. split; auto.
Qed.

(** C7, as the code has it.  A markup text that parses is, once trimmed,
    the text of an element written in the syntax above, and the tree
    returned is the tree that element stands for, whichever way the text is
    read in this syntax.  So, in any element, the whitespace in front of a
    child and in front of the closing tag yields no child, and neither does
    a comment; every text, from its first character that is no whitespace up
    to the next [<], is a child, so without leading whitespace but with the
    whitespace before that [<] kept; and text and element children come in
    source order. *)
Theorem parse_keeps_text_runs (xml : list ascii) (root : TXMLElement) :
  parse xml = Ok root ->
  (exists n, node_ok n /\ source_of n = trim xml /\ element_of n = Some root)
  /\ (forall n e, node_ok n -> source_of n = trim xml -> element_of n = Some e ->
                  e = root)
  /\ Forall text_run (texts root).
Proof.
  unfold parse. rewrite trim_start.
  destruct (negb (TXML.head_is "<" (start_of (trim xml)))); [done|].
  destruct (parseElement _ _) as [[root' c1]| |] eqn:E; [|done|done]. cbn [bind].
  destruct (decide (tag root' = lit "App")); [|done].
  destruct (truthy (rest (skipWhitespace c1))) eqn:Ht; [done|]. intros [= ->].
  destruct (proj1 (parse_read _) _ _ _ E [] eq_refl) as (n & Hok & _ & He & Hsrc).
  cbn [start_of rest] in Hsrc.
  assert (rest c1 = []) as Hend.
  { destruct (skipWhitespace_spec c1) as (ws & Hws & Hsp & _).
    destruct (rest (skipWhitespace c1)); [|done]. rewrite app_nil_r in Hws.
    rewrite Hws in *. by apply (trim_end xml (source_of n)). }
  rewrite Hend, app_nil_r in Hsrc. split; [by exists n|]. split.
  - intros n' e' Hok' Hsrc' He'.
    destruct (parseElement_written n' Hok' e' He' (S (length (trim xml)))
                (start_of (trim xml)) []) as (c' & E' & _).
    { cbn [start_of rest]. by rewrite app_nil_r. }
    { unfold unread. cbn [start_of rest]. lia. }
    congruence.
  - pose proof (node_texts n Hok) as Htexts. unfold element_of in He.
    destruct (children_of n) as [|[e'|] [|]]; try done. injection He as ->.
    cbn [map concat] in Htexts. by rewrite app_nil_r in Htexts.
Qed.

Lemma parse_keeps_text_runs_witness :
  let root :=
    Element (lit "App") []
      [ChildText (lit "one ");
       ChildElement (Element (lit "Text") [] [ChildText (lit "two ")]);
       ChildText (lit "three")] in
  let xml := lit " <App> one <Text>two </Text> <!-- no --> three</App>" in
  (exists n, node_ok n /\ source_of n = trim xml /\ element_of n = Some root)
  /\ (forall n e, node_ok n -> source_of n = trim xml -> element_of n = Some e ->
                  e = root)
  /\ Forall text_run (texts root).
Proof.
  intros root xml. apply (parse_keeps_text_runs xml). vm_compute. reflexivity.
Defined.


(** ** Writing an element and reading it again *)

Lemma attribute_text_written (kv : list ascii * list ascii) (gap : list ascii) :
  attribute_text (AttributeSource (fst kv) dquote (escape (snd kv)) gap)
  = attr_text kv ++ gap.
Proof.
  unfold attribute_text, attr_text. cbn [a_name a_quote a_value a_gap fst snd].
  by rewrite <- !app_assoc.
Qed.

Lemma written_attributes_text (last_gap : list ascii) (a : attrs) :
  concat (map attribute_text (written_attributes last_gap a))
  = join (lit " ") (map attr_text a)
    ++ match a with [] => [] | _ :: _ => last_gap end.
Proof.
  induction a as [|kv a IH]; [done|].
  cbn [written_attributes map concat]. rewrite attribute_text_written, IH, join_cons.
  destruct a as [|kv' a]; [by rewrite !app_nil_r|].
  by rewrite <- !app_assoc.
Qed.

Lemma attrs_text_cons (kv : list ascii * list ascii) (a : attrs) :
  attrs_text (kv :: a) = lit " " ++ join (lit " ") (map attr_text (kv :: a)).
Proof.
  unfold attrs_text. cbn [map]. rewrite join_cons. unfold attr_text at 1 3.
  by destruct (fst kv).
Qed.

(** The text of the node is what [jsxToTXML] writes. *)
Lemma source_node_of (e : TXMLElement) : source_of (node_of e) = jsxToTXML e.
Proof.
  induction e as [tag a cs IH] using TXMLElement_induction.
  rewrite jsxToTXML_unfold. destruct cs as [|child cs].
  - cbn [node_of source_of]. unfold opening. rewrite written_attributes_text.
    destruct a as [|kv a]; [by rewrite <- !app_assoc|]. rewrite attrs_text_cons.
    by rewrite <- !app_assoc.
  - set (cs' := child :: cs) in *. cbn [node_of]. subst cs'.
    cbn [source_of]. unfold opening. rewrite written_attributes_text.
    assert (concat (map (fun child0 => leading child0 ++ source_of child0)
                      (map (fun child0 => match child0 with
                                          | ChildText s => TextNode [] s
                                          | ChildElement e' => node_of e'
                                          end) (child :: cs)))
            = concat (map child_text (child :: cs))) as ->.
    { induction IH as [|[e|s] l He Hl IHl]; [done| |].
      - cbn [map concat]. rewrite IHl, He. by destruct e as [? ? []].
      - cbn [map concat]. by rewrite IHl. }
    destruct a as [|kv a]; [by rewrite <- !app_assoc|]. rewrite attrs_text_cons.
    by rewrite <- !app_assoc.
Qed.

Lemma fold_attributes_written (last_gap : list ascii) (a : attrs) :
  forall acc,
    NoDup (map fst acc ++ map fst a) ->
    Forall (fun kv => plain_key (fst kv)) a ->
    fold_left (fun o s => obj_set (a_name s) (a_value s) o)
      (written_attributes last_gap a) acc
    = acc ++ map (fun kv => (fst kv, escape (snd kv))) a.
Proof.
  induction a as [|[k v] a IH]; intros acc Hnd Hpl; [by rewrite app_nil_r|].
  cbn [written_attributes fold_left a_name a_value fst snd map].
  apply Forall_cons in Hpl as [[_ Hp] Hpl]. cbn [fst] in Hp.
  rewrite obj_set_fresh; [|done|].
  - rewrite IH; [by rewrite <- app_assoc| |done].
    rewrite map_app. cbn [map fst]. by rewrite <- app_assoc.
  - apply NoDup_app in Hnd as (_ & Hd & _).
    intros Hin. apply (Hd k Hin). cbn [map fst]. apply list_elem_of_here.
Qed.

Lemma attributes_written (last_gap : list ascii) (a : attrs) :
  NoDup (map fst a) -> Forall (fun kv => plain_key (fst kv)) a ->
  attributes_of (written_attributes last_gap a)
  = map (fun kv => (fst kv, escape (snd kv))) a.
Proof. intros Hnd Hpl. unfold attributes_of. by rewrite fold_attributes_written. Qed.

Lemma printable_children (tag : list ascii) (a : attrs) (cs : list Child) :
  printable (Element tag a cs) ->
  tag <> [] /\ name_like tag /\ NoDup (map fst a)
  /\ Forall (fun kv => plain_key (fst kv)) a /\ texts_apart cs
  /\ Forall (fun child => match child with
                          | ChildText s => text_run s
                          | ChildElement e => printable e
                          end) cs.
Proof.
  cbn [printable]. intros (H0 & Ht & Hnd & Ha & Hap & Hall).
  do 5 (split; [done|]).
  clear Hap. induction cs as [|[e|s] cs IH]; constructor; simpl in *; tauto.
Qed.

Lemma escape_no_quote (v : list ascii) :
  forallb (fun ch => negb (char_eqb ch dquote)) (escape v) = true.
Proof.
  induction v as [|ch v IH]; [done|]. rewrite escape_cons, forallb_app, IH, andb_true_r.
  eapply forallb_weaken; [|apply escape_char_safe]. intros x. unfold delimiter.
  rewrite !negb_orb, !andb_true_iff. tauto.
Qed.

Lemma written_attributes_ok (last_gap : list ascii) (a : attrs) :
  all_space last_gap -> Forall (fun kv => plain_key (fst kv)) a ->
  Forall attribute_ok (written_attributes last_gap a).
Proof.
  intros Hg. induction 1 as [|[k v] a [Hk _] _ IH]; [constructor|].
  cbn [written_attributes]. constructor; [|done].
  unfold attribute_ok. cbn [a_name a_quote a_value a_gap fst snd].
  split; [done|]. split; [by left|]. split; [apply escape_no_quote|].
  by destruct a.
Qed.

(** What the node stands for is the element with its values escaped. *)
Lemma children_node_of (e : TXMLElement) :
  printable e -> children_of (node_of e) = [ChildElement (escaped e)].
Proof.
  induction e as [tag a cs IH] using TXMLElement_induction. intros Hp.
  apply printable_children in Hp as (_ & _ & Hnd & Ha & _ & Hcs).
  destruct cs as [|child cs].
  - cbn [node_of children_of escaped map]. by rewrite attributes_written.
  - set (cs' := child :: cs) in *. cbn [node_of escaped]. subst cs'.
    cbn [children_of]. rewrite attributes_written by done. do 3 f_equal.
    clear -IH Hcs. induction IH as [|[e|s] l He Hl IHl]; [done| |];
      apply Forall_cons in Hcs as [Hc Hcs]; cbn [map concat].
    + rewrite IHl, He by done. done.
    + rewrite IHl by done. done.
Qed.

Lemma node_of_leading (e : TXMLElement) : leading (node_of e) = [].
Proof. by destruct e as [? ? []]. Qed.

Lemma node_of_not_text (e : TXMLElement) : is_text_node (node_of e) = false.
Proof. by destruct e as [? ? []]. Qed.

Lemma written_children_delimited (cs : list Child) :
  texts_apart cs ->
  delimited (map (fun child => match child with
                               | ChildText s => TextNode [] s
                               | ChildElement e' => node_of e'
                               end) cs) [].
Proof.
  induction cs as [|child cs IH]; [done|]. intros Hap. cbn [map delimited]. split.
  - intros Ht. destruct cs as [|next cs]; [done|]. cbn [map].
    destruct child as [e|s]; [by rewrite node_of_not_text in Ht|].
    destruct next as [e'|s']; [|done].
    by rewrite node_of_leading, node_of_not_text.
  - apply IH. by apply texts_apart_tail in Hap.
Qed.

Lemma node_of_ok (e : TXMLElement) : printable e -> node_ok (node_of e).
Proof.
  induction e as [tag a cs IH] using TXMLElement_induction. intros Hp.
  apply printable_children in Hp as (H0 & Ht & Hnd & Ha & Hap & Hcs).
  destruct cs as [|child cs].
  - cbn [node_of node_ok leading]. split; [done|].
    unfold opening_ok. do 3 (split; [done|]).
    by apply written_attributes_ok.
  - set (cs' := child :: cs) in *. cbn [node_of]. subst cs'.
    apply node_ok_parent; [done| |done|by apply written_children_delimited|].
    { unfold opening_ok. split; [done|]. split; [by destruct a|].
      split; [by destruct a|]. by apply written_attributes_ok. }
    clear -IH Hcs. induction IH as [|[e|s] l He Hl IHl]; [constructor| |];
      apply Forall_cons in Hcs as [Hc Hcs]; cbn [map];
      (constructor; [|by apply IHl]).
    + split; [by apply He|]. by destruct e as [[|] ? []].
    + by split; [split|].
Qed.

(** X18.  What comes back when an element is written and read again.  For
    every element named [App] whose tags and attribute names are names and
    whose texts are kept texts, with attribute values of any characters,
    [parseTXML] reads the text [jsxToTXML] writes and returns the element
    with every attribute value escaped: the tags, the attribute names and
    their order, the texts and the shape of the tree are the ones written,
    and no value ends the quotes it stands in. *)
Theorem parse_of_written (e : TXMLElement) :
  printable e -> tag e = lit "App" ->
  parseTXML (jsxToTXML e) = Ok (escaped e).
Proof.
  intros Hp Htag. unfold parseTXML, parse. rewrite trim_jsxToTXML.
  pose proof (node_of_ok e Hp) as Hok.
  assert (element_of (node_of e) = Some (escaped e)) as He.
  { unfold element_of. by rewrite children_node_of. }
  destruct (jsxToTXML_ends e) as (body & Hsrc).
  rewrite skipWhitespace_none by (cbn [start_of rest]; by rewrite Hsrc).
  assert (TXML.head_is "<" (start_of (jsxToTXML e)) = true) as ->.
  { unfold TXML.head_is. cbn [start_of rest]. by rewrite Hsrc. }
  cbn [negb].
  destruct (parseElement_written (node_of e) Hok (escaped e) He
              (S (length (jsxToTXML e))) (start_of (jsxToTXML e)) [])
    as (c' & -> & Hr').
  { cbn [start_of rest]. by rewrite source_node_of, app_nil_r. }
  { unfold unread. cbn [start_of rest]. lia. }
  cbn [bind].
  assert (tag (escaped e) = lit "App") as Ht' by (by destruct e).
  destruct (decide (tag (escaped e) = lit "App")); [|done].
  rewrite skipWhitespace_none by (by rewrite Hr'). by rewrite Hr'.
Qed.
Lemma parse_of_written_witness :
  let element :=
    Element (lit "App") [(lit "title", lit "Tom & Jerry's <b>"); (lit "id", lit "1")]
      [ChildText (lit "Say ");
       ChildElement (Element (lit "Button") [(lit "label", [dquote; "O"; "K"; dquote]%char)] [])] in
  parseTXML (jsxToTXML element)
  = Ok (Element (lit "App")
          [(lit "title", lit "Tom &amp; Jerry&#39;s &lt;b&gt;"); (lit "id", lit "1")]
          [ChildText (lit "Say ");
           ChildElement (Element (lit "Button") [(lit "label", lit "&quot;OK&quot;")] [])]).
Proof.
  intros element. apply (parse_of_written element); [|reflexivity].
  assert (forall k : list ascii, NoDup [k]) as Hone.
  { intros k. constructor; [by intros ?%elem_of_nil|constructor]. }
  cbn [element printable map fst texts_apart].
  split; [done|]. split; [reflexivity|]. split.
  { constructor; [|apply Hone]. by intros [=]%list_elem_of_singleton. }
  split; [by repeat constructor|]. split; [done|]. split; [by split|]. split; [|done].
  split; [done|]. split; [reflexivity|]. split; [apply Hone|].
  split; [by repeat constructor|]. done.
Defined.

(** ** What a walk does to the retained state *)

Section WalkRetains.

Import Widgets.

Context {number host_error application : Type}.
Variable parseFloat : list ascii -> number.
Variable number_truthy : number -> bool.
Variable one_half two_hundred buffer_size : number.
Variable imgui : list (@ImGuiCall number) -> @ImGuiCall number
                 -> @ImGuiReply number host_error.

Abbreviation kept_walk := (@walk number host_error application).
Abbreviation render_kept :=
  (render parseFloat number_truthy one_half two_hundred buffer_size imgui).
Abbreviation kept := (retains (idle imgui)).

Lemma retains_refl (s : kept_walk) : kept s s.
Proof.
  split; [done|]. split; [done|]. intros _.
  split; [done|]. split; [done|]. split; [by left|done].
Qed.

Lemma retains_trans (s s' s'' : kept_walk) : kept s s' -> kept s' s'' -> kept s s''.
Proof.
  intros ((H2 & H3) & Hi & Hd) ((H2' & H3') & Hi' & Hd').
  split; [split; congruence|]. split.
  { intros Hrest. destruct (Hi Hrest) as (E1 & E2 & E3), (Hi' Hrest) as (E1' & E2' & E3').
    split; [|split]; congruence. }
  intros Hdis. destruct (Hd Hdis) as (Hh & Hm & He & Hk).
  rewrite <- Hh in Hdis. destruct (Hd' Hdis) as (Hh' & Hm' & He' & Hk').
  split; [congruence|]. split; [by auto|]. split; [|by auto].
  intros k st Hst. destruct (He' k st Hst) as [Hold|Hnew]; [by apply He|].
  right. congruence.
Qed.

(** A step that changes neither the [Map]s nor the application. *)
Lemma retains_same (s s' : kept_walk) :
  state (fst s') = state (fst s) -> eventHandlers (fst s') = eventHandlers (fst s) ->
  stylesheet (fst s') = stylesheet (fst s) -> frameNumber (fst s') = frameNumber (fst s) ->
  app (snd s') = app (snd s) -> kept s s'.
Proof.
  intros Hs Hh Hy Hf Ha. unfold retains, keyed. rewrite Hs.
  split; [done|]. split; [done|]. intros _.
  split; [done|]. split; [done|]. split; [by left|done].
Qed.

Lemma ImGui_app (call : ImGuiCall) (w w' : @World number application)
    (b : bool) (buffer : js_any) :
  ImGui imgui call w = Ok (b, buffer, w') -> app w' = app w.
Proof. unfold ImGui. destruct (imgui _ _); [|done]. by intros [= _ _ <-]. Qed.

Lemma ImGui_idle (call : ImGuiCall) (w w' : @World number application)
    (b : bool) (buffer : js_any) :
  idle imgui -> ImGui imgui call w = Ok (b, buffer, w') ->
  interactive call = true -> b = false.
Proof.
  intros Hidle H Hc. revert H. unfold ImGui. destruct (imgui _ _) as [b' buffer'|] eqn:E; [|done].
  intros [= <- _ _]. by eapply Hidle.
Qed.

Lemma simple_call_retains (call : ImGuiCall) (s s' : kept_walk) :
  simple_call imgui call s = Ok s' -> kept s s'.
Proof.
  destruct s as [context w]. unfold simple_call.
  destruct (ImGui imgui call w) as [[[b buf] w']| |] eqn:E; [|done|done].
  cbn [bind]. intros [= <-]. apply ImGui_app in E. by apply retains_same.
Qed.

Lemma setNextItemWidth_same (element : TXMLElement) (s s' : kept_walk) :
  setNextItemWidth imgui element s = Ok s' ->
  fst s' = fst s /\ app (snd s') = app (snd s).
Proof.
  destruct s as [context w]. unfold setNextItemWidth.
  destruct (style_of_type _ _ _) as [width|]; [|by intros [= <-]].
  destruct (ImGui imgui _ w) as [[[b buf] w']| |] eqn:E; [|done|done].
  cbn [bind]. intros [= <-]. apply ImGui_app in E. by split.
Qed.

Lemma renderText_retains (element : TXMLElement) (s s' : kept_walk) :
  renderText imgui element s = Ok s' -> kept s s'.
Proof.
  destruct s as [context w]. unfold renderText.
  destruct (style_of_type _ _ _) as [color|];
    (destruct (ImGui imgui _ w) as [[[b buf] w']| |] eqn:E; [|done|done]);
    cbn [bind]; intros [= <-]; apply ImGui_app in E; by apply retains_same.
Qed.

Lemma renderSameLine_retains (element : TXMLElement) (s s' : kept_walk) :
  renderSameLine parseFloat imgui element s = Ok s' -> kept s s'.
Proof.
  destruct s as [context w]. unfold renderSameLine.
  destruct (ImGui imgui _ w) as [[[b buf] w']| |] eqn:E; [|done|done].
  cbn [bind]. intros [= <-]. apply ImGui_app in E. by apply retains_same.
Qed.

(** A callback runs after a click, and does to the [Map]s what it does. *)
Lemma renderButton_retains (element : TXMLElement) (s s' : kept_walk) :
  renderButton imgui element s = Ok s' -> kept s s'.
Proof.
  unfold renderButton.
  destruct (setNextItemWidth imgui element s) as [[context w]| |] eqn:E1; [|done|done].
  apply setNextItemWidth_same in E1 as [Hc Ha]. cbn [fst snd] in Hc, Ha. subst context.
  cbn [bind].
  destruct (ImGui imgui _ w) as [[[clicked buf] w']| |] eqn:E2; [|done|done].
  pose proof (ImGui_app _ _ _ _ _ E2) as Ha'. cbn [bind].
  assert (kept s (fst s, w')) as Hstep.
  { apply retains_same; try done. cbn [snd]. congruence. }
  destruct (attribute _ _) as [onClick|]; [|by intros [= <-]].
  destruct clicked; [|by intros [= <-]].
  cbn [andb]. destruct (truthy onClick); [|by intros [= <-]].
  unfold handleEvent.
  destruct (eventHandlers (fst s) !! onClick) as [h|] eqn:Eh.
  - destruct (callback h (app w') (state (fst s))) as [[[a retained] changes]| |] eqn:Ec;
      [|done|done].
    cbn [bind]. intros [= <-]. split; [done|]. split.
    + intros Hidle. by pose proof (ImGui_idle _ _ _ _ _ Hidle E2 eq_refl).
    + intros Hdis. destruct (Hdis _ _ _ _ _ _ _ Eh Ec) as [-> ->].
      unfold keyed. cbn [fst snd fold_left set_eventHandlers set_state state eventHandlers].
      split; [done|]. split; [done|]. split; [by left|done].
  - by intros [= <-].
Qed.

(** Storing a value: the only step that changes the retained state. *)
Lemma store_retains (k : list ascii) (initial v : @js_any number)
    (context : @RenderContext number host_error application)
    (w w' : @World number application) :
  retains False (context, w) (store k (state_or_new k initial context) v context, w').
Proof.
  unfold retains, store, set_state.
  cbn [fst snd state eventHandlers stylesheet frameNumber].
  split; [done|]. split; [done|]. intros _. split; [done|]. split.
  { intros k' Hk'. destruct (decide (k = k')) as [->|Hne].
    - by rewrite lookup_insert_eq.
    - by rewrite lookup_insert_ne. }
  split.
  { intros k' st. destruct (decide (k = k')) as [->|Hne].
    - rewrite lookup_insert_eq. intros [= <-]. by right.
    - rewrite lookup_insert_ne by done. by left. }
  intros Hkeyed k' st. unfold keyed. cbn [state].
  destruct (decide (k = k')) as [->|Hne].
  - rewrite lookup_insert_eq. intros [= <-]. cbn [id]. unfold state_or_new.
    destruct (state context !! k') as [old|] eqn:E; [by apply Hkeyed|done].
  - rewrite lookup_insert_ne by done. apply Hkeyed.
Qed.

Lemma retains_changed (s s' : kept_walk) (changed : bool) :
  (idle imgui -> changed = false) -> retains False s s' -> changed = true -> kept s s'.
Proof.
  intros Hidle (H1 & _ & Hd) ->. split; [done|]. split; [|done].
  intros Hrest. by apply Hidle in Hrest.
Qed.

Lemma renderInputText_retains (element : TXMLElement) (s s' : kept_walk) :
  renderInputText number_truthy buffer_size imgui element s = Ok s' -> kept s s'.
Proof.
  unfold renderInputText.
  destruct (setNextItemWidth imgui element s) as [[context w]| |] eqn:E1; [|done|done].
  apply setNextItemWidth_same in E1 as [Hc Ha]. cbn [fst snd] in Hc, Ha. subst context.
  cbn [bind].
  destruct (ImGui imgui _ w) as [[[changed buf] w']| |] eqn:E2; [|done|done].
  pose proof (ImGui_app _ _ _ _ _ E2) as Ha'. cbn [bind].
  destruct changed eqn:Ech; intros [= <-].
  - apply (retains_changed _ _ true); [|destruct s; apply store_retains|done].
    intros Hidle. exact (ImGui_idle _ _ _ _ _ Hidle E2 eq_refl).
  - apply retains_same; try done. cbn [snd]. congruence.
Qed.

Lemma renderSliderFloat_retains (element : TXMLElement) (s s' : kept_walk) :
  renderSliderFloat parseFloat number_truthy one_half imgui element s = Ok s' -> kept s s'.
Proof.
  unfold renderSliderFloat.
  destruct (setNextItemWidth imgui element s) as [[context w]| |] eqn:E1; [|done|done].
  apply setNextItemWidth_same in E1 as [Hc Ha]. cbn [fst snd] in Hc, Ha. subst context.
  cbn [bind].
  destruct (ImGui imgui _ w) as [[[changed buf] w']| |] eqn:E2; [|done|done].
  pose proof (ImGui_app _ _ _ _ _ E2) as Ha'. cbn [bind].
  destruct changed eqn:Ech; intros [= <-].
  - apply (retains_changed _ _ true); [|destruct s; apply store_retains|done].
    intros Hidle. exact (ImGui_idle _ _ _ _ _ Hidle E2 eq_refl).
  - apply retains_same; try done. cbn [snd]. congruence.
Qed.

Lemma renderCheckbox_retains (element : TXMLElement) (s s' : kept_walk) :
  renderCheckbox number_truthy imgui element s = Ok s' -> kept s s'.
Proof.
  destruct s as [context w]. unfold renderCheckbox.
  destruct (ImGui imgui _ w) as [[[changed buf] w']| |] eqn:E2; [|done|done].
  pose proof (ImGui_app _ _ _ _ _ E2) as Ha'. cbn [bind].
  destruct changed eqn:Ech; intros [= <-].
  - apply (retains_changed _ _ true); [|apply store_retains|done].
    intros Hidle. exact (ImGui_idle _ _ _ _ _ Hidle E2 eq_refl).
  - by apply retains_same.
Qed.

Lemma children_loop_retains
    (render_fn : TXMLElement -> kept_walk -> result host_error kept_walk)
    (cs : list Child) :
  Forall (fun child =>
            match child with
            | ChildElement e => forall s s' : kept_walk, render_fn e s = Ok s' -> kept s s'
            | ChildText _ => True
            end) cs ->
  forall s s' : kept_walk, children_loop imgui render_fn cs s = Ok s' -> kept s s'.
Proof.
  induction cs as [|child cs IH]; intros Hcs s s'; cbn [children_loop].
  - intros [= <-]. apply retains_refl.
  - apply Forall_cons in Hcs as [Hc Hcs]. destruct child as [e|text].
    + destruct (render_fn e s) as [s1| |] eqn:E; [|done|done]. cbn [bind].
      intros Hl. eapply retains_trans; [by apply Hc|by apply IH].
    + destruct (truthy (trim text)); [|by apply IH].
      destruct (simple_call imgui _ s) as [s1| |] eqn:E; [|done|done]. cbn [bind].
      intros Hl. eapply retains_trans; [by eapply simple_call_retains|by apply IH].
Qed.

Lemma renderChildren_with_retains
    (render_fn : TXMLElement -> kept_walk -> result host_error kept_walk)
    (tag : list ascii) (cs : list Child) :
  Forall (fun child =>
            match child with
            | ChildElement e => forall s s' : kept_walk, render_fn e s = Ok s' -> kept s s'
            | ChildText _ => True
            end) cs ->
  forall s s' : kept_walk, renderChildren_with imgui render_fn tag cs s = Ok s' -> kept s s'.
Proof.
  intros Hcs [context w] s'. unfold renderChildren_with, copy_path, push_path.
  set (s2 := (context, MkWorld _ _ _ _)).
  destruct (children_loop imgui render_fn cs s2) as [[context3 w3]| |] eqn:E; [|done|done].
  cbn [bind]. intros [= <-].
  apply (children_loop_retains render_fn cs Hcs) in E.
  eapply retains_trans; [|eapply retains_trans; [exact E|]]; by apply retains_same.
Qed.

Lemma renderWindow_with_retains
    (renderChildren_fn : kept_walk -> result host_error kept_walk)
    (element : TXMLElement) :
  (forall s s' : kept_walk, renderChildren_fn s = Ok s' -> kept s s') ->
  forall s s' : kept_walk,
    renderWindow_with number_truthy two_hundred imgui renderChildren_fn element s = Ok s' ->
    kept s s'.
Proof.
  intros Hch [context w] s'. unfold renderWindow_with.
  set (sized := match style_of_type _ _ _ with Some _ => _ | None => _ end).
  assert (forall w1, sized = Ok w1 -> app w1 = app w) as Hsized.
  { subst sized. intros w1. destruct (style_of_type _ _ _); [|by intros [= <-]].
    destruct (ImGui imgui _ w) as [[[b buf] w']| |] eqn:E; [|done|done].
    cbn [bind]. intros [= <-]. by apply ImGui_app in E. }
  destruct sized as [w1| |]; [|done|done]. cbn [bind].
  specialize (Hsized w1 eq_refl).
  destruct (ImGui imgui _ w1) as [[[opened buf] w2]| |] eqn:E2; [|done|done].
  apply ImGui_app in E2. cbn [bind].
  assert (kept (context, w) (context, w2)) as H2.
  { apply retains_same; try done. cbn [snd]. congruence. }
  destruct opened.
  - destruct (renderChildren_fn (context, w2)) as [s3| |] eqn:E3; [|done|done].
    cbn [bind]. intros H4%simple_call_retains.
    eapply retains_trans; [exact H2|]. eapply retains_trans; [by apply Hch|done].
  - cbn [bind]. intros H4%simple_call_retains. by eapply retains_trans.
Qed.

(** X19.  What a walk does to the context.  When [render] returns, the
    stylesheet and the frame number are the ones it was called with.  When
    the binding reports no click and no change, the retained states, the
    handlers and the state of the application are those from before the
    call: callbacks run after clicks only, and only a click or a change
    touches the retained states.  When the callbacks of the handlers leave
    the two [Map]s as they are, the handlers are the ones from before the
    call, no retained state is dropped, a retained state that is new or
    changed carries the number of this frame, and when every state was
    stored under its own identity, every state still is. *)
Theorem render_retains_state (element : TXMLElement) (s s' : kept_walk) :
  render_kept element s = Ok s' ->
  (stylesheet (fst s') = stylesheet (fst s)
   /\ frameNumber (fst s') = frameNumber (fst s))
  /\ ((forall history call b buffer,
          interactive call = true -> imgui history call = Returned b buffer -> b = false) ->
      state (fst s') = state (fst s)
      /\ eventHandlers (fst s') = eventHandlers (fst s)
      /\ app (snd s') = app (snd s))
  /\ ((forall name handler a retained a' retained' changes,
          eventHandlers (fst s) !! name = Some handler ->
          callback handler a retained = Ok (a', retained', changes) ->
          retained' = retained /\ changes = []) ->
      eventHandlers (fst s') = eventHandlers (fst s)
      /\ (forall k, is_Some (state (fst s) !! k) -> is_Some (state (fst s') !! k))
      /\ (forall k st, state (fst s') !! k = Some st ->
            state (fst s) !! k = Some st \/ lastFrame st = frameNumber (fst s))
      /\ ((forall k st, state (fst s) !! k = Some st -> id st = k) ->
          forall k st, state (fst s') !! k = Some st -> id st = k)).
Proof.
  revert s s'. change (forall s s' : kept_walk, render_kept element s = Ok s' -> kept s s').
  induction element as [t a cs IH] using TXMLElement_induction.
  intros s s'. cbn [render].
  pose proof (renderChildren_with_retains render_kept t cs IH) as Hch.
  destruct (renderers_get t renderers) as [[]|].
  - by apply Hch.
  - intros [= <-]. apply retains_refl.
  - by apply Hch.
  - by apply renderWindow_with_retains.
  - by apply (renderText_retains (Element t a cs)).
  - by apply (renderButton_retains (Element t a cs)).
  - by apply (renderInputText_retains (Element t a cs)).
  - by apply (renderSliderFloat_retains (Element t a cs)).
  - by apply (renderCheckbox_retains (Element t a cs)).
  - by apply (renderSameLine_retains (Element t a cs)).
  - by apply (simple_call_retains Spacing).
  - by apply (simple_call_retains Separator).
  - intros [= <-]. by apply retains_same.
Qed.

End WalkRetains.
Lemma render_retains_state_witness :
  match Demo.render_element
          (Element (lit "Window") [(lit "title", lit "Main")]
             [ChildElement Demo.first_input;
              ChildElement (Element (lit "Button") [(lit "onClick", lit "save")]
                              [ChildText (lit "Save")])])
          (Demo.start_with_handler 1) with
  | Ok s' => retains (idle Demo.imgui) (Demo.start_with_handler 1) s'
  | _ => False
  end.
Proof.
  destruct (Demo.render_element _ (Demo.start_with_handler 1)) as [s'| |] eqn:E.
  - exact (render_retains_state (fun s => length s) (fun n => negb (Nat.eqb n 0))
             1 200 256 Demo.imgui _ (Demo.start_with_handler 1) s' E).
  - vm_compute in E. discriminate.
  - vm_compute in E. discriminate.
Defined.

(** ** The trees the markup parser returns *)

Lemma parsed_shape_children (tag : list ascii) (a : attrs) (cs : list Child) :
  name_like tag -> names_ok a -> Forall child_shape cs ->
  parsed_shape (Element tag a cs).
Proof.
  intros Ht Ha Hcs. cbn [parsed_shape]. split; [done|]. split; [done|].
  induction Hcs as [|[e|s] cs Hc _ IH]; [done| |]; by split.
Qed.

Lemma obj_set_name_like (k v : list ascii) (o : attrs) :
  name_like k -> names_ok o -> names_ok (obj_set k v o).
Proof.
  intros Hk (Hnd & Hp & Hn).
  destruct (obj_set_names k v o (conj Hnd Hp)) as [Hnd' Hp'].
  split; [done|]. split; [done|].
  apply Forall_forall. intros kv [->|Hin]%obj_set_elem; [done|].
  by apply (proj1 (Forall_forall _ _) Hn).
Qed.

Lemma parseAttributes_loop_shape (fuel : nat) : forall acc c a c',
  names_ok acc -> parseAttributes_loop fuel acc c = Ok (a, c') -> names_ok a.
Proof.
  induction fuel as [|fuel IH]; intros acc c a c' Hacc; cbn [parseAttributes_loop].
  - destruct (loop_guard_attributes c); [done|]. by intros [= <- <-].
  - destruct (loop_guard_attributes c); [|by intros [= <- <-]].
    destruct (parseAttributeName c) as [name c1] eqn:E1.
    apply scan_column_spec in E1 as (_ & Hname & _).
    destruct (consume (lit "=") c1) as [c2|]; [|done].
    destruct (parseAttributeValue c2) as [[v c3]| |]; [|done|done].
    cbn [bind]. apply IH. by apply obj_set_name_like.
Qed.

Lemma parse_shape (n : nat) :
  (forall c e c', parseElement n c = Ok (e, c') -> parsed_shape e)
  /\ (forall acc c cs c', Forall child_shape acc ->
        parseChildren_loop n acc c = Ok (cs, c') -> Forall child_shape cs).
Proof.
  induction n as [|n [IHe IHc]].
  { split; [done|]. intros acc c cs c' Hacc. cbn [parseChildren_loop].
    destruct (rest c); [|done]. by intros [= <- <-]. }
  split.
  - intros c e c'. cbn [parseElement].
    destruct (consume (lit "<") c) as [c1|]; [|done].
    destruct (parseTagName c1) as [t c2] eqn:E2.
    apply scan_column_spec in E2 as (_ & Ht & _).
    destruct (parseAttributes c2) as [[a c3]| |] eqn:E3; [|done|done].
    cbn [bind].
    assert (names_ok a) as Ha.
    { revert E3. apply parseAttributes_loop_shape.
      split; [constructor|]. split; [apply not_elem_of_nil|constructor]. }
    destruct (consume (lit "/>") c3) as [c4|].
    { intros [= <- <-]. by apply parsed_shape_children. }
    destruct (consume (lit ">") c3) as [c4|]; [|done].
    destruct (parseChildren_loop n [] c4) as [[cs c5]| |] eqn:E6; [|done|done].
    cbn [bind]. apply IHc in E6; [|constructor].
    destruct (consume (lit "</") c5) as [c6|]; [|done].
    destruct (parseTagName c6) as [t' c7].
    destruct (decide (t' = t)) as [->|]; [|done].
    destruct (consume (lit ">") c7) as [c8|]; [|done].
    intros [= <- <-]. by apply parsed_shape_children.
  - intros acc c cs c' Hacc. cbn [parseChildren_loop].
    destruct (rest c) as [|ch0 s0]; [by intros [= <- <-]|].
    destruct (skipWhitespace_spec c) as (ws & Hws & Hsp & Hstop).
    destruct (starts_with (lit "</") (rest (skipWhitespace c))); [by intros [= <- <-]|].
    destruct (TXML.head_is "<" (skipWhitespace c)) eqn:Hh.
    + destruct (starts_with (lit "<!--") (rest (skipWhitespace c))); [by apply IHc|].
      destruct (parseElement n (skipWhitespace c)) as [[e c2]| |] eqn:E; [|done|done].
      cbn [bind]. apply IHe in E. apply IHc.
      apply Forall_app. split; [done|]. by constructor.
    + destruct (parseText (skipWhitespace c)) as [text c2] eqn:E.
      unfold parseText in E. apply scan_lines_spec in E as (E & Hnl & Hend).
      destruct (truthy (trim text)) eqn:Htext; [|by apply IHc].
      apply IHc. apply Forall_app. split; [done|]. constructor; [|constructor].
      cbn [child_shape]. split; [|done].
      destruct text as [|ch text]; [done|]. rewrite E in Hstop. exact Hstop.
Qed.

(** X20.  The trees the markup parser returns.  Whatever text it is given,
    when [parseTXML] returns, the root is named [App] and, at every element
    of the tree: the tag is made of name characters; the attribute names
    are made of name characters, pairwise distinct, and none is
    [__proto__]; every text child starts with a character that is no
    whitespace and holds no [<]. *)
Theorem parsed_tree_shape (xml : list ascii) (root : TXMLElement) :
  parseTXML xml = Ok root -> tag root = lit "App" /\ parsed_shape root.
Proof.
  unfold parseTXML, parse.
  destruct (negb (TXML.head_is "<" (skipWhitespace (start_of (trim xml))))); [done|].
  destruct (parseElement _ _) as [[e c1]| |] eqn:E; [|done|done]. cbn [bind].
  destruct (decide (tag e = lit "App")) as [Htag|]; [|done].
  destruct (truthy (rest (skipWhitespace c1))); [done|]. intros [= <-].
  split; [done|]. by apply (proj1 (parse_shape _)) in E.
Qed.

Lemma parsed_tree_shape_witness :
  let root :=
    Element (lit "App") []
      [ChildElement
         (Element (lit "Window") [(lit "id", lit "2"); (lit "title", lit "Main")]
            [ChildText (lit "Hi ")])] in
  tag root = lit "App" /\ parsed_shape root.
Proof.
  intros root.
  apply (parsed_tree_shape
           (lit "<App> <Window id='1' title='Main' id='2'> Hi </Window></App>")).
  vm_compute. reflexivity.
Defined.
